(** * angular-three: event manager, capture bookkeeping and ray registration

    A shallow embedding of
    - [libs/core-new/src/lib/events.ts] (raycast ordering, bubbling,
      dispatch, hover tracking, pointer capture, missed clicks),
    - [makeId] of [libs/core-new/src/lib/utils/make.ts],
    - the [compute] closure installed by [NgtCanvas.noZoneRender]
      ([libs/core-new/src/lib/canvas.ts]),
    - [injectRay] of the cannon bridge,
    together with the properties the specification states about them.

    Conventions.  JavaScript reference identity of scene objects is the
    field [oid]; [===] on objects is [same].  A JS [Map] is an association
    list kept in insertion order with at most one entry per key ([Map.set]
    on a present key overwrites in place, on a new key appends).  Numbers
    that are only compared (distances, priorities) are integers; pixel
    offsets are rationals and their arithmetic is exact.  User handlers are
    scripts over the event API ([stopPropagation], [setPointerCapture],
    [releasePointerCapture]) of the event they are given, whether
    [handleIntersects] or [cancelPointer] hands it to them; the handlers
    [pointerMissed] calls get the native event and are observed only.
    Every handler invocation, every call on the platform element and every
    emission of [pointerMissed$] is recorded, in order, in an effect log. *)

From Stdlib Require Import ZArith QArith Qround List Bool Lia Lqa DecimalString Sorted
  Permutation.
From stdpp Require Import base list gmap strings.

Set Warnings "-register-all".
Open Scope Z_scope.

(* ================================================================== *)
(** ** Data model *)
(* ================================================================== *)

(** Keys of [NgtEventHandlers], plus the native [lostpointercapture] name
    that [handlePointer] also receives. *)
Inductive EventName :=
  | click | contextmenu | dblclick | pointerup | pointerdown
  | pointerover | pointerout | pointerenter | pointerleave | pointermove
  | pointermissed | pointercancel | wheel | lostpointercapture.

Definition EventName_eqb (a b : EventName) : bool :=
  match a, b with
  | click, click | contextmenu, contextmenu | dblclick, dblclick
  | pointerup, pointerup | pointerdown, pointerdown
  | pointerover, pointerover | pointerout, pointerout
  | pointerenter, pointerenter | pointerleave, pointerleave
  | pointermove, pointermove | pointermissed, pointermissed
  | pointercancel, pointercancel | wheel, wheel
  | lostpointercapture, lostpointercapture => true
  | _, _ => false
  end.

(** What a handler may do with the event it receives: the three calls the
    synthesized event offers ([stopPropagation], and [setPointerCapture] /
    [releasePointerCapture] on its [target]). *)
Inductive Action :=
  | StopPropagation
  | SetPointerCapture (id : Z)
  | ReleasePointerCapture (id : Z).

(** The fields of a store snapshot ([NgtState]) that events.ts reads.
    [internal] names the [internal] object the snapshot points to (a portal
    store may point to the same object as its root); [raycaster_camera]
    tells whether, after the reset at the start of [intersect] and the
    layer's [compute], the layer's raycaster has a camera. *)
Record NgtState := {
  internal : nat;
  events_enabled : bool;
  events_priority : Z;
  raycaster_camera : bool
}.

(** The local state [getLocalState(obj)] returns. *)
Record NgtLocalState := {
  store : NgtState;
  handlers : EventName -> option (list Action);
  eventCount : nat
}.

(** A scene node: identity, uuid, attached local state, parent. *)
Inductive Object3D : Type := mkObject3D {
  oid : nat;
  uuid : string;
  getLocalState : option NgtLocalState;
  parent : option Object3D
}.

(** [a === b] on objects. *)
Definition same (a b : Object3D) : bool := Nat.eqb (oid a) (oid b).

(** [arr.includes(o)] on an array of objects. *)
Definition includes (arr : list Object3D) (o : Object3D) : bool :=
  existsb (same o) arr.

(** three.js [Intersection]: the hit object, the distance along the ray
    (only its order is used; [Z] stands for the ordered numbers), and the
    optional [index] and [instanceId]. *)
Record Intersection := {
  object : Object3D;
  distance : Z;
  index : option Z;
  instanceId : option Z
}.

(** [NgtIntersection]: [{ ...hit, eventObject }]. *)
Record NgtIntersection := {
  hit : Intersection;
  eventObject : Object3D
}.

(** The native event, as far as events.ts looks at it: ['pointerId' in
    event] is [pointerId <> None]; [target] names the platform element; the
    offsets are numbers, fractional on pointer events. *)
Record NgtDomEvent := {
  pointerId : option Z;
  offsetX : Q;
  offsetY : Q;
  target : nat
}.

(* ================================================================== *)
(** ** makeId (utils/make.ts) *)
(* ================================================================== *)

(** String conversion of [number | undefined] under [+]. *)
Definition js_string (n : option Z) : string :=
  match n with
  | Some z => NilZero.string_of_int (Z.to_int z)
  | None => "undefined"%string
  end.

(** [o.uuid + '/' + event.index + event.instanceId] *)
Definition makeIdOf (o : Object3D) (i : Intersection) : string :=
  (((uuid o ++ "/") ++ js_string (index i)) ++ js_string (instanceId i))%string.

(** [makeId(item)] on a raw hit: [eventObject] is undefined, so
    [event.eventObject || event.object] is [event.object]. *)
Definition makeId_hit (i : Intersection) : string := makeIdOf (object i) i.

(** [makeId(event)] on an [NgtIntersection]. *)
Definition makeId (h : NgtIntersection) : string :=
  makeIdOf (eventObject h) (hit h).

(** The deduplication key of the specification. *)
Definition dedupKey (i : Intersection) : string * option Z * option Z :=
  (uuid (object i), index i, instanceId i).

(** [Set.has] *)
Definition has (s : list string) (x : string) : bool :=
  existsb (String.eqb x) s.

(* ================================================================== *)
(** ** Array.prototype.sort *)
(* ================================================================== *)

(** A stable sort driven by the sign of the comparator.  For a consistent
    comparator every stable sort yields this list, and so does the engine.
    [compareHits] is consistent on hits whose objects all have a local
    state, and on any two hits; on other lists the order the engine returns
    is its own, and what is proved of the hits kept from a sorted list is
    proved for every order of it. *)
Section ArraySort.
Context {A : Type} (cmp : A -> A -> Z).

Fixpoint sort_insert (x : A) (l : list A) : list A :=
  match l with
  | [] => [x]
  | y :: l' => if cmp x y <=? 0 then x :: l else y :: sort_insert x l'
  end.

Fixpoint Array_sort (l : list A) : list A :=
  match l with
  | [] => []
  | x :: l' => sort_insert x (Array_sort l')
  end.
End ArraySort.

(* ================================================================== *)
(** ** intersect: collecting the hits *)
(* ================================================================== *)

(** The sort callback of [intersect]. *)
Definition compareHits (a b : Intersection) : Z :=
  match getLocalState (object a), getLocalState (object b) with
  | Some aState, Some bState =>
      let d := events_priority (store bState) - events_priority (store aState) in
      if d =? 0 then distance a - distance b else d
  | _, _ => distance a - distance b
  end.

(** The [.filter] callback of [intersect], threading the [duplicates] set. *)
Fixpoint filterDuplicates (duplicates : list string) (items : list Intersection)
  : list Intersection * list string :=
  match items with
  | [] => ([], duplicates)
  | item :: rest =>
      let id := makeId_hit item in
      if has duplicates id then filterDuplicates duplicates rest
      else let '(kept, d) := filterDuplicates (id :: duplicates) rest in
           (item :: kept, d)
  end.

Section Raycast.
(** [state.raycaster.intersectObject(obj, true)] for the given event. *)
Variable intersectObject : NgtDomEvent -> Object3D -> list Intersection.

Definition handleRaycast (event : NgtDomEvent) (obj : Object3D) : list Intersection :=
  match getLocalState obj with
  | None => []
  | Some ls =>
      let state := store ls in
      if negb (events_enabled state) then []
      else if raycaster_camera state then intersectObject event obj else []
  end.

Definition rawHits (event : NgtDomEvent) (eventsObjects : list Object3D) :=
  flat_map (handleRaycast event) eventsObjects.

Definition sortedHits (event : NgtDomEvent) (eventsObjects : list Object3D) :=
  Array_sort compareHits (rawHits event eventsObjects).

(** [hits] and [duplicates] after the flatMap/sort/filter chain. *)
Definition collectHits (event : NgtDomEvent) (eventsObjects : list Object3D) :=
  filterDuplicates [] (sortedHits event eventsObjects).
End Raycast.

(** The event layer a node belongs to: the store of the nearest node on
    its parent chain, the node included, that has a local state. *)
Fixpoint eventLayer (o : Object3D) : option NgtState :=
  match getLocalState o with
  | Some ls => Some (store ls)
  | None => match parent o with
            | Some p => eventLayer p
            | None => None
            end
  end.

(** The order the specification names: event-layer priority descending,
    then distance ascending.  A hit outside every event layer is left
    unconstrained. *)
Definition hitPriority (i : Intersection) : option Z :=
  match eventLayer (object i) with
  | Some layer => Some (events_priority layer)
  | None => None
  end.

(** [getLocalState(h.object)] is defined. *)
Definition hasLocalState (h : Intersection) : Prop :=
  is_Some (getLocalState (object h)).

Definition hit_order (a b : Intersection) : Prop :=
  match hitPriority a, hitPriority b with
  | Some pa, Some pb => pb < pa \/ (pa = pb /\ distance a <= distance b)
  | _, _ => True
  end.

(* ================================================================== *)
(** ** JS Map as an insertion-ordered association list *)
(* ================================================================== *)

Section JsMap.
Context {K V : Type} (eqb : K -> K -> bool).

Fixpoint Map_get (k : K) (m : list (K * V)) : option V :=
  match m with
  | [] => None
  | (k', v) :: m' => if eqb k k' then Some v else Map_get k m'
  end.

Definition Map_has (k : K) (m : list (K * V)) : bool :=
  match Map_get k m with Some _ => true | None => false end.

(** [Map.set]: a present key keeps its position, a new key goes last. *)
Fixpoint Map_set (k : K) (v : V) (m : list (K * V)) : list (K * V) :=
  match m with
  | [] => [(k, v)]
  | (k', v') :: m' => if eqb k k' then (k, v) :: m' else (k', v') :: Map_set k v m'
  end.

Definition Map_delete (k : K) (m : list (K * V)) : list (K * V) :=
  List.filter (fun kv => negb (eqb k (fst kv))) m.

Definition Map_values (m : list (K * V)) : list V := List.map snd m.
Definition Map_keys (m : list (K * V)) : list K := List.map fst m.
End JsMap.

(* ================================================================== *)
(** ** The store's internal state and the world *)
(* ================================================================== *)

(** [NgtPointerCaptureTarget] *)
Record NgtPointerCaptureTarget := {
  intersection : NgtIntersection;
  capture_target : nat
}.

(** The synthesized [raycastEvent].  [ev_id] is the identity of the event
    object: the object booked in [hovered] is the one whose [stopped] a
    later [stopPropagation] sets.  The closures of the event
    ([stopPropagation], [target.setPointerCapture], ...) close over the
    [localState] object of the dispatch pass that made the event, named by
    [ev_localState], over the hit, the native event and the intersections
    of that pass, and [ev_index] is [intersections.indexOf(hit)]. *)
Record NgtThreeEvent := {
  ev_id : nat;
  ev_localState : nat;
  ev_index : nat;
  ev_hit : NgtIntersection;
  intersections : list NgtIntersection;
  stopped : bool;
  delta : Z;
  nativeEvent : NgtDomEvent
}.

Abbreviation CapturedMap := (list (Z * list (Object3D * NgtPointerCaptureTarget))).
Abbreviation HoveredMap := (list (string * NgtThreeEvent)).

Record NgtInternal := {
  interaction : list Object3D;
  initialHits : list Object3D;
  initialClick : Q * Q;
  hovered : HoveredMap;
  capturedMap : CapturedMap;
  lastEvent : option NgtDomEvent
}.

(** Everything the outside can observe, in the order it happens. *)
Inductive Effect :=
  | Call (name : EventName) (data : NgtThreeEvent)
  | CallMissed (obj : Object3D) (event : NgtDomEvent)
  | PointerMissedNext (event : NgtDomEvent)
  | ElementSetPointerCapture (element : nat) (id : Z)
  | ElementReleasePointerCapture (element : nat) (id : Z).

(** The [internal] objects by name, the effect log, the callbacks handed
    to [requestAnimationFrame] and not yet run (each releases the capture
    of one pointer id), and the next fresh event identity. *)
Record World := {
  internals : nat -> NgtInternal;
  effects : list Effect;
  frameCallbacks : list Z;
  nextEvent : nat
}.

Definition with_interaction (x : list Object3D) (i : NgtInternal) : NgtInternal :=
  {| interaction := x; initialHits := initialHits i; initialClick := initialClick i;
     hovered := hovered i; capturedMap := capturedMap i; lastEvent := lastEvent i |}.

Definition with_initialHits (x : list Object3D) (i : NgtInternal) : NgtInternal :=
  {| interaction := interaction i; initialHits := x; initialClick := initialClick i;
     hovered := hovered i; capturedMap := capturedMap i; lastEvent := lastEvent i |}.

Definition with_initialClick (x : Q * Q) (i : NgtInternal) : NgtInternal :=
  {| interaction := interaction i; initialHits := initialHits i; initialClick := x;
     hovered := hovered i; capturedMap := capturedMap i; lastEvent := lastEvent i |}.

Definition with_hovered (x : HoveredMap) (i : NgtInternal) : NgtInternal :=
  {| interaction := interaction i; initialHits := initialHits i; initialClick := initialClick i;
     hovered := x; capturedMap := capturedMap i; lastEvent := lastEvent i |}.

Definition with_capturedMap (x : CapturedMap) (i : NgtInternal) : NgtInternal :=
  {| interaction := interaction i; initialHits := initialHits i; initialClick := initialClick i;
     hovered := hovered i; capturedMap := x; lastEvent := lastEvent i |}.

Definition with_lastEvent (x : option NgtDomEvent) (i : NgtInternal) : NgtInternal :=
  {| interaction := interaction i; initialHits := initialHits i; initialClick := initialClick i;
     hovered := hovered i; capturedMap := capturedMap i; lastEvent := x |}.

(** Mutation of the [internal] object named [n]. *)
Definition update_internal (n : nat) (f : NgtInternal -> NgtInternal) (w : World) : World :=
  {| internals := fun m => if Nat.eqb m n then f (internals w m) else internals w m;
     effects := effects w; frameCallbacks := frameCallbacks w; nextEvent := nextEvent w |}.

Definition emit (es : list Effect) (w : World) : World :=
  {| internals := internals w; effects := effects w ++ es;
     frameCallbacks := frameCallbacks w; nextEvent := nextEvent w |}.

Definition requestAnimationFrame (id : Z) (w : World) : World :=
  {| internals := internals w; effects := effects w;
     frameCallbacks := frameCallbacks w ++ [id]; nextEvent := nextEvent w |}.

Definition fresh_event (w : World) : World :=
  {| internals := internals w; effects := effects w;
     frameCallbacks := frameCallbacks w; nextEvent := S (nextEvent w) |}.

(* ================================================================== *)
(** ** Pointer capture bookkeeping *)
(* ================================================================== *)

(** [releaseInternalPointerCapture(capturedMap, obj, captures, pointerId)].
    [captures] is the inner map stored under [pointerId]; deleting from it
    changes it in place inside [capturedMap].  Returns the map and the
    calls made on the platform element. *)
Definition releaseInternalPointerCapture (capturedMap : CapturedMap) (obj : Object3D)
    (captures : list (Object3D * NgtPointerCaptureTarget)) (pointerId : Z)
  : CapturedMap * list Effect :=
  match Map_get same obj captures with
  | Some captureData =>
      let captures' := Map_delete same obj captures in
      if Nat.eqb (length captures') 0
      then (Map_delete Z.eqb pointerId capturedMap,
            [ElementReleasePointerCapture (capture_target captureData) pointerId])
      else (Map_set Z.eqb pointerId captures' capturedMap, [])
  | None => (capturedMap, [])
  end.

(** The [setPointerCapture] closure of a synthesized event. *)
Definition setPointerCapture (hit : NgtIntersection) (event : NgtDomEvent) (id : Z)
    (capturedMap : CapturedMap) : CapturedMap * list Effect :=
  let captureData := {| intersection := hit; capture_target := target event |} in
  (match Map_get Z.eqb id capturedMap with
   | Some captures =>
       Map_set Z.eqb id (Map_set same (eventObject hit) captureData captures) capturedMap
   | None => Map_set Z.eqb id [(eventObject hit, captureData)] capturedMap
   end,
   [ElementSetPointerCapture (target event) id]).

(** The [releasePointerCapture] closure of a synthesized event. *)
Definition releasePointerCapture (hit : NgtIntersection) (id : Z)
    (capturedMap : CapturedMap) : CapturedMap * list Effect :=
  match Map_get Z.eqb id capturedMap with
  | Some captures => releaseInternalPointerCapture capturedMap (eventObject hit) captures id
  | None => (capturedMap, [])
  end.

(** The [hasPointerCapture] closure. *)
Definition hasPointerCapture (hit : NgtIntersection) (id : Z) (capturedMap : CapturedMap) : bool :=
  match Map_get Z.eqb id capturedMap with
  | Some captures => Map_has same (eventObject hit) captures
  | None => false
  end.

(** [capturedMap.forEach((captures, pointerId) => release(..., object, ...))]:
    the entries are visited in order, an entry deleted before its turn is
    skipped. *)
Fixpoint releaseAll (obj : Object3D) (todo : list Z) (capturedMap : CapturedMap)
  : CapturedMap * list Effect :=
  match todo with
  | [] => (capturedMap, [])
  | pointerId :: rest =>
      match Map_get Z.eqb pointerId capturedMap with
      | Some captures =>
          let '(cm, es) := releaseInternalPointerCapture capturedMap obj captures pointerId in
          let '(cm', es') := releaseAll obj rest cm in
          (cm', es ++ es')
      | None => releaseAll obj rest capturedMap
      end
  end.

(** [hovered.forEach((value, key) => { if (...) hovered.delete(key) })] *)
Fixpoint removeHovered (obj : Object3D) (todo : HoveredMap) (hovered : HoveredMap) : HoveredMap :=
  match todo with
  | [] => hovered
  | (key, value) :: rest =>
      if Map_has String.eqb key hovered
      then if same (eventObject (ev_hit value)) obj || same (object (hit (ev_hit value))) obj
           then removeHovered obj rest (Map_delete String.eqb key hovered)
           else removeHovered obj rest hovered
      else removeHovered obj rest hovered
  end.

(** [removeInteractivity(store, object)]; [store] is given by its snapshot. *)
Definition removeInteractivity (store : NgtState) (obj : Object3D) (w : World) : World :=
  let n := internal store in
  let w1 := update_internal n (fun i =>
              with_interaction (List.filter (fun o => negb (same o obj)) (interaction i)) i) w in
  let w2 := update_internal n (fun i =>
              with_initialHits (List.filter (fun o => negb (same o obj)) (initialHits i)) i) w1 in
  let w3 := update_internal n (fun i =>
              with_hovered (removeHovered obj (hovered i) (hovered i)) i) w2 in
  let cm := capturedMap (internals w3 n) in
  let '(cm', es) := releaseAll obj (Map_keys cm) cm in
  emit es (update_internal n (with_capturedMap cm') w3).

(* ================================================================== *)
(** ** createEvents(store) *)
(* ================================================================== *)

(** [a === b] on [number | undefined]. *)
Definition strictEq (a b : option Z) : bool :=
  match a, b with
  | Some x, Some y => Z.eqb x y
  | None, None => true
  | _, _ => false
  end.

(** The callback of [intersections.find] in [cancelPointer]. *)
Definition hitMatches (hoveredObj : NgtThreeEvent) (h : NgtIntersection) : bool :=
  same (object (hit h)) (object (hit (ev_hit hoveredObj)))
  && strictEq (index (hit h)) (index (hit (ev_hit hoveredObj)))
  && strictEq (instanceId (hit h)) (instanceId (hit (ev_hit hoveredObj))).

(** [{ ...hoveredObj, intersections }] *)
Definition with_intersections (l : list NgtIntersection) (e : NgtThreeEvent) : NgtThreeEvent :=
  {| ev_id := ev_id e; ev_localState := ev_localState e; ev_index := ev_index e;
     ev_hit := ev_hit e; intersections := l;
     stopped := stopped e; delta := delta e; nativeEvent := nativeEvent e |}.

Definition with_stopped (b : bool) (e : NgtThreeEvent) : NgtThreeEvent :=
  {| ev_id := ev_id e; ev_localState := ev_localState e; ev_index := ev_index e;
     ev_hit := ev_hit e; intersections := intersections e;
     stopped := b; delta := delta e; nativeEvent := nativeEvent e |}.

(** [pointerMissed(event, objects)] *)
Definition pointerMissed (event : NgtDomEvent) (objects : list Object3D) : list Effect :=
  flat_map (fun obj =>
    match getLocalState obj with
    | Some instance =>
        match handlers instance pointermissed with
        | Some _ => [CallMissed obj event]
        | None => []
        end
    | None => []
    end) objects.

(** [filterPointerEvents(objects)] *)
Definition filterPointerEvents (objects : list Object3D) : list Object3D :=
  List.filter (fun obj =>
    existsb (fun name =>
      match getLocalState obj with
      | Some ls => match handlers ls name with Some _ => true | None => false end
      | None => false
      end) [pointermove; pointerover; pointerenter; pointerout; pointerleave]) objects.

(** The bubbling loop of [intersect] for one hit, started at [eventObject]. *)
Fixpoint bubbleFrom (h : Intersection) (eventObject : Object3D) : list NgtIntersection :=
  let rest := match parent eventObject with
              | Some p => bubbleFrom h p
              | None => []
              end in
  match getLocalState eventObject with
  | Some ls => if Nat.eqb (eventCount ls) 0 then rest
               else {| hit := h; eventObject := eventObject |} :: rest
  | None => rest
  end.

Definition bubble (h : Intersection) : list NgtIntersection := bubbleFrom h (object h).

(** The state a dispatch callback works on: the world, the flag
    [localState.stopped] of the pass and the event object it was given. *)
Record Dispatch := {
  world : World;
  localState_stopped : bool;
  raycastEvent : NgtThreeEvent
}.

Section CreateEvents.
(** [store.snapshot] of the store given to [createEvents]. *)
Variable rootState : NgtState.
Variable intersectObject : NgtDomEvent -> Object3D -> list Intersection.
(** [state.events.filter] of the root store. *)
Variable events_filter : option (list Intersection -> list Intersection).

Definition root : nat := internal rootState.

(** [getLocalState(hit.object)?.store.snapshot || rootState] *)
Definition stateOf (h : NgtIntersection) : NgtState :=
  match getLocalState (object (hit h)) with
  | Some ls => store ls
  | None => rootState
  end.

(** [calculateDistance(event)].  The offsets are rationals and the
    arithmetic on them is exact: the rounding of the floating-point
    operations is not modelled.  For [n >= 0], [Math.round(Math.sqrt(n))]
    is the floor of [sqrt n + 1/2], that is [(floor (sqrt (4 n)) + 1) / 2]
    in whole numbers, and [floor (sqrt (4 n))] is the integer square root
    of [floor (4 n)]. *)
Definition calculateDistance (event : NgtDomEvent) (w : World) : Z :=
  let i := internals w root in
  let dx := (offsetX event - fst (initialClick i))%Q in
  let dy := (offsetY event - snd (initialClick i))%Q in
  (Z.sqrt (Qfloor (4 * (dx * dx + dy * dy))%Q) + 1) / 2.

(** [intersect(event, filter)] *)
Definition intersect (event : NgtDomEvent) (filter : option (list Object3D -> list Object3D))
    (w : World) : list NgtIntersection :=
  let i := internals w root in
  let eventsObjects := match filter with
                       | Some f => f (interaction i)
                       | None => interaction i
                       end in
  let '(hits, duplicates) := collectHits intersectObject event eventsObjects in
  let hits := match events_filter with Some f => f hits | None => hits end in
  let bubbled := flat_map bubble hits in
  let captured :=
    match pointerId event with
    | Some id =>
        match Map_get Z.eqb id (capturedMap i) with
        | Some captures =>
            List.filter (fun c => negb (has duplicates (makeId c)))
                        (List.map intersection (Map_values captures))
        | None => []
        end
    | None => []
    end in
  bubbled ++ captured.

(** [raycastEvent.stopped = true] reaches the event object wherever it is
    booked. *)
Definition mark_stopped (id : nat) (m : HoveredMap) : HoveredMap :=
  List.map (fun kv => if Nat.eqb (ev_id (snd kv)) id
                      then (fst kv, with_stopped true (snd kv)) else kv) m.

Definition on_world (f : World -> World) (d : Dispatch) : Dispatch :=
  {| world := f (world d); localState_stopped := localState_stopped d;
     raycastEvent := raycastEvent d |}.

(** [intersections.slice(0, intersections.indexOf(hit))] as the
    [stopPropagation] of a stored event computes it. *)
Definition higherOf (e : NgtThreeEvent) : list NgtIntersection :=
  firstn (ev_index e) (intersections e).

(** The condition of [cancelPointer] on a hovered entry. *)
Definition unhovered (ints : list NgtIntersection) (hoveredObj : NgtThreeEvent) : bool :=
  Nat.eqb (length ints) 0 || negb (existsb (hitMatches hoveredObj) ints).

(** The closures of an event and the loop of [cancelPointer] call each
    other: a handler that [cancelPointer] calls may call [stopPropagation]
    on the event it is given, which calls [cancelPointer].  They are
    written here over the [cancelPointer] they call. *)
Section Closures.
Variable cancel : list NgtIntersection -> Dispatch -> Dispatch.

(** The hijacked [stopPropagation] of the event object [e], called while
    the dispatch state is [d]; [event] is the native event and [higher] the
    intersections before the hit of the pass that made [e].  Setting
    [raycastEvent.stopped] and [localState.stopped] reaches the event and
    the pass in hand when [e] and its pass are these. *)
Definition stopPropagationOf (e : NgtThreeEvent) (event : NgtDomEvent)
    (higher : list NgtIntersection) (d : Dispatch) : Dispatch :=
  let h := ev_hit e in
  let n := internal (stateOf h) in
  let capturesForPointer :=
    match pointerId event with
    | Some id => Map_get Z.eqb id (capturedMap (internals (world d) n))
    | None => None
    end in
  if match capturesForPointer with
     | None => true
     | Some captures => Map_has same (eventObject h) captures
     end
  then
    let w1 := update_internal root (fun i =>
                with_hovered (mark_stopped (ev_id e) (hovered i)) i) (world d) in
    let d1 := {| world := w1;
                 localState_stopped :=
                   if Nat.eqb (ev_localState e) (ev_localState (raycastEvent d))
                   then true else localState_stopped d;
                 raycastEvent :=
                   if Nat.eqb (ev_id e) (ev_id (raycastEvent d))
                   then with_stopped true (raycastEvent d) else raycastEvent d |} in
    let hov := hovered (internals w1 n) in
    if negb (Nat.eqb (length hov) 0)
       && existsb (fun i => same (eventObject (ev_hit i)) (eventObject h)) (Map_values hov)
    then cancel (higher ++ [h]) d1
    else d1
  else d.

(** One call a handler makes on the event it was given, an event with the
    closures of [e]. *)
Definition runActionOf (e : NgtThreeEvent) (event : NgtDomEvent)
    (higher : list NgtIntersection) (a : Action) (d : Dispatch) : Dispatch :=
  let h := ev_hit e in
  let n := internal (stateOf h) in
  match a with
  | StopPropagation => stopPropagationOf e event higher d
  | SetPointerCapture id =>
      let '(cm, es) := setPointerCapture h event id (capturedMap (internals (world d) n)) in
      {| world := emit es (update_internal n (with_capturedMap cm) (world d));
         localState_stopped := localState_stopped d; raycastEvent := raycastEvent d |}
  | ReleasePointerCapture id =>
      let '(cm, es) := releasePointerCapture h id (capturedMap (internals (world d) n)) in
      {| world := emit es (update_internal n (with_capturedMap cm) (world d));
         localState_stopped := localState_stopped d; raycastEvent := raycastEvent d |}
  end.

(** [handlers.name?.(data)]: the handler is called with [data], an event
    with the closures of [e], and acts on it. *)
Definition invoke (e : NgtThreeEvent) (event : NgtDomEvent) (higher : list NgtIntersection)
    (name : EventName) (h : EventName -> option (list Action)) (data : NgtThreeEvent)
    (d : Dispatch) : Dispatch :=
  match h name with
  | Some script =>
      fold_left (fun d a => runActionOf e event higher a d) script
                (on_world (emit [Call name data]) d)
  | None => d
  end.

(** One turn of the loop of [cancelPointer]: [data], the copy
    [{ ...hoveredObj, intersections }], keeps the closures of [hoveredObj]. *)
Definition cancelOne (ints : list NgtIntersection) (hoveredObj : NgtThreeEvent)
    (d : Dispatch) : Dispatch :=
  if unhovered ints hoveredObj
  then
    let instance := getLocalState (eventObject (ev_hit hoveredObj)) in
    let d1 := on_world (update_internal root (fun i =>
                with_hovered (Map_delete String.eqb (makeId (ev_hit hoveredObj)) (hovered i)) i))
                d in
    match instance with
    | Some inst =>
        if Nat.eqb (eventCount inst) 0 then d1
        else
          let data := with_intersections ints hoveredObj in
          let d2 := invoke hoveredObj (nativeEvent hoveredObj) (higherOf hoveredObj)
                      pointerout (handlers inst) data d1 in
          invoke hoveredObj (nativeEvent hoveredObj) (higherOf hoveredObj)
            pointerleave (handlers inst) data d2
    | None => d1
    end
  else d.

(** [for (const hoveredObj of internal.hovered.values())]: the iterator
    of the Map is live; [todo] are the keys not yet visited, in order, and an
    entry deleted before its turn is skipped. *)
Fixpoint cancelLoop (ints : list NgtIntersection) (todo : list string) (d : Dispatch)
  : Dispatch :=
  match todo with
  | [] => d
  | key :: rest =>
      match Map_get String.eqb key (hovered (internals (world d) root)) with
      | Some hoveredObj => cancelLoop ints rest (cancelOne ints hoveredObj d)
      | None => cancelLoop ints rest d
      end
  end.
End Closures.

(** [cancelPointer(intersections)] with its calls to itself unrolled
    [fuel] deep.  An entry leaves [hovered] before its handlers are called
    and none is added on the way, so in a map whose entries are booked under
    their own id, as [onIntersect] books them, the calls nest no deeper than
    the size of [hovered]: every deeper unrolling gives the same result, the
    function the source defines ([cancelPointerD_unfold] below). *)
Fixpoint cancelPointerF (fuel : nat) (ints : list NgtIntersection) (d : Dispatch) : Dispatch :=
  match fuel with
  | O => d
  | S fuel' =>
      cancelLoop (cancelPointerF fuel') ints
        (Map_keys (hovered (internals (world d) root))) d
  end.

(** [cancelPointer(intersections)] called from a closure. *)
Definition cancelPointerD (ints : list NgtIntersection) (d : Dispatch) : Dispatch :=
  cancelPointerF (S (length (hovered (internals (world d) root)))) ints d.

(** The state of the handlers while no dispatch pass runs: the event and
    the [localState] in hand are ones that do not exist yet. *)
Definition idle (w : World) : Dispatch :=
  let nowhere := mkObject3D 0 EmptyString None None in
  {| world := w; localState_stopped := false;
     raycastEvent :=
       {| ev_id := nextEvent w; ev_localState := nextEvent w; ev_index := 0;
          ev_hit := {| hit := {| object := nowhere; distance := 0;
                                 index := None; instanceId := None |};
                       eventObject := nowhere |};
          intersections := []; stopped := false; delta := 0;
          nativeEvent := {| pointerId := None; offsetX := 0%Q; offsetY := 0%Q;
                            target := 0 |} |} |}.

(** [cancelPointer(intersections)] called by [handlePointer]. *)
Definition cancelPointer (ints : list NgtIntersection) (w : World) : World :=
  world (cancelPointerD ints (idle w)).

(** The [stopPropagation] of the event in hand; [higher] is
    [intersections.slice(0, intersections.indexOf(hit))]. *)
Definition stopPropagation (event : NgtDomEvent) (higher : list NgtIntersection)
    (d : Dispatch) : Dispatch :=
  stopPropagationOf cancelPointerD (raycastEvent d) event higher d.

(** One call a handler makes on the event in hand. *)
Definition runAction (event : NgtDomEvent) (higher : list NgtIntersection)
    (a : Action) (d : Dispatch) : Dispatch :=
  runActionOf cancelPointerD (raycastEvent d) event higher a d.

(** [handlers.name?.(data)] on the event in hand. *)
Definition callHandler (event : NgtDomEvent) (higher : list NgtIntersection)
    (name : EventName) (h : EventName -> option (list Action)) (d : Dispatch) : Dispatch :=
  match h name with
  | Some script =>
      fold_left (fun d a => runAction event higher a d) script
                (on_world (emit [Call name (raycastEvent d)]) d)
  | None => d
  end.

Definition isClickEvent (name : EventName) : bool :=
  match name with click | contextmenu | dblclick => true | _ => false end.

Definition isPointerMove (name : EventName) : bool :=
  match name with pointermove => true | _ => false end.

Definition defined {T : Type} (o : option T) : bool :=
  match o with Some _ => true | None => false end.

(** [internal.interaction.filter((object) => !internal.initialHits.includes(object))] *)
Definition notInitiallyHit (i : NgtInternal) : list Object3D :=
  List.filter (fun o => negb (includes (initialHits i) o)) (interaction i).

(** [onIntersect(data)] inside [handleEvent]. *)
Definition onIntersect (name : EventName) (event : NgtDomEvent)
    (higher : list NgtIntersection) (d : Dispatch) : Dispatch :=
  let eventObject := eventObject (ev_hit (raycastEvent d)) in
  match getLocalState eventObject with
  | None => d
  | Some instance =>
      if Nat.eqb (eventCount instance) 0 then d
      else
        let hs := handlers instance in
        if isPointerMove name then
          let d1 :=
            if defined (hs pointerover) || defined (hs pointerenter)
               || defined (hs pointerout) || defined (hs pointerleave)
            then
              let id := makeId (ev_hit (raycastEvent d)) in
              match Map_get String.eqb id (hovered (internals (world d) root)) with
              | None =>
                  let d0 := on_world (update_internal root (fun i =>
                              with_hovered (Map_set String.eqb id (raycastEvent d) (hovered i)) i)) d in
                  callHandler event higher pointerenter hs
                    (callHandler event higher pointerover hs d0)
              | Some hoveredItem =>
                  if stopped hoveredItem then stopPropagation event higher d else d
              end
            else d in
          callHandler event higher pointermove hs d1
        else
          let i := internals (world d) root in
          match hs name with
          | Some _ =>
              if negb (isClickEvent name) || includes (initialHits i) eventObject
              then callHandler event higher name hs
                     (on_world (emit (pointerMissed event (notInitiallyHit i))) d)
              else d
          | None =>
              if isClickEvent name && includes (initialHits i) eventObject
              then on_world (emit (pointerMissed event (notInitiallyHit i))) d
              else d
          end
  end.

(** The loop of [handleIntersects] from the position after [higher];
    [pass] names the [localState] object of the call, and the result carries
    [localState.stopped] as the loop leaves it. *)
Fixpoint dispatchLoop (callback : list NgtIntersection -> Dispatch -> Dispatch)
    (event : NgtDomEvent) (delta : Z) (pass : nat) (ints higher todo : list NgtIntersection)
    (w : World) : World * bool :=
  match todo with
  | [] => (w, false)
  | h :: rest =>
      let raycastEvent := {| ev_id := nextEvent w; ev_localState := pass;
                             ev_index := length higher; ev_hit := h;
                             intersections := ints;
                             stopped := false; delta := delta; nativeEvent := event |} in
      let d := callback higher {| world := fresh_event w; localState_stopped := false;
                                  raycastEvent := raycastEvent |} in
      if localState_stopped d then (world d, true)
      else dispatchLoop callback event delta pass ints (higher ++ [h]) rest (world d)
  end.

(** [handleIntersects(intersections, event, delta, callback)]; the
    [localState] object it makes is named by the next event identity. *)
Definition handleIntersects (callback : list NgtIntersection -> Dispatch -> Dispatch)
    (ints : list NgtIntersection) (event : NgtDomEvent) (delta : Z) (w : World) : World :=
  fst (dispatchLoop callback event delta (nextEvent w) ints [] ints w).

(** [handleEvent(event)] as returned by [handlePointer(name)]. *)
Definition handleEvent (name : EventName) (event : NgtDomEvent) (w : World) : World :=
  let w0 := update_internal root (with_lastEvent (Some event)) w in
  let filter := if isPointerMove name then Some filterPointerEvents else None in
  let hits := intersect event filter w0 in
  let delta := if isClickEvent name then calculateDistance event w0 else 0 in
  let w1 := match name with
            | pointerdown =>
                update_internal root (fun i =>
                  with_initialHits (List.map eventObject hits)
                    (with_initialClick (offsetX event, offsetY event) i)) w0
            | _ => w0
            end in
  let w2 := if isClickEvent name && Nat.eqb (length hits) 0
            then if delta <=? 2
                 then emit (pointerMissed event (interaction (internals w1 root))
                            ++ [PointerMissedNext event]) w1
                 else w1
            else w1 in
  let w3 := if isPointerMove name then cancelPointer hits w2 else w2 in
  handleIntersects (onIntersect name event) hits event delta w3.

(** [handlePointer(name)] applied to an event. *)
Definition handlePointer (name : EventName) (event : NgtDomEvent) (w : World) : World :=
  match name with
  | pointerleave | pointercancel => cancelPointer [] w
  | lostpointercapture =>
      match pointerId event with
      | Some id =>
          if Map_has Z.eqb id (capturedMap (internals w root))
          then requestAnimationFrame id w
          else w
      | None => w
      end
  | _ => handleEvent name event w
  end.

(** The callback [lostpointercapture] hands to [requestAnimationFrame]. *)
Definition releaseLostCapture (id : Z) (w : World) : World :=
  if Map_has Z.eqb id (capturedMap (internals w root))
  then cancelPointer [] (update_internal root (fun i =>
         with_capturedMap (Map_delete Z.eqb id (capturedMap i)) i) w)
  else w.

(** The next animation frame: the pending callbacks run in order. *)
Definition animationFrame (w : World) : World :=
  fold_left (fun w id => releaseLostCapture id w) (frameCallbacks w)
    {| internals := internals w; effects := effects w;
       frameCallbacks := []; nextEvent := nextEvent w |}.
End CreateEvents.

(* ================================================================== *)
(** ** The compute function of NgtCanvas.noZoneRender (canvas.ts) *)
(* ================================================================== *)

(** [NgtCanvasOptions.eventPrefix] *)
Inductive EventPrefix := offset | client | page | layer | screen.

Definition prefixString (p : EventPrefix) : string :=
  match p with
  | offset => "offset" | client => "client" | page => "page"
  | layer => "layer" | screen => "screen"
  end%string.

(** Truthiness of a string. *)
Definition truthy_string (s : string) : bool :=
  match s with EmptyString => false | _ => true end.

Section Compute.
(** JS numbers and the arithmetic the closure uses, left abstract: what is
    proved holds for any arithmetic, IEEE doubles included. *)
Context {number Camera : Type}.
Variables (div mul sub add : number -> number -> number).
Variables (neg : number -> number) (one two : number).

(** The part of the root snapshot the closure touches.  [raycaster] holds
    the arguments of the last [setFromCamera]. *)
Record ComputeSnapshot := {
  pointer : number * number;
  camera : Camera;
  size_width : number;
  size_height : number;
  raycaster : option (number * number * Camera)
}.

(** [pointer.set(x, y)] *)
Definition pointer_set (x y : number) (s : ComputeSnapshot) : ComputeSnapshot :=
  {| pointer := (x, y); camera := camera s; size_width := size_width s;
     size_height := size_height s; raycaster := raycaster s |}.

(** [raycaster.setFromCamera(pointer, camera)] *)
Definition raycaster_setFromCamera (p : number * number) (c : Camera)
    (s : ComputeSnapshot) : ComputeSnapshot :=
  {| pointer := pointer s; camera := camera s; size_width := size_width s;
     size_height := size_height s; raycaster := Some (p, c) |}.

(** The [compute] closure; the event is read by property name. *)
Definition compute (eventPrefix : EventPrefix) (event : string -> number)
    (s : ComputeSnapshot) : ComputeSnapshot :=
  let x := event (prefixString eventPrefix ++ "X")%string in
  let y := event (prefixString eventPrefix ++ "Y")%string in
  let s1 := pointer_set (sub (mul (div x (size_width s)) two) one)
                        (add (mul (neg (div y (size_height s))) two) one) s in
  raycaster_setFromCamera (pointer s1) (camera s1) s1.

(** [if (eventPrefix) state.setEvents({ compute })]: the closure installed
    for the configured prefix, if any. *)
Definition noZoneRender_compute (eventPrefix : EventPrefix)
  : option ((string -> number) -> ComputeSnapshot -> ComputeSnapshot) :=
  if truthy_string (prefixString eventPrefix) then Some (compute eventPrefix) else None.
End Compute.

(* ================================================================== *)
(** ** Ray registration of the cannon bridge *)
(* ================================================================== *)

(** [makeId()] without an event: [generateUUID] is the sequence of values
    [MathUtils.generateUUID()] will return; the recursion ends at the first
    one not yet in [idCache] and has no result when there is none. *)
Fixpoint makeId_fresh (generateUUID : list string) (idCache : gmap string bool)
  : option (string * gmap string bool) :=
  match generateUUID with
  | [] => None
  | newId :: later =>
      match idCache !! newId with
      | Some true => makeId_fresh later idCache
      | _ => Some (newId, <[newId := true]> idCache)
      end
  end.

Inductive RayMode := Closest | Any | All.

Section InjectRay.
Context {RayOptions Callback : Type}.

(** Messages to the physics worker. *)
Inductive WorkerMessage :=
  | addRay (props : RayOptions) (mode : RayMode) (uuid : string)
  | removeRay (uuid : string).

(** The physics api: the [events] object, the messages sent to the worker
    so far, and the module-level [idCache] of make.ts. *)
Record Physics := {
  events : gmap string Callback;
  worker : list WorkerMessage;
  idCache : gmap string bool
}.

(** The body of the [effect] of [injectRay]. *)
Definition rayEffect (mode : RayMode) (options : RayOptions) (callback : Callback)
    (uuid : string) (p : Physics) : Physics :=
  {| events := <[uuid := callback]> (events p);
     worker := worker p ++ [addRay options mode uuid];
     idCache := idCache p |}.

(** The function given to [onCleanup]. *)
Definition rayCleanup (uuid : string) (p : Physics) : Physics :=
  {| events := delete uuid (events p);
     worker := worker p ++ [removeRay uuid];
     idCache := idCache p |}.

(** [injectRay(mode, { options, callback })] up to the first run of its
    effect; returns the uuid the cleanup closes over. *)
Definition injectRay (mode : RayMode) (options : RayOptions) (callback : Callback)
    (generateUUID : list string) (p : Physics) : option (string * Physics) :=
  match makeId_fresh generateUUID (idCache p) with
  | Some (uuid, cache) =>
      Some (uuid, rayEffect mode options callback uuid
                    {| events := events p; worker := worker p; idCache := cache |})
  | None => None
  end.

Definition injectRaycastClosest := injectRay Closest.
Definition injectRaycastAny := injectRay Any.
Definition useRaycastAll := injectRay All.
End InjectRay.

(* ================================================================== *)
(** ** Vocabulary of the properties *)
(* ================================================================== *)

(** The parent chain of a node, the node first. *)
Fixpoint ancestors (o : Object3D) : list Object3D :=
  o :: match parent o with
       | Some p => ancestors p
       | None => []
       end.

(** [getLocalState(o)?.eventCount] is truthy. *)
Definition hasEvents (o : Object3D) : bool :=
  match getLocalState o with
  | Some ls => negb (Nat.eqb (eventCount ls) 0)
  | None => false
  end.

(** The [hits] the bubbling loop of [intersect] runs over. *)
Definition loopHits (rootState : NgtState)
    (intersectObject : NgtDomEvent -> Object3D -> list Intersection)
    (events_filter : option (list Intersection -> list Intersection))
    (event : NgtDomEvent) (filter : option (list Object3D -> list Object3D))
    (w : World) : list Intersection :=
  let i := internals w (root rootState) in
  let eventsObjects := match filter with
                       | Some f => f (interaction i)
                       | None => interaction i
                       end in
  let hits := fst (collectHits intersectObject event eventsObjects) in
  match events_filter with Some f => f hits | None => hits end.

(** The state the loop of [handleIntersects] hands to the callback for
    [h], the hit after [higher], in the pass [pass]: a fresh event object,
    the flag of the pass not set. *)
Definition newEvent (pass : nat) (higher : list NgtIntersection) (w : World)
    (h : NgtIntersection) (ints : list NgtIntersection)
    (delta : Z) (event : NgtDomEvent) : Dispatch :=
  {| world := fresh_event w; localState_stopped := false;
     raycastEvent := {| ev_id := nextEvent w; ev_localState := pass;
                        ev_index := length higher; ev_hit := h; intersections := ints;
                        stopped := false; delta := delta; nativeEvent := event |} |}.

(** The pointer of the event is captured in the store of the current hit
    and the [eventObject] of the hit is not among the capturing objects. *)
Definition capturedByOther (rootState : NgtState) (event : NgtDomEvent) (d : Dispatch) : bool :=
  match pointerId event with
  | Some id =>
      match Map_get Z.eqb id
              (capturedMap (internals (world d)
                 (internal (stateOf rootState (ev_hit (raycastEvent d)))))) with
      | Some captures => negb (Map_has same (eventObject (ev_hit (raycastEvent d))) captures)
      | None => false
      end
  | None => false
  end.

(** The operations that change the capture bookkeeping: the
    [setPointerCapture] and [releasePointerCapture] closures of an event
    and the capture part of [removeInteractivity]. *)
Inductive CaptureOp :=
  | OpSetPointerCapture (h : NgtIntersection) (event : NgtDomEvent) (id : Z)
  | OpReleasePointerCapture (h : NgtIntersection) (id : Z)
  | OpRemoveInteractivity (obj : Object3D).

Definition captureStep (op : CaptureOp) (cm : CapturedMap) : CapturedMap * list Effect :=
  match op with
  | OpSetPointerCapture h event id => setPointerCapture h event id cm
  | OpReleasePointerCapture h id => releasePointerCapture h id cm
  | OpRemoveInteractivity obj => releaseAll obj (Map_keys cm) cm
  end.

Fixpoint captureRun (ops : list CaptureOp) (cm : CapturedMap) : CapturedMap * list Effect :=
  match ops with
  | [] => (cm, [])
  | op :: rest =>
      let '(cm1, es1) := captureStep op cm in
      let '(cm2, es2) := captureRun rest cm1 in
      (cm2, es1 ++ es2)
  end.

(** The object an operation takes out of the captures of pointer [id]. *)
Definition released (op : CaptureOp) (id : Z) : option Object3D :=
  match op with
  | OpSetPointerCapture _ _ _ => None
  | OpReleasePointerCapture h id' => if Z.eqb id' id then Some (eventObject h) else None
  | OpRemoveInteractivity obj => Some obj
  end.

(** Every pointer id present in [capturedMap] has a capturing object. *)
Definition captures_nonempty (cm : CapturedMap) : Prop :=
  forall id captures, Map_get Z.eqb id cm = Some captures -> captures <> [].

(** [obj] captures pointer [id] with platform target [t] and no other
    object does. *)
Definition sole_capturer (obj : Object3D) (id : Z) (t : nat) (cm : CapturedMap) : Prop :=
  exists captures captureData,
    Map_get Z.eqb id cm = Some captures /\
    Map_get same obj captures = Some captureData /\
    Map_delete same obj captures = [] /\
    capture_target captureData = t.

(** The capture record of [obj] for pointer [id], if any. *)
Definition captureOf (id : Z) (obj : Object3D) (cm : CapturedMap)
  : option NgtPointerCaptureTarget :=
  match Map_get Z.eqb id cm with
  | Some captures => Map_get same obj captures
  | None => None
  end.

(** The condition of [removeInteractivity] on a hovered entry. *)
Definition hoveredOn (obj : Object3D) (value : NgtThreeEvent) : bool :=
  same (eventObject (ev_hit value)) obj || same (object (hit (ev_hit value))) obj.

(** The handler calls [cancelPointer] makes for a dropped entry, in
    order. *)
Definition leaveCalls (ints : list NgtIntersection) (hoveredObj : NgtThreeEvent) : list Effect :=
  match getLocalState (eventObject (ev_hit hoveredObj)) with
  | Some inst =>
      if Nat.eqb (eventCount inst) 0 then []
      else (if defined (handlers inst pointerout)
            then [Call pointerout (with_intersections ints hoveredObj)] else [])
           ++ (if defined (handlers inst pointerleave)
               then [Call pointerleave (with_intersections ints hoveredObj)] else [])
  | None => []
  end.

(** The [pointerout] and [pointerleave] handlers of the hovered objects
    make no call on the event they are given. *)
Definition quiet (m : HoveredMap) : Prop :=
  forall key e inst,
    In (key, e) m -> getLocalState (eventObject (ev_hit e)) = Some inst ->
    (forall script, handlers inst pointerout = Some script -> script = [])
    /\ (forall script, handlers inst pointerleave = Some script -> script = []).

(** [hovered] as the code keeps it: a Map (distinct keys) in which every
    event is booked under its own id. *)
Definition hovered_wf (m : HoveredMap) : Prop :=
  List.NoDup (Map_keys m) /\ Forall (fun kv => fst kv = makeId (ev_hit (snd kv))) m.

(** What [cancelPointer] may change: the [hovered] map of the internal
    object [r] of the root and the effect log. *)
Definition hover_frame (r : nat) (w w' : World) : Prop :=
  frameCallbacks w' = frameCallbacks w /\ nextEvent w' = nextEvent w /\
  forall n, internals w' n
            = if Nat.eqb n r
              then with_hovered (hovered (internals w' r)) (internals w n)
              else internals w n.

(** Some current hit has the (object, index, instanceId) of the event. *)
Definition covered (hits : list NgtIntersection) (e : NgtThreeEvent) : bool :=
  existsb (hitMatches e) hits.

(** Every hovered entry is under the pointer. *)
Definition all_covered (hits : list NgtIntersection) (m : HoveredMap) : Prop :=
  forall kv, In kv m -> covered hits (snd kv) = true.

(** [w'] continues the effect log of [w] with handler calls on events
    under the pointer only. *)
Definition extends_covered (hits : list NgtIntersection) (w w' : World) : Prop :=
  exists es, effects w' = effects w ++ es /\
             forall name d, In (Call name d) es -> covered hits d = true.

(** The handlers called, by event name and uuid of the object. *)
Definition called (es : list Effect) : list (EventName * string) :=
  flat_map (fun e => match e with
                     | Call name data => [(name, uuid (eventObject (ev_hit data)))]
                     | _ => []
                     end) es.


(* ================================================================== *)
(** ** Example scenes *)
(* ================================================================== *)

Definition no_handlers : EventName -> option (list Action) := fun _ => None.

(** The handlers of an object that listens to [name] with [script]. *)
Definition ex_handlers (name : EventName) (script : list Action)
  : EventName -> option (list Action) :=
  fun n => if EventName_eqb n name then Some script else None.

(** An enabled event layer of priority [p] whose snapshot points to the
    internal object [0]. *)
Definition ex_layer (p : Z) : NgtState :=
  {| internal := 0; events_enabled := true; events_priority := p; raycaster_camera := true |}.

Definition ex_node (n : nat) (u : string) (p : Z)
    (hs : EventName -> option (list Action)) (count : nat)
    (up : option Object3D) : Object3D :=
  mkObject3D n u (Some {| store := ex_layer p; handlers := hs; eventCount := count |}) up.

Definition ex_hit (o : Object3D) (d : Z) : Intersection :=
  {| object := o; distance := d; index := None; instanceId := None |}.

Definition ex_on (o : Object3D) (d : Z) (eo : Object3D) : NgtIntersection :=
  {| hit := ex_hit o d; eventObject := eo |}.

Definition ex_event : NgtDomEvent :=
  {| pointerId := Some 7; offsetX := 10%Q; offsetY := 10%Q; target := 0 |}.

(** The event of a pass over [h] alone. *)
Definition ex_data (n : nat) (h : NgtIntersection) : NgtThreeEvent :=
  {| ev_id := n; ev_localState := n; ev_index := 0; ev_hit := h; intersections := [h];
     stopped := false; delta := 0; nativeEvent := ex_event |}.

(** *** Two layers and a child without local state

    [ex_X] (priority 1) is hit at distance 1, its child [ex_Z] at
    distance 2, [ex_Y] (priority 2) at distance 3. *)
Definition ex_X : Object3D := ex_node 1 "X" 1 no_handlers 0 None.
Definition ex_Z : Object3D := mkObject3D 2 "Z" None (Some ex_X).
Definition ex_Y : Object3D := ex_node 3 "Y" 2 no_handlers 0 None.

Definition ex_cast (event : NgtDomEvent) (obj : Object3D) : list Intersection :=
  if same obj ex_X then [ex_hit ex_X 1; ex_hit ex_Z 2]
  else if same obj ex_Y then [ex_hit ex_Y 3]
  else [].

(** [ex_X] is hit at distance 1; the ray through [ex_Y] meets its child
    [ex_W], which has no local state, at distance 2. *)
Definition ex_W : Object3D := mkObject3D 4 "W" None (Some ex_Y).

Definition ex_cast_child (event : NgtDomEvent) (obj : Object3D) : list Intersection :=
  if same obj ex_X then [ex_hit ex_X 1]
  else if same obj ex_Y then [ex_hit ex_W 2]
  else [].

(** The same scene when [ex_X] is hit twice and its child is not hit. *)
Definition ex_cast_layers (event : NgtDomEvent) (obj : Object3D) : list Intersection :=
  if same obj ex_X then [ex_hit ex_X 1; ex_hit ex_X 1]
  else if same obj ex_Y then [ex_hit ex_Y 3]
  else [].

(** Two hits on [ex_X] with different keys and one id. *)
Definition ex_hit_1_23 : Intersection :=
  {| object := ex_X; distance := 1; index := Some 1; instanceId := Some 23 |}.
Definition ex_hit_12_3 : Intersection :=
  {| object := ex_X; distance := 2; index := Some 12; instanceId := Some 3 |}.

(** [ex_X] and [ex_Y] capture pointer 7, then [ex_X] lets go. *)
Definition ex_capture_ops : list CaptureOp :=
  [OpSetPointerCapture (ex_on ex_X 1 ex_X) ex_event 7;
   OpSetPointerCapture (ex_on ex_Y 3 ex_Y) ex_event 7;
   OpReleasePointerCapture (ex_on ex_X 1 ex_X) 7].

(** A store in which [ex_X] and [ex_Y] are interactive, hovered and
    capture pointer 7, and [ex_X] was hit by the last pointer-down. *)
Definition ex_internal : NgtInternal :=
  {| interaction := [ex_X; ex_Y];
     initialHits := [ex_X];
     initialClick := (10%Q, 10%Q);
     hovered := [(makeId (ex_on ex_X 1 ex_X), ex_data 0 (ex_on ex_X 1 ex_X));
                 (makeId (ex_on ex_Y 3 ex_Y), ex_data 1 (ex_on ex_Y 3 ex_Y))];
     capturedMap := [(7, [(ex_X, {| intersection := ex_on ex_X 1 ex_X; capture_target := 0 |});
                          (ex_Y, {| intersection := ex_on ex_Y 3 ex_Y; capture_target := 0 |})])];
     lastEvent := None |}.

Definition ex_world : World :=
  {| internals := fun _ => ex_internal; effects := []; frameCallbacks := []; nextEvent := 2 |}.

(** *** A group with two children

    [ex_C] is the parent of [ex_A] (nearest) and [ex_B]; each has a
    [pointerdown] handler, the one of [ex_A] runs [script].  The ray
    through the group meets [ex_A], [ex_B] and [ex_C]. *)
Definition ex_C : Object3D := ex_node 10 "C" 0 (ex_handlers pointerdown []) 1 None.
Definition ex_A (script : list Action) : Object3D :=
  ex_node 11 "A" 0 (ex_handlers pointerdown script) 1 (Some ex_C).
Definition ex_B : Object3D := ex_node 12 "B" 0 (ex_handlers pointerdown []) 1 (Some ex_C).

Definition ex_cast_group (script : list Action) (event : NgtDomEvent) (obj : Object3D)
  : list Intersection :=
  if same obj (ex_A script) then [ex_hit (ex_A script) 1]
  else if same obj ex_B then [ex_hit ex_B 2]
  else if same obj ex_C then [ex_hit (ex_A script) 1; ex_hit ex_B 2; ex_hit ex_C 3]
  else [].

Definition ex_group_world (script : list Action) (cm : CapturedMap) : World :=
  {| internals := fun _ =>
       {| interaction := [ex_A script; ex_B; ex_C]; initialHits := [];
          initialClick := (0%Q, 0%Q); hovered := []; capturedMap := cm; lastEvent := None |};
     effects := []; frameCallbacks := []; nextEvent := 0 |}.

(** [ex_C] holds the capture of pointer 7. *)
Definition ex_capture_C : CapturedMap :=
  [(7, [(ex_C, {| intersection := ex_on ex_C 3 ex_C; capture_target := 0 |})])].

(** *** A click after a drag

    A button [ex_K] with a [click] handler, pressed at (0, 0) and released
    over the button at (100, 100), next to [ex_M] which listens for missed
    clicks. *)
Definition ex_K : Object3D := ex_node 20 "K" 0 (ex_handlers click []) 1 None.
Definition ex_M : Object3D := ex_node 21 "M" 0 (ex_handlers pointermissed []) 1 None.

Definition ex_click : NgtDomEvent :=
  {| pointerId := None; offsetX := 100%Q; offsetY := 100%Q; target := 0 |}.

Definition ex_cast_K (event : NgtDomEvent) (obj : Object3D) : list Intersection :=
  if same obj ex_K then [ex_hit ex_K 1] else [].

Definition ex_click_world : World :=
  {| internals := fun _ =>
       {| interaction := [ex_K; ex_M]; initialHits := [ex_K];
          initialClick := (0%Q, 0%Q); hovered := []; capturedMap := []; lastEvent := None |};
     effects := []; frameCallbacks := []; nextEvent := 0 |}.

(** The same press and release when nothing is under the pointer. *)
Definition ex_cast_nothing (event : NgtDomEvent) (obj : Object3D) : list Intersection := [].

(** *** Leaving one object for another

    [ex_H] and [ex_P] have [pointerover], [pointerout] and [pointerleave]
    handlers; [ex_H] is hovered and the pointer has moved on to [ex_P]. *)
Definition ex_hover_handlers : EventName -> option (list Action) :=
  fun n => match n with
           | pointerout | pointerleave | pointerover => Some []
           | _ => None
           end.

Definition ex_H : Object3D := ex_node 30 "H" 0 ex_hover_handlers 3 None.
Definition ex_P : Object3D := ex_node 31 "P" 0 ex_hover_handlers 3 None.

Definition ex_cast_P (event : NgtDomEvent) (obj : Object3D) : list Intersection :=
  if same obj ex_P then [ex_hit ex_P 1] else [].

Definition ex_hover_world : World :=
  {| internals := fun _ =>
       {| interaction := [ex_H; ex_P]; initialHits := []; initialClick := (0%Q, 0%Q);
          hovered := [(makeId (ex_on ex_H 1 ex_H), ex_data 0 (ex_on ex_H 1 ex_H))];
          capturedMap := []; lastEvent := None |};
     effects := []; frameCallbacks := []; nextEvent := 1 |}.

Definition ex_move : NgtDomEvent :=
  {| pointerId := Some 1; offsetX := 5%Q; offsetY := 5%Q; target := 0 |}.

(** *** The physics bridge and the canvas

    A bridge with one ray already registered under ["r1"], and a generator
    that first repeats that id. *)
Definition ex_physics : @Physics unit nat :=
  {| events := {[ "r1"%string := 1%nat ]}; worker := []; idCache := {[ "r1"%string := true ]} |}.

Definition ex_uuids : list string := ["r1"; "r2"; "r3"]%string.

(** An event at the bottom right corner of a 400 by 100 canvas, for the
    compute function with integer arithmetic. *)
Definition ex_pointer_event (field : string) : Z :=
  if String.eqb field "offsetX" then 400
  else if String.eqb field "offsetY" then 100
  else 0.

Definition ex_snapshot : @ComputeSnapshot Z unit :=
  {| pointer := (0, 0); camera := tt; size_width := 400; size_height := 100;
     raycaster := None |}.

(* ================================================================== *)
(** ** Vocabulary of the further properties *)
(* ================================================================== *)

(** [w'] continues the effect log of [w] with effects in [Q] only. *)
Definition extends_with (Q : Effect -> Prop) (w w' : World) : Prop :=
  exists es, effects w' = effects w ++ es /\ Forall Q es.

(** What the handlers cannot reach: the interaction list, the record of
    the last pointer-down, the last event and the pending frame callbacks
    are those of [w0]. *)
Definition same_bookkeeping (w0 w : World) : Prop :=
  frameCallbacks w = frameCallbacks w0 /\
  forall n, interaction (internals w n) = interaction (internals w0 n)
            /\ initialHits (internals w n) = initialHits (internals w0 n)
            /\ initialClick (internals w n) = initialClick (internals w0 n)
            /\ lastEvent (internals w n) = lastEvent (internals w0 n).

(** Every [internal] object keeps the capture invariant. *)
Definition captures_nonempty_everywhere (w : World) : Prop :=
  forall n, captures_nonempty (capturedMap (internals w n)).

(** What happens to a root: a native event arrives, an animation frame
    runs, an object of some store is destroyed. *)
Inductive Step :=
  | StepPointer (name : EventName) (event : NgtDomEvent)
  | StepFrame
  | StepRemove (s : NgtState) (obj : Object3D).

Definition step (rootState : NgtState)
    (intersectObject : NgtDomEvent -> Object3D -> list Intersection)
    (events_filter : option (list Intersection -> list Intersection))
    (st : Step) (w : World) : World :=
  match st with
  | StepPointer name event => handlePointer rootState intersectObject events_filter name event w
  | StepFrame => animationFrame rootState w
  | StepRemove s obj => removeInteractivity s obj w
  end.

Definition run (rootState : NgtState)
    (intersectObject : NgtDomEvent -> Object3D -> list Intersection)
    (events_filter : option (list Intersection -> list Intersection))
    (steps : list Step) (w : World) : World :=
  fold_left (fun w st => step rootState intersectObject events_filter st w) steps w.

(** Successive calls of [makeId()], one generator sequence per call. *)
Fixpoint makeId_calls (generators : list (list string)) (idCache : gmap string bool)
  : option (list string * gmap string bool) :=
  match generators with
  | [] => Some ([], idCache)
  | generateUUID :: later =>
      match makeId_fresh generateUUID idCache with
      | Some (newId, cache) =>
          match makeId_calls later cache with
          | Some (ids, cache') => Some (newId :: ids, cache')
          | None => None
          end
      | None => None
      end
  end.

(* ================================================================== *)
(** ** makeDpr (utils/make.ts) *)
(* ================================================================== *)

(** [NgtDpr]: [number | [min: number, max: number]]. *)
Inductive NgtDpr (number : Type) :=
  | DprNumber (dpr : number)
  | DprRange (min max : number).
Arguments DprNumber {number} dpr.
Arguments DprRange {number} min max.

Section MakeDpr.
(** JS numbers with their order, NaN aside. *)
Context {number : Type}.
Variable leb : number -> number -> bool.
Variables one two : number.

Definition Math_max (a b : number) : number := if leb a b then b else a.
Definition Math_min (a b : number) : number := if leb a b then a else b.

(** [typeof window !== 'undefined' ? window.devicePixelRatio ?? 2 : 1];
    [window] is [None] when there is no window and holds
    [devicePixelRatio], if defined, otherwise. *)
Definition dprTarget (window : option (option number)) : number :=
  match window with
  | Some (Some devicePixelRatio) => devicePixelRatio
  | Some None => two
  | None => one
  end.

(** [makeDpr(dpr, window)] *)
Definition makeDpr (dpr : NgtDpr number) (window : option (option number)) : number :=
  let target := dprTarget window in
  match dpr with
  | DprRange min max => Math_min (Math_max min target) max
  | DprNumber d => d
  end.
End MakeDpr.

(** A layer whose events are switched off, an object of it with a
    [pointerdown] handler, and a store in which it is the only interactive
    object. *)
Definition ex_disabled_layer : NgtState :=
  {| internal := 0; events_enabled := false; events_priority := 0; raycaster_camera := true |}.

Definition ex_D : Object3D :=
  mkObject3D 40 "D" (Some {| store := ex_disabled_layer;
                             handlers := ex_handlers pointerdown []; eventCount := 1 |}) None.

Definition ex_cast_D (event : NgtDomEvent) (obj : Object3D) : list Intersection :=
  if same obj ex_D then [ex_hit ex_D 1] else [].

Definition ex_disabled_world : World :=
  {| internals := fun _ =>
       {| interaction := [ex_D]; initialHits := [ex_D]; initialClick := (0%Q, 0%Q);
          hovered := []; capturedMap := []; lastEvent := None |};
     effects := []; frameCallbacks := []; nextEvent := 0 |}.

(** [ex_H] and [ex_P] are both hovered, [ex_H] first. *)
Definition ex_both_hovered_world : World :=
  {| internals := fun _ =>
       {| interaction := [ex_H; ex_P]; initialHits := []; initialClick := (0%Q, 0%Q);
          hovered := [(makeId (ex_on ex_H 1 ex_H), ex_data 0 (ex_on ex_H 1 ex_H));
                      (makeId (ex_on ex_P 2 ex_P), ex_data 1 (ex_on ex_P 2 ex_P))];
          capturedMap := []; lastEvent := None |};
     effects := []; frameCallbacks := []; nextEvent := 2 |}.

(** The hit [h] has an entry of its own in the hovered map [m]. *)
Definition booked (h : NgtIntersection) (m : HoveredMap) : Prop :=
  exists e, In (makeId h, e) m /\ ev_hit e = h.

(* ================================================================== *)
(** ** NgtCanvas: the resize effect and the first render (canvas.ts) *)
(* ================================================================== *)

(** The element [state.events.connect] is given. *)
Inductive ConnectTarget := EventSourceElement | HostElement | GlCanvasElement.

(** What the component does to its surroundings, in the order it does it. *)
Inductive CanvasCall :=
  | InitRoot
  | Configure
  | DetectChanges
  | DestroyEnvironmentInjector
  | DestroyComponent
  | DestroyConfigurator
  | SetActive
  | Connect (target : ConnectTarget)
  | SetCompute (eventPrefix : EventPrefix)
  | EmitCreated
  | CreateEnvironmentInjector
  | CreateComponent
  | Invalidate.

(** The private fields of [NgtCanvas], each set or not, and the calls made
    so far. *)
Record NgtCanvas := {
  configurator : bool;
  glEnvironmentInjector : bool;
  glRef : bool;
  calls : list CanvasCall
}.

(** What a run of the effect reads from its surroundings: whether the
    options name an event source, the event prefix, whether the event
    manager has a [connect], what [state.events.connected] says after
    [created] was emitted, and whether [internal.frames] is 0. *)
Record CanvasEnv := {
  eventSource : bool;
  eventPrefix : EventPrefix;
  events_connect : bool;
  events_connected : bool;
  frames_zero : bool
}.

(** [ResizeResult], as far as the effect looks at it; the signal starts
    with an object that has neither field. *)
Record ResizeResult := {
  width : option Z;
  height : option Z
}.

(** [n > 0] on [number | undefined]. *)
Definition gt_zero (n : option Z) : bool :=
  match n with Some z => 0 <? z | None => false end.

Definition call (cs : list CanvasCall) (c : NgtCanvas) : NgtCanvas :=
  {| configurator := configurator c; glEnvironmentInjector := glEnvironmentInjector c;
     glRef := glRef c; calls := calls c ++ cs |}.

(** [noZoneRender()] *)
Definition noZoneRender (env : CanvasEnv) (c : NgtCanvas) : NgtCanvas :=
  let c := call (if glEnvironmentInjector c then [DestroyEnvironmentInjector] else []) c in
  let c := call (if glRef c then [DestroyComponent] else []) c in
  let c := call [SetActive] c in
  let c := call (if events_connect env
                 then [Connect (if eventSource env then EventSourceElement else HostElement)]
                 else []) c in
  let c := call (if truthy_string (prefixString (eventPrefix env))
                 then [SetCompute (eventPrefix env)] else []) c in
  let c := call [EmitCreated] c in
  let c := call (if negb (events_connected env) && events_connect env
                 then [Connect GlCanvasElement] else []) c in
  let c := {| configurator := configurator c; glEnvironmentInjector := true;
              glRef := true;
              calls := calls c ++ [CreateEnvironmentInjector; CreateComponent] |} in
  let c := call (if frames_zero env then [Invalidate] else []) c in
  call [DetectChanges] c.

(** One run of the effect of [noZoneResizeEffect()] with the current value
    of the [resizeResult] signal. *)
Definition noZoneResizeEffect (resizeResult : ResizeResult) (env : CanvasEnv)
    (c : NgtCanvas) : NgtCanvas :=
  if gt_zero (width resizeResult) && gt_zero (height resizeResult)
  then
    let c := if configurator c then c
             else {| configurator := true; glEnvironmentInjector := glEnvironmentInjector c;
                     glRef := glRef c; calls := calls c ++ [InitRoot] |} in
    let c := call [Configure] c in
    if glRef c then call [DetectChanges] c else noZoneRender env c
  else c.

(** The callback given to [DestroyRef.onDestroy]. *)
Definition onDestroy (c : NgtCanvas) : NgtCanvas :=
  let c := call (if glRef c then [DestroyComponent] else []) c in
  let c := call (if glEnvironmentInjector c then [DestroyEnvironmentInjector] else []) c in
  call (if configurator c then [DestroyConfigurator] else []) c.

(** The runs of the effect, one per value of the signals it reads. *)
Definition effectRuns (runs : list (ResizeResult * CanvasEnv)) (c : NgtCanvas) : NgtCanvas :=
  fold_left (fun c r => noZoneResizeEffect (fst r) (snd r) c) runs c.

Definition usable (r : ResizeResult * CanvasEnv) : bool :=
  gt_zero (width (fst r)) && gt_zero (height (fst r)).

Definition isCreateComponent (x : CanvasCall) : bool :=
  match x with CreateComponent => true | _ => false end.
Definition isEmitCreated (x : CanvasCall) : bool :=
  match x with EmitCreated => true | _ => false end.
Definition isConfigure (x : CanvasCall) : bool :=
  match x with Configure => true | _ => false end.
Definition isDestroy (x : CanvasCall) : bool :=
  match x with
  | DestroyComponent | DestroyEnvironmentInjector | DestroyConfigurator => true
  | _ => false
  end.

(** The component after its constructor ran [initRoot], and a sequence of
    measurements: none yet, a collapsed box, then two usable sizes. *)
Definition ex_canvas : NgtCanvas :=
  {| configurator := true; glEnvironmentInjector := false; glRef := false;
     calls := [InitRoot] |}.

Definition ex_env : CanvasEnv :=
  {| eventSource := false; eventPrefix := offset; events_connect := true;
     events_connected := true; frames_zero := true |}.

Definition ex_resizes : list (ResizeResult * CanvasEnv) :=
  [({| width := None; height := None |}, ex_env);
   ({| width := Some 300; height := Some 0 |}, ex_env);
   ({| width := Some 300; height := Some 150 |}, ex_env);
   ({| width := Some 640; height := Some 480 |}, ex_env)].

(** A step other than a pointerdown. *)
Definition notPointerdown (st : Step) : bool :=
  match st with
  | StepPointer pointerdown _ => false
  | _ => true
  end.


(* ================================================================== *)
(** ** Vocabulary of the handler runs *)
(* ================================================================== *)

(** A step of the handlers leaves the event in hand the object it is, at
    most with [stopped] set, and does not clear the flag of the pass. *)
Definition keeps_current (d d' : Dispatch) : Prop :=
  (raycastEvent d' = raycastEvent d \/ raycastEvent d' = with_stopped true (raycastEvent d))
  /\ (localState_stopped d = true -> localState_stopped d' = true).

(** Every entry of the hovered map is booked under the id of its hit, as
    [hovered.set(makeId(data), data)] books it. *)
Definition keyed (m : HoveredMap) : Prop :=
  Forall (fun kv => fst kv = makeId (ev_hit (snd kv))) m.

(** The event [e'] is the event [e], at most with [stopped] set. *)
Definition marked (e e' : NgtThreeEvent) : Prop :=
  e' = e \/ e' = with_stopped true e.

(** The hovered map [m'] is [m] after deletions and settings of
    [stopped]. *)
Inductive shrinks : HoveredMap -> HoveredMap -> Prop :=
  | shrinks_nil : shrinks [] []
  | shrinks_drop kv m m' : shrinks m m' -> shrinks (kv :: m) m'
  | shrinks_keep key e e' m m' :
      marked e e' -> shrinks m m' -> shrinks ((key, e) :: m) ((key, e') :: m').

(** *** Handlers that act on the event of a dropped hover

    [ex_G] captures pointer 7 from its [pointerout] handler.  It is
    hovered and holds the capture of pointer 7. *)
Definition ex_grab_handlers : EventName -> option (list Action) :=
  fun n => match n with
           | pointerout => Some [SetPointerCapture 7]
           | pointerleave => Some []
           | _ => None
           end.

Definition ex_G : Object3D := ex_node 50 "G" 0 ex_grab_handlers 2 None.

Definition ex_grab_world : World :=
  {| internals := fun _ =>
       {| interaction := [ex_G]; initialHits := []; initialClick := (0%Q, 0%Q);
          hovered := [(makeId (ex_on ex_G 1 ex_G), ex_data 0 (ex_on ex_G 1 ex_G))];
          capturedMap := [(7, [(ex_G, {| intersection := ex_on ex_G 1 ex_G;
                                         capture_target := 0 |})])];
          lastEvent := None |};
     effects := []; frameCallbacks := []; nextEvent := 1 |}.

(** [ex_S] stops the propagation from its [pointerout] handler.  Two
    instances of it are hovered, and [ex_P] after them. *)
Definition ex_stop_handlers : EventName -> option (list Action) :=
  fun n => match n with
           | pointerout => Some [StopPropagation]
           | pointerleave => Some []
           | _ => None
           end.

Definition ex_S : Object3D := ex_node 51 "S" 0 ex_stop_handlers 2 None.

Definition ex_instance (i : Z) : NgtIntersection :=
  {| hit := {| object := ex_S; distance := 1; index := None; instanceId := Some i |};
     eventObject := ex_S |}.

Definition ex_instances_world : World :=
  {| internals := fun _ =>
       {| interaction := [ex_S; ex_P]; initialHits := []; initialClick := (0%Q, 0%Q);
          hovered := [(makeId (ex_instance 1), ex_data 0 (ex_instance 1));
                      (makeId (ex_instance 2), ex_data 1 (ex_instance 2));
                      (makeId (ex_on ex_P 2 ex_P), ex_data 2 (ex_on ex_P 2 ex_P))];
          capturedMap := []; lastEvent := None |};
     effects := []; frameCallbacks := []; nextEvent := 3 |}.

(** The handlers called, by event name, uuid of the object and instance. *)
Definition calledOn (es : list Effect) : list (EventName * string * option Z) :=
  flat_map (fun e => match e with
                     | Call name data =>
                         [(name, uuid (eventObject (ev_hit data)),
                           instanceId (hit (ev_hit data)))]
                     | _ => []
                     end) es.

(** The call [handlers?.name?.(data)] that [cancelPointer] makes for the
    hovered entry [hoveredObj], as the effect log shows it. *)
Definition handlerCall (name : EventName) (hoveredObj data : NgtThreeEvent) : list Effect :=
  match getLocalState (eventObject (ev_hit hoveredObj)) with
  | Some inst =>
      if Nat.eqb (eventCount inst) 0 then []
      else if defined (handlers inst name) then [Call name data] else []
  | None => []
  end.

(** An effect that is not the call of a handler with an event of the
    intersection [t]. *)
Definition offTarget (t : NgtIntersection) (eff : Effect) : Prop :=
  match eff with
  | Call _ d => ev_hit d <> t
  | _ => True
  end.

(** The [pointerout] handler of the event object of [e], if there is one,
    makes no call on the event it is given. *)
Definition quietOut (e : NgtThreeEvent) : Prop :=
  forall inst script,
    getLocalState (eventObject (ev_hit e)) = Some inst ->
    handlers inst pointerout = Some script -> script = [].

(** The entry of [e] is still booked in the hovered map of [r], marked
    stopped or not. *)
Definition entry_kept (r : nat) (e : NgtThreeEvent) (w : World) : Prop :=
  hovered_wf (hovered (internals w r))
  /\ exists v, Map_get String.eqb (makeId (ev_hit e)) (hovered (internals w r)) = Some v
               /\ marked e v.

(** No entry of the hovered map of [r] is an event of the intersection
    [t]. *)
Definition entry_gone (r : nat) (t : NgtIntersection) (w : World) : Prop :=
  hovered_wf (hovered (internals w r))
  /\ forall k v, In (k, v) (hovered (internals w r)) -> ev_hit v <> t.

(** The effects [es] hold one drop of the entry of [e]: the call of its
    [pointerout] handler, then the call of its [pointerleave] handler, both
    with the same copy of the entry, and no other call of a handler with an
    event of its intersection. *)
Definition dropTrace (e : NgtThreeEvent) (es : list Effect) : Prop :=
  exists pre mid post ints e',
    marked e e'
    /\ es = pre ++ handlerCall pointerout e (with_intersections ints e') ++ mid
                ++ handlerCall pointerleave e (with_intersections ints e') ++ post
    /\ Forall (offTarget (ev_hit e)) (pre ++ mid ++ post)
    /\ (quietOut e -> mid = []).

(** From [w] to [w'] the entry of [e] was kept and no handler was called
    with an event of its intersection, or it was dropped once. *)
Definition drop_outcome (r : nat) (e : NgtThreeEvent) (w w' : World) : Prop :=
  exists es,
    effects w' = effects w ++ es
    /\ ((entry_kept r e w' /\ Forall (offTarget (ev_hit e)) es)
        \/ (entry_gone r (ev_hit e) w' /\ dropTrace e es)).

(** Two worlds that differ in the [lastEvent] fields only. *)
Definition same_but_lastEvent (w1 w2 : World) : Prop :=
  effects w1 = effects w2 /\ frameCallbacks w1 = frameCallbacks w2
  /\ nextEvent w1 = nextEvent w2
  /\ forall n, with_lastEvent None (internals w1 n) = with_lastEvent None (internals w2 n).

(** Two states of a callback over such worlds. *)
Definition same_dispatch (d1 d2 : Dispatch) : Prop :=
  same_but_lastEvent (world d1) (world d2)
  /\ localState_stopped d1 = localState_stopped d2
  /\ raycastEvent d1 = raycastEvent d2.

(* ================================================================== *)
(** * Properties *)
(* ================================================================== *)

(** Case analysis on the condition of the first conditional of the goal. *)
Ltac case_if :=
  match goal with |- context [if ?c then _ else _] => destruct c end.

(** ** Sorting and deduplication of the hits *)

Lemma sort_insert_Permutation {A} (cmp : A -> A -> Z) x l :
  Permutation (x :: l) (sort_insert cmp x l).
Proof.
  induction l as [|y l IH]; simpl; [reflexivity|].
  destruct (cmp x y <=? 0); [reflexivity|].
  rewrite perm_swap. now apply perm_skip.
Qed.

Lemma Array_sort_Permutation {A} (cmp : A -> A -> Z) l :
  Permutation l (Array_sort cmp l).
Proof.
  induction l as [|x l IH]; simpl; [reflexivity|].
  rewrite <- sort_insert_Permutation. now apply perm_skip.
Qed.

(** A list whose neighbours are already in order is left as it is. *)
Lemma Array_sort_fixed {A} (cmp : A -> A -> Z) l :
  Sorted (fun a b => cmp a b <= 0) l -> Array_sort cmp l = l.
Proof.
  induction 1 as [|x l Hs IH Hhd]; simpl; [reflexivity|].
  rewrite IH. destruct Hhd as [|y l Hxy]; simpl; [reflexivity|].
  destruct (Z.leb_spec (cmp x y) 0); [reflexivity|lia].
Qed.

Lemma eventLayer_own o ls : getLocalState o = Some ls -> eventLayer o = Some (store ls).
Proof. destruct o as [n u l up]. simpl. now intros ->. Qed.

Lemma compareHits_le a b :
  hasLocalState a -> hasLocalState b -> compareHits a b <= 0 -> hit_order a b.
Proof.
  intros [sa Ha] [sb Hb]. unfold compareHits, hit_order, hitPriority.
  rewrite (eventLayer_own _ _ Ha), (eventLayer_own _ _ Hb), Ha, Hb. cbv zeta.
  destruct (Z.eqb_spec (events_priority (store sb) - events_priority (store sa)) 0); lia.
Qed.

Lemma compareHits_gt a b :
  hasLocalState a -> hasLocalState b -> 0 < compareHits a b -> hit_order b a.
Proof.
  intros [sa Ha] [sb Hb]. unfold compareHits, hit_order, hitPriority.
  rewrite (eventLayer_own _ _ Ha), (eventLayer_own _ _ Hb), Ha, Hb. cbv zeta.
  destruct (Z.eqb_spec (events_priority (store sb) - events_priority (store sa)) 0); lia.
Qed.

Lemma hit_order_trans a b c :
  hasLocalState a -> hasLocalState b -> hasLocalState c ->
  hit_order a b -> hit_order b c -> hit_order a c.
Proof.
  intros [sa Ha] [sb Hb] [sc Hc]. unfold hit_order, hitPriority.
  rewrite (eventLayer_own _ _ Ha), (eventLayer_own _ _ Hb), (eventLayer_own _ _ Hc). lia.
Qed.

Lemma sort_insert_sorted x l :
  hasLocalState x -> Forall hasLocalState l ->
  StronglySorted hit_order l -> StronglySorted hit_order (sort_insert compareHits x l).
Proof.
  intros Hx Hl Hs. induction Hs as [|y l Hs IH Hy]; simpl.
  - repeat constructor.
  - apply Forall_cons_iff in Hl as [Hsy Hl].
    destruct (Z.leb_spec (compareHits x y) 0) as [Hle|Hgt].
    + constructor; [now constructor|].
      assert (Hxy : hit_order x y) by now apply compareHits_le.
      constructor; [exact Hxy|].
      rewrite List.Forall_forall in *. intros z Hz.
      apply (hit_order_trans x y z); auto.
    + constructor; [now apply IH|].
      apply (Permutation_Forall (sort_insert_Permutation compareHits x l)).
      constructor; [now apply compareHits_gt | exact Hy].
Qed.

Lemma Array_sort_sorted l :
  Forall hasLocalState l -> StronglySorted hit_order (Array_sort compareHits l).
Proof.
  induction l as [|x l IH]; simpl; intros Hl; [constructor|].
  apply Forall_cons_iff in Hl as [Hx Hl].
  apply sort_insert_sorted; auto.
  now apply (Permutation_Forall (Array_sort_Permutation compareHits l)).
Qed.

Lemma filterDuplicates_In d l x :
  In x (fst (filterDuplicates d l)) -> In x l /\ has d (makeId_hit x) = false.
Proof.
  revert d. induction l as [|y l IH]; simpl; intros d; [tauto|].
  destruct (has d (makeId_hit y)) eqn:Hd.
  - intros H. apply IH in H. tauto.
  - destruct (filterDuplicates (makeId_hit y :: d) l) as [kept d'] eqn:E.
    simpl. intros [->|H]; [tauto|].
    specialize (IH (makeId_hit y :: d)). rewrite E in IH.
    apply IH in H as [H1 H2]. split; [tauto|].
    simpl in H2. apply orb_false_iff in H2. tauto.
Qed.

Lemma filterDuplicates_sorted (R : Intersection -> Intersection -> Prop) d l :
  StronglySorted R l -> StronglySorted R (fst (filterDuplicates d l)).
Proof.
  intros Hs. revert d. induction Hs as [|y l Hs IH Hy]; simpl; intros d; [constructor|].
  destruct (has d (makeId_hit y)); [apply IH|].
  specialize (IH (makeId_hit y :: d)).
  pose proof (filterDuplicates_In (makeId_hit y :: d) l) as Hin.
  destruct (filterDuplicates (makeId_hit y :: d) l) as [kept d']. simpl in *.
  constructor; [exact IH|].
  rewrite List.Forall_forall in *. intros z Hz. apply Hy. now apply Hin.
Qed.

Lemma has_true_iff d s : has d s = true <-> In s d.
Proof.
  unfold has. rewrite existsb_exists. split.
  - intros [x [Hx Heq]]. apply String.eqb_eq in Heq. now subst.
  - intros H. exists s. split; [exact H|apply String.eqb_refl].
Qed.

Lemma filterDuplicates_NoDup d l :
  List.NoDup (List.map makeId_hit (fst (filterDuplicates d l))).
Proof.
  revert d. induction l as [|y l IH]; simpl; intros d; [constructor|].
  destruct (has d (makeId_hit y)); [apply IH|].
  specialize (IH (makeId_hit y :: d)).
  pose proof (filterDuplicates_In (makeId_hit y :: d) l) as Hin.
  destruct (filterDuplicates (makeId_hit y :: d) l) as [kept d']. simpl in *.
  constructor; [|exact IH].
  rewrite in_map_iff. intros [z [Hz Hk]].
  apply Hin in Hk as [_ Hk]. simpl in Hk. rewrite Hz, String.eqb_refl in Hk. discriminate.
Qed.

Lemma makeId_hit_of_key a b : dedupKey a = dedupKey b -> makeId_hit a = makeId_hit b.
Proof.
  unfold dedupKey, makeId_hit, makeIdOf. intros H. injection H as -> -> ->. reflexivity.
Qed.

(** A hit whose id is already in [duplicates] leaves no trace. *)
Lemma filterDuplicates_skip d l2 b l3 :
  has d (makeId_hit b) = true ->
  filterDuplicates d (l2 ++ b :: l3) = filterDuplicates d (l2 ++ l3).
Proof.
  revert d. induction l2 as [|y l2 IH]; simpl; intros d Hb.
  - now rewrite Hb.
  - destruct (has d (makeId_hit y)); [now apply IH|].
    rewrite IH; [reflexivity|]. simpl. rewrite Hb. apply orb_true_r.
Qed.

Lemma filterDuplicates_later d l1 a l2 b l3 :
  makeId_hit a = makeId_hit b ->
  filterDuplicates d (l1 ++ a :: l2 ++ b :: l3) = filterDuplicates d (l1 ++ a :: l2 ++ l3).
Proof.
  intros Hab. revert d. induction l1 as [|y l1 IH]; simpl; intros d.
  - destruct (has d (makeId_hit a)) eqn:Ha.
    + apply filterDuplicates_skip. now rewrite <- Hab.
    + rewrite filterDuplicates_skip; [reflexivity|].
      simpl. rewrite <- Hab, String.eqb_refl. reflexivity.
  - destruct (has d (makeId_hit y)); [apply IH|]. now rewrite IH.
Qed.

Lemma filterDuplicates_first d l1 a l2 :
  has d (makeId_hit a) = false ->
  (forall x, In x l1 -> makeId_hit x <> makeId_hit a) ->
  In a (fst (filterDuplicates d (l1 ++ a :: l2))).
Proof.
  revert d. induction l1 as [|y l1 IH]; simpl; intros d Hd Hl1.
  - rewrite Hd. destruct (filterDuplicates (makeId_hit a :: d) l2). simpl. now left.
  - destruct (has d (makeId_hit y)); [apply IH; auto|].
    specialize (IH (makeId_hit y :: d)).
    destruct (filterDuplicates (makeId_hit y :: d) (l1 ++ a :: l2)). simpl in *.
    right. apply IH; [|auto].
    rewrite Hd, orb_false_r. apply String.eqb_neq. intros E. apply (Hl1 y); auto.
Qed.

(** The id does not separate [index] from [instanceId]: the hits of keys
    (1, 23) and (12, 3) on one object have one id, and the filter keeps
    the first of them only. *)
Lemma makeId_hit_collision :
  dedupKey ex_hit_1_23 <> dedupKey ex_hit_12_3 /\
  makeId_hit ex_hit_1_23 = makeId_hit ex_hit_12_3 /\
  fst (filterDuplicates [] [ex_hit_1_23; ex_hit_12_3]) = [ex_hit_1_23].
Proof. split; [discriminate|split; vm_compute; reflexivity]. Qed.

Lemma compareHits_stateful a b sa sb :
  getLocalState (object a) = Some sa -> getLocalState (object b) = Some sb ->
  (compareHits a b <= 0 <->
   events_priority (store sb) < events_priority (store sa)
   \/ (events_priority (store sa) = events_priority (store sb) /\ distance a <= distance b)).
Proof.
  intros Ha Hb. unfold compareHits. rewrite Ha, Hb. cbv zeta.
  destruct (Z.eqb_spec (events_priority (store sb) - events_priority (store sa)) 0); lia.
Qed.

Lemma compareHits_stateless a b :
  getLocalState (object a) = None \/ getLocalState (object b) = None ->
  compareHits a b = distance a - distance b.
Proof.
  unfold compareHits. intros [H|H]; rewrite H; [reflexivity|].
  now destruct (getLocalState (object a)).
Qed.

Lemma hit_order_compareHits a b :
  hasLocalState a -> hasLocalState b -> hit_order a b -> compareHits a b <= 0.
Proof.
  intros [sa Ha] [sb Hb]. unfold compareHits, hit_order, hitPriority.
  rewrite (eventLayer_own _ _ Ha), (eventLayer_own _ _ Hb), Ha, Hb. cbv zeta.
  destruct (Z.eqb_spec (events_priority (store sb) - events_priority (store sa)) 0); lia.
Qed.

Lemma StronglySorted_impl {A} (P : A -> Prop) (R S : A -> A -> Prop) l :
  (forall a b, P a -> P b -> R a b -> S a b) ->
  Forall P l -> StronglySorted R l -> StronglySorted S l.
Proof.
  intros H Hl Hs. induction Hs as [|x l Hs IH Hx]; [constructor|].
  apply Forall_cons_iff in Hl as [Hpx Hl]. constructor; [now apply IH|].
  rewrite List.Forall_forall in *. intros y Hy. apply H; auto.
Qed.

(** C3 (as amended).  The comparator of the sort orders two hits whose
    objects both have a local state by event-layer priority descending,
    then by distance ascending, and any other pair by distance alone.  The
    sorted list is a permutation of the raw hits; when the object of every
    raw hit has a local state it is in comparator order and ordered by
    priority descending, then distance ascending, as are the hits kept from
    it, and so is every list of such hits in comparator order.  Whatever order
    the sort returns, the kept hits hold at most one hit per key (object
    uuid, index, instanceId), are taken from the sorted list in its order,
    a hit that follows a hit of the same key is dropped, and the first hit
    of an id is kept. *)
Theorem intersect_hits_sorted_deduplicated
    (intersectObject : NgtDomEvent -> Object3D -> list Intersection)
    (event : NgtDomEvent) (eventsObjects : list Object3D) :
  let raw := rawHits intersectObject event eventsObjects in
  let sorted := sortedHits intersectObject event eventsObjects in
  (forall a b sa sb,
      getLocalState (object a) = Some sa -> getLocalState (object b) = Some sb ->
      (compareHits a b <= 0 <->
       events_priority (store sb) < events_priority (store sa)
       \/ (events_priority (store sa) = events_priority (store sb)
           /\ distance a <= distance b))) /\
  (forall a b,
      getLocalState (object a) = None \/ getLocalState (object b) = None ->
      compareHits a b = distance a - distance b) /\
  Permutation raw sorted /\
  collectHits intersectObject event eventsObjects = filterDuplicates [] sorted /\
  (Forall hasLocalState raw ->
   StronglySorted (fun a b => compareHits a b <= 0) sorted
   /\ StronglySorted hit_order sorted
   /\ StronglySorted hit_order (fst (collectHits intersectObject event eventsObjects))) /\
  (forall order,
      Forall hasLocalState order ->
      StronglySorted (fun a b => compareHits a b <= 0) order ->
      StronglySorted hit_order order
      /\ StronglySorted hit_order (fst (filterDuplicates [] order))) /\
  (forall order,
      let kept := fst (filterDuplicates [] order) in
      List.NoDup (List.map dedupKey kept) /\
      (forall h, In h kept -> In h order) /\
      (forall R, StronglySorted R order -> StronglySorted R kept) /\
      (forall l1 a l2 b l3,
          order = l1 ++ a :: l2 ++ b :: l3 ->
          dedupKey a = dedupKey b ->
          filterDuplicates [] order = filterDuplicates [] (l1 ++ a :: l2 ++ l3)) /\
      (forall l1 a l2,
          order = l1 ++ a :: l2 ->
          (forall x, In x l1 -> makeId_hit x <> makeId_hit a) ->
          In a kept)).
Proof.
  intros raw sorted.
  split; [exact compareHits_stateful|]. split; [exact compareHits_stateless|].
  split; [apply Array_sort_Permutation|]. split; [reflexivity|]. split; [|split].
  - intros Hst.
    assert (Hs : Forall hasLocalState sorted)
      by exact (Permutation_Forall (Array_sort_Permutation compareHits raw) Hst).
    pose proof (Array_sort_sorted raw Hst) as Ho.
    split; [|split; [exact Ho|now apply filterDuplicates_sorted]].
    refine (StronglySorted_impl hasLocalState hit_order _ _ _ Hs Ho).
    intros a b. apply hit_order_compareHits.
  - intros order Hst Hs.
    assert (Ho : StronglySorted hit_order order).
    { refine (StronglySorted_impl hasLocalState _ hit_order _ _ Hst Hs).
      intros a b. apply compareHits_le. }
    split; [exact Ho|now apply filterDuplicates_sorted].
  - intros order kept. subst kept. split; [|split; [|split; [|split]]].
    + pose proof (filterDuplicates_NoDup [] order) as Hnd.
      assert (Hf : forall l, List.map makeId_hit l
                   = List.map (fun k => (((fst (fst k) ++ "/") ++ js_string (snd (fst k)))
                                          ++ js_string (snd k))%string)
                              (List.map dedupKey l)).
      { intros l. rewrite List.map_map. apply List.map_ext. reflexivity. }
      rewrite Hf in Hnd. eapply List.NoDup_map_inv. exact Hnd.
    + intros h Hh. now apply filterDuplicates_In in Hh.
    + intros R. apply filterDuplicates_sorted.
    + intros l1 a l2 b l3 -> Hk. apply filterDuplicates_later. now apply makeId_hit_of_key.
    + intros l1 a l2 -> Hl1. now apply filterDuplicates_first.
Qed.

(** The two layers of the example: [ex_Y] (priority 2) comes before
    [ex_X] (priority 1), whose second hit is dropped. *)
Lemma intersect_hits_example :
  Forall hasLocalState (rawHits ex_cast_layers ex_event [ex_X; ex_Y]) /\
  fst (collectHits ex_cast_layers ex_event [ex_X; ex_Y]) = [ex_hit ex_Y 3; ex_hit ex_X 1].
Proof.
  split.
  - vm_compute. repeat constructor; eexists; reflexivity.
  - vm_compute. reflexivity.
Qed.

(** C3, as stated, fails: a hit on an object without local state is
    compared by distance alone.  [ex_W] belongs to the layer of priority 2
    and [ex_X] to the layer of priority 1; the comparator puts the hit on
    [ex_X], the nearer one, first, and so it comes first in the hits
    kept. *)
Lemma intersect_hits_not_sorted_by_priority :
  rawHits ex_cast_child ex_event [ex_X; ex_Y] = [ex_hit ex_X 1; ex_hit ex_W 2] /\
  compareHits (ex_hit ex_X 1) (ex_hit ex_W 2) < 0 /\
  0 < compareHits (ex_hit ex_W 2) (ex_hit ex_X 1) /\
  fst (collectHits ex_cast_child ex_event [ex_X; ex_Y]) = [ex_hit ex_X 1; ex_hit ex_W 2] /\
  hitPriority (ex_hit ex_X 1) = Some 1 /\
  hitPriority (ex_hit ex_W 2) = Some 2 /\
  ~ StronglySorted hit_order (fst (collectHits ex_cast_child ex_event [ex_X; ex_Y])).
Proof.
  assert (E : fst (collectHits ex_cast_child ex_event [ex_X; ex_Y])
              = [ex_hit ex_X 1; ex_hit ex_W 2]) by (vm_compute; reflexivity).
  split; [reflexivity|]. split; [reflexivity|]. split; [reflexivity|].
  split; [exact E|]. split; [reflexivity|]. split; [reflexivity|].
  rewrite E. intros H.
  apply StronglySorted_inv in H as [_ H]. apply Forall_cons_iff in H as [H _].
  vm_compute in H. destruct H as [H|[H _]]; discriminate.
Qed.

(** With such a hit in between the comparator is not consistent: it puts
    [ex_X] before [ex_Z] and [ex_Z] before [ex_Y] by distance, and [ex_Y]
    before [ex_X] by priority.  No order of the three hits agrees with it
    on every pair. *)
Lemma compareHits_not_consistent :
  compareHits (ex_hit ex_X 1) (ex_hit ex_Z 2) < 0 /\
  compareHits (ex_hit ex_Z 2) (ex_hit ex_Y 3) < 0 /\
  compareHits (ex_hit ex_Y 3) (ex_hit ex_X 1) < 0 /\
  forall order,
    Permutation [ex_hit ex_X 1; ex_hit ex_Z 2; ex_hit ex_Y 3] order ->
    ~ StronglySorted (fun a b => compareHits a b <= 0) order.
Proof.
  split; [reflexivity|]. split; [reflexivity|]. split; [reflexivity|].
  intros order Hp Hs.
  assert (HX : In (ex_hit ex_X 1) order) by (apply (Permutation_in _ Hp); simpl; auto).
  assert (HZ : In (ex_hit ex_Z 2) order) by (apply (Permutation_in _ Hp); simpl; auto).
  assert (HY : In (ex_hit ex_Y 3) order) by (apply (Permutation_in _ Hp); simpl; auto).
  destruct order as [|a l]; [destruct HX|].
  apply StronglySorted_inv in Hs as [_ Hfa]. rewrite List.Forall_forall in Hfa.
  assert (Hcases : a = ex_hit ex_X 1 \/ a = ex_hit ex_Z 2 \/ a = ex_hit ex_Y 3).
  { apply Permutation_sym in Hp. pose proof (Permutation_in a Hp (or_introl eq_refl)) as H.
    simpl in H. intuition. }
  destruct Hcases as [E|[E|E]]; subst a.
  - destruct HY as [HY|HY]; [discriminate HY|]. specialize (Hfa _ HY).
    vm_compute in Hfa. now apply Hfa.
  - destruct HX as [HX|HX]; [discriminate HX|]. specialize (Hfa _ HX).
    vm_compute in Hfa. now apply Hfa.
  - destruct HZ as [HZ|HZ]; [discriminate HZ|]. specialize (Hfa _ HZ).
    vm_compute in Hfa. now apply Hfa.
Qed.

(** ** Laws of the JS Map operations *)

Section JsMapLaws.
Context {K V : Type} (eqb : K -> K -> bool).
Hypothesis eqb_refl : forall a, eqb a a = true.
Hypothesis eqb_sym : forall a b, eqb a b = eqb b a.
Hypothesis eqb_trans : forall a b c, eqb a b = true -> eqb b c = true -> eqb a c = true.

Lemma eqb_true_l a b c : eqb a b = true -> eqb c a = eqb c b.
Proof.
  intros Hab. destruct (eqb c b) eqn:Hcb.
  - apply (eqb_trans c b a); [exact Hcb|]. now rewrite eqb_sym.
  - destruct (eqb c a) eqn:Hca; [|reflexivity].
    rewrite <- Hcb. symmetry. now apply (eqb_trans c a b).
Qed.

Lemma Map_get_set k k' (v : V) m :
  Map_get eqb k (Map_set eqb k' v m) = if eqb k k' then Some v else Map_get eqb k m.
Proof.
  induction m as [|[k'' v''] m IH]; simpl.
  - reflexivity.
  - destruct (eqb k' k'') eqn:E; simpl.
    + rewrite <- (eqb_true_l k' k'' k E). now destruct (eqb k k').
    + rewrite IH. destruct (eqb k k'') eqn:E2; [|reflexivity].
      destruct (eqb k k') eqn:E3; [|reflexivity].
      rewrite eqb_sym in E3. rewrite (eqb_trans k' k k'' E3 E2) in E. discriminate.
Qed.

Lemma Map_get_delete k k' (m : list (K * V)) :
  Map_get eqb k (Map_delete eqb k' m) = if eqb k k' then None else Map_get eqb k m.
Proof.
  induction m as [|[k'' v''] m IH]; simpl.
  - now destruct (eqb k k').
  - destruct (eqb k' k'') eqn:E; simpl.
    + rewrite IH. rewrite <- (eqb_true_l k' k'' k E). now destruct (eqb k k').
    + rewrite IH. destruct (eqb k k'') eqn:E2; [|reflexivity].
      destruct (eqb k k') eqn:E3; [|reflexivity].
      rewrite eqb_sym in E3. rewrite (eqb_trans k' k k'' E3 E2) in E. discriminate.
Qed.

Lemma Map_get_In k (m : list (K * V)) v :
  Map_get eqb k m = Some v -> exists k', In (k', v) m /\ eqb k k' = true.
Proof.
  induction m as [|[k'' v''] m IH]; simpl; [discriminate|].
  destruct (eqb k k'') eqn:E.
  - intros [= ->]. exists k''. auto.
  - intros H. destruct (IH H) as [k' [H1 H2]]. exists k'. auto.
Qed.

Lemma Map_has_In k (v : V) m : In (k, v) m -> Map_has eqb k m = true.
Proof.
  unfold Map_has. induction m as [|[k'' v''] m IH]; simpl; [tauto|].
  intros [[= -> ->]|H].
  - now rewrite eqb_refl.
  - destruct (eqb k k''); [reflexivity|auto].
Qed.

Lemma Map_delete_In k kv (m : list (K * V)) :
  In kv (Map_delete eqb k m) <-> In kv m /\ eqb k (fst kv) = false.
Proof.
  unfold Map_delete. rewrite filter_In. now rewrite negb_true_iff.
Qed.

Lemma Map_delete_absent k (m : list (K * V)) :
  (forall kv, In kv m -> eqb k (fst kv) = false) -> Map_delete eqb k m = m.
Proof.
  induction m as [|kv m IH]; simpl; intros H; [reflexivity|].
  rewrite (H kv) by now left. simpl. f_equal. apply IH. intros. apply H. now right.
Qed.

Lemma Map_delete_app k (m1 m2 : list (K * V)) :
  Map_delete eqb k (m1 ++ m2) = Map_delete eqb k m1 ++ Map_delete eqb k m2.
Proof. unfold Map_delete. apply List.filter_app. Qed.
End JsMapLaws.

Lemma same_refl a : same a a = true.
Proof. apply Nat.eqb_refl. Qed.

Lemma same_sym a b : same a b = same b a.
Proof. apply Nat.eqb_sym. Qed.

Lemma same_trans a b c : same a b = true -> same b c = true -> same a c = true.
Proof. unfold same. rewrite !Nat.eqb_eq. congruence. Qed.

Lemma Zeqb_trans a b c : Z.eqb a b = true -> Z.eqb b c = true -> Z.eqb a c = true.
Proof. rewrite !Z.eqb_eq. congruence. Qed.

Lemma String_eqb_trans a b c :
  String.eqb a b = true -> String.eqb b c = true -> String.eqb a c = true.
Proof. rewrite !String.eqb_eq. congruence. Qed.

Lemma Zmap_get_set {V} k k' (v : V) m :
  Map_get Z.eqb k (Map_set Z.eqb k' v m) = if Z.eqb k k' then Some v else Map_get Z.eqb k m.
Proof. apply Map_get_set; [apply Z.eqb_sym | apply Zeqb_trans]. Qed.

Lemma Zmap_get_delete {V} k k' (m : list (Z * V)) :
  Map_get Z.eqb k (Map_delete Z.eqb k' m) = if Z.eqb k k' then None else Map_get Z.eqb k m.
Proof. apply Map_get_delete; [apply Z.eqb_sym | apply Zeqb_trans]. Qed.

Lemma Omap_get_set {V} k k' (v : V) m :
  Map_get same k (Map_set same k' v m) = if same k k' then Some v else Map_get same k m.
Proof. apply Map_get_set; [apply same_sym | apply same_trans]. Qed.

Lemma Omap_get_delete {V} k k' (m : list (Object3D * V)) :
  Map_get same k (Map_delete same k' m) = if same k k' then None else Map_get same k m.
Proof. apply Map_get_delete; [apply same_sym | apply same_trans]. Qed.

Lemma Smap_get_set {V} k k' (v : V) m :
  Map_get String.eqb k (Map_set String.eqb k' v m)
  = if String.eqb k k' then Some v else Map_get String.eqb k m.
Proof. apply Map_get_set; [apply String.eqb_sym | apply String_eqb_trans]. Qed.

Lemma Smap_get_delete {V} k k' (m : list (string * V)) :
  Map_get String.eqb k (Map_delete String.eqb k' m)
  = if String.eqb k k' then None else Map_get String.eqb k m.
Proof. apply Map_get_delete; [apply String.eqb_sym | apply String_eqb_trans]. Qed.

(** ** Capture bookkeeping *)

Lemma Map_set_nonempty {K V} (eqb : K -> K -> bool) k (v : V) m : Map_set eqb k v m <> [].
Proof. destruct m as [|[k' v'] m]; simpl; [discriminate|]. now destruct (eqb k k'). Qed.

Lemma release_get cm obj captures id id' :
  Map_get Z.eqb id cm = Some captures ->
  Map_get Z.eqb id' (fst (releaseInternalPointerCapture cm obj captures id))
  = if Z.eqb id' id
    then match Map_get same obj captures with
         | Some _ => match Map_delete same obj captures with
                     | [] => None
                     | c => Some c
                     end
         | None => Some captures
         end
    else Map_get Z.eqb id' cm.
Proof.
  intros Hget. unfold releaseInternalPointerCapture.
  destruct (Map_get same obj captures) as [cd|].
  - destruct (Map_delete same obj captures) as [|c cs]; simpl.
    + apply Zmap_get_delete.
    + apply Zmap_get_set.
  - simpl. destruct (Z.eqb_spec id' id); [now subst|reflexivity].
Qed.

Lemma release_effects cm obj captures id e :
  In e (snd (releaseInternalPointerCapture cm obj captures id)) <->
  exists captureData,
    Map_get same obj captures = Some captureData /\
    Map_delete same obj captures = [] /\
    e = ElementReleasePointerCapture (capture_target captureData) id.
Proof.
  unfold releaseInternalPointerCapture.
  destruct (Map_get same obj captures) as [cd|].
  - destruct (Map_delete same obj captures) as [|c cs]; simpl.
    + split.
      * intros [<-|[]]. now exists cd.
      * intros [cd' [[= <-] [_ ->]]]. now left.
    + split; [tauto|]. intros [cd' [_ [H _]]]. discriminate.
  - simpl. split; [tauto|]. intros [cd' [H _]]. discriminate.
Qed.

Lemma release_nonempty cm obj captures id :
  Map_get Z.eqb id cm = Some captures ->
  captures_nonempty cm ->
  captures_nonempty (fst (releaseInternalPointerCapture cm obj captures id)).
Proof.
  intros Hget Hinv id' c. rewrite (release_get _ _ _ _ _ Hget).
  destruct (Z.eqb_spec id' id) as [->|Hne].
  - destruct (Map_get same obj captures).
    + destruct (Map_delete same obj captures); [discriminate|]. now intros [= <-].
    + intros [= <-]. now apply (Hinv id).
  - apply Hinv.
Qed.

Lemma setPointerCapture_nonempty h event id cm :
  captures_nonempty cm -> captures_nonempty (fst (setPointerCapture h event id cm)).
Proof.
  intros Hinv id' c. unfold setPointerCapture. simpl.
  destruct (Map_get Z.eqb id cm) as [captures|]; rewrite Zmap_get_set;
    (destruct (Z.eqb id' id); [intros [= <-] | apply Hinv]).
  - apply Map_set_nonempty.
  - discriminate.
Qed.

Lemma releaseAll_nonempty obj todo cm :
  captures_nonempty cm -> captures_nonempty (fst (releaseAll obj todo cm)).
Proof.
  revert cm. induction todo as [|id todo IH]; simpl; intros cm Hinv; [exact Hinv|].
  destruct (Map_get Z.eqb id cm) as [captures|] eqn:Hget; [|now apply IH].
  pose proof (release_nonempty cm obj captures id Hget Hinv) as H1.
  destruct (releaseInternalPointerCapture cm obj captures id) as [cm1 es1].
  specialize (IH cm1 H1). destruct (releaseAll obj todo cm1) as [cm2 es2]. exact IH.
Qed.

Lemma captureStep_nonempty op cm :
  captures_nonempty cm -> captures_nonempty (fst (captureStep op cm)).
Proof.
  destruct op as [h event id|h id|obj]; simpl; intros Hinv.
  - now apply setPointerCapture_nonempty.
  - unfold releasePointerCapture.
    destruct (Map_get Z.eqb id cm) eqn:Hget; [now apply release_nonempty|exact Hinv].
  - now apply releaseAll_nonempty.
Qed.

Lemma captureRun_nonempty ops cm :
  captures_nonempty cm -> captures_nonempty (fst (captureRun ops cm)).
Proof.
  revert cm. induction ops as [|op ops IH]; simpl; intros cm Hinv; [exact Hinv|].
  pose proof (captureStep_nonempty op cm Hinv) as H1.
  destruct (captureStep op cm) as [cm1 es1].
  specialize (IH cm1 H1). destruct (captureRun ops cm1) as [cm2 es2]. exact IH.
Qed.

Lemma sole_capturer_release cm obj captures id t pid :
  Map_get Z.eqb id cm = Some captures ->
  In (ElementReleasePointerCapture t pid)
     (snd (releaseInternalPointerCapture cm obj captures id))
  <-> pid = id /\ sole_capturer obj pid t cm.
Proof.
  intros Hget. rewrite release_effects. unfold sole_capturer. split.
  - intros [cd [H1 [H2 [= -> ->]]]]. split; [reflexivity|]. now exists captures, cd.
  - intros [-> [captures' [cd [H0 [H1 [H2 <-]]]]]].
    rewrite Hget in H0. injection H0 as <-. now exists cd.
Qed.

Lemma sole_capturer_after cm obj captures id pid t :
  Map_get Z.eqb id cm = Some captures ->
  sole_capturer obj pid t (fst (releaseInternalPointerCapture cm obj captures id))
  <-> pid <> id /\ sole_capturer obj pid t cm.
Proof.
  intros Hget. unfold sole_capturer. split.
  - intros [c [cd [H0 H1]]]. rewrite (release_get _ _ _ _ _ Hget) in H0.
    destruct (Z.eqb_spec pid id) as [->|Hne].
    + exfalso. destruct (Map_get same obj captures) as [cd'|] eqn:Hobj.
      * destruct (Map_delete same obj captures) as [|x xs] eqn:Hdel; [discriminate|].
        injection H0 as <-. destruct H1 as [H1 _]. rewrite <- Hdel in H1.
        rewrite Omap_get_delete, same_refl in H1. discriminate.
      * injection H0 as <-. destruct H1 as [H1 _]. congruence.
    + split; [exact Hne|]. now exists c, cd.
  - intros [Hne [c [cd [H0 H1]]]]. exists c, cd. split; [|exact H1].
    rewrite (release_get _ _ _ _ _ Hget).
    destruct (Z.eqb_spec pid id); [contradiction|exact H0].
Qed.

Lemma releaseAll_effects obj todo cm t pid :
  In (ElementReleasePointerCapture t pid) (snd (releaseAll obj todo cm))
  <-> In pid todo /\ sole_capturer obj pid t cm.
Proof.
  revert cm. induction todo as [|id todo IH]; simpl; intros cm; [tauto|].
  destruct (Map_get Z.eqb id cm) as [captures|] eqn:Hget.
  - pose proof (sole_capturer_release cm obj captures id t pid Hget) as Hnow.
    pose proof (sole_capturer_after cm obj captures id pid t Hget) as Hlater.
    destruct (releaseInternalPointerCapture cm obj captures id) as [cm1 es1].
    specialize (IH cm1). destruct (releaseAll obj todo cm1) as [cm2 es2].
    simpl in *. rewrite in_app_iff, Hnow, IH, Hlater.
    destruct (Z.eq_dec pid id) as [->|Hne]; [tauto|].
    split; [intros [[? _]|[? [_ ?]]]; [contradiction|tauto]|].
    intros [[?|?] ?]; [congruence|tauto].
  - rewrite IH. split; [tauto|]. intros [[->|H] Hs]; [|tauto].
    destruct Hs as [c [cd [H0 _]]]. congruence.
Qed.

Lemma captureStep_effects op cm t pid :
  In (ElementReleasePointerCapture t pid) (snd (captureStep op cm))
  <-> exists obj, released op pid = Some obj /\ sole_capturer obj pid t cm.
Proof.
  destruct op as [h event id|h id|obj]; simpl.
  - split; [intros [H|[]]; discriminate|]. intros [obj [H _]]. discriminate.
  - unfold releasePointerCapture.
    destruct (Map_get Z.eqb id cm) as [captures|] eqn:Hget.
    + rewrite (sole_capturer_release _ _ _ _ _ _ Hget). split.
      * intros [-> H]. exists (eventObject h). now rewrite Z.eqb_refl.
      * intros [obj [H1 H2]]. destruct (Z.eqb_spec id pid) as [->|]; [|discriminate].
        injection H1 as <-. auto.
    + simpl. split; [tauto|]. intros [obj [H1 [c [cd [H2 _]]]]].
      destruct (Z.eqb_spec id pid) as [->|]; [congruence|discriminate].
  - rewrite releaseAll_effects. split.
    + intros [_ H]. now exists obj.
    + intros [obj' [[= <-] H]]. split; [|exact H].
      destruct H as [c [cd [H0 _]]].
      apply Map_get_In in H0 as [k' [Hin Hk]]. apply Z.eqb_eq in Hk as ->.
      unfold Map_keys. apply in_map_iff. now exists (k', c).
Qed.

(** An object that does not hold the capture alone is not the last one. *)
Lemma sole_capturer_other obj other id t cm captures :
  Map_get Z.eqb id cm = Some captures ->
  Map_has same other captures = true -> same other obj = false ->
  ~ sole_capturer obj id t cm.
Proof.
  intros Hget Hother Hne [c [cd [H0 [_ [Hdel _]]]]].
  rewrite Hget in H0. injection H0 as <-.
  pose proof (Omap_get_delete other obj captures) as Hd.
  rewrite Hne, Hdel in Hd. unfold Map_has in Hother. rewrite <- Hd in Hother.
  discriminate.
Qed.

(** C10.  From a capture map in which every pointer id has a capturing
    object, any sequence of [setPointerCapture], [releasePointerCapture] and
    [removeInteractivity] leads to such a map again; and in the map reached,
    an operation calls [releasePointerCapture(id)] on the platform target
    exactly when the object it takes out is the only one capturing [id],
    never while another object still holds the capture. *)
Theorem capture_bookkeeping_invariant (ops : list CaptureOp) (cm : CapturedMap) :
  captures_nonempty cm ->
  captures_nonempty (fst (captureRun ops cm)) /\
  (forall op t id,
      In (ElementReleasePointerCapture t id) (snd (captureStep op (fst (captureRun ops cm))))
      <-> exists obj, released op id = Some obj
                      /\ sole_capturer obj id t (fst (captureRun ops cm))) /\
  (forall op obj other id captures t,
      released op id = Some obj ->
      Map_get Z.eqb id (fst (captureRun ops cm)) = Some captures ->
      Map_has same other captures = true -> same other obj = false ->
      ~ In (ElementReleasePointerCapture t id)
           (snd (captureStep op (fst (captureRun ops cm))))).
Proof.
  intros Hinv. split; [now apply captureRun_nonempty|]. split.
  - intros op t id. apply captureStep_effects.
  - intros op obj other id captures t Hrel Hget Hother Hne Hin.
    apply captureStep_effects in Hin as [obj' [Hrel' Hsole]].
    rewrite Hrel in Hrel'. injection Hrel' as <-.
    exact (sole_capturer_other obj other id t _ captures Hget Hother Hne Hsole).
Qed.

(** The theorem from the empty map: after [ex_capture_ops] pointer 7 is
    still captured, by [ex_Y]. *)
Lemma capture_bookkeeping_invariant_witness :
  captures_nonempty [] /\
  captures_nonempty (fst (captureRun ex_capture_ops [])) /\
  Map_keys (fst (captureRun ex_capture_ops [])) = [7].
Proof.
  assert (H : captures_nonempty []) by (intros id c Hc; discriminate).
  split; [exact H|]. split.
  - exact (proj1 (capture_bookkeeping_invariant ex_capture_ops [] H)).
  - vm_compute. reflexivity.
Defined.

(** The closures of an event and [removeInteractivity] act on the capture
    map of their store as [captureStep] does. *)
Lemma runAction_setPointerCapture rootState event higher id d :
  let n := internal (stateOf rootState (ev_hit (raycastEvent d))) in
  capturedMap (internals (world (runAction rootState event higher (SetPointerCapture id) d)) n)
  = fst (captureStep (OpSetPointerCapture (ev_hit (raycastEvent d)) event id)
                     (capturedMap (internals (world d) n))).
Proof.
  simpl. unfold update_internal. simpl. now rewrite Nat.eqb_refl.
Qed.

Lemma runAction_releasePointerCapture rootState event higher id d :
  let n := internal (stateOf rootState (ev_hit (raycastEvent d))) in
  capturedMap (internals (world (runAction rootState event higher (ReleasePointerCapture id) d)) n)
  = fst (captureStep (OpReleasePointerCapture (ev_hit (raycastEvent d)) id)
                     (capturedMap (internals (world d) n))).
Proof.
  simpl.
  destruct (releasePointerCapture (ev_hit (raycastEvent d)) id
              (capturedMap (internals (world d)
                 (internal (stateOf rootState (ev_hit (raycastEvent d))))))) as [cm es].
  simpl. now rewrite Nat.eqb_refl.
Qed.

Lemma removeInteractivity_captures store obj w :
  capturedMap (internals (removeInteractivity store obj w) (internal store))
  = fst (captureStep (OpRemoveInteractivity obj) (capturedMap (internals w (internal store))))
  /\ effects (removeInteractivity store obj w)
     = effects w ++ snd (captureStep (OpRemoveInteractivity obj)
                            (capturedMap (internals w (internal store)))).
Proof.
  unfold removeInteractivity. simpl. rewrite !Nat.eqb_refl. simpl.
  destruct (releaseAll obj (Map_keys (capturedMap (internals w (internal store))))
              (capturedMap (internals w (internal store)))) as [cm es].
  simpl. now rewrite Nat.eqb_refl.
Qed.

(** ** removeInteractivity *)

Lemma Map_get_same {V} a b (m : list (Object3D * V)) :
  same a b = true -> Map_get same a m = Map_get same b m.
Proof.
  intros Hab. induction m as [|[k v] m IH]; simpl; [reflexivity|].
  rewrite IH. replace (same a k) with (same b k); [reflexivity|].
  rewrite (same_sym b k), (same_sym a k).
  symmetry. apply (eqb_true_l same same_sym same_trans a b k Hab).
Qed.

Lemma Map_get_not_key {V} id (m : list (Z * V)) :
  ~ In id (Map_keys m) -> Map_get Z.eqb id m = None.
Proof.
  intros Hn. destruct (Map_get Z.eqb id m) as [v|] eqn:E; [|reflexivity].
  apply Map_get_In in E as [k' [Hin Hk]]. apply Z.eqb_eq in Hk as ->.
  exfalso. apply Hn. unfold Map_keys. apply in_map_iff. now exists (k', v).
Qed.

Lemma release_captureOf cm obj captures id id' o :
  Map_get Z.eqb id cm = Some captures ->
  captureOf id' o (fst (releaseInternalPointerCapture cm obj captures id))
  = if Z.eqb id' id && same o obj then None else captureOf id' o cm.
Proof.
  intros Hget. unfold captureOf. rewrite (release_get _ _ _ _ _ Hget).
  destruct (Z.eqb_spec id' id) as [->|Hne]; simpl; [|reflexivity].
  rewrite Hget.
  pose proof (Omap_get_delete o obj captures) as Hd.
  destruct (Map_get same obj captures) as [cd|] eqn:Hobj.
  - destruct (Map_delete same obj captures) as [|c cs].
    + simpl in Hd. destruct (same o obj); [reflexivity|now rewrite <- Hd].
    + rewrite Hd. reflexivity.
  - destruct (same o obj) eqn:Ho; [|reflexivity].
    now rewrite (Map_get_same o obj captures Ho).
Qed.

Lemma releaseAll_captureOf obj todo cm id' o :
  captureOf id' o (fst (releaseAll obj todo cm))
  = if same o obj && existsb (Z.eqb id') todo then None else captureOf id' o cm.
Proof.
  revert cm. induction todo as [|id todo IH]; simpl; intros cm.
  - now rewrite andb_false_r.
  - destruct (Map_get Z.eqb id cm) as [captures|] eqn:Hget.
    + pose proof (release_captureOf cm obj captures id id' o Hget) as H1.
      destruct (releaseInternalPointerCapture cm obj captures id) as [cm1 es1].
      specialize (IH cm1). destruct (releaseAll obj todo cm1) as [cm2 es2].
      simpl in *. rewrite IH, H1.
      destruct (same o obj), (Z.eqb id' id), (existsb (Z.eqb id') todo); reflexivity.
    + rewrite IH. destruct (Z.eqb_spec id' id) as [->|Hne]; simpl; [|reflexivity].
      unfold captureOf. rewrite Hget.
      destruct (same o obj), (existsb (Z.eqb id) todo); reflexivity.
Qed.

Lemma removeHovered_filter obj done todo :
  List.NoDup (Map_keys (done ++ todo)) ->
  removeHovered obj todo (done ++ todo)
  = done ++ List.filter (fun kv => negb (hoveredOn obj (snd kv))) todo.
Proof.
  revert done. induction todo as [|[key value] todo IH]; simpl; intros done Hnd.
  - reflexivity.
  - rewrite (Map_has_In String.eqb String.eqb_refl key value)
      by (apply in_or_app; right; now left).
    fold (hoveredOn obj value).
    assert (Hnd' : List.NoDup (Map_keys ((done ++ [(key, value)]) ++ todo)))
      by now rewrite <- app_assoc.
    destruct (hoveredOn obj value); simpl.
    + rewrite (Map_delete_app String.eqb). simpl. rewrite String.eqb_refl. simpl.
      unfold Map_keys in Hnd. rewrite List.map_app in Hnd. simpl in Hnd.
      pose proof (NoDup_remove_2 _ _ _ Hnd) as Hnotin.
      apply NoDup_remove_1 in Hnd.
      rewrite !(Map_delete_absent String.eqb).
      * apply IH. unfold Map_keys. now rewrite List.map_app.
      * intros kv Hkv. apply String.eqb_neq. intros ->. apply Hnotin.
        apply in_or_app. right. now apply in_map.
      * intros kv Hkv. apply String.eqb_neq. intros ->. apply Hnotin.
        apply in_or_app. left. now apply in_map.
    + specialize (IH (done ++ [(key, value)]) Hnd').
      rewrite <- !app_assoc in IH. exact IH.
Qed.

(** C7.  After [removeInteractivity(store, object)] the object is absent
    from the interaction list and from [initialHits], every hovered entry
    whose [eventObject] or [object] is the object is deleted, and the
    object has no capture record under any pointer id; the other members
    of the lists, the other hovered entries, the capture records of other
    objects, the remaining fields and the other [internal] objects are as
    before.  ([hovered] is a Map: its keys are distinct.) *)
Theorem removeInteractivity_removes_every_trace (s : NgtState) (obj : Object3D) (w : World) :
  List.NoDup (Map_keys (hovered (internals w (internal s)))) ->
  let i := internals w (internal s) in
  let i' := internals (removeInteractivity s obj w) (internal s) in
  interaction i' = List.filter (fun o => negb (same o obj)) (interaction i) /\
  (forall o, In o (interaction i') -> same o obj = false) /\
  initialHits i' = List.filter (fun o => negb (same o obj)) (initialHits i) /\
  (forall o, In o (initialHits i') -> same o obj = false) /\
  hovered i' = List.filter (fun kv => negb (hoveredOn obj (snd kv))) (hovered i) /\
  (forall key value, In (key, value) (hovered i') ->
      same (eventObject (ev_hit value)) obj = false /\
      same (object (hit (ev_hit value))) obj = false) /\
  (forall id, captureOf id obj (capturedMap i') = None) /\
  (forall id other, same other obj = false ->
      captureOf id other (capturedMap i') = captureOf id other (capturedMap i)) /\
  initialClick i' = initialClick i /\ lastEvent i' = lastEvent i /\
  (forall m, m <> internal s ->
      internals (removeInteractivity s obj w) m = internals w m).
Proof.
  intros Hnd i i'.
  assert (Hi' : i' = {| interaction := List.filter (fun o => negb (same o obj)) (interaction i);
                        initialHits := List.filter (fun o => negb (same o obj)) (initialHits i);
                        initialClick := initialClick i;
                        hovered := removeHovered obj (hovered i) (hovered i);
                        capturedMap := fst (releaseAll obj (Map_keys (capturedMap i)) (capturedMap i));
                        lastEvent := lastEvent i |}).
  { subst i i'. unfold removeInteractivity. simpl. rewrite !Nat.eqb_refl. simpl.
    destruct (releaseAll obj (Map_keys (capturedMap (internals w (internal s))))
                (capturedMap (internals w (internal s)))) as [cm es].
    simpl. now rewrite Nat.eqb_refl. }
  assert (Hhov : removeHovered obj (hovered i) (hovered i)
                 = List.filter (fun kv => negb (hoveredOn obj (snd kv))) (hovered i))
    by exact (removeHovered_filter obj [] (hovered i) Hnd).
  rewrite Hi'. simpl. rewrite Hhov.
  repeat split.
  - intros o Ho. apply filter_In in Ho as [_ Ho]. now apply negb_true_iff in Ho.
  - intros o Ho. apply filter_In in Ho as [_ Ho]. now apply negb_true_iff in Ho.
  - apply filter_In in H as [_ H]. apply negb_true_iff in H.
    unfold hoveredOn in H. simpl in H. now apply orb_false_iff in H.
  - apply filter_In in H as [_ H]. apply negb_true_iff in H.
    unfold hoveredOn in H. simpl in H. now apply orb_false_iff in H.
  - intros id. rewrite releaseAll_captureOf, same_refl. simpl.
    destruct (existsb (Z.eqb id) (Map_keys (capturedMap i))) eqn:E; [reflexivity|].
    unfold captureOf. rewrite Map_get_not_key; [reflexivity|].
    intros Hin. assert (existsb (Z.eqb id) (Map_keys (capturedMap i)) = true); [|congruence].
    apply existsb_exists. exists id. split; [exact Hin|apply Z.eqb_refl].
  - intros id other Hne. now rewrite releaseAll_captureOf, Hne.
  - intros m Hm. unfold removeInteractivity. simpl. rewrite !Nat.eqb_refl. simpl.
    destruct (releaseAll obj (Map_keys (capturedMap (internals w (internal s))))
                (capturedMap (internals w (internal s)))) as [cm es].
    simpl. apply Nat.eqb_neq in Hm. now rewrite Hm.
Qed.

(** The theorem at [ex_world]: removing [ex_X] leaves the hovered entry of
    [ex_Y] only. *)
Lemma removeInteractivity_removes_every_trace_witness :
  List.NoDup (Map_keys (hovered (internals ex_world (internal (ex_layer 1))))) /\
  (forall o, In o (interaction (internals (removeInteractivity (ex_layer 1) ex_X ex_world)
                                          (internal (ex_layer 1)))) ->
             same o ex_X = false) /\
  Map_keys (hovered (internals (removeInteractivity (ex_layer 1) ex_X ex_world) 0))
    = [makeId (ex_on ex_Y 3 ex_Y)].
Proof.
  assert (H : List.NoDup (Map_keys (hovered (internals ex_world (internal (ex_layer 1)))))).
  { vm_compute. constructor; [|constructor; [|constructor]].
    - intros [E|[]]. discriminate.
    - intros []. }
  split; [exact H|]. split.
  - exact (proj1 (proj2
      (removeInteractivity_removes_every_trace (ex_layer 1) ex_X ex_world H))).
  - vm_compute. reflexivity.
Defined.

(** * The event manager *)

(** ** What the handlers leave of the event in hand *)

Lemma with_stopped_idem e : with_stopped true (with_stopped true e) = with_stopped true e.
Proof. reflexivity. Qed.

Lemma keeps_current_refl d : keeps_current d d.
Proof. split; [now left|auto]. Qed.

Lemma keeps_current_trans d1 d2 d3 :
  keeps_current d1 d2 -> keeps_current d2 d3 -> keeps_current d1 d3.
Proof.
  intros [H1 F1] [H2 F2]. split; [|auto].
  destruct H1 as [E1|E1], H2 as [E2|E2]; rewrite E2, E1; auto.
Qed.

Lemma keeps_current_same d d' :
  raycastEvent d' = raycastEvent d -> localState_stopped d' = localState_stopped d ->
  keeps_current d d'.
Proof. intros E F. split; [now left|now rewrite F]. Qed.

Lemma keeps_current_on_world f d : keeps_current d (on_world f d).
Proof. now apply keeps_current_same. Qed.

Lemma keeps_current_hit d d' :
  keeps_current d d' -> ev_hit (raycastEvent d') = ev_hit (raycastEvent d).
Proof. intros [[E|E] _]; now rewrite E. Qed.

Lemma keeps_current_id d d' :
  keeps_current d d' ->
  ev_id (raycastEvent d') = ev_id (raycastEvent d)
  /\ ev_localState (raycastEvent d') = ev_localState (raycastEvent d)
  /\ ev_index (raycastEvent d') = ev_index (raycastEvent d)
  /\ intersections (raycastEvent d') = intersections (raycastEvent d)
  /\ delta (raycastEvent d') = delta (raycastEvent d)
  /\ nativeEvent (raycastEvent d') = nativeEvent (raycastEvent d).
Proof. intros [[E|E] _]; now rewrite E. Qed.

Lemma keeps_current_stopped d d' :
  keeps_current d d' -> stopped (raycastEvent d) = true -> stopped (raycastEvent d') = true.
Proof. intros [[E|E] _] H; now rewrite E. Qed.

Section CurrentOpen.
Variable rootState : NgtState.
Variable cancel : list NgtIntersection -> Dispatch -> Dispatch.
Hypothesis cancel_current : forall ints d, keeps_current d (cancel ints d).

Lemma stopPropagationOf_current e event higher d :
  keeps_current d (stopPropagationOf rootState cancel e event higher d).
Proof.
  unfold stopPropagationOf. case_if; [|apply keeps_current_refl].
  match goal with
  | |- context [cancel _ ?d1] => assert (H1 : keeps_current d d1)
  end.
  { split; simpl.
    - destruct (Nat.eqb (ev_id e) (ev_id (raycastEvent d))); auto.
    - intros H. now destruct (Nat.eqb (ev_localState e) _). }
  case_if; [|exact H1].
  exact (keeps_current_trans _ _ _ H1 (cancel_current _ _)).
Qed.

Lemma runActionOf_current e event higher a d :
  keeps_current d (runActionOf rootState cancel e event higher a d).
Proof.
  destruct a as [|id|id]; simpl.
  - apply stopPropagationOf_current.
  - now apply keeps_current_same.
  - destruct (releasePointerCapture _ _ _). now apply keeps_current_same.
Qed.

Lemma scriptOf_current e event higher script d :
  keeps_current d
    (fold_left (fun d a => runActionOf rootState cancel e event higher a d) script d).
Proof.
  revert d. induction script as [|a script IH]; simpl; intros d; [apply keeps_current_refl|].
  exact (keeps_current_trans _ _ _ (runActionOf_current e event higher a d) (IH _)).
Qed.

Lemma invoke_current e event higher name hs data d :
  keeps_current d (invoke rootState cancel e event higher name hs data d).
Proof.
  unfold invoke. destruct (hs name) as [script|]; [|apply keeps_current_refl].
  exact (keeps_current_trans _ _ _ (keeps_current_on_world _ d) (scriptOf_current _ _ _ _ _)).
Qed.

Lemma cancelOne_current ints v d : keeps_current d (cancelOne rootState cancel ints v d).
Proof.
  unfold cancelOne. case_if; [|apply keeps_current_refl].
  destruct (getLocalState _) as [inst|]; [|apply keeps_current_on_world].
  case_if; [apply keeps_current_on_world|].
  refine (keeps_current_trans _ _ _ (keeps_current_on_world _ d) _).
  exact (keeps_current_trans _ _ _ (invoke_current _ _ _ _ _ _ _) (invoke_current _ _ _ _ _ _ _)).
Qed.

Lemma cancelLoop_current ints todo d : keeps_current d (cancelLoop rootState cancel ints todo d).
Proof.
  revert d. induction todo as [|key todo IH]; simpl; intros d; [apply keeps_current_refl|].
  destruct (Map_get String.eqb key _) as [v|]; [|apply IH].
  exact (keeps_current_trans _ _ _ (cancelOne_current ints v d) (IH _)).
Qed.
End CurrentOpen.

Lemma cancelPointerF_current rootState fuel ints d :
  keeps_current d (cancelPointerF rootState fuel ints d).
Proof.
  revert ints d. induction fuel as [|fuel IH]; intros ints d; simpl.
  - apply keeps_current_refl.
  - now apply cancelLoop_current.
Qed.

Lemma cancelPointerD_current rootState ints d :
  keeps_current d (cancelPointerD rootState ints d).
Proof. apply cancelPointerF_current. Qed.

Lemma stopPropagation_current rootState event higher d :
  keeps_current d (stopPropagation rootState event higher d).
Proof. apply stopPropagationOf_current, cancelPointerD_current. Qed.

Lemma runAction_current rootState event higher a d :
  keeps_current d (runAction rootState event higher a d).
Proof. apply runActionOf_current, cancelPointerD_current. Qed.

Lemma script_current rootState event higher script d :
  keeps_current d (fold_left (fun d a => runAction rootState event higher a d) script d).
Proof.
  revert d. induction script as [|a script IH]; simpl; intros d; [apply keeps_current_refl|].
  exact (keeps_current_trans _ _ _ (runAction_current rootState event higher a d) (IH _)).
Qed.

Lemma callHandler_current rootState event higher name hs d :
  keeps_current d (callHandler rootState event higher name hs d).
Proof.
  unfold callHandler. destruct (hs name) as [script|]; [|apply keeps_current_refl].
  exact (keeps_current_trans _ _ _ (keeps_current_on_world _ d) (script_current _ _ _ _ _)).
Qed.

Lemma onIntersect_current rootState name event higher d :
  keeps_current d (onIntersect rootState name event higher d).
Proof.
  unfold onIntersect.
  destruct (getLocalState _) as [inst|]; [|apply keeps_current_refl].
  case_if; [apply keeps_current_refl|].
  destruct (isPointerMove name).
  - refine (keeps_current_trans _ _ _ _ (callHandler_current _ _ _ _ _ _)).
    case_if; [|apply keeps_current_refl].
    destruct (Map_get String.eqb _ _) as [item|].
    + destruct (stopped item); [apply stopPropagation_current|apply keeps_current_refl].
    + refine (keeps_current_trans _ _ _ (keeps_current_on_world _ d) _).
      exact (keeps_current_trans _ _ _ (callHandler_current _ _ _ _ _ _)
               (callHandler_current _ _ _ _ _ _)).
  - destruct (handlers inst name).
    + case_if; [|apply keeps_current_refl].
      exact (keeps_current_trans _ _ _ (keeps_current_on_world _ d)
               (callHandler_current _ _ _ _ _ _)).
    + case_if; [apply keeps_current_on_world|apply keeps_current_refl].
Qed.

(** ** What a run of the handlers keeps and what it may emit *)

Lemma extends_with_refl Q w : extends_with Q w w.
Proof. exists []. split; [now rewrite app_nil_r|constructor]. Qed.

Lemma extends_with_trans Q w1 w2 w3 :
  extends_with Q w1 w2 -> extends_with Q w2 w3 -> extends_with Q w1 w3.
Proof.
  intros [e1 [H1 C1]] [e2 [H2 C2]]. exists (e1 ++ e2). split.
  - now rewrite H2, H1, <- app_assoc.
  - apply Forall_app. now split.
Qed.

Lemma extends_with_emit (Q : Effect -> Prop) es w :
  Forall Q es -> extends_with Q w (emit es w).
Proof. intros H. now exists es. Qed.

Lemma extends_with_silent (Q : Effect -> Prop) w w' :
  effects w' = effects w -> extends_with Q w w'.
Proof. intros H. exists []. split; [now rewrite app_nil_r|constructor]. Qed.

Lemma pointerMissed_Forall (Q : Effect -> Prop) event objects :
  (forall obj, In obj objects -> Q (CallMissed obj event)) ->
  Forall Q (pointerMissed event objects).
Proof.
  intros H. unfold pointerMissed. apply List.Forall_forall. intros e He.
  apply in_flat_map in He as [obj [Hobj He]].
  destruct (getLocalState obj) as [inst|]; [|destruct He].
  destruct (handlers inst pointermissed); [|destruct He].
  destruct He as [<-|[]]. now apply H.
Qed.

Section CancelInvariant.
Variable rootState : NgtState.
(** An invariant of the world that the effect log does not touch and that
    the deletion of a hovered entry, the marking of an event and the capture
    closures keep. *)
Variable Inv : World -> Prop.
(** The effects a run may add. *)
Variable Q : Effect -> Prop.

Hypothesis Inv_emit : forall es w, Inv w -> Inv (emit es w).
Hypothesis Inv_delete : forall key w,
  Inv w ->
  Inv (update_internal (root rootState)
         (fun i => with_hovered (Map_delete String.eqb key (hovered i)) i) w).
Hypothesis Inv_mark : forall id w,
  Inv w ->
  Inv (update_internal (root rootState)
         (fun i => with_hovered (mark_stopped id (hovered i)) i) w).
Hypothesis Inv_set : forall n h event id w,
  Inv w ->
  Inv (update_internal n
         (with_capturedMap (fst (setPointerCapture h event id (capturedMap (internals w n)))))
         w).
Hypothesis Inv_release : forall n h id w,
  Inv w ->
  Inv (update_internal n
         (with_capturedMap (fst (releasePointerCapture h id (capturedMap (internals w n)))))
         w).
Hypothesis Q_drop : forall w key v ints,
  Inv w -> Map_get String.eqb key (hovered (internals w (root rootState))) = Some v ->
  Q (Call pointerout (with_intersections ints v))
  /\ Q (Call pointerleave (with_intersections ints v)).
Hypothesis Q_set : forall t id, Q (ElementSetPointerCapture t id).
Hypothesis Q_release : forall t id, Q (ElementReleasePointerCapture t id).

Section Open.
Variable cancel : list NgtIntersection -> Dispatch -> Dispatch.
Hypothesis cancel_inv : forall ints d,
  Inv (world d) ->
  Inv (world (cancel ints d)) /\ extends_with Q (world d) (world (cancel ints d)).

Lemma stopPropagationOf_inv e event higher d :
  Inv (world d) ->
  Inv (world (stopPropagationOf rootState cancel e event higher d))
  /\ extends_with Q (world d) (world (stopPropagationOf rootState cancel e event higher d)).
Proof.
  intros Hw. unfold stopPropagationOf.
  case_if; [|split; [exact Hw|apply extends_with_refl]].
  match goal with
  | |- context [cancel _ ?d1] => set (d1' := d1)
  end.
  assert (H1 : Inv (world d1')) by (subst d1'; simpl; now apply Inv_mark).
  assert (E1 : extends_with Q (world d) (world d1')) by now apply extends_with_silent.
  case_if; [|split; [exact H1|exact E1]].
  destruct (cancel_inv (higher ++ [ev_hit e]) d1' H1) as [H2 E2].
  split; [exact H2|exact (extends_with_trans _ _ _ _ E1 E2)].
Qed.

Lemma runActionOf_inv e event higher a d :
  Inv (world d) ->
  Inv (world (runActionOf rootState cancel e event higher a d))
  /\ extends_with Q (world d) (world (runActionOf rootState cancel e event higher a d)).
Proof.
  intros Hw. destruct a as [|id|id].
  - now apply stopPropagationOf_inv.
  - unfold runActionOf.
    pose proof (Inv_set (internal (stateOf rootState (ev_hit e)))
                  (ev_hit e) event id (world d) Hw) as Hset.
    assert (HQ : Forall Q (snd (setPointerCapture (ev_hit e) event id
                   (capturedMap (internals (world d)
                      (internal (stateOf rootState (ev_hit e)))))))).
    { unfold setPointerCapture. simpl. repeat constructor. apply Q_set. }
    destruct (setPointerCapture _ _ _ _) as [cm es]. cbn [fst snd world] in *. split.
    + apply Inv_emit. exact Hset.
    + refine (extends_with_trans _ _ _ _ _ (extends_with_emit _ _ _ HQ)).
      now apply extends_with_silent.
  - unfold runActionOf.
    pose proof (Inv_release (internal (stateOf rootState (ev_hit e)))
                  (ev_hit e) id (world d) Hw) as Hrel.
    assert (HQ : Forall Q (snd (releasePointerCapture (ev_hit e) id
                   (capturedMap (internals (world d)
                      (internal (stateOf rootState (ev_hit e)))))))).
    { unfold releasePointerCapture.
      destruct (Map_get Z.eqb id _) as [captures|]; [|constructor].
      unfold releaseInternalPointerCapture.
      destruct (Map_get same _ captures); [|constructor].
      destruct (Nat.eqb _ 0); simpl; repeat constructor. apply Q_release. }
    destruct (releasePointerCapture _ _ _) as [cm es]. cbn [fst snd world] in *. split.
    + apply Inv_emit. exact Hrel.
    + refine (extends_with_trans _ _ _ _ _ (extends_with_emit _ _ _ HQ)).
      now apply extends_with_silent.
Qed.

Lemma scriptOf_inv e event higher script d :
  Inv (world d) ->
  Inv (world (fold_left (fun d a => runActionOf rootState cancel e event higher a d)
                script d))
  /\ extends_with Q (world d)
       (world (fold_left (fun d a => runActionOf rootState cancel e event higher a d)
                 script d)).
Proof.
  revert d. induction script as [|a script IH]; simpl; intros d Hw.
  - split; [exact Hw|apply extends_with_refl].
  - destruct (runActionOf_inv e event higher a d Hw) as [H1 E1].
    destruct (IH _ H1) as [H2 E2].
    split; [exact H2|exact (extends_with_trans _ _ _ _ E1 E2)].
Qed.

Lemma invoke_inv e event higher name hs data d :
  Inv (world d) -> Q (Call name data) ->
  Inv (world (invoke rootState cancel e event higher name hs data d))
  /\ extends_with Q (world d) (world (invoke rootState cancel e event higher name hs data d)).
Proof.
  intros Hw HQ. unfold invoke.
  destruct (hs name) as [script|]; [|split; [exact Hw|apply extends_with_refl]].
  destruct (scriptOf_inv e event higher script (on_world (emit [Call name data]) d))
    as [H1 E1]; [simpl; now apply Inv_emit|].
  split; [exact H1|]. refine (extends_with_trans _ _ _ _ _ E1).
  simpl. apply extends_with_emit. now repeat constructor.
Qed.

Lemma cancelOne_inv ints key v d :
  Inv (world d) ->
  Map_get String.eqb key (hovered (internals (world d) (root rootState))) = Some v ->
  Inv (world (cancelOne rootState cancel ints v d))
  /\ extends_with Q (world d) (world (cancelOne rootState cancel ints v d)).
Proof.
  intros Hw Hget. unfold cancelOne.
  case_if; [|split; [exact Hw|apply extends_with_refl]].
  set (d1 := on_world _ d).
  assert (H1 : Inv (world d1)) by (subst d1; simpl; now apply Inv_delete).
  assert (E1 : extends_with Q (world d) (world d1)) by now apply extends_with_silent.
  destruct (getLocalState _) as [inst|]; [|now split].
  case_if; [now split|].
  destruct (Q_drop (world d) key v ints Hw Hget) as [Qout Qleave].
  destruct (invoke_inv v (nativeEvent v) (higherOf v) pointerout (handlers inst)
              (with_intersections ints v) d1 H1 Qout) as [H2 E2].
  destruct (invoke_inv v (nativeEvent v) (higherOf v) pointerleave (handlers inst)
              (with_intersections ints v) _ H2 Qleave) as [H3 E3].
  split; [exact H3|].
  exact (extends_with_trans _ _ _ _ E1 (extends_with_trans _ _ _ _ E2 E3)).
Qed.

Lemma cancelLoop_inv ints todo d :
  Inv (world d) ->
  Inv (world (cancelLoop rootState cancel ints todo d))
  /\ extends_with Q (world d) (world (cancelLoop rootState cancel ints todo d)).
Proof.
  revert d. induction todo as [|key todo IH]; simpl; intros d Hw.
  - split; [exact Hw|apply extends_with_refl].
  - destruct (Map_get String.eqb key _) as [v|] eqn:Hget; [|now apply IH].
    destruct (cancelOne_inv ints key v d Hw Hget) as [H1 E1].
    destruct (IH _ H1) as [H2 E2].
    split; [exact H2|exact (extends_with_trans _ _ _ _ E1 E2)].
Qed.
End Open.

Lemma cancelPointerF_inv fuel ints d :
  Inv (world d) ->
  Inv (world (cancelPointerF rootState fuel ints d))
  /\ extends_with Q (world d) (world (cancelPointerF rootState fuel ints d)).
Proof.
  revert ints d. induction fuel as [|fuel IH]; intros ints d Hw; simpl.
  - split; [exact Hw|apply extends_with_refl].
  - now apply cancelLoop_inv.
Qed.

Lemma cancelPointerD_inv ints d :
  Inv (world d) ->
  Inv (world (cancelPointerD rootState ints d))
  /\ extends_with Q (world d) (world (cancelPointerD rootState ints d)).
Proof. apply cancelPointerF_inv. Qed.

Lemma cancelPointer_inv ints w :
  Inv w -> Inv (cancelPointer rootState ints w)
           /\ extends_with Q w (cancelPointer rootState ints w).
Proof. intros Hw. exact (cancelPointerD_inv ints (idle w) Hw). Qed.

Lemma stopPropagation_inv event higher d :
  Inv (world d) ->
  Inv (world (stopPropagation rootState event higher d))
  /\ extends_with Q (world d) (world (stopPropagation rootState event higher d)).
Proof. apply stopPropagationOf_inv. exact cancelPointerD_inv. Qed.

Lemma runAction_inv event higher a d :
  Inv (world d) ->
  Inv (world (runAction rootState event higher a d))
  /\ extends_with Q (world d) (world (runAction rootState event higher a d)).
Proof. apply runActionOf_inv. exact cancelPointerD_inv. Qed.

Lemma script_inv event higher script d :
  Inv (world d) ->
  Inv (world (fold_left (fun d a => runAction rootState event higher a d) script d))
  /\ extends_with Q (world d)
       (world (fold_left (fun d a => runAction rootState event higher a d) script d)).
Proof.
  revert d. induction script as [|a script IH]; simpl; intros d Hw.
  - split; [exact Hw|apply extends_with_refl].
  - destruct (runAction_inv event higher a d Hw) as [H1 E1].
    destruct (IH _ H1) as [H2 E2].
    split; [exact H2|exact (extends_with_trans _ _ _ _ E1 E2)].
Qed.

Lemma callHandler_inv event higher n hs d :
  Inv (world d) -> Q (Call n (raycastEvent d)) ->
  Inv (world (callHandler rootState event higher n hs d))
  /\ extends_with Q (world d) (world (callHandler rootState event higher n hs d)).
Proof.
  intros Hw HQ. unfold callHandler.
  destruct (hs n) as [script|]; [|split; [exact Hw|apply extends_with_refl]].
  destruct (script_inv event higher script (on_world (emit [Call n (raycastEvent d)]) d))
    as [H1 E1]; [simpl; now apply Inv_emit|].
  split; [exact H1|]. refine (extends_with_trans _ _ _ _ _ E1).
  simpl. apply extends_with_emit. now repeat constructor.
Qed.

(** *** A dispatch pass *)

Variable name : EventName.
(** What is known of the hits the pass runs over. *)
Variable OnHit : NgtIntersection -> Prop.

Hypothesis Inv_fresh : forall w, Inv w -> Inv (fresh_event w).
Hypothesis Inv_book : forall e w,
  Inv w -> OnHit (ev_hit e) ->
  Map_get String.eqb (makeId (ev_hit e)) (hovered (internals w (root rootState))) = None ->
  Inv (update_internal (root rootState)
         (fun i => with_hovered (Map_set String.eqb (makeId (ev_hit e)) e (hovered i)) i) w).
Hypothesis Q_missed :
  isPointerMove name = false ->
  forall w obj event, Inv w ->
    In obj (notInitiallyHit (internals w (root rootState))) -> Q (CallMissed obj event).
Hypothesis Q_move :
  isPointerMove name = true ->
  forall e, OnHit (ev_hit e) ->
    Q (Call pointerover e) /\ Q (Call pointerenter e) /\ Q (Call pointermove e).
Hypothesis Q_name :
  isPointerMove name = false ->
  forall w e, Inv w -> OnHit (ev_hit e) ->
    negb (isClickEvent name)
    || includes (initialHits (internals w (root rootState))) (eventObject (ev_hit e)) = true ->
    Q (Call name e).

Lemma onIntersect_inv event higher d :
  Inv (world d) -> OnHit (ev_hit (raycastEvent d)) ->
  Inv (world (onIntersect rootState name event higher d))
  /\ extends_with Q (world d) (world (onIntersect rootState name event higher d)).
Proof.
  intros Hw Hon. unfold onIntersect.
  destruct (getLocalState (eventObject (ev_hit (raycastEvent d)))) as [inst|];
    [|split; [exact Hw|apply extends_with_refl]].
  destruct (Nat.eqb (eventCount inst) 0); [split; [exact Hw|apply extends_with_refl]|].
  assert (Hcase : isPointerMove name = true \/ isPointerMove name = false)
    by (destruct (isPointerMove name); auto).
  destruct Hcase as [Hmove|Hmove]; rewrite Hmove.
  - pose proof (Q_move Hmove) as Hq.
    match goal with
    | |- context [callHandler _ _ _ pointermove _ ?d1] =>
        assert (H1 : (Inv (world d1) /\ extends_with Q (world d) (world d1))
                     /\ keeps_current d d1)
    end.
    { case_if; [|split; [split; [exact Hw|apply extends_with_refl]|apply keeps_current_refl]].
      destruct (Map_get String.eqb _ _) as [hoveredItem|] eqn:Hget.
      - destruct (stopped hoveredItem);
          [|split; [split; [exact Hw|apply extends_with_refl]|apply keeps_current_refl]].
        split; [now apply stopPropagation_inv|apply stopPropagation_current].
      - set (d0 := on_world _ d).
        assert (H0 : Inv (world d0)) by (subst d0; simpl; now apply Inv_book).
        assert (E0 : extends_with Q (world d) (world d0)) by now apply extends_with_silent.
        destruct (callHandler_inv event higher pointerover (handlers inst) d0 H0
                    (proj1 (Hq _ Hon))) as [H1 E1].
        pose proof (callHandler_current rootState event higher pointerover (handlers inst) d0)
          as K1.
        assert (Hon1 : OnHit (ev_hit (raycastEvent
                   (callHandler rootState event higher pointerover (handlers inst) d0))))
          by (rewrite (keeps_current_hit _ _ K1); exact Hon).
        destruct (callHandler_inv event higher pointerenter (handlers inst) _ H1
                    (proj1 (proj2 (Hq _ Hon1)))) as [H2 E2].
        split; [split; [exact H2|]|].
        + exact (extends_with_trans _ _ _ _ E0 (extends_with_trans _ _ _ _ E1 E2)).
        + refine (keeps_current_trans _ _ _ (keeps_current_on_world _ d) _).
          exact (keeps_current_trans _ _ _ K1 (callHandler_current _ _ _ _ _ _)). }
    destruct H1 as [[H1 E1] K1].
    match goal with
    | |- context [callHandler _ _ _ pointermove _ ?d1] =>
        assert (Hon1 : OnHit (ev_hit (raycastEvent d1)))
          by (rewrite (keeps_current_hit _ _ K1); exact Hon)
    end.
    destruct (callHandler_inv event higher pointermove (handlers inst) _ H1
                (proj2 (proj2 (Hq _ Hon1)))) as [H2 E2].
    split; [exact H2|exact (extends_with_trans _ _ _ _ E1 E2)].
  - set (missed := pointerMissed event
                     (notInitiallyHit (internals (world d) (root rootState)))).
    assert (Hm : Inv (world (on_world (emit missed) d))
                 /\ extends_with Q (world d) (world (on_world (emit missed) d))).
    { simpl. split; [now apply Inv_emit|].
      apply extends_with_emit. apply pointerMissed_Forall.
      intros obj Hobj. exact (Q_missed Hmove (world d) obj event Hw Hobj). }
    destruct Hm as [Hm1 Hm2].
    destruct (handlers inst name) as [script|] eqn:Hh.
    + destruct (negb (isClickEvent name)
                || includes (initialHits (internals (world d) (root rootState)))
                     (eventObject (ev_hit (raycastEvent d)))) eqn:Hguard;
        [|split; [exact Hw|apply extends_with_refl]].
      destruct (callHandler_inv event higher name (handlers inst)
                  (on_world (emit missed) d) Hm1) as [H2 E2].
      { simpl. exact (Q_name Hmove (world d) (raycastEvent d) Hw Hon Hguard). }
      split; [exact H2|exact (extends_with_trans _ _ _ _ Hm2 E2)].
    + case_if; [|split; [exact Hw|apply extends_with_refl]].
      split; [exact Hm1|exact Hm2].
Qed.

Lemma dispatchLoop_inv event dlt pass ints higher todo w :
  Inv w -> (forall h, In h todo -> OnHit h) ->
  Inv (fst (dispatchLoop (onIntersect rootState name event) event dlt pass ints higher todo w))
  /\ extends_with Q w
       (fst (dispatchLoop (onIntersect rootState name event) event dlt pass ints higher
               todo w)).
Proof.
  revert higher w. induction todo as [|h todo IH]; intros higher w Hw Hon.
  - simpl. split; [exact Hw|apply extends_with_refl].
  - change (dispatchLoop (onIntersect rootState name event) event dlt pass ints higher
              (h :: todo) w)
      with (if localState_stopped (onIntersect rootState name event higher
                                     (newEvent pass higher w h ints dlt event))
            then (world (onIntersect rootState name event higher
                           (newEvent pass higher w h ints dlt event)), true)
            else dispatchLoop (onIntersect rootState name event) event dlt pass ints
                   (higher ++ [h]) todo
                   (world (onIntersect rootState name event higher
                             (newEvent pass higher w h ints dlt event)))).
    destruct (onIntersect_inv event higher (newEvent pass higher w h ints dlt event))
      as [H1 E1]; [simpl; now apply Inv_fresh|simpl; apply Hon; now left|].
    assert (E1' : extends_with Q w
                    (world (onIntersect rootState name event higher
                              (newEvent pass higher w h ints dlt event)))).
    { destruct E1 as [es [He Hq]]. now exists es. }
    destruct (localState_stopped _); simpl; [split; assumption|].
    destruct (IH (higher ++ [h]) _ H1) as [H2 E2]; [intros h' Hh'; apply Hon; now right|].
    split; [exact H2|exact (extends_with_trans _ _ _ _ E1' E2)].
Qed.
End CancelInvariant.

(** ** The hovered map under cancelPointer: entries only leave *)

Lemma marked_refl e : marked e e.
Proof. now left. Qed.

Lemma marked_trans e1 e2 e3 : marked e1 e2 -> marked e2 e3 -> marked e1 e3.
Proof. intros [->| ->] [->| ->]; unfold marked; auto. Qed.

Lemma marked_hit e e' : marked e e' -> ev_hit e' = ev_hit e.
Proof. now intros [->| ->]. Qed.

Lemma shrinks_refl m : shrinks m m.
Proof.
  induction m as [|[k v] m IH]; [constructor|].
  apply shrinks_keep; [apply marked_refl|exact IH].
Qed.

Lemma shrinks_trans m1 m2 m3 : shrinks m1 m2 -> shrinks m2 m3 -> shrinks m1 m3.
Proof.
  intros H12. revert m3. induction H12 as [|kv m m' H IH|k e e' m m' Hm H IH]; intros m3 H23.
  - exact H23.
  - apply shrinks_drop. now apply IH.
  - inversion H23 as [|kv' ma mb Hab|k' ea eb ma mb Hmb Hab]; subst.
    + apply shrinks_drop. now apply IH.
    + apply shrinks_keep; [exact (marked_trans _ _ _ Hm Hmb)|now apply IH].
Qed.

Lemma shrinks_delete key m : shrinks m (Map_delete String.eqb key m).
Proof.
  induction m as [|[k v] m IH]; simpl; [constructor|].
  destruct (negb (String.eqb key k)).
  - apply shrinks_keep; [apply marked_refl|exact IH].
  - apply shrinks_drop. exact IH.
Qed.

Lemma shrinks_mark id m : shrinks m (mark_stopped id m).
Proof.
  induction m as [|[k v] m IH]; simpl; [constructor|].
  destruct (Nat.eqb (ev_id v) id); (apply shrinks_keep; [|exact IH]).
  - now right.
  - now left.
Qed.

Lemma shrinks_length m m' : shrinks m m' -> (length m' <= length m)%nat.
Proof. induction 1; simpl; lia. Qed.

Lemma shrinks_In m m' key e' :
  shrinks m m' -> In (key, e') m' -> exists e, In (key, e) m /\ marked e e'.
Proof.
  induction 1 as [|kv m m' H IH|k e0 e0' m m' Hm H IH]; intros Hin.
  - destruct Hin.
  - destruct (IH Hin) as [e [He Hme]]. exists e. split; [now right|exact Hme].
  - destruct Hin as [E|Hin].
    + injection E as -> ->. exists e0. split; [now left|exact Hm].
    + destruct (IH Hin) as [e [He Hme]]. exists e. split; [now right|exact Hme].
Qed.

Lemma shrinks_keys m m' key : shrinks m m' -> In key (Map_keys m') -> In key (Map_keys m).
Proof.
  induction 1 as [|kv m m' H IH|k e0 e0' m m' Hm H IH]; simpl; intros Hin.
  - exact Hin.
  - right. now apply IH.
  - destruct Hin as [->|Hin]; [now left|right; now apply IH].
Qed.

Lemma shrinks_NoDup m m' :
  shrinks m m' -> List.NoDup (Map_keys m) -> List.NoDup (Map_keys m').
Proof.
  induction 1 as [|kv m m' H IH|k e0 e0' m m' Hm H IH]; simpl; intros Hnd.
  - exact Hnd.
  - inversion Hnd; subst. now apply IH.
  - inversion Hnd as [|x l Hx Hl]; subst. constructor; [|now apply IH].
    intros Hin. apply Hx. exact (shrinks_keys _ _ _ H Hin).
Qed.

Lemma shrinks_keyed m m' : shrinks m m' -> keyed m -> keyed m'.
Proof.
  unfold keyed. induction 1 as [|kv m m' H IH|k e0 e0' m m' Hm H IH]; intros Hk.
  - exact Hk.
  - inversion Hk; subst. now apply IH.
  - inversion Hk as [|x l Hx Hl]; subst. constructor; [|now apply IH].
    simpl in *. now rewrite (marked_hit _ _ Hm).
Qed.

Lemma shrinks_wf m m' : shrinks m m' -> hovered_wf m -> hovered_wf m'.
Proof.
  intros H [Hnd Hk]. split; [exact (shrinks_NoDup _ _ H Hnd)|exact (shrinks_keyed _ _ H Hk)].
Qed.

Lemma Map_get_keys {V} key (m : list (string * V)) :
  Map_get String.eqb key m = None <-> ~ In key (Map_keys m).
Proof.
  induction m as [|[k v] m IH]; simpl; [tauto|].
  destruct (String.eqb_spec key k) as [->|Hne].
  - split; [discriminate|]. intros H. exfalso. apply H. now left.
  - rewrite IH. split; [intros H [E|Hin]; [now apply Hne|now apply H]|tauto].
Qed.

Lemma shrinks_absent m m' key :
  shrinks m m' -> Map_get String.eqb key m = None -> Map_get String.eqb key m' = None.
Proof.
  intros H. rewrite !Map_get_keys. intros Hno Hin. apply Hno.
  exact (shrinks_keys _ _ _ H Hin).
Qed.

Lemma keyed_get m key e :
  keyed m -> Map_get String.eqb key m = Some e -> key = makeId (ev_hit e) /\ In (key, e) m.
Proof.
  intros Hk Hget. apply Map_get_In in Hget as [k' [Hin Heq]].
  apply String.eqb_eq in Heq. subst k'. split; [|exact Hin].
  unfold keyed in Hk. rewrite List.Forall_forall in Hk. exact (Hk _ Hin).
Qed.

Lemma Map_delete_shorter {V} key (m : list (string * V)) e :
  Map_get String.eqb key m = Some e ->
  (length (Map_delete String.eqb key m) < length m)%nat.
Proof.
  induction m as [|[k v] m IH]; simpl; [discriminate|].
  destruct (String.eqb key k); simpl.
  - intros _. pose proof (List.filter_length_le
                            (fun kv : string * V => negb (String.eqb key (fst kv))) m).
    unfold Map_delete in *. lia.
  - intros H. apply IH in H. unfold Map_delete in *. lia.
Qed.

Lemma hovered_other_capture n f w r :
  hovered (internals (update_internal n (with_capturedMap f) w) r) = hovered (internals w r).
Proof. simpl. now destruct (Nat.eqb r n). Qed.

(** The hovered map of the root after any run of [cancelPointer] and of
    the closures is the one before with entries gone and events marked. *)
Section ShrinkFacts.
Variable rootState : NgtState.
Variable m0 : HoveredMap.

Lemma shrinks_Inv_preserved :
  (forall es w, shrinks m0 (hovered (internals w (root rootState))) ->
                shrinks m0 (hovered (internals (emit es w) (root rootState))))
  /\ (forall key w, shrinks m0 (hovered (internals w (root rootState))) ->
        shrinks m0 (hovered (internals (update_internal (root rootState)
          (fun i => with_hovered (Map_delete String.eqb key (hovered i)) i) w) (root rootState))))
  /\ (forall id w, shrinks m0 (hovered (internals w (root rootState))) ->
        shrinks m0 (hovered (internals (update_internal (root rootState)
          (fun i => with_hovered (mark_stopped id (hovered i)) i) w) (root rootState))))
  /\ (forall n cm w, shrinks m0 (hovered (internals w (root rootState))) ->
        shrinks m0 (hovered (internals (update_internal n (with_capturedMap cm) w)
                               (root rootState)))).
Proof.
  repeat split.
  - intros es w H. exact H.
  - intros key w H. simpl. rewrite Nat.eqb_refl. simpl.
    exact (shrinks_trans _ _ _ H (shrinks_delete _ _)).
  - intros id w H. simpl. rewrite Nat.eqb_refl. simpl.
    exact (shrinks_trans _ _ _ H (shrinks_mark _ _)).
  - intros n cm w H. now rewrite hovered_other_capture.
Qed.

Lemma cancelPointerF_shrinks fuel ints d :
  shrinks m0 (hovered (internals (world d) (root rootState))) ->
  shrinks m0 (hovered (internals (world (cancelPointerF rootState fuel ints d))
                         (root rootState))).
Proof.
  destruct shrinks_Inv_preserved as (H1 & H2 & H3 & H4).
  intros H.
  apply (cancelPointerF_inv rootState
           (fun w => shrinks m0 (hovered (internals w (root rootState)))) (fun _ => True));
    auto.
Qed.
End ShrinkFacts.

Lemma cancelPointerF_shrinks_self rootState fuel ints d :
  shrinks (hovered (internals (world d) (root rootState)))
          (hovered (internals (world (cancelPointerF rootState fuel ints d)) (root rootState))).
Proof. apply cancelPointerF_shrinks, shrinks_refl. Qed.

(** ** The nesting of cancelPointer is bounded by the size of hovered *)

Lemma mark_stopped_length id m : length (mark_stopped id m) = length m.
Proof. unfold mark_stopped. apply length_map. Qed.

Section Agree.
Variable rootState : NgtState.
Variables cancel1 cancel2 : list NgtIntersection -> Dispatch -> Dispatch.
Variable N : nat.

Hypothesis cancel1_inv : forall m0 ints d,
  shrinks m0 (hovered (internals (world d) (root rootState))) ->
  shrinks m0 (hovered (internals (world (cancel1 ints d)) (root rootState)))
  /\ extends_with (fun _ => True) (world d) (world (cancel1 ints d)).
Hypothesis agree : forall ints d,
  keyed (hovered (internals (world d) (root rootState))) ->
  (length (hovered (internals (world d) (root rootState))) < N)%nat ->
  cancel1 ints d = cancel2 ints d.

Lemma runActionOf_shrinks1 e event higher a d :
  shrinks (hovered (internals (world d) (root rootState)))
    (hovered (internals (world (runActionOf rootState cancel1 e event higher a d))
                (root rootState))).
Proof.
  destruct (shrinks_Inv_preserved rootState
              (hovered (internals (world d) (root rootState)))) as (H1 & H2 & H3 & H4).
  apply (runActionOf_inv rootState
           (fun w => shrinks (hovered (internals (world d) (root rootState)))
                       (hovered (internals w (root rootState)))) (fun _ => True)); auto.
  apply shrinks_refl.
Qed.

Lemma invoke_shrinks1 e event higher name hs data d :
  shrinks (hovered (internals (world d) (root rootState)))
    (hovered (internals (world (invoke rootState cancel1 e event higher name hs data d))
                (root rootState))).
Proof.
  destruct (shrinks_Inv_preserved rootState
              (hovered (internals (world d) (root rootState)))) as (H1 & H2 & H3 & H4).
  apply (invoke_inv rootState
           (fun w => shrinks (hovered (internals (world d) (root rootState)))
                       (hovered (internals w (root rootState)))) (fun _ => True)); auto.
  apply shrinks_refl.
Qed.

Lemma cancelOne_shrinks1 ints key v d :
  Map_get String.eqb key (hovered (internals (world d) (root rootState))) = Some v ->
  shrinks (hovered (internals (world d) (root rootState)))
    (hovered (internals (world (cancelOne rootState cancel1 ints v d)) (root rootState))).
Proof.
  intros Hget.
  destruct (shrinks_Inv_preserved rootState
              (hovered (internals (world d) (root rootState)))) as (H1 & H2 & H3 & H4).
  apply (cancelOne_inv rootState
           (fun w => shrinks (hovered (internals (world d) (root rootState)))
                       (hovered (internals w (root rootState)))) (fun _ => True))
    with (key := key); auto.
  apply shrinks_refl.
Qed.

Lemma stopPropagationOf_agree e event higher d :
  keyed (hovered (internals (world d) (root rootState))) ->
  (length (hovered (internals (world d) (root rootState))) < N)%nat ->
  stopPropagationOf rootState cancel1 e event higher d
  = stopPropagationOf rootState cancel2 e event higher d.
Proof.
  intros Hk Hlen. unfold stopPropagationOf. case_if; [|reflexivity].
  case_if; [|reflexivity]. apply agree; simpl; rewrite Nat.eqb_refl; simpl.
  - exact (shrinks_keyed _ _ (shrinks_mark _ _) Hk).
  - now rewrite mark_stopped_length.
Qed.

Lemma runActionOf_agree e event higher a d :
  keyed (hovered (internals (world d) (root rootState))) ->
  (length (hovered (internals (world d) (root rootState))) < N)%nat ->
  runActionOf rootState cancel1 e event higher a d
  = runActionOf rootState cancel2 e event higher a d.
Proof.
  intros Hk Hlen. destruct a as [|id|id]; simpl; [|reflexivity|reflexivity].
  now apply stopPropagationOf_agree.
Qed.

Lemma scriptOf_agree e event higher script d :
  keyed (hovered (internals (world d) (root rootState))) ->
  (length (hovered (internals (world d) (root rootState))) < N)%nat ->
  fold_left (fun d a => runActionOf rootState cancel1 e event higher a d) script d
  = fold_left (fun d a => runActionOf rootState cancel2 e event higher a d) script d.
Proof.
  revert d. induction script as [|a script IH]; simpl; intros d Hk Hlen; [reflexivity|].
  rewrite <- (runActionOf_agree e event higher a d Hk Hlen).
  pose proof (runActionOf_shrinks1 e event higher a d) as Hs.
  apply IH.
  - exact (shrinks_keyed _ _ Hs Hk).
  - pose proof (shrinks_length _ _ Hs). lia.
Qed.

Lemma invoke_agree e event higher name hs data d :
  keyed (hovered (internals (world d) (root rootState))) ->
  (length (hovered (internals (world d) (root rootState))) < N)%nat ->
  invoke rootState cancel1 e event higher name hs data d
  = invoke rootState cancel2 e event higher name hs data d.
Proof.
  intros Hk Hlen. unfold invoke. destruct (hs name) as [script|]; [|reflexivity].
  now apply scriptOf_agree.
Qed.

Lemma cancelOne_agree ints key v d :
  keyed (hovered (internals (world d) (root rootState))) ->
  (length (hovered (internals (world d) (root rootState))) <= N)%nat ->
  Map_get String.eqb key (hovered (internals (world d) (root rootState))) = Some v ->
  cancelOne rootState cancel1 ints v d = cancelOne rootState cancel2 ints v d.
Proof.
  intros Hk Hlen Hget. unfold cancelOne. case_if; [|reflexivity].
  destruct (getLocalState _) as [inst|]; [|reflexivity].
  case_if; [reflexivity|].
  set (d1 := on_world _ d).
  destruct (keyed_get _ _ _ Hk Hget) as [Hkey _].
  assert (Hk1 : keyed (hovered (internals (world d1) (root rootState)))).
  { subst d1. simpl. rewrite Nat.eqb_refl. simpl.
    exact (shrinks_keyed _ _ (shrinks_delete _ _) Hk). }
  assert (Hlen1 : (length (hovered (internals (world d1) (root rootState))) < N)%nat).
  { subst d1. simpl. rewrite Nat.eqb_refl. simpl. rewrite <- Hkey.
    pose proof (Map_delete_shorter _ _ _ Hget). lia. }
  rewrite <- (invoke_agree v (nativeEvent v) (higherOf v) pointerout (handlers inst)
                (with_intersections ints v) d1 Hk1 Hlen1).
  pose proof (invoke_shrinks1 v (nativeEvent v) (higherOf v) pointerout (handlers inst)
                (with_intersections ints v) d1) as Hs.
  apply invoke_agree.
  - exact (shrinks_keyed _ _ Hs Hk1).
  - pose proof (shrinks_length _ _ Hs). lia.
Qed.

Lemma cancelLoop_agree ints todo d :
  keyed (hovered (internals (world d) (root rootState))) ->
  (length (hovered (internals (world d) (root rootState))) <= N)%nat ->
  cancelLoop rootState cancel1 ints todo d = cancelLoop rootState cancel2 ints todo d.
Proof.
  revert d. induction todo as [|key todo IH]; simpl; intros d Hk Hlen; [reflexivity|].
  destruct (Map_get String.eqb key _) as [v|] eqn:Hget; [|now apply IH].
  rewrite <- (cancelOne_agree ints key v d Hk Hlen Hget).
  pose proof (cancelOne_shrinks1 ints key v d Hget) as Hs.
  apply IH.
  - exact (shrinks_keyed _ _ Hs Hk).
  - pose proof (shrinks_length _ _ Hs). lia.
Qed.
End Agree.

Lemma cancelPointerF_shrinks_inv rootState fuel m0 ints d :
  shrinks m0 (hovered (internals (world d) (root rootState))) ->
  shrinks m0 (hovered (internals (world (cancelPointerF rootState fuel ints d))
                         (root rootState)))
  /\ extends_with (fun _ => True) (world d) (world (cancelPointerF rootState fuel ints d)).
Proof.
  destruct (shrinks_Inv_preserved rootState m0) as (H1 & H2 & H3 & H4).
  apply (cancelPointerF_inv rootState
           (fun w => shrinks m0 (hovered (internals w (root rootState)))) (fun _ => True));
    auto.
Qed.

(** Any two unrollings deeper than the size of [hovered] give the same
    result. *)
Lemma cancelPointerF_enough rootState fuel1 fuel2 ints d :
  keyed (hovered (internals (world d) (root rootState))) ->
  (length (hovered (internals (world d) (root rootState))) < fuel1)%nat ->
  (length (hovered (internals (world d) (root rootState))) < fuel2)%nat ->
  cancelPointerF rootState fuel1 ints d = cancelPointerF rootState fuel2 ints d.
Proof.
  revert fuel2 ints d. induction fuel1 as [|a IH]; intros fuel2 ints d Hk H1 H2; [lia|].
  destruct fuel2 as [|b]; [lia|]. simpl.
  apply (cancelLoop_agree rootState _ _
           (length (hovered (internals (world d) (root rootState))))).
  - intros m0 ints' d'. apply cancelPointerF_shrinks_inv.
  - intros ints' d' Hk' Hlen'. apply IH; [exact Hk'|lia|lia].
  - exact Hk.
  - lia.
Qed.

(** [cancelPointerD] is the function the source defines: its loop, with
    the closures calling [cancelPointerD] itself. *)
Lemma cancelPointerD_unfold rootState ints d :
  keyed (hovered (internals (world d) (root rootState))) ->
  cancelPointerD rootState ints d
  = cancelLoop rootState (cancelPointerD rootState) ints
      (Map_keys (hovered (internals (world d) (root rootState)))) d.
Proof.
  intros Hk. unfold cancelPointerD at 1. simpl.
  apply (cancelLoop_agree rootState _ _
           (length (hovered (internals (world d) (root rootState))))).
  - intros m0 ints' d'. apply cancelPointerF_shrinks_inv.
  - intros ints' d' Hk' Hlen'. unfold cancelPointerD.
    apply cancelPointerF_enough; [exact Hk'|lia|lia].
  - exact Hk.
  - lia.
Qed.

(** ** cancelPointer *)

Lemma with_hovered_eta i : with_hovered (hovered i) i = i.
Proof. now destruct i. Qed.

Lemma unhovered_covered ints e : unhovered ints e = negb (existsb (hitMatches e) ints).
Proof. unfold unhovered. now destruct ints. Qed.

Lemma emit_nil w : emit [] w = w.
Proof. destruct w. unfold emit. simpl. now rewrite app_nil_r. Qed.

Lemma emit_emit es1 es2 w : emit es2 (emit es1 w) = emit (es1 ++ es2) w.
Proof. unfold emit. simpl. now rewrite app_assoc. Qed.

Section CancelFacts.
Variable rootState : NgtState.

Lemma hover_frame_refl w : hover_frame (root rootState) w w.
Proof.
  repeat split. intros n. destruct (Nat.eqb_spec n (root rootState)) as [->|]; [|reflexivity].
  now rewrite with_hovered_eta.
Qed.

Lemma hover_frame_trans w1 w2 w3 :
  hover_frame (root rootState) w1 w2 -> hover_frame (root rootState) w2 w3 -> hover_frame (root rootState) w1 w3.
Proof.
  intros [F1 [N1 I1]] [F2 [N2 I2]]. repeat split; [congruence..|].
  intros n. rewrite I2, I1. now destruct (Nat.eqb n (root rootState)).
Qed.

(** *** Objects whose pointerout and pointerleave handlers make no call
    on the event *)
Section Quiet.
Variable cancel : list NgtIntersection -> Dispatch -> Dispatch.

Lemma invoke_quiet e event higher name hs data d :
  (forall script, hs name = Some script -> script = []) ->
  invoke rootState cancel e event higher name hs data d
  = on_world (emit (if defined (hs name) then [Call name data] else [])) d.
Proof.
  intros Hq. unfold invoke. destruct (hs name) as [script|] eqn:E; simpl.
  - now rewrite (Hq script eq_refl).
  - destruct d. unfold on_world. simpl. now rewrite emit_nil.
Qed.

Lemma cancelOne_quiet ints v d :
  (forall inst, getLocalState (eventObject (ev_hit v)) = Some inst ->
     (forall script, handlers inst pointerout = Some script -> script = [])
     /\ (forall script, handlers inst pointerleave = Some script -> script = [])) ->
  cancelOne rootState cancel ints v d
  = if unhovered ints v
    then on_world (fun w => emit (leaveCalls ints v)
                     (update_internal (root rootState) (fun i =>
                        with_hovered (Map_delete String.eqb (makeId (ev_hit v)) (hovered i)) i)
                        w)) d
    else d.
Proof.
  intros Hq. unfold cancelOne, leaveCalls. destruct (unhovered ints v); [|reflexivity].
  destruct (getLocalState (eventObject (ev_hit v))) as [inst|].
  - destruct (Hq inst eq_refl) as [Hout Hleave].
    destruct (Nat.eqb (eventCount inst) 0).
    + unfold on_world. simpl. now rewrite emit_nil.
    + rewrite !invoke_quiet by assumption. unfold on_world. simpl.
      now rewrite emit_emit.
  - unfold on_world. simpl. now rewrite emit_nil.
Qed.

(** On a well-formed map the loop keeps the entries still under the
    pointer and notifies the others, in order; nothing else changes. *)
Lemma cancelLoop_quiet ints todo done d :
  hovered (internals (world d) (root rootState)) = done ++ todo ->
  hovered_wf (done ++ todo) ->
  quiet (List.filter (fun kv => unhovered ints (snd kv)) todo) ->
  let d' := cancelLoop rootState cancel ints (Map_keys todo) d in
  hovered (internals (world d') (root rootState))
  = done ++ List.filter (fun kv => negb (unhovered ints (snd kv))) todo
  /\ effects (world d')
     = effects (world d) ++ flat_map (fun kv => leaveCalls ints (snd kv))
                              (List.filter (fun kv => unhovered ints (snd kv)) todo)
  /\ hover_frame (root rootState) (world d) (world d')
  /\ localState_stopped d' = localState_stopped d
  /\ raycastEvent d' = raycastEvent d.
Proof.
  revert done d. induction todo as [|[key v] todo IH]; intros done d Hhov Hwf Hq; cbv zeta.
  - simpl. rewrite !app_nil_r. rewrite app_nil_r in Hhov.
    repeat split; auto. intros n. apply hover_frame_refl.
  - cbn [Map_keys List.map fst cancelLoop]. fold (Map_keys todo). rewrite Hhov.
    destruct Hwf as [Hnd Hkeys].
    assert (Hkey : key = makeId (ev_hit v)).
    { rewrite List.Forall_forall in Hkeys. apply (Hkeys (key, v)).
      apply in_or_app. right. now left. }
    unfold Map_keys in Hnd. rewrite List.map_app in Hnd. cbn [List.map fst] in Hnd.
    pose proof (NoDup_remove_2 _ _ _ Hnd) as Hnotin.
    assert (Hget : Map_get String.eqb key (done ++ (key, v) :: todo) = Some v).
    { clear - Hnotin. induction done as [|[k x] done IHd]; simpl.
      - now rewrite String.eqb_refl.
      - destruct (String.eqb_spec key k) as [->|Hne].
        + exfalso. apply Hnotin. now left.
        + apply IHd. intros Hin. apply Hnotin. now right. }
    rewrite Hget.
    assert (Hd : unhovered ints v = false -> cancelOne rootState cancel ints v d = d)
      by (intros Hun; unfold cancelOne; now rewrite Hun).
    cbn [List.filter snd flat_map] in Hq |- *.
    destruct (unhovered ints v) eqn:Hun; cbn [negb].
    + assert (Hqv : forall inst, getLocalState (eventObject (ev_hit v)) = Some inst ->
                (forall script, handlers inst pointerout = Some script -> script = [])
                /\ (forall script, handlers inst pointerleave = Some script -> script = []))
        by (intros inst Hinst; apply (Hq key v inst); [now left|exact Hinst]).
      assert (Hq' : quiet (List.filter (fun kv => unhovered ints (snd kv)) todo))
        by (intros k e inst Hin; apply (Hq k e inst); now right).
      rewrite (cancelOne_quiet ints v d Hqv), Hun.
      set (d1 := on_world _ d).
      assert (Hdel : Map_delete String.eqb (makeId (ev_hit v)) (done ++ (key, v) :: todo)
                     = done ++ todo).
      { rewrite <- Hkey. rewrite (Map_delete_app String.eqb). simpl.
        rewrite String.eqb_refl. simpl.
        rewrite !(Map_delete_absent String.eqb); [reflexivity| |].
        - intros kv Hkv. apply String.eqb_neq. intros ->. apply Hnotin.
          apply in_or_app. right. now apply in_map.
        - intros kv Hkv. apply String.eqb_neq. intros ->. apply Hnotin.
          apply in_or_app. left. now apply in_map. }
      assert (Hh : hovered (internals (world d1) (root rootState)) = done ++ todo).
      { subst d1. simpl. rewrite Nat.eqb_refl. simpl. now rewrite Hhov, Hdel. }
      destruct (IH done d1 Hh) as (IH1 & IH2 & IH3 & IH4 & IH5); [|exact Hq'|].
      { split.
        - unfold Map_keys. rewrite List.map_app. now apply NoDup_remove_1 in Hnd.
        - apply Forall_app in Hkeys as [H1 H2]. apply Forall_app. split; [exact H1|].
          now apply Forall_cons_iff in H2 as [_ H2]. }
      split; [exact IH1|]. split; [|split; [|split; [exact IH4|exact IH5]]].
      * rewrite IH2. subst d1. simpl. now rewrite <- app_assoc.
      * refine (hover_frame_trans _ _ _ _ IH3). subst d1. simpl.
        repeat split. intros n. simpl. rewrite Nat.eqb_refl.
        now destruct (Nat.eqb_spec n (root rootState)) as [->|].
    + rewrite (Hd eq_refl).
      destruct (IH (done ++ [(key, v)]) d) as (IH1 & IH2 & IH3 & IH4 & IH5).
      { now rewrite <- app_assoc. }
      { rewrite <- app_assoc. split; [|exact Hkeys].
        unfold Map_keys. now rewrite List.map_app. }
      { exact Hq. }
      split; [now rewrite IH1, <- app_assoc|]. auto.
Qed.
End Quiet.

Lemma quiet_filter (f : string * NgtThreeEvent -> bool) m : quiet m -> quiet (List.filter f m).
Proof. intros H key e inst Hin. apply filter_In in Hin as [Hin _]. exact (H key e inst Hin). Qed.

Lemma cancelPointerD_quiet_dropped ints d :
  hovered_wf (hovered (internals (world d) (root rootState))) ->
  quiet (List.filter (fun kv => unhovered ints (snd kv))
           (hovered (internals (world d) (root rootState)))) ->
  let d' := cancelPointerD rootState ints d in
  hovered (internals (world d') (root rootState))
  = List.filter (fun kv => negb (unhovered ints (snd kv)))
      (hovered (internals (world d) (root rootState)))
  /\ effects (world d')
     = effects (world d) ++ flat_map (fun kv => leaveCalls ints (snd kv))
                              (List.filter (fun kv => unhovered ints (snd kv))
                                 (hovered (internals (world d) (root rootState))))
  /\ hover_frame (root rootState) (world d) (world d')
  /\ localState_stopped d' = localState_stopped d
  /\ raycastEvent d' = raycastEvent d.
Proof.
  intros Hwf Hq.
  exact (cancelLoop_quiet _ ints (hovered (internals (world d) (root rootState))) [] d
           eq_refl Hwf Hq).
Qed.

Lemma cancelPointerD_quiet ints d :
  hovered_wf (hovered (internals (world d) (root rootState))) ->
  quiet (hovered (internals (world d) (root rootState))) ->
  let d' := cancelPointerD rootState ints d in
  hovered (internals (world d') (root rootState))
  = List.filter (fun kv => negb (unhovered ints (snd kv)))
      (hovered (internals (world d) (root rootState)))
  /\ effects (world d')
     = effects (world d) ++ flat_map (fun kv => leaveCalls ints (snd kv))
                              (List.filter (fun kv => unhovered ints (snd kv))
                                 (hovered (internals (world d) (root rootState))))
  /\ hover_frame (root rootState) (world d) (world d')
  /\ localState_stopped d' = localState_stopped d
  /\ raycastEvent d' = raycastEvent d.
Proof.
  intros Hwf Hq. apply cancelPointerD_quiet_dropped; [exact Hwf|now apply quiet_filter].
Qed.

Lemma cancelPointer_spec ints w :
  hovered_wf (hovered (internals w (root rootState))) ->
  quiet (hovered (internals w (root rootState))) ->
  hovered (internals (cancelPointer rootState ints w) (root rootState))
  = List.filter (fun kv => negb (unhovered ints (snd kv))) (hovered (internals w (root rootState)))
  /\ effects (cancelPointer rootState ints w)
     = effects w ++ flat_map (fun kv => leaveCalls ints (snd kv))
                             (List.filter (fun kv => unhovered ints (snd kv))
                                          (hovered (internals w (root rootState)))).
Proof.
  intros Hwf Hq.
  destruct (cancelPointerD_quiet ints (idle w) Hwf Hq) as (H1 & H2 & _). auto.
Qed.

Lemma cancelPointer_frame ints w :
  hovered_wf (hovered (internals w (root rootState))) ->
  quiet (hovered (internals w (root rootState))) ->
  hover_frame (root rootState) w (cancelPointer rootState ints w).
Proof.
  intros Hwf Hq.
  destruct (cancelPointerD_quiet ints (idle w) Hwf Hq) as (_ & _ & H3 & _). exact H3.
Qed.

(** *** Whatever the handlers do *)
Section Open.
Variable cancel : list NgtIntersection -> Dispatch -> Dispatch.
Hypothesis cancel_inv : forall m0 ints d,
  shrinks m0 (hovered (internals (world d) (root rootState))) ->
  shrinks m0 (hovered (internals (world (cancel ints d)) (root rootState)))
  /\ extends_with (fun _ => True) (world d) (world (cancel ints d)).

Lemma cancelLoop_shrinks1 ints todo d :
  shrinks (hovered (internals (world d) (root rootState)))
    (hovered (internals (world (cancelLoop rootState cancel ints todo d)) (root rootState))).
Proof.
  revert d. induction todo as [|key todo IH]; simpl; intros d; [apply shrinks_refl|].
  destruct (Map_get String.eqb key _) as [v|] eqn:Hget; [|apply IH].
  exact (shrinks_trans _ _ _ (cancelOne_shrinks1 rootState cancel cancel_inv ints key v d Hget)
           (IH _)).
Qed.

(** The entry is gone when its handlers are called and does not come
    back. *)
Lemma cancelOne_deletes ints key v d :
  unhovered ints v = true ->
  key = makeId (ev_hit v) ->
  Map_get String.eqb key
    (hovered (internals (world (cancelOne rootState cancel ints v d)) (root rootState)))
  = None.
Proof.
  intros Hun Hkey. unfold cancelOne. rewrite Hun.
  set (d1 := on_world _ d).
  assert (H1 : Map_get String.eqb key (hovered (internals (world d1) (root rootState)))
               = None).
  { subst d1. simpl. rewrite Nat.eqb_refl. simpl. rewrite <- Hkey.
    now rewrite Smap_get_delete, String.eqb_refl. }
  destruct (getLocalState _) as [inst|]; [|exact H1].
  destruct (Nat.eqb (eventCount inst) 0); [exact H1|].
  refine (shrinks_absent _ _ _ (invoke_shrinks1 rootState cancel cancel_inv _ _ _ _ _ _ _) _).
  exact (shrinks_absent _ _ _ (invoke_shrinks1 rootState cancel cancel_inv _ _ _ _ _ _ _) H1).
Qed.

Lemma cancelLoop_absent ints todo d key :
  (forall v, unhovered ints v = true) ->
  keyed (hovered (internals (world d) (root rootState))) ->
  In key todo ->
  Map_get String.eqb key
    (hovered (internals (world (cancelLoop rootState cancel ints todo d)) (root rootState)))
  = None.
Proof.
  intros Hun. revert d. induction todo as [|key0 todo IH]; simpl; intros d Hk Hin;
    [destruct Hin|].
  destruct (Map_get String.eqb key0 _) as [v|] eqn:Hget.
  - pose proof (cancelOne_shrinks1 rootState cancel cancel_inv ints key0 v d Hget) as Hs.
    destruct (String.eqb_spec key0 key) as [->|Hne].
    + refine (shrinks_absent _ _ _ (cancelLoop_shrinks1 _ _ _) _).
      apply cancelOne_deletes; [apply Hun|]. exact (proj1 (keyed_get _ _ _ Hk Hget)).
    + apply IH; [exact (shrinks_keyed _ _ Hs Hk)|]. destruct Hin; [contradiction|assumption].
  - destruct (String.eqb_spec key0 key) as [->|Hne].
    + exact (shrinks_absent _ _ _ (cancelLoop_shrinks1 _ _ _) Hget).
    + apply IH; [exact Hk|]. destruct Hin; [contradiction|assumption].
Qed.
End Open.

(** [cancelPointer([])] leaves no hovered entry, whatever the handlers it
    calls do. *)
Lemma cancelPointerD_none_clears d :
  keyed (hovered (internals (world d) (root rootState))) ->
  hovered (internals (world (cancelPointerD rootState [] d)) (root rootState)) = [].
Proof.
  intros Hk.
  pose proof (cancelPointerF_shrinks_self rootState
                (S (length (hovered (internals (world d) (root rootState))))) [] d) as Hs.
  fold (cancelPointerD rootState [] d) in Hs.
  destruct (hovered (internals (world (cancelPointerD rootState [] d)) (root rootState)))
    as [|[key e] m'] eqn:E; [reflexivity|].
  exfalso.
  assert (Hin : In key (Map_keys (hovered (internals (world d) (root rootState))))).
  { apply (shrinks_keys _ _ key Hs). now left. }
  pose proof (cancelLoop_absent
                (cancelPointerF rootState
                   (length (hovered (internals (world d) (root rootState)))))
                (cancelPointerF_shrinks_inv rootState _) []
                (Map_keys (hovered (internals (world d) (root rootState)))) d key
                (fun v => eq_refl) Hk Hin) as Habs.
  unfold cancelPointerD in E. simpl in E. rewrite E in Habs. simpl in Habs.
  now rewrite String.eqb_refl in Habs.
Qed.

Lemma cancelPointer_none_clears w :
  keyed (hovered (internals w (root rootState))) ->
  hovered (internals (cancelPointer rootState [] w) (root rootState)) = [].
Proof. intros Hk. exact (cancelPointerD_none_clears (idle w) Hk). Qed.
End CancelFacts.

(** ** Loss of pointer capture *)

(** C6.  Handling [lostpointercapture] for a captured pointer id changes
    no internal state and calls nothing: it only hands a callback to
    [requestAnimationFrame].  Any event handled before the next frame
    (a [pointerup], say) therefore finds the capture records in place and
    [intersect] makes the capturing targets part of its result.  When the
    callback runs and the id is still captured, it deletes the pointer id
    and then runs [cancelPointer([])], which starts from a captured map
    without the id and leaves no hovered entry; when the [pointerout] and
    [pointerleave] handlers it calls make no call on their event, the
    captured map at the end is the one before without the id.  When the id
    is no longer captured the callback does nothing. *)
Theorem lostpointercapture_release_deferred
    (rootState : NgtState)
    (intersectObject : NgtDomEvent -> Object3D -> list Intersection)
    (events_filter : option (list Intersection -> list Intersection))
    (event : NgtDomEvent) (id : Z) (w : World) :
  pointerId event = Some id ->
  Map_has Z.eqb id (capturedMap (internals w (root rootState))) = true ->
  let w1 := handlePointer rootState intersectObject events_filter lostpointercapture event w in
  (forall n, internals w1 n = internals w n) /\
  effects w1 = effects w /\
  frameCallbacks w1 = frameCallbacks w ++ [id] /\
  (forall pointerup_event captures c,
      pointerId pointerup_event = Some id ->
      Map_get Z.eqb id (capturedMap (internals w (root rootState))) = Some captures ->
      In c (Map_values captures) ->
      has (snd (collectHits intersectObject pointerup_event
                  (interaction (internals w (root rootState)))))
          (makeId (intersection c)) = false ->
      In (intersection c)
         (intersect rootState intersectObject events_filter pointerup_event None w1)) /\
  (forall w2,
      Map_has Z.eqb id (capturedMap (internals w2 (root rootState))) = true ->
      let deleted := update_internal (root rootState) (fun i =>
                       with_capturedMap (Map_delete Z.eqb id (capturedMap i)) i) w2 in
      releaseLostCapture rootState id w2 = cancelPointer rootState [] deleted
      /\ capturedMap (internals deleted (root rootState))
         = Map_delete Z.eqb id (capturedMap (internals w2 (root rootState)))
      /\ Map_has Z.eqb id (capturedMap (internals deleted (root rootState))) = false
      /\ (keyed (hovered (internals w2 (root rootState))) ->
          hovered (internals (releaseLostCapture rootState id w2) (root rootState)) = [])
      /\ (hovered_wf (hovered (internals w2 (root rootState))) ->
          quiet (hovered (internals w2 (root rootState))) ->
          capturedMap (internals (releaseLostCapture rootState id w2) (root rootState))
          = Map_delete Z.eqb id (capturedMap (internals w2 (root rootState)))
          /\ Map_has Z.eqb id
               (capturedMap (internals (releaseLostCapture rootState id w2) (root rootState)))
             = false)) /\
  (forall w2,
      Map_has Z.eqb id (capturedMap (internals w2 (root rootState))) = false ->
      releaseLostCapture rootState id w2 = w2).
Proof.
  intros Hid Hcap w1.
  assert (Hw1 : w1 = requestAnimationFrame id w).
  { subst w1. unfold handlePointer. now rewrite Hid, Hcap. }
  rewrite Hw1. split; [reflexivity|]. split; [reflexivity|]. split; [reflexivity|].
  split; [|split].
  - intros pe captures c Hpe Hget Hin Hdup.
    unfold intersect. simpl.
    destruct (collectHits intersectObject pe (interaction (internals w (root rootState))))
      as [hits duplicates].
    simpl in Hdup. rewrite Hpe, Hget. apply in_or_app. right.
    apply filter_In. split; [now apply in_map|now rewrite Hdup].
  - intros w2 Hhas deleted.
    assert (Hrel : releaseLostCapture rootState id w2 = cancelPointer rootState [] deleted).
    { unfold releaseLostCapture. now rewrite Hhas. }
    assert (Hcm : capturedMap (internals deleted (root rootState))
                  = Map_delete Z.eqb id (capturedMap (internals w2 (root rootState)))).
    { subst deleted. simpl. now rewrite Nat.eqb_refl. }
    assert (Hhov : hovered (internals deleted (root rootState))
                   = hovered (internals w2 (root rootState))).
    { subst deleted. simpl. now rewrite Nat.eqb_refl. }
    split; [exact Hrel|]. split; [exact Hcm|]. split; [|split].
    + rewrite Hcm. unfold Map_has. now rewrite Zmap_get_delete, Z.eqb_refl.
    + intros Hk. rewrite Hrel. apply cancelPointer_none_clears. now rewrite Hhov.
    + intros Hwf Hq. rewrite Hrel.
      assert (Hwf' : hovered_wf (hovered (internals deleted (root rootState))))
        by now rewrite Hhov.
      assert (Hq' : quiet (hovered (internals deleted (root rootState))))
        by now rewrite Hhov.
      destruct (cancelPointer_frame rootState [] deleted Hwf' Hq') as [_ [_ Hi]].
      rewrite Hi, Nat.eqb_refl. unfold with_hovered. cbn [capturedMap]. rewrite Hcm.
      split; [reflexivity|].
      unfold Map_has. now rewrite Zmap_get_delete, Z.eqb_refl.
  - intros w2 Hno. unfold releaseLostCapture. now rewrite Hno.
Qed.

(** The theorem at [ex_world]: the loss of the capture of pointer 7 is
    queued, and the frame that follows releases it. *)
Lemma lostpointercapture_release_deferred_witness :
  pointerId ex_event = Some 7 /\
  Map_has Z.eqb 7 (capturedMap (internals ex_world (root (ex_layer 0)))) = true /\
  frameCallbacks (handlePointer (ex_layer 0) ex_cast None lostpointercapture ex_event ex_world)
    = [7] /\
  Map_keys (capturedMap (internals
     (animationFrame (ex_layer 0)
        (handlePointer (ex_layer 0) ex_cast None lostpointercapture ex_event ex_world)) 0)) = [].
Proof.
  assert (H1 : pointerId ex_event = Some 7) by reflexivity.
  assert (H2 : Map_has Z.eqb 7 (capturedMap (internals ex_world (root (ex_layer 0)))) = true)
    by reflexivity.
  split; [exact H1|]. split; [exact H2|]. split.
  - exact (proj1 (proj2 (proj2
      (lostpointercapture_release_deferred (ex_layer 0) ex_cast None ex_event 7 ex_world H1 H2)))).
  - vm_compute. reflexivity.
Defined.

(** A [pointerout] handler that captures the pointer again: when the
    capture of pointer 7 is lost while [ex_G] is hovered, the callback
    deletes the id and the handler it calls books it anew. *)
Lemma lostpointercapture_recapture_example :
  let w := releaseLostCapture (ex_layer 0) 7 ex_grab_world in
  effects w
  = [Call pointerout (with_intersections [] (ex_data 0 (ex_on ex_G 1 ex_G)));
     ElementSetPointerCapture 0 7;
     Call pointerleave (with_intersections [] (ex_data 0 (ex_on ex_G 1 ex_G)))]
  /\ hovered (internals w 0) = []
  /\ Map_keys (capturedMap (internals w 0)) = [7].
Proof. vm_compute. auto. Qed.

(** Nested calls of [cancelPointer]: the [pointerout] handler of the
    first instance of [ex_S] stops the propagation while the second is
    still hovered, which drops the second instance and [ex_P] before the
    [pointerleave] handler of the first is called. *)
Lemma cancelPointer_nested_example :
  calledOn (effects (cancelPointer (ex_layer 0) [] ex_instances_world))
  = [(pointerout, "S", Some 1); (pointerout, "S", Some 2); (pointerleave, "S", Some 2);
     (pointerout, "P", None); (pointerleave, "P", None);
     (pointerleave, "S", Some 1)]%string
  /\ hovered (internals (cancelPointer (ex_layer 0) [] ex_instances_world) 0) = [].
Proof. vm_compute. auto. Qed.

(** ** Ray registration *)

Lemma makeId_fresh_spec generateUUID (idCache : gmap string bool) uuid cache :
  makeId_fresh generateUUID idCache = Some (uuid, cache) ->
  In uuid generateUUID /\ idCache !! uuid <> Some true /\ cache = <[uuid := true]> idCache.
Proof.
  induction generateUUID as [|newId later IH]; simpl; [discriminate|].
  destruct (idCache !! newId) as [[|]|] eqn:E.
  - intros H. destruct (IH H) as [H1 H2]. auto.
  - intros [= <- <-]. rewrite E. repeat split; auto; discriminate.
  - intros [= <- <-]. rewrite E. repeat split; auto; discriminate.
Qed.

(** [makeId()] returns as soon as the generator yields an unused id. *)
Lemma makeId_fresh_returns generateUUID (idCache : gmap string bool) :
  (exists u, In u generateUUID /\ idCache !! u <> Some true) ->
  exists uuid cache, makeId_fresh generateUUID idCache = Some (uuid, cache).
Proof.
  intros [u [Hin Hu]]. induction generateUUID as [|newId later IH]; simpl; [destruct Hin|].
  destruct (idCache !! newId) as [[|]|] eqn:E; eauto.
  destruct Hin as [->|Hin]; [congruence|auto].
Qed.

(** C8.  When the generator yields an unused id, [injectRay] returns:
    it takes a uuid that [idCache] did not hold, stores the callback under
    it in [events] and sends [addRay] with that uuid and the chosen mode;
    the cleanup sends [removeRay] with the same uuid and deletes the uuid
    from [events], which then has no entry for it and is the map before the
    registration without that key (the map itself when the key was free). *)
Theorem injectRay_register_unregister {RayOptions Callback : Type}
    (mode : RayMode) (options : RayOptions) (callback : Callback)
    (generateUUID : list string) (p : @Physics RayOptions Callback) :
  (exists u, In u generateUUID /\ idCache p !! u <> Some true) ->
  exists uuid p1,
    injectRay mode options callback generateUUID p = Some (uuid, p1) /\
    In uuid generateUUID /\
    idCache p !! uuid <> Some true /\
    idCache p1 !! uuid = Some true /\
    events p1 = <[uuid := callback]> (events p) /\
    worker p1 = worker p ++ [addRay options mode uuid] /\
    worker (rayCleanup uuid p1) = worker p ++ [addRay options mode uuid; removeRay uuid] /\
    events (rayCleanup uuid p1) !! uuid = None /\
    events (rayCleanup uuid p1) = delete uuid (events p) /\
    (events p !! uuid = None -> events (rayCleanup uuid p1) = events p) /\
    injectRaycastClosest options callback generateUUID p
      = injectRay Closest options callback generateUUID p /\
    injectRaycastAny options callback generateUUID p
      = injectRay Any options callback generateUUID p /\
    useRaycastAll options callback generateUUID p
      = injectRay All options callback generateUUID p.
Proof.
  intros Hfresh.
  destruct (makeId_fresh_returns generateUUID (idCache p) Hfresh) as [uuid [cache Hmk]].
  destruct (makeId_fresh_spec _ _ _ _ Hmk) as [Hin [Hnew ->]].
  exists uuid. eexists. unfold injectRay at 1. rewrite Hmk. split; [reflexivity|].
  unfold rayCleanup, rayEffect. simpl.
  repeat match goal with |- _ /\ _ => split end.
  - exact Hin.
  - exact Hnew.
  - apply lookup_insert_eq.
  - reflexivity.
  - reflexivity.
  - now rewrite <- app_assoc.
  - apply lookup_delete_eq.
  - apply delete_insert_eq.
  - intros Hnone. rewrite delete_insert_eq. now apply delete_id.
  - reflexivity.
  - reflexivity.
  - reflexivity.
Qed.

(** The theorem at the example bridge, whose generator yields the used id
    ["r1"] first. *)
Lemma injectRay_register_unregister_witness :
  (exists u, In u ex_uuids /\ idCache ex_physics !! u <> Some true) /\
  exists uuid p1,
    injectRay Any tt 2%nat ex_uuids ex_physics = Some (uuid, p1) /\
    events (rayCleanup uuid p1) !! uuid = None.
Proof.
  assert (H : exists u, In u ex_uuids /\ idCache ex_physics !! u <> Some true).
  { exists "r2"%string. split; [right; now left|]. vm_compute. discriminate. }
  split; [exact H|].
  destruct (injectRay_register_unregister Any tt 2%nat ex_uuids ex_physics H)
    as [uuid [p1 [H1 [_ [_ [_ [_ [_ [_ [H2 _]]]]]]]]]].
  now exists uuid, p1.
Defined.

(** ** The compute function *)

(** C9.  For each of the five prefixes a compute function is installed; it
    reads the fields [<prefix>X] and [<prefix>Y] of the event, that is
    [offsetX] and [offsetY] for [offset], [clientX] and [clientY] for
    [client], [pageX] and [pageY] for [page], [layerX] and [layerY] for
    [layer], [screenX] and [screenY] for [screen], and no other field; it
    sets the pointer to
    [((x / size.width) * 2 - 1, -(y / size.height) * 2 + 1)] and then points
    the raycaster from the camera with the pointer just set. *)
Theorem compute_reads_prefix_fields {number Camera : Type}
    (div mul sub add : number -> number -> number) (neg : number -> number)
    (one two : number) (eventPrefix : EventPrefix) :
  let fields := match eventPrefix with
                | offset => ("offsetX", "offsetY")
                | client => ("clientX", "clientY")
                | page => ("pageX", "pageY")
                | layer => ("layerX", "layerY")
                | screen => ("screenX", "screenY")
                end%string in
  exists f,
    noZoneRender_compute div mul sub add neg one two eventPrefix = Some f /\
    (prefixString eventPrefix ++ "X", prefixString eventPrefix ++ "Y")%string = fields /\
    (forall (event : string -> number) (s : @ComputeSnapshot number Camera),
        pointer (f event s)
        = (sub (mul (div (event (fst fields)) (size_width s)) two) one,
           add (mul (neg (div (event (snd fields)) (size_height s))) two) one)
        /\ raycaster (f event s) = Some (pointer (f event s), camera s)
        /\ camera (f event s) = camera s
        /\ size_width (f event s) = size_width s
        /\ size_height (f event s) = size_height s) /\
    (forall (event1 event2 : string -> number) (s : @ComputeSnapshot number Camera),
        event1 (fst fields) = event2 (fst fields) ->
        event1 (snd fields) = event2 (snd fields) ->
        f event1 s = f event2 s).
Proof.
  intros fields. subst fields.
  exists (compute div mul sub add neg one two eventPrefix).
  destruct eventPrefix; cbn [fst snd];
    (split; [reflexivity|split; [reflexivity|split;
       [intros event s; repeat split
       |intros event1 event2 s Hx Hy; unfold compute, prefixString; cbv [String.append];
        now rewrite Hx, Hy]]]).
Qed.

(** The pointer of the example: the bottom right corner is (1, -1). *)
Lemma compute_example :
  pointer (compute Z.div Z.mul Z.sub Z.add Z.opp 1 2 offset ex_pointer_event ex_snapshot)
  = (1, -1).
Proof. reflexivity. Qed.

(** ** Bubbling and dispatch *)

Lemma Object3D_parent_ind (P : Object3D -> Prop) :
  (forall o, (forall p, parent o = Some p -> P p) -> P o) -> forall o, P o.
Proof.
  intros step. fix IH 1. intros [n u ls [q|]]; apply step; simpl; intros p E.
  - injection E as <-. apply IH.
  - discriminate.
Qed.

Lemma bubbleFrom_ancestors h o :
  bubbleFrom h o
  = List.map (fun eo => {| hit := h; eventObject := eo |}) (List.filter hasEvents (ancestors o)).
Proof.
  induction o as [o IH] using Object3D_parent_ind.
  destruct o as [n u ls up]. simpl in *. unfold hasEvents at 1. simpl.
  assert (Hrest : match up with Some p => bubbleFrom h p | None => [] end
                  = List.map (fun eo => {| hit := h; eventObject := eo |})
                      (List.filter hasEvents
                         match up with Some p => ancestors p | None => [] end)).
  { destruct up as [p|]; [now apply IH|reflexivity]. }
  rewrite Hrest. destruct ls as [ls|]; [|reflexivity].
  now destruct (Nat.eqb (eventCount ls) 0).
Qed.

Lemma dispatchLoop_step callback event delta pass ints higher h rest w :
  dispatchLoop callback event delta pass ints higher (h :: rest) w
  = if localState_stopped (callback higher (newEvent pass higher w h ints delta event))
    then (world (callback higher (newEvent pass higher w h ints delta event)), true)
    else dispatchLoop callback event delta pass ints (higher ++ [h]) rest
           (world (callback higher (newEvent pass higher w h ints delta event))).
Proof. reflexivity. Qed.

Lemma dispatchLoop_app callback event delta pass ints higher l1 l2 w :
  dispatchLoop callback event delta pass ints higher (l1 ++ l2) w
  = if snd (dispatchLoop callback event delta pass ints higher l1 w)
    then dispatchLoop callback event delta pass ints higher l1 w
    else dispatchLoop callback event delta pass ints (higher ++ l1) l2
           (fst (dispatchLoop callback event delta pass ints higher l1 w)).
Proof.
  revert higher w. induction l1 as [|h l1 IH]; intros higher w.
  - simpl. now rewrite app_nil_r.
  - rewrite <- app_comm_cons, !dispatchLoop_step.
    destruct (localState_stopped (callback higher (newEvent pass higher w h ints delta event)));
      [reflexivity|].
    rewrite IH. now rewrite <- app_assoc.
Qed.

Lemma filterDuplicates_represented d l r :
  In r l -> has d (makeId_hit r) = false ->
  exists h, In h (fst (filterDuplicates d l)) /\ makeId_hit h = makeId_hit r.
Proof.
  revert d. induction l as [|y l IH]; simpl; intros d Hin Hd; [destruct Hin|].
  destruct (has d (makeId_hit y)) eqn:Hy.
  - destruct Hin as [->|Hin]; [congruence|now apply IH].
  - specialize (IH (makeId_hit y :: d)).
    destruct (filterDuplicates (makeId_hit y :: d) l) as [kept d']. simpl in *.
    destruct (String.eqb_spec (makeId_hit r) (makeId_hit y)) as [E|E].
    + exists y. auto.
    + destruct Hin as [->|Hin]; [congruence|].
      destruct (IH Hin) as [h [H1 H2]]; [now rewrite Hd|]. exists h. auto.
Qed.

(** C2.  The bubbling loop turns a hit into one intersection per node of
    the parent chain of the hit object that has [eventCount > 0], the hit
    object first and the root last; [intersect] returns these runs, hit
    after hit, before the capturing targets; every raw hit of the raycast
    is among the hits under its id; and the dispatch loop calls the
    callback on the intersections in list order and stops behind the first
    one whose callback leaves the [stopped] flag set. *)
Theorem bubble_child_to_root_dispatch_in_order :
  (forall h,
      bubble h = List.map (fun eo => {| hit := h; eventObject := eo |})
                          (List.filter hasEvents (ancestors (object h)))) /\
  (forall o, exists up, ancestors o = o :: up /\
                        up = match parent o with Some p => ancestors p | None => [] end) /\
  (forall rootState intersectObject events_filter event filter w,
      exists captured,
        intersect rootState intersectObject events_filter event filter w
        = flat_map bubble (loopHits rootState intersectObject events_filter event filter w)
          ++ captured) /\
  (forall intersectObject event eventsObjects r,
      In r (rawHits intersectObject event eventsObjects) ->
      exists h, In h (fst (collectHits intersectObject event eventsObjects))
                /\ makeId_hit h = makeId_hit r) /\
  (forall callback event delta pass ints higher h w,
      dispatchLoop callback event delta pass ints higher [h] w
      = (world (callback higher (newEvent pass higher w h ints delta event)),
         localState_stopped (callback higher (newEvent pass higher w h ints delta event)))) /\
  (forall callback event delta pass ints higher l1 l2 w,
      dispatchLoop callback event delta pass ints higher (l1 ++ l2) w
      = if snd (dispatchLoop callback event delta pass ints higher l1 w)
        then dispatchLoop callback event delta pass ints higher l1 w
        else dispatchLoop callback event delta pass ints (higher ++ l1) l2
               (fst (dispatchLoop callback event delta pass ints higher l1 w))).
Proof.
  split; [|split; [|split; [|split; [|split]]]].
  - intros h. apply bubbleFrom_ancestors.
  - intros o. eexists. split; [|reflexivity]. now destruct o.
  - intros rootState intersectObject events_filter event filter w.
    unfold intersect, loopHits.
    destruct (collectHits intersectObject event
                match filter with
                | Some f => f (interaction (internals w (root rootState)))
                | None => interaction (internals w (root rootState))
                end) as [hits duplicates].
    eexists. reflexivity.
  - intros intersectObject event eventsObjects r Hr. unfold collectHits, sortedHits.
    apply filterDuplicates_represented; [|reflexivity].
    apply (Permutation_in r (Array_sort_Permutation compareHits _)). exact Hr.
  - intros callback event dlt pass ints higher h w. rewrite dispatchLoop_step.
    now destruct (localState_stopped (callback higher (newEvent pass higher w h ints dlt event))).
  - intros. apply dispatchLoop_app.
Qed.

(** The group of the example, hit through [ex_A], [ex_B] and [ex_C]: the
    handlers run for [A], [C], [B], [C], [C]. *)
Lemma dispatch_example_group :
  called (effects (handlePointer (ex_layer 0) (ex_cast_group []) None pointerdown ex_event
                     (ex_group_world [] [])))
  = [(pointerdown, "A"); (pointerdown, "C"); (pointerdown, "B");
     (pointerdown, "C"); (pointerdown, "C")]%string.
Proof. vm_compute. reflexivity. Qed.

(** ** stopPropagation *)

Section StopFacts.
Variable rootState : NgtState.

Lemma stopPropagation_rejected event higher d :
  capturedByOther rootState event d = true ->
  stopPropagation rootState event higher d = d.
Proof.
  unfold capturedByOther, stopPropagation, stopPropagationOf.
  destruct (pointerId event) as [id|]; [|discriminate].
  destruct (Map_get Z.eqb id _) as [captures|]; [|discriminate].
  intros H. apply negb_true_iff in H. now rewrite H.
Qed.

Lemma stopPropagation_accepted event higher d :
  capturedByOther rootState event d = false ->
  localState_stopped (stopPropagation rootState event higher d) = true
  /\ stopped (raycastEvent (stopPropagation rootState event higher d)) = true
  /\ ev_hit (raycastEvent (stopPropagation rootState event higher d)) = ev_hit (raycastEvent d).
Proof.
  intros Hc.
  split; [|split; [|exact (keeps_current_hit _ _ (stopPropagation_current _ _ _ _))]].
  - unfold stopPropagation, stopPropagationOf. unfold capturedByOther in Hc.
    match goal with
    | |- context [cancelPointerD _ _ ?d1] =>
        assert (H1 : localState_stopped d1 = true) by (simpl; now rewrite Nat.eqb_refl);
        pose proof (proj2 (cancelPointerD_current rootState (higher ++ [ev_hit (raycastEvent d)])
                             d1) H1) as H2
    end.
    destruct (pointerId event) as [id|].
    + destruct (Map_get Z.eqb id _) as [captures|].
      * apply negb_false_iff in Hc. rewrite Hc. now case_if.
      * now case_if.
    + now case_if.
  - unfold stopPropagation, stopPropagationOf. unfold capturedByOther in Hc.
    match goal with
    | |- context [cancelPointerD _ _ ?d1] =>
        assert (H1 : stopped (raycastEvent d1) = true) by (simpl; now rewrite Nat.eqb_refl);
        pose proof (keeps_current_stopped _ _
                      (cancelPointerD_current rootState (higher ++ [ev_hit (raycastEvent d)])
                         d1) H1) as H2
    end.
    destruct (pointerId event) as [id|].
    + destruct (Map_get Z.eqb id _) as [captures|].
      * apply negb_false_iff in Hc. rewrite Hc. now case_if.
      * now case_if.
    + now case_if.
Qed.

Lemma stopPropagation_keeps event higher d :
  localState_stopped d = true ->
  localState_stopped (stopPropagation rootState event higher d) = true.
Proof. exact (proj2 (stopPropagation_current rootState event higher d)). Qed.

Lemma runAction_keeps event higher a d :
  localState_stopped d = true ->
  localState_stopped (runAction rootState event higher a d) = true.
Proof. exact (proj2 (runAction_current rootState event higher a d)). Qed.

Lemma script_keeps event higher script d :
  localState_stopped d = true ->
  localState_stopped (fold_left (fun d a => runAction rootState event higher a d) script d)
  = true.
Proof. exact (proj2 (script_current rootState event higher script d)). Qed.

(** A handler that begins by calling [stopPropagation] leaves the flag
    set when the call is accepted. *)
Lemma callHandler_stops event higher name hs script d :
  hs name = Some (StopPropagation :: script) ->
  capturedByOther rootState event d = false ->
  localState_stopped (callHandler rootState event higher name hs d) = true.
Proof.
  intros Hh Hc. unfold callHandler. rewrite Hh. cbn [fold_left].
  apply script_keeps.
  exact (proj1 (stopPropagation_accepted event higher
                  (on_world (emit [Call name (raycastEvent d)]) d) Hc)).
Qed.

Lemma callHandler_rejected event higher name hs d :
  hs name = Some [StopPropagation] ->
  capturedByOther rootState event d = true ->
  callHandler rootState event higher name hs d
  = on_world (emit [Call name (raycastEvent d)]) d.
Proof.
  intros Hh Hc. unfold callHandler. rewrite Hh. cbn [fold_left].
  exact (stopPropagation_rejected event higher
           (on_world (emit [Call name (raycastEvent d)]) d) Hc).
Qed.
End StopFacts.

(** C1.  [stopPropagation] on the event of the current hit sets the flag of
    the pass, and the dispatch loop then visits no later intersection,
    except that the call changes nothing when the event has a pointer id
    that [capturedMap] holds and the [eventObject] of the hit is not one of
    the objects capturing it: the flag stays as it was and the loop goes on
    to the next intersection. *)
Theorem stopPropagation_contract (rootState : NgtState) :
  (forall event higher d,
      capturedByOther rootState event d = false ->
      localState_stopped (stopPropagation rootState event higher d) = true
      /\ stopped (raycastEvent (stopPropagation rootState event higher d)) = true) /\
  (forall event higher d,
      capturedByOther rootState event d = true ->
      stopPropagation rootState event higher d = d) /\
  (forall event d,
      capturedByOther rootState event d = true <->
      exists id captures,
        pointerId event = Some id /\
        Map_get Z.eqb id (capturedMap (internals (world d)
            (internal (stateOf rootState (ev_hit (raycastEvent d)))))) = Some captures /\
        Map_has same (eventObject (ev_hit (raycastEvent d))) captures = false) /\
  (forall callback event dlt pass ints higher h rest w,
      localState_stopped (callback higher (newEvent pass higher w h ints dlt event)) = true ->
      dispatchLoop callback event dlt pass ints higher (h :: rest) w
      = (world (callback higher (newEvent pass higher w h ints dlt event)), true)) /\
  (forall callback event dlt pass ints higher h rest w,
      localState_stopped (callback higher (newEvent pass higher w h ints dlt event)) = false ->
      dispatchLoop callback event dlt pass ints higher (h :: rest) w
      = dispatchLoop callback event dlt pass ints (higher ++ [h]) rest
          (world (callback higher (newEvent pass higher w h ints dlt event)))) /\
  (forall name event dlt pass ints higher h rest w inst script,
      isPointerMove name = false ->
      getLocalState (eventObject h) = Some inst ->
      eventCount inst <> 0%nat ->
      handlers inst name = Some (StopPropagation :: script) ->
      isClickEvent name = false ->
      capturedByOther rootState event (newEvent pass higher w h ints dlt event) = false ->
      snd (dispatchLoop (onIntersect rootState name event) event dlt pass ints higher (h :: rest) w)
      = true
      /\ dispatchLoop (onIntersect rootState name event) event dlt pass ints higher (h :: rest) w
         = dispatchLoop (onIntersect rootState name event) event dlt pass ints higher [h] w) /\
  (forall name event dlt pass ints higher h rest w inst,
      isPointerMove name = false ->
      getLocalState (eventObject h) = Some inst ->
      eventCount inst <> 0%nat ->
      handlers inst name = Some [StopPropagation] ->
      isClickEvent name = false ->
      capturedByOther rootState event (newEvent pass higher w h ints dlt event) = true ->
      dispatchLoop (onIntersect rootState name event) event dlt pass ints higher (h :: rest) w
      = dispatchLoop (onIntersect rootState name event) event dlt pass ints (higher ++ [h]) rest
          (emit (pointerMissed event (notInitiallyHit (internals w (root rootState)))
                 ++ [Call name (raycastEvent (newEvent pass higher w h ints dlt event))])
             (fresh_event w))).
Proof.
  split; [|split; [|split; [|split; [|split; [|split]]]]].
  - intros event higher d H.
    destruct (stopPropagation_accepted rootState event higher d H) as [H1 [H2 _]]. auto.
  - intros event higher d. apply stopPropagation_rejected.
  - intros event d. unfold capturedByOther. split.
    + destruct (pointerId event) as [id|]; [|discriminate].
      destruct (Map_get Z.eqb id _) as [captures|] eqn:E; [|discriminate].
      intros H. apply negb_true_iff in H. now exists id, captures.
    + intros [id [captures [-> [-> H]]]]. now rewrite H.
  - intros callback event dlt pass ints higher h rest w H. now rewrite dispatchLoop_step, H.
  - intros callback event dlt pass ints higher h rest w H. now rewrite dispatchLoop_step, H.
  - intros name event dlt pass ints higher h rest w inst script Hmove Hls Hcount Hh Hclick Hc.
    assert (Hflag : localState_stopped
                      (onIntersect rootState name event higher (newEvent pass higher w h ints dlt event))
                    = true).
    { unfold onIntersect. simpl. rewrite Hls.
      destruct (Nat.eqb_spec (eventCount inst) 0) as [|_]; [contradiction|].
      rewrite Hmove, Hh, Hclick. simpl.
      now apply (callHandler_stops rootState event higher name (handlers inst) script). }
    rewrite !dispatchLoop_step, Hflag. auto.
  - intros name event dlt pass ints higher h rest w inst Hmove Hls Hcount Hh Hclick Hc.
    assert (Hd : onIntersect rootState name event higher (newEvent pass higher w h ints dlt event)
                 = on_world (emit (pointerMissed event
                                     (notInitiallyHit (internals w (root rootState)))
                                   ++ [Call name (raycastEvent (newEvent pass higher w h ints dlt event))]))
                     (newEvent pass higher w h ints dlt event)).
    { unfold onIntersect. simpl. rewrite Hls.
      destruct (Nat.eqb_spec (eventCount inst) 0) as [|_]; [contradiction|].
      rewrite Hmove, Hh, Hclick. simpl.
      rewrite (callHandler_rejected rootState event higher name (handlers inst)); auto.
      unfold on_world, emit. simpl. now rewrite <- app_assoc. }
    rewrite dispatchLoop_step, Hd. reflexivity.
Qed.

(** In the group of the example [ex_A] stops the propagation of a
    [pointerdown]: only its handler runs.  When [ex_C] holds the capture of
    the pointer, the call is rejected and all five handlers run. *)
Lemma stopPropagation_example :
  called (effects (handlePointer (ex_layer 0) (ex_cast_group [StopPropagation]) None
                     pointerdown ex_event (ex_group_world [StopPropagation] [])))
  = [(pointerdown, "A")]%string /\
  called (effects (handlePointer (ex_layer 0) (ex_cast_group [StopPropagation]) None
                     pointerdown ex_event (ex_group_world [StopPropagation] ex_capture_C)))
  = [(pointerdown, "A"); (pointerdown, "C"); (pointerdown, "B");
     (pointerdown, "C"); (pointerdown, "C")]%string.
Proof. split; vm_compute; reflexivity. Qed.


(** ** Clicks and missed clicks *)

Lemma intersect_lastEvent rootState intersectObject events_filter event filter e w :
  intersect rootState intersectObject events_filter event filter
    (update_internal (root rootState) (with_lastEvent e) w)
  = intersect rootState intersectObject events_filter event filter w.
Proof. unfold intersect. simpl. now rewrite Nat.eqb_refl. Qed.


Lemma handlePointer_click rootState intersectObject events_filter name event w :
  isClickEvent name = true ->
  handlePointer rootState intersectObject events_filter name event w
  = handleEvent rootState intersectObject events_filter name event w.
Proof. now destruct name. Qed.


(** [Math.round(Math.sqrt(n)) <= k] means [sqrt n < k + 1/2], that is
    [4 n < (2 k + 1)^2]. *)
Lemma rounded_sqrt_le m k :
  0 <= m -> 0 <= k -> ((Z.sqrt m + 1) / 2 <= k <-> m < (2 * k + 1) * (2 * k + 1)).
Proof.
  intros Hm Hk. pose proof (Z.sqrt_spec m Hm) as [Hlo Hhi].
  pose proof (Z.sqrt_nonneg m) as Hs.
  set (s := Z.sqrt m) in *.
  pose proof (Z.div_mod (s + 1) 2 ltac:(lia)) as Hdm.
  pose proof (Z.mod_pos_bound (s + 1) 2 ltac:(lia)) as Hmod.
  split; intros H.
  - assert (s <= 2 * k) by lia. nia.
  - assert (s <= 2 * k) by nia. lia.
Qed.

Lemma Qfloor_lt_iff (x : Q) (z : Z) : (Qfloor x < z <-> (x < inject_Z z)%Q).
Proof.
  split; intros H.
  - apply Qlt_le_trans with (inject_Z (Qfloor x + 1)); [apply Qlt_floor|].
    rewrite <- Zle_Qle. lia.
  - destruct (Z_lt_le_dec (Qfloor x) z) as [Hlt|Hge]; [exact Hlt|]. exfalso.
    apply (Qlt_irrefl x). apply Qlt_le_trans with (inject_Z z); [exact H|].
    apply Qle_trans with (inject_Z (Qfloor x)); [now rewrite <- Zle_Qle|apply Qfloor_le].
Qed.

Lemma squares_nonneg (dx dy : Q) : (0 <= 4 * (dx * dx + dy * dy))%Q.
Proof. nra. Qed.

(** The distance of a click is at most [k] exactly when the event lies
    less than [k + 1/2] pixels from the recorded position. *)
Lemma calculateDistance_le rootState event w k :
  0 <= k ->
  (calculateDistance rootState event w <= k <->
   (4 * ((offsetX event - fst (initialClick (internals w (root rootState))))
         * (offsetX event - fst (initialClick (internals w (root rootState))))
         + (offsetY event - snd (initialClick (internals w (root rootState))))
           * (offsetY event - snd (initialClick (internals w (root rootState)))))
    < inject_Z ((2 * k + 1) * (2 * k + 1)))%Q).
Proof.
  intros Hk. unfold calculateDistance. cbv zeta.
  set (dx := (offsetX event - fst (initialClick (internals w (root rootState))))%Q).
  set (dy := (offsetY event - snd (initialClick (internals w (root rootState))))%Q).
  rewrite <- Qfloor_lt_iff. apply rounded_sqrt_le; [|exact Hk].
  rewrite <- (Qfloor_Z 0). apply Qfloor_resp_le. apply squares_nonneg.
Qed.

Lemma calculateDistance_nonneg rootState event w : 0 <= calculateDistance rootState event w.
Proof.
  unfold calculateDistance. cbv zeta. apply Z.div_pos; [|lia].
  match goal with |- 0 <= Z.sqrt ?m + 1 => pose proof (Z.sqrt_nonneg m) end. lia.
Qed.

(** An event at the recorded position is at distance 0. *)
Lemma calculateDistance_here rootState event w :
  initialClick (internals w (root rootState)) = (offsetX event, offsetY event) ->
  calculateDistance rootState event w = 0.
Proof.
  intros Hc. pose proof (calculateDistance_nonneg rootState event w) as Hpos.
  pose proof (calculateDistance_le rootState event w 0 ltac:(lia)) as H0.
  rewrite Hc in H0. cbn [fst snd] in H0.
  assert (H : calculateDistance rootState event w <= 0).
  { apply H0. change (inject_Z ((2 * 0 + 1) * (2 * 0 + 1))) with 1%Q.
    setoid_replace (4 * ((offsetX event - offsetX event) * (offsetX event - offsetX event)
                         + (offsetY event - offsetY event) * (offsetY event - offsetY event)))%Q
      with 0%Q using relation Qeq by ring.
    reflexivity. }
  lia.
Qed.

Lemma script_extends rootState event higher script d :
  extends_with (fun _ => True) (world d)
    (world (fold_left (fun d a => runAction rootState event higher a d) script d)).
Proof. apply (script_inv rootState (fun _ => True) (fun _ => True)); auto. Qed.

Lemma dispatchLoop_extends rootState name event dlt pass ints higher todo w :
  extends_with (fun _ => True) w
    (fst (dispatchLoop (onIntersect rootState name event) event dlt pass ints higher todo w)).
Proof.
  apply (dispatchLoop_inv rootState (fun _ => True) (fun _ => True)) with (OnHit := fun _ => True);
    auto.
Qed.




(** ** What a handled event keeps and what it may emit *)

Section HandleEventInvariant.
Variable rootState : NgtState.
Variable intersectObject : NgtDomEvent -> Object3D -> list Intersection.
Variable events_filter : option (list Intersection -> list Intersection).
Variable name : EventName.
Variable Inv : World -> Prop.
Variable Q : Effect -> Prop.
Variable OnHit : NgtIntersection -> Prop.

Hypothesis Inv_emit : forall es w, Inv w -> Inv (emit es w).
Hypothesis Inv_fresh : forall w, Inv w -> Inv (fresh_event w).
Hypothesis Inv_delete : forall key w,
  Inv w ->
  Inv (update_internal (root rootState)
         (fun i => with_hovered (Map_delete String.eqb key (hovered i)) i) w).
Hypothesis Inv_mark : forall id w,
  Inv w ->
  Inv (update_internal (root rootState)
         (fun i => with_hovered (mark_stopped id (hovered i)) i) w).
Hypothesis Inv_book : forall e w,
  Inv w -> OnHit (ev_hit e) ->
  Map_get String.eqb (makeId (ev_hit e)) (hovered (internals w (root rootState))) = None ->
  Inv (update_internal (root rootState)
         (fun i => with_hovered (Map_set String.eqb (makeId (ev_hit e)) e (hovered i)) i) w).
Hypothesis Inv_set : forall n h event id w,
  Inv w ->
  Inv (update_internal n
         (with_capturedMap (fst (setPointerCapture h event id (capturedMap (internals w n)))))
         w).
Hypothesis Inv_release : forall n h id w,
  Inv w ->
  Inv (update_internal n
         (with_capturedMap (fst (releasePointerCapture h id (capturedMap (internals w n)))))
         w).
Hypothesis Inv_lastEvent : forall e w,
  Inv w -> Inv (update_internal (root rootState) (with_lastEvent e) w).
Hypothesis Inv_down :
  name = pointerdown ->
  forall hs p w, Inv w ->
    Inv (update_internal (root rootState)
           (fun i => with_initialHits hs (with_initialClick p i)) w).

Hypothesis Q_drop : forall w key v ints,
  Inv w -> Map_get String.eqb key (hovered (internals w (root rootState))) = Some v ->
  Q (Call pointerout (with_intersections ints v))
  /\ Q (Call pointerleave (with_intersections ints v)).
Hypothesis Q_set : forall t id, Q (ElementSetPointerCapture t id).
Hypothesis Q_release : forall t id, Q (ElementReleasePointerCapture t id).
Hypothesis Q_missed :
  isPointerMove name = false -> forall obj event, Q (CallMissed obj event).
Hypothesis Q_next :
  isClickEvent name = true -> forall event, Q (PointerMissedNext event).
Hypothesis Q_move :
  isPointerMove name = true ->
  forall e, OnHit (ev_hit e) ->
    Q (Call pointerover e) /\ Q (Call pointerenter e) /\ Q (Call pointermove e).
Hypothesis Q_name :
  isPointerMove name = false ->
  forall w e, Inv w -> OnHit (ev_hit e) ->
    negb (isClickEvent name)
    || includes (initialHits (internals w (root rootState))) (eventObject (ev_hit e)) = true ->
    Q (Call name e).

Lemma handleEvent_inv event w :
  Inv w ->
  (forall h,
      In h (intersect rootState intersectObject events_filter event
              (if isPointerMove name then Some filterPointerEvents else None) w) ->
      OnHit h) ->
  Inv (handleEvent rootState intersectObject events_filter name event w)
  /\ extends_with Q w (handleEvent rootState intersectObject events_filter name event w).
Proof.
  intros Hw Hon. unfold handleEvent, handleIntersects.
  set (w0 := update_internal (root rootState) (with_lastEvent (Some event)) w).
  assert (Hhits : intersect rootState intersectObject events_filter event
                    (if isPointerMove name then Some filterPointerEvents else None) w0
                  = intersect rootState intersectObject events_filter event
                      (if isPointerMove name then Some filterPointerEvents else None) w)
    by (unfold intersect; subst w0; simpl; now rewrite Nat.eqb_refl).
  rewrite Hhits.
  set (hits := intersect rootState intersectObject events_filter event _ w) in *.
  set (dlt := if isClickEvent name then _ else _).
  assert (H0 : Inv w0) by now apply Inv_lastEvent.
  assert (E0 : extends_with Q w w0) by now apply extends_with_silent.
  match goal with
  | |- context [dispatchLoop _ _ _ _ _ _ _ ?w3] => set (w3' := w3)
  end.
  assert (H3 : Inv w3' /\ extends_with Q w0 w3').
  { subst w3'.
    match goal with
    | |- context [if isPointerMove name then cancelPointer _ _ ?w2 else _] => set (w2' := w2)
    end.
    assert (H2 : Inv w2' /\ extends_with Q w0 w2').
    { subst w2'.
      match goal with
      | |- context [emit _ ?w1] => set (w1' := w1)
      end.
      assert (H1 : Inv w1' /\ extends_with Q w0 w1').
      { subst w1'. destruct name;
          try (split; [exact H0|apply extends_with_refl]).
        split; [now apply Inv_down|now apply extends_with_silent]. }
      destruct H1 as [H1 E1].
      assert (Hc : isClickEvent name = true \/ isClickEvent name = false)
        by (destruct (isClickEvent name); auto).
      destruct Hc as [Hc|Hc]; rewrite Hc; simpl; [|now split].
      destruct (Nat.eqb (length hits) 0); [|now split].
      destruct (dlt <=? 2); [|now split].
      split; [now apply Inv_emit|].
      refine (extends_with_trans _ _ _ _ E1 (extends_with_emit _ _ _ _)).
      apply Forall_app. split.
      - apply pointerMissed_Forall. intros obj _. apply Q_missed. now destruct name.
      - repeat constructor. now apply Q_next. }
    destruct H2 as [H2 E2].
    assert (Hm : isPointerMove name = true \/ isPointerMove name = false)
      by (destruct (isPointerMove name); auto).
    destruct Hm as [Hm|Hm]; rewrite Hm; [|now split].
    destruct (cancelPointer_inv rootState Inv Q Inv_emit Inv_delete Inv_mark Inv_set
                Inv_release Q_drop Q_set Q_release hits w2' H2) as [H3 E3].
    split; [exact H3|exact (extends_with_trans _ _ _ _ E2 E3)]. }
  destruct H3 as [H3 E3].
  destruct (dispatchLoop_inv rootState Inv Q Inv_emit Inv_delete Inv_mark Inv_set
              Inv_release Q_drop Q_set Q_release name OnHit Inv_fresh Inv_book
              (fun Hm _ obj ev _ _ => Q_missed Hm obj ev) Q_move Q_name
              event dlt (nextEvent w3') hits [] hits w3' H3 Hon) as [H4 E4].
  split; [exact H4|].
  exact (extends_with_trans _ _ _ _ E0 (extends_with_trans _ _ _ _ E3 E4)).
Qed.
End HandleEventInvariant.

Lemma same_bookkeeping_refl w : same_bookkeeping w w.
Proof. split; [reflexivity|now intros n]. Qed.

Lemma same_bookkeeping_emit w0 es w : same_bookkeeping w0 w -> same_bookkeeping w0 (emit es w).
Proof. intros H. exact H. Qed.

Lemma same_bookkeeping_fresh w0 w : same_bookkeeping w0 w -> same_bookkeeping w0 (fresh_event w).
Proof. intros H. exact H. Qed.

Lemma same_bookkeeping_hovered w0 n (f : HoveredMap -> HoveredMap) w :
  same_bookkeeping w0 w ->
  same_bookkeeping w0 (update_internal n (fun i => with_hovered (f (hovered i)) i) w).
Proof.
  intros [Hf H]. split; [exact Hf|]. intros m. simpl.
  destruct (Nat.eqb m n); [|apply H]. simpl. apply H.
Qed.

Lemma same_bookkeeping_captured w0 n cm w :
  same_bookkeeping w0 w -> same_bookkeeping w0 (update_internal n (with_capturedMap cm) w).
Proof.
  intros [Hf H]. split; [exact Hf|]. intros m. simpl.
  destruct (Nat.eqb m n); [|apply H]. simpl. apply H.
Qed.

(** ** Well-formedness of the hovered map *)

Lemma NoDup_map_filter {A B} (f : A -> B) (P : A -> bool) l :
  List.NoDup (List.map f l) -> List.NoDup (List.map f (List.filter P l)).
Proof.
  induction l as [|x l IH]; simpl; intros H; [constructor|].
  apply NoDup_cons_iff in H as [Hx Hl].
  destruct (P x); simpl; [|auto].
  constructor; [|auto]. intros Hin. apply Hx.
  apply in_map_iff in Hin as [y [Hy Hin]]. apply filter_In in Hin as [Hin _].
  apply in_map_iff. now exists y.
Qed.

Lemma Map_get_None_keys {V} k (m : list (string * V)) :
  Map_get String.eqb k m = None -> ~ In k (Map_keys m).
Proof. apply Map_get_keys. Qed.

Lemma Map_set_fresh {V} k (v : V) m :
  Map_get String.eqb k m = None -> Map_set String.eqb k v m = m ++ [(k, v)].
Proof.
  induction m as [|[k' v'] m IH]; simpl; [reflexivity|].
  destruct (String.eqb k k'); [discriminate|]. intros H. now rewrite IH.
Qed.

Lemma hovered_wf_delete k m : hovered_wf m -> hovered_wf (Map_delete String.eqb k m).
Proof. apply shrinks_wf, shrinks_delete. Qed.

Lemma hovered_wf_mark n m : hovered_wf m -> hovered_wf (mark_stopped n m).
Proof. apply shrinks_wf, shrinks_mark. Qed.

Lemma hovered_wf_set v m :
  hovered_wf m -> Map_get String.eqb (makeId (ev_hit v)) m = None ->
  hovered_wf (Map_set String.eqb (makeId (ev_hit v)) v m).
Proof.
  intros [Hnd Hk] Hnone. rewrite Map_set_fresh by exact Hnone. split.
  - unfold Map_keys. rewrite List.map_app. simpl.
    apply List.NoDup_app; [exact Hnd|repeat constructor; intros []|].
    intros k Hin [<-|[]]. now apply (Map_get_None_keys _ _ Hnone).
  - apply Forall_app. split; [exact Hk|]. now repeat constructor.
Qed.

Lemma hovered_wf_In_get m key v :
  hovered_wf m -> In (key, v) m -> Map_get String.eqb key m = Some v.
Proof.
  intros [Hnd _]. induction m as [|[k x] m IH]; simpl; intros Hin; [destruct Hin|].
  unfold Map_keys in Hnd. simpl in Hnd. apply NoDup_cons_iff in Hnd as [Hk Hnd].
  destruct Hin as [E|Hin].
  - injection E as -> ->. now rewrite String.eqb_refl.
  - destruct (String.eqb_spec key k) as [->|_]; [|now apply IH].
    exfalso. apply Hk. apply in_map_iff. now exists (k, v).
Qed.

(** An entry that is still booked after a run is the one booked before,
    marked stopped or not. *)
Lemma shrinks_get m m' key v v' :
  hovered_wf m -> shrinks m m' ->
  Map_get String.eqb key m = Some v -> Map_get String.eqb key m' = Some v' ->
  marked v v'.
Proof.
  intros Hwf Hs Hget Hget'.
  apply Map_get_In in Hget' as [k' [Hin' Hk']]. apply String.eqb_eq in Hk'. subst k'.
  destruct (shrinks_In _ _ _ _ Hs Hin') as [x [Hin Hm]].
  rewrite (hovered_wf_In_get _ _ _ Hwf Hin) in Hget. now injection Hget as ->.
Qed.

Lemma Map_get_mark key id m :
  Map_get String.eqb key (mark_stopped id m)
  = match Map_get String.eqb key m with
    | Some v => Some (if Nat.eqb (ev_id v) id then with_stopped true v else v)
    | None => None
    end.
Proof.
  unfold mark_stopped. induction m as [|[k v] m IH]; simpl; [reflexivity|].
  destruct (Nat.eqb (ev_id v) id) eqn:E; simpl; destruct (String.eqb key k); auto;
    now rewrite ?E.
Qed.

Lemma unhovered_marked ints v v' : marked v v' -> unhovered ints v' = unhovered ints v.
Proof. intros [->| ->]; reflexivity. Qed.

(** *** What is left after [cancelPointer(intersections)] is under the
    pointer *)
Section Covered.
Variable rootState : NgtState.
Variable cancel : list NgtIntersection -> Dispatch -> Dispatch.
Hypothesis cancel_inv : forall m0 ints d,
  shrinks m0 (hovered (internals (world d) (root rootState))) ->
  shrinks m0 (hovered (internals (world (cancel ints d)) (root rootState)))
  /\ extends_with (fun _ => True) (world d) (world (cancel ints d)).

Lemma cancelLoop_visited ints todo d key v' :
  hovered_wf (hovered (internals (world d) (root rootState))) ->
  In key todo ->
  Map_get String.eqb key
    (hovered (internals (world (cancelLoop rootState cancel ints todo d)) (root rootState)))
  = Some v' ->
  unhovered ints v' = false.
Proof.
  revert d. induction todo as [|key0 todo IH]; simpl; intros d Hwf Hin Hget';
    [destruct Hin|].
  destruct (Map_get String.eqb key0 _) as [v|] eqn:Hget.
  - pose proof (cancelOne_shrinks1 rootState cancel cancel_inv ints key0 v d Hget) as Hs.
    destruct (String.eqb_spec key0 key) as [->|Hne].
    + destruct (unhovered ints v) eqn:Hun.
      * rewrite (shrinks_absent _ _ key (cancelLoop_shrinks1 rootState cancel cancel_inv _ _ _))
          in Hget'; [discriminate|].
        apply (cancelOne_deletes rootState cancel cancel_inv); [exact Hun|].
        exact (proj1 (keyed_get _ _ _ (proj2 Hwf) Hget)).
      * assert (Hd : cancelOne rootState cancel ints v d = d)
          by (unfold cancelOne; now rewrite Hun).
        rewrite Hd in Hget'.
        rewrite (unhovered_marked ints v v'); [exact Hun|].
        exact (shrinks_get _ _ key v v' Hwf
                 (cancelLoop_shrinks1 rootState cancel cancel_inv _ _ _) Hget Hget').
    + apply (IH (cancelOne rootState cancel ints v d)); [exact (shrinks_wf _ _ Hs Hwf)| |exact Hget'].
      destruct Hin; [contradiction|assumption].
  - destruct (String.eqb_spec key0 key) as [->|Hne].
    + rewrite (shrinks_absent _ _ key (cancelLoop_shrinks1 rootState cancel cancel_inv _ _ _)
                 Hget) in Hget'. discriminate.
    + apply (IH d); [exact Hwf| |exact Hget']. destruct Hin; [contradiction|assumption].
Qed.
End Covered.

Lemma cancelPointerD_covered rootState ints d :
  hovered_wf (hovered (internals (world d) (root rootState))) ->
  all_covered ints
    (hovered (internals (world (cancelPointerD rootState ints d)) (root rootState))).
Proof.
  intros Hwf [key v'] Hin. cbn [snd].
  pose proof (cancelPointerF_shrinks_self rootState
                (S (length (hovered (internals (world d) (root rootState))))) ints d) as Hs.
  fold (cancelPointerD rootState ints d) in Hs.
  pose proof (shrinks_wf _ _ Hs Hwf) as Hwf'.
  pose proof (hovered_wf_In_get _ _ _ Hwf' Hin) as Hget'.
  assert (Hkey : In key (Map_keys (hovered (internals (world d) (root rootState))))).
  { apply (shrinks_keys _ _ key Hs). apply in_map_iff. now exists (key, v'). }
  pose proof (cancelLoop_visited rootState
                (cancelPointerF rootState
                   (length (hovered (internals (world d) (root rootState)))))
                (cancelPointerF_shrinks_inv rootState _) ints
                (Map_keys (hovered (internals (world d) (root rootState)))) d key v'
                Hwf Hkey Hget') as Hun.
  rewrite unhovered_covered in Hun. apply negb_false_iff in Hun. exact Hun.
Qed.

(** ** The drop of one hovered entry *)

Lemma marked_step e v id :
  marked e v -> marked e (if Nat.eqb (ev_id v) id then with_stopped true v else v).
Proof.
  intros H. destruct (Nat.eqb _ _); [|exact H]. apply (marked_trans _ _ _ H). now right.
Qed.

Lemma dropTrace_pre e es0 es :
  Forall (offTarget (ev_hit e)) es0 -> dropTrace e es -> dropTrace e (es0 ++ es).
Proof.
  intros H0 (pre & mid & post & ints & e' & Hm & -> & Hoff & Hq).
  exists (es0 ++ pre), mid, post, ints, e'. split; [exact Hm|].
  split; [now rewrite <- app_assoc|]. split; [|exact Hq].
  rewrite <- app_assoc. apply Forall_app. now split.
Qed.

Lemma dropTrace_post e es es1 :
  dropTrace e es -> Forall (offTarget (ev_hit e)) es1 -> dropTrace e (es ++ es1).
Proof.
  intros (pre & mid & post & ints & e' & Hm & -> & Hoff & Hq) H1.
  exists pre, mid, (post ++ es1), ints, e'. split; [exact Hm|].
  split; [now rewrite <- !app_assoc|]. split; [|exact Hq].
  rewrite !app_assoc. apply Forall_app. split; [now rewrite <- !app_assoc|exact H1].
Qed.

Lemma offTarget_set t el id : offTarget t (ElementSetPointerCapture el id).
Proof. exact I. Qed.

Lemma offTarget_release t el id : offTarget t (ElementReleasePointerCapture el id).
Proof. exact I. Qed.

Section DropTrace.
Variable rootState : NgtState.
Variable e : NgtThreeEvent.

Lemma gone_emit es w :
  entry_gone (root rootState) (ev_hit e) w -> entry_gone (root rootState) (ev_hit e) (emit es w).
Proof. intros H. exact H. Qed.

Lemma gone_fresh w :
  entry_gone (root rootState) (ev_hit e) w ->
  entry_gone (root rootState) (ev_hit e) (fresh_event w).
Proof. intros H. exact H. Qed.

Lemma gone_delete key w :
  entry_gone (root rootState) (ev_hit e) w ->
  entry_gone (root rootState) (ev_hit e)
    (update_internal (root rootState)
       (fun i => with_hovered (Map_delete String.eqb key (hovered i)) i) w).
Proof.
  intros [Hwf Hno]. unfold entry_gone. simpl. rewrite Nat.eqb_refl. simpl. split.
  - now apply hovered_wf_delete.
  - intros k v Hin. apply Map_delete_In in Hin as [Hin _]. exact (Hno k v Hin).
Qed.

Lemma gone_mark id w :
  entry_gone (root rootState) (ev_hit e) w ->
  entry_gone (root rootState) (ev_hit e)
    (update_internal (root rootState)
       (fun i => with_hovered (mark_stopped id (hovered i)) i) w).
Proof.
  intros [Hwf Hno]. unfold entry_gone. simpl. rewrite Nat.eqb_refl. simpl. split.
  - now apply hovered_wf_mark.
  - intros k v Hin. unfold mark_stopped in Hin. apply in_map_iff in Hin as [[k0 v0] [E Hin]].
    simpl in E. specialize (Hno k0 v0 Hin).
    destruct (Nat.eqb (ev_id v0) id); injection E as <- <-; exact Hno.
Qed.

Lemma gone_capture n cm w :
  entry_gone (root rootState) (ev_hit e) w ->
  entry_gone (root rootState) (ev_hit e) (update_internal n (with_capturedMap cm) w).
Proof. unfold entry_gone. now rewrite hovered_other_capture. Qed.

Lemma gone_drop w key v ints :
  entry_gone (root rootState) (ev_hit e) w ->
  Map_get String.eqb key (hovered (internals w (root rootState))) = Some v ->
  offTarget (ev_hit e) (Call pointerout (with_intersections ints v))
  /\ offTarget (ev_hit e) (Call pointerleave (with_intersections ints v)).
Proof.
  intros [_ Hno] Hget. apply Map_get_In in Hget as [k' [Hin _]].
  split; exact (Hno k' v Hin).
Qed.

Lemma kept_mark id w :
  entry_kept (root rootState) e w ->
  entry_kept (root rootState) e
    (update_internal (root rootState)
       (fun i => with_hovered (mark_stopped id (hovered i)) i) w).
Proof.
  intros [Hwf (v & Hget & Hm)]. unfold entry_kept. simpl. rewrite Nat.eqb_refl. simpl.
  split; [now apply hovered_wf_mark|].
  rewrite Map_get_mark, Hget. eexists. split; [reflexivity|now apply marked_step].
Qed.

Lemma kept_capture n cm w :
  entry_kept (root rootState) e w ->
  entry_kept (root rootState) e (update_internal n (with_capturedMap cm) w).
Proof. unfold entry_kept. now rewrite hovered_other_capture. Qed.

Lemma kept_delete_other key w :
  key <> makeId (ev_hit e) ->
  entry_kept (root rootState) e w ->
  entry_kept (root rootState) e
    (update_internal (root rootState)
       (fun i => with_hovered (Map_delete String.eqb key (hovered i)) i) w).
Proof.
  intros Hne [Hwf (v & Hget & Hm)]. unfold entry_kept. simpl. rewrite Nat.eqb_refl. simpl.
  split; [now apply hovered_wf_delete|].
  rewrite Smap_get_delete.
  destruct (String.eqb_spec (makeId (ev_hit e)) key) as [E|_]; [now symmetry in E|].
  now exists v.
Qed.

Lemma kept_other w key v :
  entry_kept (root rootState) e w ->
  Map_get String.eqb key (hovered (internals w (root rootState))) = Some v ->
  key <> makeId (ev_hit e) -> ev_hit v <> ev_hit e.
Proof.
  intros [[_ Hk] _] Hget Hne E. apply Hne.
  rewrite <- E. exact (proj1 (keyed_get _ _ _ Hk Hget)).
Qed.

Lemma kept_to_gone w :
  entry_kept (root rootState) e w ->
  entry_gone (root rootState) (ev_hit e)
    (update_internal (root rootState)
       (fun i => with_hovered (Map_delete String.eqb (makeId (ev_hit e)) (hovered i)) i) w).
Proof.
  intros [Hwf _]. unfold entry_gone. simpl. rewrite Nat.eqb_refl. simpl.
  split; [now apply hovered_wf_delete|].
  intros k v Hin E. apply Map_delete_In in Hin as [Hin Hk]. simpl in Hk.
  destruct Hwf as [_ Hkeyed]. unfold keyed in Hkeyed.
  rewrite List.Forall_forall in Hkeyed. specialize (Hkeyed _ Hin). simpl in Hkeyed.
  rewrite Hkeyed, E, String.eqb_refl in Hk. discriminate.
Qed.

Lemma outcome_kept w w' :
  effects w' = effects w -> entry_kept (root rootState) e w' ->
  drop_outcome (root rootState) e w w'.
Proof.
  intros He Hk. exists []. split; [now rewrite app_nil_r|]. left. split; [exact Hk|constructor].
Qed.

Lemma outcome_trans w1 w2 w3 :
  drop_outcome (root rootState) e w1 w2 ->
  (entry_kept (root rootState) e w2 -> drop_outcome (root rootState) e w2 w3) ->
  (entry_gone (root rootState) (ev_hit e) w2 ->
   entry_gone (root rootState) (ev_hit e) w3 /\ extends_with (offTarget (ev_hit e)) w2 w3) ->
  drop_outcome (root rootState) e w1 w3.
Proof.
  intros (es1 & He1 & [[Hk Hoff]|[Hg Htr]]) HA HB.
  - destruct (HA Hk) as (es2 & He2 & [[Hk2 Hoff2]|[Hg2 Htr2]]);
      exists (es1 ++ es2); (split; [now rewrite He2, He1, <- app_assoc|]).
    + left. split; [exact Hk2|]. apply Forall_app. now split.
    + right. split; [exact Hg2|]. now apply dropTrace_pre.
  - destruct (HB Hg) as [Hg3 (es2 & He2 & Hoff2)].
    exists (es1 ++ es2). split; [now rewrite He2, He1, <- app_assoc|].
    right. split; [exact Hg3|]. now apply dropTrace_post.
Qed.

Lemma outcome_from w0 w w' :
  effects w0 = effects w ->
  drop_outcome (root rootState) e w0 w' -> drop_outcome (root rootState) e w w'.
Proof. intros E (es & He & H). exists es. split; [now rewrite <- E|exact H]. Qed.

Lemma outcome_emit es w w' :
  Forall (offTarget (ev_hit e)) es ->
  drop_outcome (root rootState) e (emit es w) w' -> drop_outcome (root rootState) e w w'.
Proof.
  intros Hoff (es1 & He1 & H). exists (es ++ es1). split.
  - rewrite He1. simpl. now rewrite <- app_assoc.
  - destruct H as [[Hk Hoff1]|[Hg Htr]].
    + left. split; [exact Hk|]. apply Forall_app. now split.
    + right. split; [exact Hg|]. now apply dropTrace_pre.
Qed.

Ltac gone_side :=
  first [ now apply gone_emit | now apply gone_fresh | now apply gone_delete
        | now apply gone_mark | now apply gone_capture | (eapply gone_drop; eassumption)
        | exact I ].

Section Open.
Variable cancel : list NgtIntersection -> Dispatch -> Dispatch.
Hypothesis cancel_gone : forall ints d,
  entry_gone (root rootState) (ev_hit e) (world d) ->
  entry_gone (root rootState) (ev_hit e) (world (cancel ints d))
  /\ extends_with (offTarget (ev_hit e)) (world d) (world (cancel ints d)).
Hypothesis cancel_kept : forall ints d,
  entry_kept (root rootState) e (world d) ->
  drop_outcome (root rootState) e (world d) (world (cancel ints d)).

Lemma scriptOf_gone e0 event higher script d :
  entry_gone (root rootState) (ev_hit e) (world d) ->
  entry_gone (root rootState) (ev_hit e)
    (world (fold_left (fun d a => runActionOf rootState cancel e0 event higher a d) script d))
  /\ extends_with (offTarget (ev_hit e)) (world d)
       (world (fold_left (fun d a => runActionOf rootState cancel e0 event higher a d)
                 script d)).
Proof.
  apply (scriptOf_inv rootState (entry_gone (root rootState) (ev_hit e))
           (offTarget (ev_hit e)));
    try assumption; intros; gone_side.
Qed.

Lemma invoke_gone e0 event higher name hs data d :
  entry_gone (root rootState) (ev_hit e) (world d) -> ev_hit data <> ev_hit e ->
  entry_gone (root rootState) (ev_hit e)
    (world (invoke rootState cancel e0 event higher name hs data d))
  /\ extends_with (offTarget (ev_hit e)) (world d)
       (world (invoke rootState cancel e0 event higher name hs data d)).
Proof.
  intros Hg Hd.
  apply (invoke_inv rootState (entry_gone (root rootState) (ev_hit e))
           (offTarget (ev_hit e)));
    try assumption; intros; gone_side.
Qed.

Lemma cancelLoop_gone ints todo d :
  entry_gone (root rootState) (ev_hit e) (world d) ->
  entry_gone (root rootState) (ev_hit e) (world (cancelLoop rootState cancel ints todo d))
  /\ extends_with (offTarget (ev_hit e)) (world d)
       (world (cancelLoop rootState cancel ints todo d)).
Proof.
  apply (cancelLoop_inv rootState (entry_gone (root rootState) (ev_hit e))
           (offTarget (ev_hit e)));
    try assumption; intros; gone_side.
Qed.

Lemma stopPropagationOf_kept e0 event higher d :
  entry_kept (root rootState) e (world d) ->
  drop_outcome (root rootState) e (world d)
    (world (stopPropagationOf rootState cancel e0 event higher d)).
Proof.
  intros Hk. unfold stopPropagationOf.
  case_if; [|now apply outcome_kept].
  match goal with
  | |- context [cancel _ ?d1] => set (d1' := d1)
  end.
  assert (H1 : entry_kept (root rootState) e (world d1'))
    by (subst d1'; simpl; now apply kept_mark).
  case_if; [|now apply outcome_kept].
  destruct (cancel_kept (higher ++ [ev_hit e0]) d1' H1) as (es & He & H).
  exists es. split; [exact He|exact H].
Qed.

Lemma runActionOf_kept e0 event higher a d :
  entry_kept (root rootState) e (world d) ->
  drop_outcome (root rootState) e (world d)
    (world (runActionOf rootState cancel e0 event higher a d)).
Proof.
  intros Hk. destruct a as [|id|id].
  - now apply stopPropagationOf_kept.
  - unfold runActionOf.
    pose proof (kept_capture (internal (stateOf rootState (ev_hit e0)))
                  (fst (setPointerCapture (ev_hit e0) event id
                          (capturedMap (internals (world d)
                             (internal (stateOf rootState (ev_hit e0)))))))
                  (world d) Hk) as Hk1.
    assert (Hoff : Forall (offTarget (ev_hit e))
                     (snd (setPointerCapture (ev_hit e0) event id
                             (capturedMap (internals (world d)
                                (internal (stateOf rootState (ev_hit e0)))))))).
    { unfold setPointerCapture. simpl. repeat constructor. }
    destruct (setPointerCapture _ _ _ _) as [cm es]. cbn [fst snd world] in *.
    exists es. split; [reflexivity|]. left. split; [exact Hk1|exact Hoff].
  - unfold runActionOf.
    pose proof (kept_capture (internal (stateOf rootState (ev_hit e0)))
                  (fst (releasePointerCapture (ev_hit e0) id
                          (capturedMap (internals (world d)
                             (internal (stateOf rootState (ev_hit e0)))))))
                  (world d) Hk) as Hk1.
    assert (Hoff : Forall (offTarget (ev_hit e))
                     (snd (releasePointerCapture (ev_hit e0) id
                             (capturedMap (internals (world d)
                                (internal (stateOf rootState (ev_hit e0)))))))).
    { unfold releasePointerCapture, releaseInternalPointerCapture.
      destruct (Map_get Z.eqb id _); [|constructor].
      destruct (Map_get same _ _); [|constructor].
      destruct (Nat.eqb _ 0); simpl; repeat constructor. }
    destruct (releasePointerCapture _ _ _) as [cm es]. cbn [fst snd world] in *.
    exists es. split; [reflexivity|]. left. split; [exact Hk1|exact Hoff].
Qed.

Lemma scriptOf_kept e0 event higher script d :
  entry_kept (root rootState) e (world d) ->
  drop_outcome (root rootState) e (world d)
    (world (fold_left (fun d a => runActionOf rootState cancel e0 event higher a d) script d)).
Proof.
  revert d. induction script as [|a script IH]; simpl; intros d Hk.
  - now apply outcome_kept.
  - apply (outcome_trans _ _ _ (runActionOf_kept e0 event higher a d Hk)).
    + apply IH.
    + apply scriptOf_gone.
Qed.

Lemma invoke_kept e0 event higher name hs data d :
  entry_kept (root rootState) e (world d) -> ev_hit data <> ev_hit e ->
  drop_outcome (root rootState) e (world d)
    (world (invoke rootState cancel e0 event higher name hs data d)).
Proof.
  intros Hk Hd. unfold invoke.
  destruct (hs name) as [script|]; [|now apply outcome_kept].
  apply (outcome_emit [Call name data]); [repeat constructor; exact Hd|].
  exact (scriptOf_kept e0 event higher script (on_world (emit [Call name data]) d) Hk).
Qed.

(** The drop of the entry itself. *)
Lemma cancelOne_target ints v d :
  entry_kept (root rootState) e (world d) ->
  Map_get String.eqb (makeId (ev_hit e)) (hovered (internals (world d) (root rootState)))
  = Some v ->
  unhovered ints v = true ->
  exists es,
    effects (world (cancelOne rootState cancel ints v d)) = effects (world d) ++ es
    /\ entry_gone (root rootState) (ev_hit e) (world (cancelOne rootState cancel ints v d))
    /\ dropTrace e es.
Proof.
  intros Hk Hget Hun.
  assert (Hm : marked e v).
  { destruct Hk as [_ (v0 & Hget0 & Hm0)]. rewrite Hget in Hget0. now injection Hget0 as ->. }
  pose proof (marked_hit _ _ Hm) as Hhit.
  unfold cancelOne. rewrite Hun, Hhit.
  set (d1 := on_world _ d).
  assert (Hg1 : entry_gone (root rootState) (ev_hit e) (world d1))
    by (subst d1; simpl; now apply kept_to_gone).
  assert (Hnone : exists es,
             effects (world d1) = effects (world d) ++ es
             /\ entry_gone (root rootState) (ev_hit e) (world d1)
             /\ (getLocalState (eventObject (ev_hit e)) = None
                 \/ (exists inst, getLocalState (eventObject (ev_hit e)) = Some inst
                                  /\ eventCount inst = 0%nat) -> dropTrace e es)).
  { exists []. split; [now rewrite app_nil_r|]. split; [exact Hg1|].
    intros Hcase. exists [], [], [], ints, v. split; [exact Hm|].
    unfold handlerCall. split; [|split; [constructor|reflexivity]].
    destruct Hcase as [-> |(inst & -> & ->)]; reflexivity. }
  destruct (getLocalState (eventObject (ev_hit e))) as [inst|] eqn:Hls.
  2:{ destruct Hnone as (es & He & Hg & Htr). exists es. split; [exact He|].
      split; [exact Hg|]. apply Htr. now left. }
  destruct (Nat.eqb_spec (eventCount inst) 0) as [Hz|Hnz].
  { destruct Hnone as (es & He & Hg & Htr). exists es. split; [exact He|].
    split; [exact Hg|]. apply Htr. right. now exists inst. }
  clear Hnone.
  set (data := with_intersections ints v).
  (* pointerout *)
  assert (Hout : exists mid,
             let d2 := invoke rootState cancel v (nativeEvent v) (higherOf v) pointerout
                         (handlers inst) data d1 in
             effects (world d2)
             = effects (world d) ++ handlerCall pointerout e data ++ mid
             /\ entry_gone (root rootState) (ev_hit e) (world d2)
             /\ Forall (offTarget (ev_hit e)) mid
             /\ (quietOut e -> mid = [])).
  { unfold invoke, handlerCall. rewrite Hls.
    destruct (Nat.eqb_spec (eventCount inst) 0) as [|_]; [contradiction|].
    destruct (handlers inst pointerout) as [script|] eqn:Hh; cbn [defined].
    - destruct (scriptOf_gone v (nativeEvent v) (higherOf v) script
                  (on_world (emit [Call pointerout data]) d1) Hg1) as [Hg2 (mid & He & Hoff)].
      exists mid. cbv zeta. split; [rewrite He; simpl; now rewrite <- app_assoc|].
      split; [exact Hg2|]. split; [exact Hoff|].
      intros Hq. specialize (Hq inst script Hls Hh). subst script.
      simpl in He.
      rewrite <- (app_nil_r (effects (world d) ++ [Call pointerout data])) in He at 1.
      apply app_inv_head in He. now symmetry.
    - exists []. cbv zeta. simpl. split; [now rewrite app_nil_r|].
      split; [exact Hg1|]. split; [constructor|reflexivity]. }
  destruct Hout as (mid & He2 & Hg2 & Hoff2 & Hq2). cbv zeta in He2, Hg2.
  set (d2 := invoke rootState cancel v (nativeEvent v) (higherOf v) pointerout
               (handlers inst) data d1) in *.
  (* pointerleave *)
  assert (Hleave : exists post,
             let d3 := invoke rootState cancel v (nativeEvent v) (higherOf v) pointerleave
                         (handlers inst) data d2 in
             effects (world d3)
             = effects (world d2) ++ handlerCall pointerleave e data ++ post
             /\ entry_gone (root rootState) (ev_hit e) (world d3)
             /\ Forall (offTarget (ev_hit e)) post).
  { unfold invoke, handlerCall. rewrite Hls.
    destruct (Nat.eqb_spec (eventCount inst) 0) as [|_]; [contradiction|].
    destruct (handlers inst pointerleave) as [script|] eqn:Hh; cbn [defined].
    - destruct (scriptOf_gone v (nativeEvent v) (higherOf v) script
                  (on_world (emit [Call pointerleave data]) d2) Hg2) as [Hg3 (post & He & Hoff)].
      exists post. cbv zeta. split; [rewrite He; simpl; now rewrite <- app_assoc|].
      split; [exact Hg3|exact Hoff].
    - exists []. cbv zeta. simpl. split; [now rewrite app_nil_r|].
      split; [exact Hg2|constructor]. }
  destruct Hleave as (post & He3 & Hg3 & Hoff3). cbv zeta in He3, Hg3.
  exists (handlerCall pointerout e data ++ mid ++ handlerCall pointerleave e data ++ post).
  split; [rewrite He3, He2; now rewrite <- !app_assoc|]. split; [exact Hg3|].
  exists [], mid, post, ints, v. split; [exact Hm|]. split; [reflexivity|].
  split; [|exact Hq2]. simpl. apply Forall_app. now split.
Qed.

Lemma cancelOne_kept ints key v d :
  entry_kept (root rootState) e (world d) ->
  Map_get String.eqb key (hovered (internals (world d) (root rootState))) = Some v ->
  drop_outcome (root rootState) e (world d) (world (cancelOne rootState cancel ints v d)).
Proof.
  intros Hk Hget.
  destruct (unhovered ints v) eqn:Hun.
  2:{ unfold cancelOne. rewrite Hun. now apply outcome_kept. }
  destruct (String.eqb_spec key (makeId (ev_hit e))) as [->|Hne].
  - destruct (cancelOne_target ints v d Hk Hget Hun) as (es & He & Hg & Htr).
    exists es. split; [exact He|]. right. now split.
  - pose proof (kept_other _ _ _ Hk Hget Hne) as Hoff.
    assert (Hkey : key = makeId (ev_hit v))
      by exact (proj1 (keyed_get _ _ _ (proj2 (proj1 Hk)) Hget)).
    unfold cancelOne. rewrite Hun.
    set (d1 := on_world _ d).
    assert (Hk1 : entry_kept (root rootState) e (world d1)).
    { subst d1. simpl. apply kept_delete_other; [|exact Hk]. now rewrite <- Hkey. }
    destruct (getLocalState (eventObject (ev_hit v))) as [inst|];
      [|now apply outcome_kept].
    destruct (Nat.eqb (eventCount inst) 0); [now apply outcome_kept|].
    apply (outcome_from (world d1)); [reflexivity|].
    apply (outcome_trans _ _ _
             (invoke_kept v (nativeEvent v) (higherOf v) pointerout (handlers inst)
                (with_intersections ints v) d1 Hk1 Hoff)).
    + intros Hk2. now apply invoke_kept.
    + intros Hg2. now apply invoke_gone.
Qed.

Lemma cancelLoop_kept ints todo d :
  entry_kept (root rootState) e (world d) ->
  drop_outcome (root rootState) e (world d) (world (cancelLoop rootState cancel ints todo d)).
Proof.
  revert d. induction todo as [|key todo IH]; simpl; intros d Hk.
  - now apply outcome_kept.
  - destruct (Map_get String.eqb key _) as [v|] eqn:Hget; [|now apply IH].
    apply (outcome_trans _ _ _ (cancelOne_kept ints key v d Hk Hget)).
    + apply IH.
    + apply cancelLoop_gone.
Qed.
End Open.

Lemma cancelPointerF_gone fuel ints d :
  entry_gone (root rootState) (ev_hit e) (world d) ->
  entry_gone (root rootState) (ev_hit e) (world (cancelPointerF rootState fuel ints d))
  /\ extends_with (offTarget (ev_hit e)) (world d)
       (world (cancelPointerF rootState fuel ints d)).
Proof.
  apply (cancelPointerF_inv rootState (entry_gone (root rootState) (ev_hit e))
           (offTarget (ev_hit e)));
    try assumption; intros; gone_side.
Qed.

Lemma cancelPointerF_kept fuel ints d :
  entry_kept (root rootState) e (world d) ->
  drop_outcome (root rootState) e (world d) (world (cancelPointerF rootState fuel ints d)).
Proof.
  revert ints d. induction fuel as [|fuel IH]; intros ints d Hk; simpl.
  - now apply outcome_kept.
  - apply cancelLoop_kept; [apply cancelPointerF_gone|apply IH|exact Hk].
Qed.

(** An entry that is not under [ints] is dropped by
    [cancelPointer(ints)], once. *)
Lemma cancelPointerD_drops ints d :
  entry_kept (root rootState) e (world d) ->
  unhovered ints e = true ->
  exists es,
    effects (world (cancelPointerD rootState ints d)) = effects (world d) ++ es
    /\ entry_gone (root rootState) (ev_hit e) (world (cancelPointerD rootState ints d))
    /\ dropTrace e es.
Proof.
  intros Hk Hun.
  destruct (cancelPointerF_kept
              (S (length (hovered (internals (world d) (root rootState))))) ints d Hk)
    as (es & He & [[Hk' _]|[Hg Htr]]).
  - exfalso. destruct Hk' as [Hwf' (v & Hget & Hm)].
    apply Map_get_In in Hget as [k' [Hin _]].
    pose proof (cancelPointerD_covered rootState ints d (proj1 Hk) (k', v) Hin) as Hc.
    cbn [snd] in Hc. unfold covered in Hc.
    rewrite unhovered_covered in Hun. apply negb_true_iff in Hun.
    assert (E : existsb (hitMatches v) ints = existsb (hitMatches e) ints)
      by (destruct Hm as [->| ->]; reflexivity).
    congruence.
  - exists es. split; [exact He|]. now split.
Qed.
End DropTrace.

(** ** Hover tracking on pointermove *)

Lemma strictEq_refl a : strictEq a a = true.
Proof. destruct a; simpl; [apply Z.eqb_refl|reflexivity]. Qed.

Lemma strictEq_eq a b : strictEq a b = true <-> a = b.
Proof.
  split; [|intros ->; apply strictEq_refl].
  destruct a, b; simpl; try discriminate; [|reflexivity].
  intros H. apply Z.eqb_eq in H. now subst.
Qed.

(** The callback of [intersections.find] compares the object by identity
    and the index and instanceId by value. *)
Lemma hitMatches_spec e h :
  hitMatches e h = true <->
  oid (object (hit h)) = oid (object (hit (ev_hit e)))
  /\ index (hit h) = index (hit (ev_hit e))
  /\ instanceId (hit h) = instanceId (hit (ev_hit e)).
Proof.
  unfold hitMatches, same. rewrite !andb_true_iff, Nat.eqb_eq, !strictEq_eq. tauto.
Qed.

Lemma hitMatches_self e : hitMatches e (ev_hit e) = true.
Proof. apply hitMatches_spec. auto. Qed.

Lemma hitMatches_trans e e' h :
  hitMatches e (ev_hit e') = true -> hitMatches e' h = true -> hitMatches e h = true.
Proof.
  rewrite !hitMatches_spec. intros (H1 & H2 & H3) (H4 & H5 & H6).
  repeat split; congruence.
Qed.

Lemma Map_set_In {K V} (eqb : K -> K -> bool) k (v : V) m kv :
  In kv (Map_set eqb k v m) -> kv = (k, v) \/ In kv m.
Proof.
  induction m as [|[k' v'] m IH]; simpl.
  - intros [<-|[]]. now left.
  - destruct (eqb k k'); simpl; intros [<-|H]; auto. destruct (IH H); auto.
Qed.

Lemma pointerMissed_no_call event objects name d :
  ~ In (Call name d) (pointerMissed event objects).
Proof.
  unfold pointerMissed. intros H. apply in_flat_map in H as [obj [_ H]].
  destruct (getLocalState obj) as [inst|]; [|destruct H].
  destruct (handlers inst pointermissed); [|destruct H].
  destruct H as [H|[]]. discriminate.
Qed.

Section MoveFacts.
Variable rootState : NgtState.
Variable hits : list NgtIntersection.

Lemma covered_delete key w :
  all_covered hits (hovered (internals w (root rootState))) ->
  all_covered hits
    (hovered (internals (update_internal (root rootState)
       (fun i => with_hovered (Map_delete String.eqb key (hovered i)) i) w) (root rootState))).
Proof.
  intros H. simpl. rewrite Nat.eqb_refl. simpl.
  intros kv Hin. apply Map_delete_In in Hin as [Hin _]. now apply H.
Qed.

Lemma covered_mark id w :
  all_covered hits (hovered (internals w (root rootState))) ->
  all_covered hits
    (hovered (internals (update_internal (root rootState)
       (fun i => with_hovered (mark_stopped id (hovered i)) i) w) (root rootState))).
Proof.
  intros H. simpl. rewrite Nat.eqb_refl. simpl.
  intros kv Hin. unfold mark_stopped in Hin. apply in_map_iff in Hin as [[k v] [E Hin]].
  specialize (H _ Hin). simpl in E, H.
  destruct (Nat.eqb (ev_id v) id); subst kv; exact H.
Qed.

Lemma covered_capture n cm w :
  all_covered hits (hovered (internals w (root rootState))) ->
  all_covered hits
    (hovered (internals (update_internal n (with_capturedMap cm) w) (root rootState))).
Proof. now rewrite hovered_other_capture. Qed.

Lemma covered_book e w :
  all_covered hits (hovered (internals w (root rootState))) ->
  In (ev_hit e) hits ->
  all_covered hits
    (hovered (internals (update_internal (root rootState)
       (fun i => with_hovered (Map_set String.eqb (makeId (ev_hit e)) e (hovered i)) i) w)
       (root rootState))).
Proof.
  intros H Hin. simpl. rewrite Nat.eqb_refl. simpl.
  intros kv Hkv. apply Map_set_In in Hkv as [->|Hkv]; [|now apply H].
  simpl. unfold covered. apply existsb_exists. exists (ev_hit e).
  split; [exact Hin|apply hitMatches_self].
Qed.

Lemma covered_onHit e : In (ev_hit e) hits -> covered hits e = true.
Proof.
  intros Hin. unfold covered. apply existsb_exists. exists (ev_hit e).
  split; [exact Hin|apply hitMatches_self].
Qed.

Lemma covered_drop w key v ints :
  all_covered hits (hovered (internals w (root rootState))) ->
  Map_get String.eqb key (hovered (internals w (root rootState))) = Some v ->
  covered hits (with_intersections ints v) = true.
Proof.
  intros H Hget. apply Map_get_In in Hget as [k' [Hin _]]. exact (H _ Hin).
Qed.

(** The dispatch of a pointermove over [hits] books events of [hits]
    only and calls handlers with such events only. *)
Lemma dispatchLoop_covered name event dlt pass ints higher todo w :
  (forall h, In h todo -> In h hits) ->
  all_covered hits (hovered (internals w (root rootState))) ->
  all_covered hits
    (hovered (internals (fst (dispatchLoop (onIntersect rootState name event)
                                event dlt pass ints higher todo w)) (root rootState)))
  /\ extends_covered hits w
       (fst (dispatchLoop (onIntersect rootState name event) event dlt pass ints higher
               todo w)).
Proof.
  intros Htodo Hov.
  destruct (dispatchLoop_inv rootState
              (fun w => all_covered hits (hovered (internals w (root rootState))))
              (fun eff => match eff with Call _ d => covered hits d = true | _ => True end)
              (fun es w H => H) covered_delete covered_mark
              (fun n h ev id w H => covered_capture n _ w H)
              (fun n h id w H => covered_capture n _ w H)
              (fun w key v ints H Hget =>
                 conj (covered_drop w key v ints H Hget) (covered_drop w key v ints H Hget))
              (fun _ _ => I) (fun _ _ => I)
              name (fun h => In h hits)
              (fun w H => H) (fun e w H Hin _ => covered_book e w H Hin)
              (fun _ _ _ _ _ _ => I)
              (fun _ e Hin => conj (covered_onHit e Hin)
                                (conj (covered_onHit e Hin) (covered_onHit e Hin)))
              (fun _ _ e _ Hin _ => covered_onHit e Hin)
              event dlt pass ints higher todo w Hov Htodo)
    as [H1 (es & He & Hq)].
  split; [exact H1|]. exists es. split; [exact He|].
  intros n d Hin. rewrite List.Forall_forall in Hq. exact (Hq _ Hin).
Qed.
End MoveFacts.

Lemma handlePointer_pointermove rootState intersectObject events_filter event w :
  let hits := intersect rootState intersectObject events_filter event
                (Some filterPointerEvents) w in
  let w3 := cancelPointer rootState hits
              (update_internal (root rootState) (with_lastEvent (Some event)) w) in
  handlePointer rootState intersectObject events_filter pointermove event w
  = fst (dispatchLoop (onIntersect rootState pointermove event) event 0 (nextEvent w3)
           hits [] hits w3).
Proof.
  unfold handlePointer, handleEvent, handleIntersects. simpl.
  now rewrite intersect_lastEvent.
Qed.

Lemma leaveCalls_handlerCall ints v :
  leaveCalls ints v
  = handlerCall pointerout v (with_intersections ints v)
    ++ handlerCall pointerleave v (with_intersections ints v).
Proof.
  unfold leaveCalls, handlerCall.
  destruct (getLocalState (eventObject (ev_hit v))) as [inst|]; [|reflexivity].
  now destruct (Nat.eqb (eventCount inst) 0).
Qed.

Lemma leaveCalls_hit ints v name d :
  In (Call name d) (leaveCalls ints v) -> d = with_intersections ints v.
Proof.
  unfold leaveCalls.
  destruct (getLocalState (eventObject (ev_hit v))) as [inst|]; [|intros []].
  destruct (Nat.eqb (eventCount inst) 0); [intros []|].
  intros H. apply in_app_or in H as [H|H].
  - destruct (handlers inst pointerout); [|destruct H].
    destruct H as [[= _ <-]|[]]. reflexivity.
  - destruct (handlers inst pointerleave); [|destruct H].
    destruct H as [[= _ <-]|[]]. reflexivity.
Qed.

(** C4.  On a pointermove, a hovered entry whose (object, index,
    instanceId) matches no current hit is deleted: after the move no
    hovered entry has its object, index and instanceId.  When its
    [eventObject] has [eventCount > 0], its [pointerout] handler and later
    its [pointerleave] handler are called, each once, with one copy of the
    entry, and during the move no other handler is called with an event of
    its intersection; what lies between the two calls is what the
    [pointerout] handler does with the event, nothing when it does nothing.
    When the count is 0 no handler is called for it.  When no hovered
    object's [pointerout] or [pointerleave] handler makes a call on its
    event, the copy carries the current hits and the two calls are side by
    side. *)
Theorem pointermove_unhover
    (rootState : NgtState)
    (intersectObject : NgtDomEvent -> Object3D -> list Intersection)
    (events_filter : option (list Intersection -> list Intersection))
    (event : NgtDomEvent) (w : World) (key : string) (e : NgtThreeEvent) :
  hovered_wf (hovered (internals w (root rootState))) ->
  In (key, e) (hovered (internals w (root rootState))) ->
  (forall h,
      In h (intersect rootState intersectObject events_filter event
              (Some filterPointerEvents) w) ->
      ~ (oid (object (hit h)) = oid (object (hit (ev_hit e)))
         /\ index (hit h) = index (hit (ev_hit e))
         /\ instanceId (hit h) = instanceId (hit (ev_hit e)))) ->
  let hits := intersect rootState intersectObject events_filter event
                (Some filterPointerEvents) w in
  let w' := handlePointer rootState intersectObject events_filter pointermove event w in
  (forall key' e',
      In (key', e') (hovered (internals w' (root rootState))) ->
      ~ (oid (object (hit (ev_hit e'))) = oid (object (hit (ev_hit e)))
         /\ index (hit (ev_hit e')) = index (hit (ev_hit e))
         /\ instanceId (hit (ev_hit e')) = instanceId (hit (ev_hit e)))) /\
  ~ In (key, e) (hovered (internals w' (root rootState))) /\
  (exists pre mid post ints e',
      (e' = e \/ e' = with_stopped true e)
      /\ effects w'
         = effects w ++ pre ++ handlerCall pointerout e (with_intersections ints e')
                     ++ mid ++ handlerCall pointerleave e (with_intersections ints e')
                     ++ post
      /\ (forall name d, In (Call name d) (pre ++ mid ++ post) -> ev_hit d <> ev_hit e)
      /\ (quietOut e -> mid = [])) /\
  (forall inst out leave data,
      getLocalState (eventObject (ev_hit e)) = Some inst ->
      eventCount inst <> 0%nat ->
      handlers inst pointerout = Some out ->
      handlers inst pointerleave = Some leave ->
      handlerCall pointerout e data = [Call pointerout data]
      /\ handlerCall pointerleave e data = [Call pointerleave data]) /\
  (forall inst data,
      getLocalState (eventObject (ev_hit e)) = Some inst ->
      eventCount inst = 0%nat ->
      handlerCall pointerout e data = [] /\ handlerCall pointerleave e data = []) /\
  (quiet (hovered (internals w (root rootState))) ->
   exists pre post,
     effects w' = effects w ++ pre ++ leaveCalls hits e ++ post
     /\ forall name d, In (Call name d) (pre ++ post) -> ev_hit d <> ev_hit e).
Proof.
  intros Hwf Hin Hspec hits w'.
  assert (Hun : existsb (hitMatches e) hits = false).
  { destruct (existsb (hitMatches e) hits) eqn:E; [|reflexivity]. exfalso.
    apply existsb_exists in E as [h [Hh Hm]]. apply (Hspec h Hh).
    now apply hitMatches_spec. }
  assert (Hunh : unhovered hits e = true) by (rewrite unhovered_covered; now rewrite Hun).
  assert (Hkey : key = makeId (ev_hit e)).
  { destruct Hwf as [_ Hk]. unfold keyed in Hk. rewrite List.Forall_forall in Hk.
    exact (Hk _ Hin). }
  set (w0 := update_internal (root rootState) (with_lastEvent (Some event)) w).
  assert (Hhov0 : hovered (internals w0 (root rootState))
                  = hovered (internals w (root rootState))).
  { subst w0. simpl. now rewrite Nat.eqb_refl. }
  assert (Hwf0 : hovered_wf (hovered (internals w0 (root rootState)))) by now rewrite Hhov0.
  assert (Hk0 : entry_kept (root rootState) e (world (idle w0))).
  { split; [exact Hwf0|]. exists e. split; [|apply marked_refl].
    cbn [world idle]. rewrite Hhov0, <- Hkey. now apply hovered_wf_In_get. }
  destruct (cancelPointerD_drops rootState e hits (idle w0) Hk0 Hunh)
    as (es1 & He1 & Hg1 & Htr1).
  pose proof (cancelPointerD_covered rootState hits (idle w0) Hwf0) as Hcov3.
  fold (cancelPointer rootState hits w0) in He1, Hg1, Hcov3.
  set (w3 := cancelPointer rootState hits w0) in *.
  assert (Hw' : w' = fst (dispatchLoop (onIntersect rootState pointermove event)
                            event 0 (nextEvent w3) hits [] hits w3)).
  { subst w' w3 w0 hits. apply handlePointer_pointermove. }
  destruct (dispatchLoop_covered rootState hits pointermove event 0 (nextEvent w3) hits []
              hits w3 (fun h Hh => Hh) Hcov3) as [HcovF [es2 [HeF Hc2]]].
  rewrite <- Hw' in HcovF, HeF.
  assert (Hoff : forall d, covered hits d = true -> ev_hit d <> ev_hit e).
  { intros d Hd E. unfold covered in Hd.
    assert (existsb (hitMatches e) hits = true); [|congruence].
    apply existsb_exists in Hd as [h [Hh Hm]]. apply existsb_exists. exists h.
    split; [exact Hh|]. apply hitMatches_spec. apply hitMatches_spec in Hm.
    now rewrite <- E. }
  assert (Hnot : forall key' e',
             In (key', e') (hovered (internals w' (root rootState))) ->
             ~ (oid (object (hit (ev_hit e'))) = oid (object (hit (ev_hit e)))
                /\ index (hit (ev_hit e')) = index (hit (ev_hit e))
                /\ instanceId (hit (ev_hit e')) = instanceId (hit (ev_hit e)))).
  { intros key' e' Hin' Hm. specialize (HcovF _ Hin'). simpl in HcovF.
    unfold covered in HcovF. apply existsb_exists in HcovF as [h [Hh Hmh]].
    apply (Hspec h Hh). apply hitMatches_spec.
    apply (hitMatches_trans e e' h); [now apply hitMatches_spec|exact Hmh]. }
  split; [exact Hnot|]. split; [intros Hin'; now apply (Hnot _ _ Hin')|].
  assert (Hoff2 : Forall (offTarget (ev_hit e)) es2).
  { apply List.Forall_forall. intros [n d|obj ev|ev|t id|t id] Hx; simpl; auto.
    apply Hoff. exact (Hc2 _ _ Hx). }
  split; [|split; [|split]].
  - destruct (dropTrace_post e es1 es2 Htr1 Hoff2)
      as (pre & mid & post & ints & e' & Hm & Hes & Hf & Hq).
    exists pre, mid, post, ints, e'. split; [exact Hm|].
    split; [|split; [|exact Hq]].
    + rewrite HeF, He1, <- app_assoc, Hes. reflexivity.
    + intros n d Hx. rewrite List.Forall_forall in Hf. exact (Hf _ Hx).
  - intros inst out leave data Hls Hcount Hout Hleave. unfold handlerCall.
    rewrite Hls, Hout, Hleave. now destruct (Nat.eqb_spec (eventCount inst) 0).
  - intros inst data Hls Hcount. unfold handlerCall. now rewrite Hls, Hcount.
  - intros Hq.
    assert (Hq0 : quiet (hovered (internals w0 (root rootState)))) by now rewrite Hhov0.
    destruct (cancelPointer_spec rootState hits w0 Hwf0 Hq0) as [_ He3].
    rewrite Hhov0 in He3. fold w3 in He3.
    assert (Hin3 : In (key, e) (List.filter (fun kv => unhovered hits (snd kv))
                                  (hovered (internals w (root rootState)))))
      by (apply filter_In; split; [exact Hin|exact Hunh]).
    destruct (in_split _ _ Hin3) as [l1 [l2 Hsplit]].
    destruct Hwf as [Hnd Hkeys].
    pose proof (NoDup_map_filter fst (fun kv => unhovered hits (snd kv)) _ Hnd) as Hnd3.
    rewrite Hsplit, List.map_app in Hnd3. simpl in Hnd3.
    pose proof (NoDup_remove_2 _ _ _ Hnd3) as Hfresh.
    assert (Hsub : forall kv, In kv (l1 ++ l2) ->
                              In kv (hovered (internals w (root rootState)))).
    { intros kv Hkv.
      assert (In kv (List.filter (fun kv => unhovered hits (snd kv))
                       (hovered (internals w (root rootState))))) as Hf.
      { rewrite Hsplit. apply in_app_or in Hkv as [?|?];
          apply in_or_app; [now left|right; now right]. }
      now apply filter_In in Hf. }
    assert (Hother : forall l name d,
               (forall kv, In kv l -> In kv (l1 ++ l2)) ->
               In (Call name d) (flat_map (fun kv => leaveCalls hits (snd kv)) l) ->
               ev_hit d <> ev_hit e).
    { intros l name d Hl Hcall Ehit. apply in_flat_map in Hcall as [[kx x] [Hx Hcall]].
      apply leaveCalls_hit in Hcall. simpl in Hcall. subst d. simpl in Ehit.
      unfold keyed in Hkeys. rewrite List.Forall_forall in Hkeys.
      pose proof (Hkeys _ (Hsub _ (Hl _ Hx))) as Hk2. simpl in Hk2.
      apply Hfresh. rewrite <- List.map_app.
      apply in_map_iff. exists (kx, x). split; [|now apply Hl].
      simpl. now rewrite Hkey, Hk2, Ehit. }
    exists (flat_map (fun kv => leaveCalls hits (snd kv)) l1).
    exists (flat_map (fun kv => leaveCalls hits (snd kv)) l2 ++ es2).
    split.
    + rewrite HeF, He3. subst w0. simpl. rewrite Hsplit, flat_map_app. simpl.
      now rewrite <- !app_assoc.
    + intros name d Hcall. apply in_app_or in Hcall as [Hcall|Hcall].
      * revert Hcall. apply Hother. intros kv Hkv. apply in_or_app. now left.
      * apply in_app_or in Hcall as [Hcall|Hcall].
        -- revert Hcall. apply Hother. intros kv Hkv. apply in_or_app. now right.
        -- apply Hoff. exact (Hc2 _ _ Hcall).
Qed.

(** The theorem at the hover example: [ex_H] is left for [ex_P]; its
    [pointerout] and [pointerleave] handlers run, then [pointerover] of
    [ex_P]. *)
Lemma pointermove_unhover_witness :
  hovered_wf (hovered (internals ex_hover_world (root (ex_layer 0)))) /\
  In (makeId (ex_on ex_H 1 ex_H), ex_data 0 (ex_on ex_H 1 ex_H))
     (hovered (internals ex_hover_world (root (ex_layer 0)))) /\
  ~ In (makeId (ex_on ex_H 1 ex_H), ex_data 0 (ex_on ex_H 1 ex_H))
       (hovered (internals (handlePointer (ex_layer 0) ex_cast_P None pointermove ex_move
                              ex_hover_world) (root (ex_layer 0)))) /\
  called (effects (handlePointer (ex_layer 0) ex_cast_P None pointermove ex_move
                     ex_hover_world))
  = [(pointerout, "H"); (pointerleave, "H"); (pointerover, "P")]%string.
Proof.
  assert (H1 : hovered_wf (hovered (internals ex_hover_world (root (ex_layer 0))))).
  { split.
    - vm_compute. constructor; [intros []|constructor].
    - repeat constructor. }
  assert (H2 : In (makeId (ex_on ex_H 1 ex_H), ex_data 0 (ex_on ex_H 1 ex_H))
                  (hovered (internals ex_hover_world (root (ex_layer 0))))) by now left.
  assert (H3 : forall h,
             In h (intersect (ex_layer 0) ex_cast_P None ex_move (Some filterPointerEvents)
                     ex_hover_world) ->
             ~ (oid (object (hit h)) = oid (object (hit (ev_hit (ex_data 0 (ex_on ex_H 1 ex_H)))))
                /\ index (hit h) = index (hit (ev_hit (ex_data 0 (ex_on ex_H 1 ex_H))))
                /\ instanceId (hit h)
                   = instanceId (hit (ev_hit (ex_data 0 (ex_on ex_H 1 ex_H)))))).
  { intros h Hh. vm_compute in Hh. destruct Hh as [<-|[]]. vm_compute.
    intros [E _]. discriminate E. }
  split; [exact H1|]. split; [exact H2|]. split.
  - exact (proj1 (proj2 (pointermove_unhover (ex_layer 0) ex_cast_P None ex_move
                           ex_hover_world _ _ H1 H2 H3))).
  - vm_compute. reflexivity.
Defined.

(** A [pointerout] handler that captures the pointer: when [ex_G] is
    left, the call on the platform element comes between the calls of its
    [pointerout] and [pointerleave] handlers. *)
Lemma pointermove_unhover_capture_example :
  effects (handlePointer (ex_layer 0) ex_cast_nothing None pointermove ex_move ex_grab_world)
  = [Call pointerout (with_intersections [] (ex_data 0 (ex_on ex_G 1 ex_G)));
     ElementSetPointerCapture 0 7;
     Call pointerleave (with_intersections [] (ex_data 0 (ex_on ex_G 1 ex_G)))].
Proof. vm_compute. reflexivity. Qed.

(* ================================================================== *)
(** * Further properties of the event manager *)
(* ================================================================== *)

(** ** The distance of a click from the pointer-down position *)


(** ** What a pointer-down records *)

Lemma pointerdown_bookkeeping rootState intersectObject events_filter event w :
  same_bookkeeping
    (update_internal (root rootState)
       (fun i => with_initialHits
                   (List.map eventObject
                      (intersect rootState intersectObject events_filter event None w))
                   (with_initialClick (offsetX event, offsetY event) i))
       (update_internal (root rootState) (with_lastEvent (Some event)) w))
    (handlePointer rootState intersectObject events_filter pointerdown event w).
Proof.
  set (hits := intersect rootState intersectObject events_filter event None w).
  set (w1 := update_internal (root rootState) _ _).
  unfold handlePointer, handleEvent, handleIntersects. simpl.
  rewrite intersect_lastEvent. fold hits. fold w1.
  apply (dispatchLoop_inv rootState (same_bookkeeping w1) (fun _ => True))
    with (name := pointerdown) (OnHit := fun _ => True);
    try (intros; exact I).
  - intros. now apply same_bookkeeping_emit.
  - intros. now apply same_bookkeeping_hovered.
  - intros. now apply same_bookkeeping_hovered.
  - intros. now apply same_bookkeeping_captured.
  - intros. now apply same_bookkeeping_captured.
  - intros. split; exact I.
  - intros. now apply same_bookkeeping_fresh.
  - intros. now apply same_bookkeeping_hovered.
  - intros _ d0. repeat split.
  - apply same_bookkeeping_refl.
Qed.

Lemma pointerdown_initialClick rootState intersectObject events_filter event w :
  initialClick (internals
     (handlePointer rootState intersectObject events_filter pointerdown event w)
     (root rootState)) = (offsetX event, offsetY event).
Proof.
  destruct (pointerdown_bookkeeping rootState intersectObject events_filter event w)
    as [_ Hbk].
  destruct (Hbk (root rootState)) as (_ & _ & Hc & _).
  rewrite Hc. simpl. now rewrite Nat.eqb_refl.
Qed.

(** X2 (events.ts, handlePointer / handleEvent): whatever the handlers
    do, after a pointerdown the root has recorded the position of the event
    and the event objects of its hits, in order; the interaction list is
    untouched, and the same event is then at distance 0. *)
Theorem pointerdown_records_origin rootState intersectObject events_filter event w :
  let w' := handlePointer rootState intersectObject events_filter pointerdown event w in
  initialClick (internals w' (root rootState)) = (offsetX event, offsetY event)
  /\ initialHits (internals w' (root rootState))
     = List.map eventObject (intersect rootState intersectObject events_filter event None w)
  /\ interaction (internals w' (root rootState)) = interaction (internals w (root rootState))
  /\ calculateDistance rootState event w' = 0.
Proof.
  intros w'.
  destruct (pointerdown_bookkeeping rootState intersectObject events_filter event w)
    as [_ Hbk].
  destruct (Hbk (root rootState)) as (Hi & Hh & _ & _). fold w' in Hi, Hh.
  pose proof (pointerdown_initialClick rootState intersectObject events_filter event w)
    as Hclick. fold w' in Hclick.
  repeat match goal with |- _ /\ _ => split end.
  - exact Hclick.
  - rewrite Hh. simpl. now rewrite Nat.eqb_refl.
  - rewrite Hi. simpl. now rewrite Nat.eqb_refl.
  - now apply calculateDistance_here.
Qed.

(** ** Which handlers an event can reach *)

(** X3 (events.ts, handlePointer / onIntersect): a click, contextmenu or
    dblclick handler is only ever called on an object that was among the
    event objects recorded at the last pointerdown. *)
Theorem click_only_on_initial_hits rootState intersectObject events_filter name event w :
  isClickEvent name = true ->
  exists es,
    effects (handlePointer rootState intersectObject events_filter name event w)
    = effects w ++ es
    /\ forall d, In (Call name d) es ->
         includes (initialHits (internals w (root rootState))) (eventObject (ev_hit d)) = true.
Proof.
  intros Hclick. rewrite handlePointer_click by exact Hclick.
  set (ih := initialHits (internals w (root rootState))).
  destruct (handleEvent_inv rootState intersectObject events_filter name
              (fun w => initialHits (internals w (root rootState)) = ih)
              (fun e => match e with
                        | Call n d => n = name -> includes ih (eventObject (ev_hit d)) = true
                        | _ => True
                        end)
              (fun _ => True)) with (event := event) (w := w) as [_ [es [He Hq]]];
    try (intros; exact I); try reflexivity.
  - intros es w0 H. exact H.
  - intros w0 H. exact H.
  - intros k w0 H. simpl. now rewrite Nat.eqb_refl.
  - intros k w0 H. simpl. now rewrite Nat.eqb_refl.
  - intros e0 w0 H _ _. simpl. now rewrite Nat.eqb_refl.
  - intros n h e id w0 H. simpl. now destruct (Nat.eqb _ n).
  - intros n h id w0 H. simpl. now destruct (Nat.eqb _ n).
  - intros e w0 H. simpl. now rewrite Nat.eqb_refl.
  - intros ->. discriminate Hclick.
  - intros w0 k v ints _ _. split; intros <-; discriminate Hclick.
  - intros Hm. destruct name; discriminate.
  - intros _ w0 d H _ Hg _. rewrite Hclick in Hg. simpl in Hg. now rewrite <- H.
  - exists es. split; [exact He|]. intros d Hin.
    rewrite List.Forall_forall in Hq. exact (Hq _ Hin eq_refl).
Qed.

Lemma click_only_on_initial_hits_witness :
  isClickEvent click = true /\
  exists es,
    effects (handlePointer (ex_layer 0) ex_cast_K None click ex_click ex_click_world)
    = effects ex_click_world ++ es
    /\ forall d, In (Call click d) es ->
         includes (initialHits (internals ex_click_world (root (ex_layer 0))))
                  (eventObject (ev_hit d)) = true.
Proof.
  split; [reflexivity|].
  exact (click_only_on_initial_hits (ex_layer 0) ex_cast_K None click ex_click
           ex_click_world eq_refl).
Defined.


(** ** Pointer capture seen from a handler *)

Lemma hasPointerCapture_captureOf h id cm :
  hasPointerCapture h id cm
  = match captureOf id (eventObject h) cm with Some _ => true | None => false end.
Proof. unfold hasPointerCapture, captureOf, Map_has. now destruct (Map_get Z.eqb id cm). Qed.

Lemma setPointerCapture_captureOf h event id cm id' o :
  captureOf id' o (fst (setPointerCapture h event id cm))
  = if Z.eqb id' id && same o (eventObject h)
    then Some {| intersection := h; capture_target := target event |}
    else captureOf id' o cm.
Proof.
  unfold setPointerCapture, captureOf. simpl.
  destruct (Map_get Z.eqb id cm) as [captures|] eqn:E; rewrite Zmap_get_set;
    destruct (Z.eqb_spec id' id) as [->|Hne]; simpl; try reflexivity.
  - rewrite Omap_get_set, E. now destruct (same o (eventObject h)).
  - rewrite E. now destruct (same o (eventObject h)).
Qed.

Lemma releasePointerCapture_captureOf h id cm id' o :
  captureOf id' o (fst (releasePointerCapture h id cm))
  = if Z.eqb id' id && same o (eventObject h) then None else captureOf id' o cm.
Proof.
  unfold releasePointerCapture.
  destruct (Map_get Z.eqb id cm) as [captures|] eqn:E.
  - now apply release_captureOf.
  - simpl. destruct (Z.eqb_spec id' id) as [->|Hne]; simpl; [|reflexivity].
    destruct (same o (eventObject h)); [|reflexivity].
    unfold captureOf. now rewrite E.
Qed.

(** X5 (events.ts, handleIntersects: hasPointerCapture, setPointerCapture
    and releasePointerCapture of a synthesized event): after
    setPointerCapture(id) the event object has the capture of [id], after
    releasePointerCapture(id) it has not, and neither call changes what
    hasPointerCapture answers for another object or another pointer id. *)
Theorem pointer_capture_round_trip h event id cm :
  hasPointerCapture h id (fst (setPointerCapture h event id cm)) = true
  /\ hasPointerCapture h id (fst (releasePointerCapture h id cm)) = false
  /\ hasPointerCapture h id
       (fst (releasePointerCapture h id (fst (setPointerCapture h event id cm)))) = false
  /\ forall h' id',
       Z.eqb id' id && same (eventObject h') (eventObject h) = false ->
       hasPointerCapture h' id' (fst (setPointerCapture h event id cm))
       = hasPointerCapture h' id' cm
       /\ hasPointerCapture h' id' (fst (releasePointerCapture h id cm))
          = hasPointerCapture h' id' cm.
Proof.
  repeat match goal with |- _ /\ _ => split end.
  - now rewrite hasPointerCapture_captureOf, setPointerCapture_captureOf, Z.eqb_refl, same_refl.
  - now rewrite hasPointerCapture_captureOf, releasePointerCapture_captureOf,
      Z.eqb_refl, same_refl.
  - now rewrite hasPointerCapture_captureOf, releasePointerCapture_captureOf,
      Z.eqb_refl, same_refl.
  - intros h' id' Hother. split.
    + now rewrite !hasPointerCapture_captureOf, setPointerCapture_captureOf, Hother.
    + now rewrite !hasPointerCapture_captureOf, releasePointerCapture_captureOf, Hother.
Qed.

Lemma rawHits_nil intersectObject event objs :
  (forall o, In o objs -> handleRaycast intersectObject event o = []) ->
  rawHits intersectObject event objs = [].
Proof.
  intros H. unfold rawHits. induction objs as [|o objs IH]; [reflexivity|].
  simpl. rewrite (H o) by now left. apply IH. intros o' Ho'. apply H. now right.
Qed.

Lemma filter_all {A} (f : A -> bool) l :
  (forall x, In x l -> f x = true) -> List.filter f l = l.
Proof.
  induction l as [|x l IH]; intros H; [reflexivity|].
  simpl. rewrite (H x) by now left. f_equal. apply IH. intros y Hy. apply H. now right.
Qed.

Lemma intersect_no_hits rootState intersectObject event w :
  (forall o, In o (interaction (internals w (root rootState))) ->
             handleRaycast intersectObject event o = []) ->
  intersect rootState intersectObject None event None w
  = match pointerId event with
    | Some id =>
        match Map_get Z.eqb id (capturedMap (internals w (root rootState))) with
        | Some captures => List.map intersection (Map_values captures)
        | None => []
        end
    | None => []
    end.
Proof.
  intros H. unfold intersect, collectHits, sortedHits.
  rewrite (rawHits_nil _ _ _ H). simpl.
  destruct (pointerId event) as [id|]; [|reflexivity].
  destruct (Map_get Z.eqb id _) as [captures|]; [|reflexivity].
  now apply filter_all.
Qed.

(** X6 (events.ts, intersect and handleEvent): when the ray hits nothing,
    the intersections of an event of a captured pointer are exactly the
    capturing targets, in the order they took the capture; a pointerdown,
    pointerup or wheel event is then still delivered to the handler of the
    first capturing object. *)
Theorem captured_target_receives_event rootState intersectObject name event id w
    obj captureData rest inst script :
  (forall o, In o (interaction (internals w (root rootState))) ->
             handleRaycast intersectObject event o = []) ->
  pointerId event = Some id ->
  Map_get Z.eqb id (capturedMap (internals w (root rootState)))
  = Some ((obj, captureData) :: rest) ->
  In name [pointerdown; pointerup; wheel] ->
  getLocalState (eventObject (intersection captureData)) = Some inst ->
  eventCount inst <> 0%nat ->
  handlers inst name = Some script ->
  intersect rootState intersectObject None event None w
  = intersection captureData :: List.map intersection (Map_values rest)
  /\ exists es d,
       effects (handlePointer rootState intersectObject None name event w) = effects w ++ es
       /\ In (Call name d) es
       /\ ev_hit d = intersection captureData
       /\ nativeEvent d = event.
Proof.
  intros Hray Hid Hcap Hname Hls Hcount Hh.
  assert (Hints : intersect rootState intersectObject None event None w
                  = intersection captureData :: List.map intersection (Map_values rest)).
  { rewrite (intersect_no_hits _ _ _ _ Hray), Hid. now rewrite Hcap. }
  split; [exact Hints|].
  set (hits := intersection captureData :: List.map intersection (Map_values rest)) in *.
  assert (Hmove : isPointerMove name = false)
    by (destruct Hname as [<-|[<-|[<-|[]]]]; reflexivity).
  assert (Hclick : isClickEvent name = false)
    by (destruct Hname as [<-|[<-|[<-|[]]]]; reflexivity).
  assert (Hev : exists w1,
             effects w1 = effects w
             /\ handlePointer rootState intersectObject None name event w
                = fst (dispatchLoop (onIntersect rootState name event) event 0 (nextEvent w1)
                         hits [] hits w1)).
  { destruct Hname as [<-|[<-|[<-|[]]]];
      unfold handlePointer, handleEvent, handleIntersects; cbv zeta;
      cbn [isPointerMove isClickEvent andb];
      rewrite intersect_lastEvent, Hints; eexists; (split; [|reflexivity]); reflexivity. }
  destruct Hev as [w1 [Hw1 ->]].
  unfold hits at 2. rewrite dispatchLoop_step.
  set (d := newEvent (nextEvent w1) [] w1 (intersection captureData) hits 0 event).
  set (missed := pointerMissed event (notInitiallyHit (internals (world d) (root rootState)))).
  assert (Hon : onIntersect rootState name event [] d
                = fold_left (fun d a => runAction rootState event [] a d) script
                    (on_world (emit [Call name (raycastEvent d)])
                       (on_world (emit missed) d))).
  { unfold onIntersect. cbn [d newEvent raycastEvent ev_hit]. rewrite Hls.
    destruct (Nat.eqb_spec (eventCount inst) 0) as [E|_]; [contradiction|].
    rewrite Hmove, Hh, Hclick. cbn [negb orb]. unfold callHandler. now rewrite Hh. }
  destruct (script_extends rootState event [] script
              (on_world (emit [Call name (raycastEvent d)]) (on_world (emit missed) d)))
    as [es1 [He1 _]].
  rewrite <- Hon in He1. cbn [world on_world emit effects] in He1.
  assert (Hfin : exists es2,
             effects (fst (if localState_stopped (onIntersect rootState name event [] d)
                           then (world (onIntersect rootState name event [] d), true)
                           else dispatchLoop (onIntersect rootState name event) event 0
                                  (nextEvent w1) hits
                                  ([] ++ [intersection captureData])
                                  (List.map intersection (Map_values rest))
                                  (world (onIntersect rootState name event [] d))))
             = effects (world (onIntersect rootState name event [] d)) ++ es2).
  { destruct (localState_stopped _); cbn [fst].
    - exists []. now rewrite app_nil_r.
    - destruct (dispatchLoop_extends rootState name event 0 (nextEvent w1) hits
                  ([] ++ [intersection captureData])
                  (List.map intersection (Map_values rest))
                  (world (onIntersect rootState name event [] d))) as [es2 [He2 _]].
      now exists es2. }
  destruct Hfin as [es2 He2].
  exists (missed ++ [Call name (raycastEvent d)] ++ es1 ++ es2), (raycastEvent d).
  repeat match goal with |- _ /\ _ => split end.
  - fold d. rewrite He2, He1. subst d. cbn [newEvent world fresh_event effects].
    rewrite Hw1. now rewrite <- !app_assoc.
  - apply in_or_app. right. now left.
  - reflexivity.
  - reflexivity.
Qed.

Lemma captured_target_receives_event_witness :
  intersect (ex_layer 0) ex_cast_nothing None ex_event None (ex_group_world [] ex_capture_C)
  = [ex_on ex_C 3 ex_C]
  /\ exists es d,
       effects (handlePointer (ex_layer 0) ex_cast_nothing None pointerdown ex_event
                  (ex_group_world [] ex_capture_C))
       = effects (ex_group_world [] ex_capture_C) ++ es
       /\ In (Call pointerdown d) es
       /\ ev_hit d = ex_on ex_C 3 ex_C
       /\ nativeEvent d = ex_event.
Proof.
  refine (captured_target_receives_event (ex_layer 0) ex_cast_nothing pointerdown ex_event 7
            (ex_group_world [] ex_capture_C) ex_C
            {| intersection := ex_on ex_C 3 ex_C; capture_target := 0 |} []
            {| store := ex_layer 0; handlers := ex_handlers pointerdown [];
               eventCount := 1 |} []
            _ eq_refl eq_refl _ eq_refl _ eq_refl).
  - intros o _. unfold handleRaycast, ex_cast_nothing.
    destruct (getLocalState o) as [ls|]; [|reflexivity].
    now destruct (negb (events_enabled (store ls))), (raycaster_camera (store ls)).
  - simpl. now left.
  - simpl. lia.
Defined.

(** ** Invariants of the root over any run *)

Lemma captures_nonempty_delete id cm :
  captures_nonempty cm -> captures_nonempty (Map_delete Z.eqb id cm).
Proof.
  intros H id' captures Hget. rewrite Zmap_get_delete in Hget.
  destruct (Z.eqb id' id); [discriminate|]. exact (H _ _ Hget).
Qed.

Lemma captures_everywhere_update n (f : NgtInternal -> NgtInternal) w :
  captures_nonempty (capturedMap (f (internals w n))) ->
  captures_nonempty_everywhere w -> captures_nonempty_everywhere (update_internal n f w).
Proof.
  intros Hn H m. simpl. destruct (Nat.eqb_spec m n) as [->|_]; [exact Hn|apply H].
Qed.

Lemma captures_set n h event id w :
  captures_nonempty_everywhere w ->
  captures_nonempty_everywhere
    (update_internal n
       (with_capturedMap (fst (setPointerCapture h event id (capturedMap (internals w n)))))
       w).
Proof.
  intros H0. apply captures_everywhere_update; [|exact H0].
  apply setPointerCapture_nonempty, H0.
Qed.

Lemma captures_release n h id w :
  captures_nonempty_everywhere w ->
  captures_nonempty_everywhere
    (update_internal n
       (with_capturedMap (fst (releasePointerCapture h id (capturedMap (internals w n)))))
       w).
Proof.
  intros H0. apply captures_everywhere_update; [|exact H0].
  exact (captureStep_nonempty (OpReleasePointerCapture h id) _ (H0 n)).
Qed.

Lemma captures_hovered n (f : HoveredMap -> HoveredMap) w :
  captures_nonempty_everywhere w ->
  captures_nonempty_everywhere
    (update_internal n (fun i => with_hovered (f (hovered i)) i) w).
Proof. intros H0. apply captures_everywhere_update; [apply H0|exact H0]. Qed.

Lemma cancelPointer_captures rootState ints w :
  captures_nonempty_everywhere w ->
  captures_nonempty_everywhere (cancelPointer rootState ints w).
Proof.
  intros H.
  apply (cancelPointer_inv rootState captures_nonempty_everywhere (fun _ => True));
    auto using captures_set, captures_release.
  - intros key w0 H0. now apply captures_hovered.
  - intros id w0 H0. now apply captures_hovered.
Qed.

Lemma handlePointer_captures rootState intersectObject events_filter name event w :
  captures_nonempty_everywhere w ->
  captures_nonempty_everywhere
    (handlePointer rootState intersectObject events_filter name event w).
Proof.
  intros H.
  assert (Hev : captures_nonempty_everywhere
                  (handleEvent rootState intersectObject events_filter name event w)).
  { apply (handleEvent_inv rootState intersectObject events_filter name
             captures_nonempty_everywhere (fun _ => True) (fun _ => True));
      auto using captures_set, captures_release.
    - intros key w0 H0. now apply captures_hovered.
    - intros id w0 H0. now apply captures_hovered.
    - intros e w0 H0 _ _. now apply captures_hovered.
    - intros e w0 H0. apply captures_everywhere_update; [apply H0|exact H0].
    - intros _ hs p w0 H0. apply captures_everywhere_update; [apply H0|exact H0]. }
  destruct name; try exact Hev; simpl.
  - now apply cancelPointer_captures.
  - now apply cancelPointer_captures.
  - destruct (pointerId event); [|exact H]. now destruct (Map_has Z.eqb _ _).
Qed.

Lemma animationFrame_fold {P : World -> Prop} rootState ids w :
  (forall id w0, P w0 -> P (releaseLostCapture rootState id w0)) ->
  P w -> P (fold_left (fun w id => releaseLostCapture rootState id w) ids w).
Proof.
  intros Hstep. revert w. induction ids as [|id ids IH]; simpl; intros w Hw; [exact Hw|].
  apply IH, Hstep, Hw.
Qed.

Lemma removeInteractivity_other s obj w m :
  m <> internal s -> internals (removeInteractivity s obj w) m = internals w m.
Proof.
  intros Hm. unfold removeInteractivity.
  destruct (releaseAll obj _ _) as [cm es]. simpl.
  now destruct (Nat.eqb_spec m (internal s)).
Qed.

(** X7 (events.ts, createEvents.handlePointer, the frame callback of
    lostpointercapture, removeInteractivity): whatever events arrive,
    frames run and objects are removed, and whatever the handlers do with
    the events, no store ever holds a pointer id with an empty set of
    capturing objects. *)
Theorem captures_nonempty_run rootState intersectObject events_filter steps w :
  captures_nonempty_everywhere w ->
  captures_nonempty_everywhere (run rootState intersectObject events_filter steps w).
Proof.
  unfold run. revert w. induction steps as [|st steps IH]; simpl; intros w H; [exact H|].
  apply IH. destruct st as [name event| |s obj]; simpl.
  - now apply handlePointer_captures.
  - unfold animationFrame. apply animationFrame_fold; [|exact H].
    intros id w0 H0. unfold releaseLostCapture.
    destruct (Map_has Z.eqb id _); [|exact H0].
    apply cancelPointer_captures, captures_everywhere_update; [|exact H0].
    apply captures_nonempty_delete, H0.
  - intros m. destruct (Nat.eq_dec m (internal s)) as [->|Hm].
    + rewrite (proj1 (removeInteractivity_captures s obj w)).
      apply captureStep_nonempty, H.
    + rewrite removeInteractivity_other by exact Hm. apply H.
Qed.

Lemma captures_nonempty_run_witness :
  captures_nonempty_everywhere ex_world /\
  captures_nonempty_everywhere
    (run (ex_layer 0) ex_cast None
       [StepPointer pointerdown ex_event; StepPointer lostpointercapture ex_event;
        StepFrame; StepRemove (ex_layer 0) ex_X] ex_world).
Proof.
  assert (H0 : captures_nonempty_everywhere ex_world).
  { intros n id captures H. simpl in H.
    destruct (id =? 7); [|discriminate]. injection H as <-. discriminate. }
  split; [exact H0|].
  exact (captures_nonempty_run (ex_layer 0) ex_cast None _ ex_world H0).
Defined.

Lemma removeInteractivity_internal s s' obj w :
  internal s = internal s' -> removeInteractivity s obj w = removeInteractivity s' obj w.
Proof. intros H. unfold removeInteractivity. now rewrite H. Qed.

(** From the empty map on, [hovered] stays a Map whose entries are booked
    under their own id, whatever events are handled, frames run and
    objects removed. *)
Lemma cancelPointer_wf rootState ints w :
  hovered_wf (hovered (internals w (root rootState))) ->
  hovered_wf (hovered (internals (cancelPointer rootState ints w) (root rootState))).
Proof.
  apply shrinks_wf.
  exact (cancelPointerF_shrinks_self rootState _ ints (idle w)).
Qed.

Lemma hovered_wf_kept rootState intersectObject events_filter name event obj w :
  hovered_wf (hovered (internals w (root rootState))) ->
  hovered_wf (hovered (internals
     (handlePointer rootState intersectObject events_filter name event w) (root rootState)))
  /\ hovered_wf (hovered (internals (animationFrame rootState w) (root rootState)))
  /\ hovered_wf (hovered (internals (removeInteractivity rootState obj w) (root rootState))).
Proof.
  intros Hwf. split; [|split].
  - assert (Hev : hovered_wf (hovered (internals
       (handleEvent rootState intersectObject events_filter name event w)
       (root rootState)))).
    { apply (handleEvent_inv rootState intersectObject events_filter name
               (fun w => hovered_wf (hovered (internals w (root rootState))))
               (fun _ => True) (fun _ => True)); auto.
      - intros key w0 H0. simpl. rewrite Nat.eqb_refl. simpl. now apply hovered_wf_delete.
      - intros id w0 H0. simpl. rewrite Nat.eqb_refl. simpl. now apply hovered_wf_mark.
      - intros e w0 H0 _ Hnone. simpl. rewrite Nat.eqb_refl. simpl.
        now apply hovered_wf_set.
      - intros n h e id w0 H0. now rewrite hovered_other_capture.
      - intros n h id w0 H0. now rewrite hovered_other_capture.
      - intros e w0 H0. simpl. now rewrite Nat.eqb_refl.
      - intros _ hs p w0 H0. simpl. now rewrite Nat.eqb_refl. }
    destruct name; try exact Hev; simpl.
    + now apply cancelPointer_wf.
    + now apply cancelPointer_wf.
    + destruct (pointerId event); [|exact Hwf]. now destruct (Map_has Z.eqb _ _).
  - unfold animationFrame.
    assert (H0 : hovered_wf (hovered (internals
                   {| internals := internals w; effects := effects w;
                      frameCallbacks := []; nextEvent := nextEvent w |} (root rootState))))
      by exact Hwf.
    revert H0. generalize {| internals := internals w; effects := effects w;
                             frameCallbacks := []; nextEvent := nextEvent w |}.
    induction (frameCallbacks w) as [|id ids IH]; simpl; intros w0 H0; [exact H0|].
    apply IH. unfold releaseLostCapture.
    destruct (Map_has Z.eqb id _); [|exact H0].
    apply cancelPointer_wf. simpl. now rewrite Nat.eqb_refl.
  - assert (Hh : hovered (internals (removeInteractivity rootState obj w) (root rootState))
                 = List.filter (fun kv => negb (hoveredOn obj (snd kv)))
                     (hovered (internals w (root rootState)))).
    { unfold removeInteractivity. simpl. unfold root. rewrite !Nat.eqb_refl. simpl.
      destruct (releaseAll obj _ _) as [cm es]. simpl. rewrite Nat.eqb_refl. simpl.
      exact (removeHovered_filter obj [] _ (proj1 Hwf)). }
    rewrite Hh. destruct Hwf as [Hnd Hk]. split.
    + now apply NoDup_map_filter.
    + unfold keyed in *. rewrite List.Forall_forall in *. intros kv Hin.
      apply filter_In in Hin as [Hin _]. now apply Hk.
Qed.

(** X8 (events.ts, createEvents.handlePointer, cancelPointer,
    removeInteractivity): over any run the hovered map of the root keeps
    distinct keys and books every event under the id of its own hit. *)
Theorem hovered_wf_run rootState intersectObject events_filter steps w :
  hovered_wf (hovered (internals w (root rootState))) ->
  hovered_wf (hovered (internals (run rootState intersectObject events_filter steps w)
                         (root rootState))).
Proof.
  unfold run. revert w. induction steps as [|st steps IH]; simpl; intros w H; [exact H|].
  apply IH. destruct st as [name event| |s obj]; simpl.
  - exact (proj1 (hovered_wf_kept rootState intersectObject events_filter name event
                    (mkObject3D 0 EmptyString None None) w H)).
  - exact (proj1 (proj2 (hovered_wf_kept rootState intersectObject events_filter click
                           {| pointerId := None; offsetX := 0%Q; offsetY := 0%Q; target := 0 |}
                           (mkObject3D 0 EmptyString None None) w H))).
  - destruct (Nat.eq_dec (internal s) (root rootState)) as [Hs|Hs].
    + rewrite (removeInteractivity_internal s rootState obj w Hs).
      exact (proj2 (proj2 (hovered_wf_kept rootState intersectObject events_filter click
                             {| pointerId := None; offsetX := 0%Q; offsetY := 0%Q; target := 0 |}
                             obj w H))).
    + rewrite removeInteractivity_other by (intros E; now apply Hs). exact H.
Qed.

Lemma hovered_wf_run_witness :
  hovered_wf (hovered (internals ex_hover_world (root (ex_layer 0)))) /\
  hovered_wf (hovered (internals
    (run (ex_layer 0) ex_cast_P None
       [StepPointer pointermove ex_move; StepPointer pointerleave ex_move;
        StepRemove (ex_layer 0) ex_H] ex_hover_world)
    (root (ex_layer 0)))).
Proof.
  assert (H0 : hovered_wf (hovered (internals ex_hover_world (root (ex_layer 0))))).
  { split.
    - simpl. constructor; [intros []|constructor].
    - repeat constructor. }
  split; [exact H0|].
  exact (hovered_wf_run (ex_layer 0) ex_cast_P None _ ex_hover_world H0).
Defined.


(** ** The last event does not matter to cancelPointer *)

Lemma same_hovered w1 w2 n :
  same_but_lastEvent w1 w2 -> hovered (internals w1 n) = hovered (internals w2 n).
Proof. intros (_ & _ & _ & H). exact (f_equal hovered (H n)). Qed.

Lemma same_captured w1 w2 n :
  same_but_lastEvent w1 w2 -> capturedMap (internals w1 n) = capturedMap (internals w2 n).
Proof. intros (_ & _ & _ & H). exact (f_equal capturedMap (H n)). Qed.

Lemma same_emit es w1 w2 :
  same_but_lastEvent w1 w2 -> same_but_lastEvent (emit es w1) (emit es w2).
Proof.
  intros (He & Hf & Hn & H). repeat split; simpl; try assumption. now rewrite He.
Qed.

Lemma same_update n (f : NgtInternal -> NgtInternal) w1 w2 :
  (forall i1 i2, with_lastEvent None i1 = with_lastEvent None i2 ->
                 with_lastEvent None (f i1) = with_lastEvent None (f i2)) ->
  same_but_lastEvent w1 w2 ->
  same_but_lastEvent (update_internal n f w1) (update_internal n f w2).
Proof.
  intros Hf (He & Hfc & Hn & H). repeat split; simpl; try assumption.
  intros m. destruct (Nat.eqb m n); [apply Hf|]; apply H.
Qed.

Lemma same_with_hovered (g : HoveredMap -> HoveredMap) i1 i2 :
  with_lastEvent None i1 = with_lastEvent None i2 ->
  with_lastEvent None (with_hovered (g (hovered i1)) i1)
  = with_lastEvent None (with_hovered (g (hovered i2)) i2).
Proof.
  destruct i1, i2. unfold with_lastEvent, with_hovered. simpl.
  intros H. injection H as -> -> -> -> ->. reflexivity.
Qed.

Lemma same_with_capturedMap cm i1 i2 :
  with_lastEvent None i1 = with_lastEvent None i2 ->
  with_lastEvent None (with_capturedMap cm i1) = with_lastEvent None (with_capturedMap cm i2).
Proof.
  destruct i1, i2. unfold with_lastEvent, with_capturedMap. simpl.
  intros H. injection H as -> -> -> -> ->. reflexivity.
Qed.

Lemma same_dispatch_on_world f d1 d2 :
  (forall w1 w2, same_but_lastEvent w1 w2 -> same_but_lastEvent (f w1) (f w2)) ->
  same_dispatch d1 d2 -> same_dispatch (on_world f d1) (on_world f d2).
Proof. intros Hf (Hw & Hs & Hr). split; [now apply Hf|now split]. Qed.

Section Simulation.
Variable rootState : NgtState.
Variable cancel : list NgtIntersection -> Dispatch -> Dispatch.
Hypothesis cancel_sim : forall ints d1 d2,
  same_dispatch d1 d2 -> same_dispatch (cancel ints d1) (cancel ints d2).

Lemma stopPropagationOf_sim e event higher d1 d2 :
  same_dispatch d1 d2 ->
  same_dispatch (stopPropagationOf rootState cancel e event higher d1)
                (stopPropagationOf rootState cancel e event higher d2).
Proof.
  intros (Hw & Hs & Hr). unfold stopPropagationOf.
  rewrite (same_captured _ _ (internal (stateOf rootState (ev_hit e))) Hw).
  case_if; [|now split].
  match goal with
  | |- same_dispatch (if _ then cancel _ ?a else _) (if _ then cancel _ ?b else _) =>
      assert (H1 : same_dispatch a b)
  end.
  { split; [|split]; simpl.
    - apply same_update; [|exact Hw]. intros i1 i2.
      apply (same_with_hovered (mark_stopped (ev_id e))).
    - now rewrite Hr, Hs.
    - now rewrite Hr. }
  pose proof (same_hovered _ _ (internal (stateOf rootState (ev_hit e))) (proj1 H1)) as Hh.
  cbn [world] in Hh |- *. rewrite Hh.
  case_if; [now apply cancel_sim|exact H1].
Qed.

Lemma runActionOf_sim e event higher a d1 d2 :
  same_dispatch d1 d2 ->
  same_dispatch (runActionOf rootState cancel e event higher a d1)
                (runActionOf rootState cancel e event higher a d2).
Proof.
  intros H. destruct a as [|id|id].
  - now apply stopPropagationOf_sim.
  - destruct H as (Hw & Hs & Hr). unfold runActionOf.
    rewrite (same_captured _ _ (internal (stateOf rootState (ev_hit e))) Hw).
    destruct (setPointerCapture _ _ _ _) as [cm es]. split; [|now split]. simpl.
    apply same_emit, same_update; [|exact Hw]. intros i1 i2. apply same_with_capturedMap.
  - destruct H as (Hw & Hs & Hr). unfold runActionOf.
    rewrite (same_captured _ _ (internal (stateOf rootState (ev_hit e))) Hw).
    destruct (releasePointerCapture _ _ _) as [cm es]. split; [|now split]. simpl.
    apply same_emit, same_update; [|exact Hw]. intros i1 i2. apply same_with_capturedMap.
Qed.

Lemma scriptOf_sim e event higher script d1 d2 :
  same_dispatch d1 d2 ->
  same_dispatch
    (fold_left (fun d a => runActionOf rootState cancel e event higher a d) script d1)
    (fold_left (fun d a => runActionOf rootState cancel e event higher a d) script d2).
Proof.
  revert d1 d2. induction script as [|a script IH]; simpl; intros d1 d2 H; [exact H|].
  apply IH. now apply runActionOf_sim.
Qed.

Lemma invoke_sim e event higher name hs data d1 d2 :
  same_dispatch d1 d2 ->
  same_dispatch (invoke rootState cancel e event higher name hs data d1)
                (invoke rootState cancel e event higher name hs data d2).
Proof.
  intros H. unfold invoke. destruct (hs name) as [script|]; [|exact H].
  apply scriptOf_sim. apply same_dispatch_on_world; [|exact H].
  intros w1 w2. apply same_emit.
Qed.

Lemma cancelOne_sim ints v d1 d2 :
  same_dispatch d1 d2 ->
  same_dispatch (cancelOne rootState cancel ints v d1) (cancelOne rootState cancel ints v d2).
Proof.
  intros H. unfold cancelOne. case_if; [|exact H].
  match goal with
  | |- context [invoke _ _ _ _ _ pointerout _ _ (on_world ?f d1)] =>
      assert (H1 : same_dispatch (on_world f d1) (on_world f d2))
  end.
  { apply same_dispatch_on_world; [|exact H]. intros w1 w2. apply same_update.
    intros i1 i2. apply (same_with_hovered (Map_delete String.eqb (makeId (ev_hit v)))). }
  destruct (getLocalState _) as [inst|]; [|exact H1].
  case_if; [exact H1|].
  now apply invoke_sim, invoke_sim.
Qed.

Lemma cancelLoop_sim ints todo d1 d2 :
  same_dispatch d1 d2 ->
  same_dispatch (cancelLoop rootState cancel ints todo d1)
                (cancelLoop rootState cancel ints todo d2).
Proof.
  revert d1 d2. induction todo as [|key todo IH]; simpl; intros d1 d2 H; [exact H|].
  rewrite (same_hovered _ _ (root rootState) (proj1 H)).
  destruct (Map_get String.eqb key _) as [v|]; [|now apply IH].
  apply IH. now apply cancelOne_sim.
Qed.
End Simulation.

Lemma cancelPointerF_sim rootState fuel ints d1 d2 :
  same_dispatch d1 d2 ->
  same_dispatch (cancelPointerF rootState fuel ints d1) (cancelPointerF rootState fuel ints d2).
Proof.
  revert ints d1 d2. induction fuel as [|fuel IH]; intros ints d1 d2 H; simpl; [exact H|].
  rewrite (same_hovered _ _ (root rootState) (proj1 H)).
  apply cancelLoop_sim; [|exact H]. intros ints' a b. apply IH.
Qed.

(** [cancelPointer] does not read [lastEvent]. *)
Lemma cancelPointer_sim rootState ints w1 w2 :
  same_but_lastEvent w1 w2 ->
  same_but_lastEvent (cancelPointer rootState ints w1) (cancelPointer rootState ints w2).
Proof.
  intros H. unfold cancelPointer, cancelPointerD. cbn [world idle].
  rewrite (same_hovered _ _ (root rootState) H).
  apply cancelPointerF_sim. split; [exact H|]. split; [reflexivity|].
  unfold idle. cbn [raycastEvent]. now rewrite (proj1 (proj2 (proj2 H))).
Qed.

Lemma cancelPointer_lastEvent rootState ints w :
  lastEvent (internals (cancelPointer rootState ints w) (root rootState))
  = lastEvent (internals w (root rootState)).
Proof.
  apply (cancelPointer_inv rootState
           (fun w0 => lastEvent (internals w0 (root rootState))
                      = lastEvent (internals w (root rootState))) (fun _ => True)); auto.
  - intros key w0 H. simpl. now rewrite Nat.eqb_refl.
  - intros id w0 H. simpl. now rewrite Nat.eqb_refl.
  - intros n h e id w0 H. simpl. now destruct (Nat.eqb _ n).
  - intros n h id w0 H. simpl. now destruct (Nat.eqb _ n).
Qed.

(** ** The frame after a lost capture *)

Lemma cancelPointer_frameCallbacks rootState ints w :
  frameCallbacks (cancelPointer rootState ints w) = frameCallbacks w.
Proof.
  apply (cancelPointer_inv rootState (fun w0 => frameCallbacks w0 = frameCallbacks w)
           (fun _ => True)); auto.
Qed.

(** What [cancelPointer] may call: [pointerout] and [pointerleave]
    handlers, and what these ask of the platform element. *)
Lemma cancelPointer_leaves rootState ints w :
  extends_with (fun e => (exists d, e = Call pointerout d \/ e = Call pointerleave d)
                         \/ (exists t id, e = ElementSetPointerCapture t id
                                          \/ e = ElementReleasePointerCapture t id))
    w (cancelPointer rootState ints w).
Proof.
  refine (proj2 (cancelPointer_inv rootState (fun _ => True) _
                   (fun _ _ _ => I) (fun _ _ _ => I) (fun _ _ _ => I)
                   (fun _ _ _ _ _ _ => I) (fun _ _ _ _ _ => I) _ _ _ ints w I)).
  - intros w0 key v ints0 _ _. split; left; eauto.
  - intros t id. right. eauto.
  - intros t id. right. eauto.
Qed.

Lemma leaveCalls_names ints v e :
  In e (leaveCalls ints v) -> exists d, e = Call pointerout d \/ e = Call pointerleave d.
Proof.
  unfold leaveCalls. destruct (getLocalState _) as [inst|]; [|intros []].
  destruct (Nat.eqb (eventCount inst) 0); [intros []|].
  intros H. apply in_app_or in H as [H|H].
  - destruct (handlers inst pointerout); [|destruct H]. destruct H as [<-|[]]. eauto.
  - destruct (handlers inst pointerleave); [|destruct H]. destruct H as [<-|[]]. eauto.
Qed.

Lemma filter_none {A} (f : A -> bool) l :
  (forall x, In x l -> f x = false) -> List.filter f l = [].
Proof.
  induction l as [|x l IH]; intros H; [reflexivity|].
  simpl. rewrite (H x) by now left. apply IH. intros y Hy. apply H. now right.
Qed.

Lemma quiet_nil : quiet [].
Proof. intros key e inst []. Qed.

(** When the handlers are quiet, [cancelPointer([])] drops every entry in
    order and changes nothing else. *)
Lemma cancelPointer_none rootState w :
  hovered_wf (hovered (internals w (root rootState))) ->
  quiet (hovered (internals w (root rootState))) ->
  hovered (internals (cancelPointer rootState [] w) (root rootState)) = []
  /\ effects (cancelPointer rootState [] w)
     = effects w ++ flat_map (fun kv => leaveCalls [] (snd kv))
                             (hovered (internals w (root rootState)))
  /\ frameCallbacks (cancelPointer rootState [] w) = frameCallbacks w
  /\ forall n, internals (cancelPointer rootState [] w) n
               = if Nat.eqb n (root rootState) then with_hovered [] (internals w n)
                 else internals w n.
Proof.
  intros Hwf Hq. destruct (cancelPointer_spec rootState [] w Hwf Hq) as [Hh He].
  destruct (cancelPointer_frame rootState [] w Hwf Hq) as (Hf & _ & Hi).
  assert (Hh' : hovered (internals (cancelPointer rootState [] w) (root rootState)) = [])
    by (rewrite Hh; now apply filter_none).
  split; [exact Hh'|]. split; [|split; [exact Hf|]].
  - rewrite He. f_equal. f_equal. now apply filter_all.
  - intros n. rewrite Hi. now rewrite Hh'.
Qed.

Lemma releaseLostCapture_quiet rootState id w :
  hovered_wf (hovered (internals w (root rootState))) ->
  quiet (hovered (internals w (root rootState))) ->
  let w' := releaseLostCapture rootState id w in
  hovered_wf (hovered (internals w' (root rootState)))
  /\ quiet (hovered (internals w' (root rootState)))
  /\ frameCallbacks w' = frameCallbacks w
  /\ (forall id',
        Map_get Z.eqb id' (capturedMap (internals w' (root rootState)))
        = if Z.eqb id' id then None
          else Map_get Z.eqb id' (capturedMap (internals w (root rootState))))
  /\ (forall n, n <> root rootState -> internals w' n = internals w n)
  /\ extends_with (fun e => exists d, e = Call pointerout d \/ e = Call pointerleave d) w w'.
Proof.
  intros Hwf Hq w'. subst w'. unfold releaseLostCapture.
  destruct (Map_has Z.eqb id _) eqn:Hhas.
  - set (w1 := update_internal (root rootState) _ w).
    assert (Hhov : hovered (internals w1 (root rootState))
                   = hovered (internals w (root rootState)))
      by (subst w1; simpl; now rewrite Nat.eqb_refl).
    assert (Hwf1 : hovered_wf (hovered (internals w1 (root rootState)))) by now rewrite Hhov.
    assert (Hq1 : quiet (hovered (internals w1 (root rootState)))) by now rewrite Hhov.
    destruct (cancelPointer_none rootState w1 Hwf1 Hq1) as (Hh & He & Hf & Hi).
    rewrite Hh. split; [split; [constructor|constructor]|]. split; [apply quiet_nil|].
    split; [exact Hf|]. split; [|split].
    + intros id'. rewrite Hi, Nat.eqb_refl. subst w1. simpl. rewrite Nat.eqb_refl. simpl.
      apply Zmap_get_delete.
    + intros n Hn. rewrite Hi. destruct (Nat.eqb_spec n (root rootState)) as [E|_];
        [contradiction|]. subst w1. simpl.
      now destruct (Nat.eqb_spec n (root rootState)).
    + exists (flat_map (fun kv => leaveCalls [] (snd kv))
                (hovered (internals w1 (root rootState)))).
      split; [exact He|]. apply List.Forall_forall. intros e Hin.
      apply in_flat_map in Hin as [kv [_ Hin]]. exact (leaveCalls_names _ _ _ Hin).
  - split; [exact Hwf|]. split; [exact Hq|]. split; [reflexivity|]. split; [|split].
    + intros id'. destruct (Z.eqb_spec id' id) as [->|_]; [|reflexivity].
      unfold Map_has in Hhas. now destruct (Map_get Z.eqb id _).
    + reflexivity.
    + apply extends_with_refl.
Qed.

(** X9 (events.ts, handlePointer: the requestAnimationFrame callback of
    lostpointercapture): when the next frame has run, no callback is
    pending, and nothing was called but pointerout and pointerleave
    handlers and what these asked of the platform element.  When no hovered
    object's pointerout or pointerleave handler makes a call on its event,
    every pointer id whose loss was queued is out of the captured map of
    the root, the captures of the other pointer ids and the other stores
    are as before, and nothing at all was asked of the platform element:
    it is not asked to release a capture it has already lost. *)
Theorem animationFrame_releases_queued rootState w :
  frameCallbacks (animationFrame rootState w) = []
  /\ (exists es,
        effects (animationFrame rootState w) = effects w ++ es
        /\ forall e, In e es ->
             (exists d, e = Call pointerout d \/ e = Call pointerleave d)
             \/ (exists t id, e = ElementSetPointerCapture t id
                              \/ e = ElementReleasePointerCapture t id))
  /\ (hovered_wf (hovered (internals w (root rootState))) ->
      quiet (hovered (internals w (root rootState))) ->
      (forall id,
          Map_get Z.eqb id
            (capturedMap (internals (animationFrame rootState w) (root rootState)))
          = if existsb (Z.eqb id) (frameCallbacks w) then None
            else Map_get Z.eqb id (capturedMap (internals w (root rootState))))
      /\ (forall n, n <> root rootState ->
                    internals (animationFrame rootState w) n = internals w n)
      /\ exists es,
           effects (animationFrame rootState w) = effects w ++ es
           /\ forall e, In e es -> exists d, e = Call pointerout d \/ e = Call pointerleave d).
Proof.
  unfold animationFrame.
  set (w0 := {| internals := internals w; effects := effects w;
                frameCallbacks := []; nextEvent := nextEvent w |}).
  set (Q := fun e => (exists d, e = Call pointerout d \/ e = Call pointerleave d)
                     \/ (exists t id, e = ElementSetPointerCapture t id
                                      \/ e = ElementReleasePointerCapture t id)).
  set (Q' := fun e => exists d, e = Call pointerout d \/ e = Call pointerleave d).
  assert (Hgen : forall ids w1,
             let w2 := fold_left (fun w id => releaseLostCapture rootState id w) ids w1 in
             frameCallbacks w2 = frameCallbacks w1 /\ extends_with Q w1 w2).
  { induction ids as [|id ids IH]; intros w1; simpl.
    - split; [reflexivity|apply extends_with_refl].
    - destruct (IH (releaseLostCapture rootState id w1)) as (Hf & He).
      assert (H1 : frameCallbacks (releaseLostCapture rootState id w1) = frameCallbacks w1
                   /\ extends_with Q w1 (releaseLostCapture rootState id w1)).
      { unfold releaseLostCapture.
        destruct (Map_has Z.eqb id _); [|split; [reflexivity|apply extends_with_refl]].
        split; [now rewrite cancelPointer_frameCallbacks|].
        refine (extends_with_trans _ _ _ _ _ (cancelPointer_leaves rootState [] _)).
        now apply extends_with_silent. }
      split; [now rewrite Hf, (proj1 H1)|].
      exact (extends_with_trans _ _ _ _ (proj2 H1) He). }
  assert (Hquiet : forall ids w1,
             hovered_wf (hovered (internals w1 (root rootState))) ->
             quiet (hovered (internals w1 (root rootState))) ->
             let w2 := fold_left (fun w id => releaseLostCapture rootState id w) ids w1 in
             (forall id,
                 Map_get Z.eqb id (capturedMap (internals w2 (root rootState)))
                 = if existsb (Z.eqb id) ids then None
                   else Map_get Z.eqb id (capturedMap (internals w1 (root rootState))))
             /\ (forall n, n <> root rootState -> internals w2 n = internals w1 n)
             /\ extends_with Q' w1 w2).
  { induction ids as [|id ids IH]; intros w1 Hwf Hq; simpl.
    - repeat split; try reflexivity. apply extends_with_refl.
    - destruct (releaseLostCapture_quiet rootState id w1 Hwf Hq)
        as (Hwf1 & Hq1 & _ & Hg1 & Ho1 & He1).
      destruct (IH (releaseLostCapture rootState id w1) Hwf1 Hq1) as (Hg & Ho & He).
      split; [|split].
      + intros id'. rewrite Hg, Hg1.
        destruct (Z.eqb id' id); simpl; [|reflexivity].
        now destruct (existsb (Z.eqb id') ids).
      + intros n Hn. rewrite Ho by exact Hn. now apply Ho1.
      + exact (extends_with_trans _ _ _ _ He1 He). }
  destruct (Hgen (frameCallbacks w) w0) as (Hf & [es [He Hq]]).
  split; [exact Hf|]. split.
  - exists es. split; [exact He|]. now rewrite List.Forall_forall in Hq.
  - intros Hwf Hqt. destruct (Hquiet (frameCallbacks w) w0 Hwf Hqt) as (Hg & Ho & [es' [He' Hq']]).
    split; [exact Hg|]. split; [exact Ho|].
    exists es'. split; [exact He'|]. now rewrite List.Forall_forall in Hq'.
Qed.

(** ** Leaving the canvas *)

Lemma entry_kept_In rootState key e w :
  hovered_wf (hovered (internals w (root rootState))) ->
  In (key, e) (hovered (internals w (root rootState))) ->
  entry_kept (root rootState) e w.
Proof.
  intros Hwf Hin. split; [exact Hwf|]. exists e. split; [|apply marked_refl].
  assert (Hkey : key = makeId (ev_hit e)).
  { destruct Hwf as [_ Hk]. unfold keyed in Hk. rewrite List.Forall_forall in Hk.
    exact (Hk _ Hin). }
  rewrite <- Hkey. now apply hovered_wf_In_get.
Qed.

(** X10 (events.ts, handlePointer: pointerleave and pointercancel;
    cancelPointer): a pointerleave or pointercancel empties the hovered map
    of the root, whatever the handlers it calls do, and keeps the pending
    frame callbacks.  Nothing is called but pointerout and pointerleave
    handlers and what these ask of the platform element, and every hovered
    entry whose event object still counts handlers gets the call of its
    pointerout handler and later the call of its pointerleave handler,
    once each.  When no hovered object's pointerout or pointerleave
    handler makes a call on its event, the calls are those of the entries
    in the order they were hovered, each with an empty intersections list,
    and nothing else in any store changes. *)
Theorem pointerleave_clears_hover rootState intersectObject events_filter name event w :
  name = pointerleave \/ name = pointercancel ->
  hovered_wf (hovered (internals w (root rootState))) ->
  let w' := handlePointer rootState intersectObject events_filter name event w in
  hovered (internals w' (root rootState)) = []
  /\ frameCallbacks w' = frameCallbacks w
  /\ (exists es,
        effects w' = effects w ++ es
        /\ forall e, In e es ->
             (exists d, e = Call pointerout d \/ e = Call pointerleave d)
             \/ (exists t id, e = ElementSetPointerCapture t id
                              \/ e = ElementReleasePointerCapture t id))
  /\ (forall key e,
        In (key, e) (hovered (internals w (root rootState))) ->
        exists pre mid post ints e',
          (e' = e \/ e' = with_stopped true e)
          /\ effects w'
             = effects w ++ pre ++ handlerCall pointerout e (with_intersections ints e')
                         ++ mid ++ handlerCall pointerleave e (with_intersections ints e')
                         ++ post
          /\ (forall n d, In (Call n d) (pre ++ mid ++ post) -> ev_hit d <> ev_hit e)
          /\ (quietOut e -> mid = []))
  /\ (quiet (hovered (internals w (root rootState))) ->
      effects w'
      = effects w ++ flat_map (fun kv => leaveCalls [] (snd kv))
                              (hovered (internals w (root rootState)))
      /\ forall n, internals w' n
                   = if Nat.eqb n (root rootState) then with_hovered [] (internals w n)
                     else internals w n).
Proof.
  intros Hname Hwf w'.
  assert (Hw' : w' = cancelPointer rootState [] w)
    by (subst w'; now destruct Hname as [->| ->]).
  rewrite Hw'. split; [|split; [|split; [|split]]].
  - apply cancelPointer_none_clears. exact (proj2 Hwf).
  - apply cancelPointer_frameCallbacks.
  - destruct (cancelPointer_leaves rootState [] w) as [es [He Hq]].
    exists es. split; [exact He|]. now rewrite List.Forall_forall in Hq.
  - intros key e Hin.
    destruct (cancelPointerD_drops rootState e [] (idle w)
                (entry_kept_In rootState key e w Hwf Hin) eq_refl)
      as (es & He & _ & (pre & mid & post & ints & e' & Hm & Hes & Hoff & Hq)).
    exists pre, mid, post, ints, e'. split; [exact Hm|]. split; [|split; [|exact Hq]].
    + unfold cancelPointer. rewrite He, Hes. reflexivity.
    + intros n d Hx. rewrite List.Forall_forall in Hoff. exact (Hoff _ Hx).
  - intros Hq. destruct (cancelPointer_none rootState w Hwf Hq) as (_ & He & _ & Hi).
    split; [exact He|exact Hi].
Qed.

Lemma pointerleave_clears_hover_witness :
  (pointerleave = pointerleave \/ pointerleave = pointercancel) /\
  hovered_wf (hovered (internals ex_hover_world (root (ex_layer 0)))) /\
  hovered (internals (handlePointer (ex_layer 0) ex_cast_P None pointerleave ex_move
                        ex_hover_world) (root (ex_layer 0))) = [] /\
  called (effects (handlePointer (ex_layer 0) ex_cast_P None pointerleave ex_move
                     ex_hover_world))
  = [(pointerout, "H"%string); (pointerleave, "H"%string)].
Proof.
  assert (H0 : hovered_wf (hovered (internals ex_hover_world (root (ex_layer 0))))).
  { split.
    - simpl. constructor; [intros []|constructor].
    - repeat constructor. }
  split; [now left|]. split; [exact H0|].
  destruct (pointerleave_clears_hover (ex_layer 0) ex_cast_P None pointerleave ex_move
              ex_hover_world (or_introl eq_refl) H0) as (Hh & _).
  split; [exact Hh|]. vm_compute. reflexivity.
Defined.

(** X11 (events.ts, handleEvent and cancelPointer): a pointermove under
    which nothing is hit and nothing is captured ends the hover of every
    object exactly as a pointerleave does: the same handlers are called
    with the same events in the same order and the hovered map is empty;
    unlike a pointerleave it is remembered as the last event. *)
Theorem pointermove_off_everything rootState intersectObject events_filter event w :
  hovered_wf (hovered (internals w (root rootState))) ->
  intersect rootState intersectObject events_filter event (Some filterPointerEvents) w = [] ->
  let w' := handlePointer rootState intersectObject events_filter pointermove event w in
  let leave := handlePointer rootState intersectObject events_filter pointerleave event w in
  effects w' = effects leave
  /\ hovered (internals w' (root rootState)) = []
  /\ hovered (internals leave (root rootState)) = []
  /\ lastEvent (internals w' (root rootState)) = Some event
  /\ lastEvent (internals leave (root rootState)) = lastEvent (internals w (root rootState)).
Proof.
  intros Hwf Hempty w' leave.
  set (w0 := update_internal (root rootState) (with_lastEvent (Some event)) w).
  assert (Hw' : w' = cancelPointer rootState [] w0).
  { subst w'. rewrite handlePointer_pointermove. cbv zeta. rewrite Hempty. reflexivity. }
  assert (Hhov0 : hovered (internals w0 (root rootState))
                  = hovered (internals w (root rootState))).
  { subst w0. simpl. now rewrite Nat.eqb_refl. }
  assert (Hsame : same_but_lastEvent w0 w).
  { subst w0. repeat split; try reflexivity. intros n. simpl.
    destruct (Nat.eqb n (root rootState)); [|reflexivity]. now destruct (internals w n). }
  change leave with (cancelPointer rootState [] w).
  rewrite Hw'. repeat match goal with |- _ /\ _ => split end.
  - exact (proj1 (cancelPointer_sim rootState [] w0 w Hsame)).
  - apply cancelPointer_none_clears. rewrite Hhov0. exact (proj2 Hwf).
  - apply cancelPointer_none_clears. exact (proj2 Hwf).
  - rewrite cancelPointer_lastEvent. subst w0. simpl. now rewrite Nat.eqb_refl.
  - apply cancelPointer_lastEvent.
Qed.

Lemma pointermove_off_everything_witness :
  hovered_wf (hovered (internals ex_hover_world (root (ex_layer 0)))) /\
  intersect (ex_layer 0) ex_cast_nothing None ex_move (Some filterPointerEvents)
    ex_hover_world = [] /\
  called (effects (handlePointer (ex_layer 0) ex_cast_nothing None pointermove ex_move
                     ex_hover_world))
  = [(pointerout, "H"%string); (pointerleave, "H"%string)].
Proof.
  assert (H0 : hovered_wf (hovered (internals ex_hover_world (root (ex_layer 0))))).
  { split.
    - simpl. constructor; [intros []|constructor].
    - repeat constructor. }
  split; [exact H0|]. split; [reflexivity|].
  rewrite (proj1 (pointermove_off_everything (ex_layer 0) ex_cast_nothing None ex_move
                    ex_hover_world H0 eq_refl)).
  vm_compute. reflexivity.
Defined.

(** ** Removing an object is silent *)

Lemma releaseAll_only_releases obj todo cm e :
  In e (snd (releaseAll obj todo cm)) ->
  exists t id, e = ElementReleasePointerCapture t id.
Proof.
  revert cm. induction todo as [|pid todo IH]; simpl; intros cm Hin; [destruct Hin|].
  destruct (Map_get Z.eqb pid cm) as [captures|]; [|exact (IH _ Hin)].
  pose proof (release_effects cm obj captures pid e) as Hrel.
  destruct (releaseInternalPointerCapture cm obj captures pid) as [cm1 es1].
  specialize (IH cm1). destruct (releaseAll obj todo cm1) as [cm2 es2].
  simpl in *. apply in_app_or in Hin as [Hin|Hin].
  - apply Hrel in Hin as (captureData & _ & _ & ->). eauto.
  - now apply IH.
Qed.

(** X12 (events.ts, removeInteractivity): removing an object calls no
    handler at all: an object that is hovered when it is removed gets no
    pointerout or pointerleave, and nothing is scheduled.  All that leaves
    the event manager are releasePointerCapture calls on the platform
    targets of the pointers the object alone had captured. *)
Theorem removeInteractivity_calls_no_handler s obj w :
  frameCallbacks (removeInteractivity s obj w) = frameCallbacks w
  /\ nextEvent (removeInteractivity s obj w) = nextEvent w
  /\ exists es,
       effects (removeInteractivity s obj w) = effects w ++ es
       /\ forall e, In e es ->
            exists t id, e = ElementReleasePointerCapture t id
                         /\ sole_capturer obj id t (capturedMap (internals w (internal s))).
Proof.
  split; [|split].
  - unfold removeInteractivity. now destruct (releaseAll obj _ _).
  - unfold removeInteractivity. now destruct (releaseAll obj _ _).
  - destruct (removeInteractivity_captures s obj w) as [_ He].
    eexists. split; [exact He|]. simpl. intros e Hin.
    destruct (releaseAll_only_releases _ _ _ _ Hin) as (t & id & ->).
    exists t, id. split; [reflexivity|].
    now apply releaseAll_effects in Hin.
Qed.

(** ** Layers that do not take part *)

Lemma intersect_nothing_cast rootState intersectObject events_filter event w :
  (forall o, In o (interaction (internals w (root rootState))) ->
             handleRaycast intersectObject event o = []) ->
  (forall f, events_filter = Some f -> f [] = []) ->
  intersect rootState intersectObject events_filter event None w
  = match pointerId event with
    | Some id =>
        match Map_get Z.eqb id (capturedMap (internals w (root rootState))) with
        | Some captures => List.map intersection (Map_values captures)
        | None => []
        end
    | None => []
    end.
Proof.
  intros H Hf. unfold intersect, collectHits, sortedHits.
  rewrite (rawHits_nil _ _ _ H). cbn [Array_sort filterDuplicates].
  assert (Hhits : match events_filter with Some f => f [] | None => [] end
                  = (@nil Intersection)).
  { destruct events_filter as [f|]; [now apply Hf|reflexivity]. }
  rewrite Hhits. simpl.
  destruct (pointerId event) as [id|]; [|reflexivity].
  destruct (Map_get Z.eqb id _) as [captures|]; [|reflexivity].
  now apply filter_all.
Qed.

(** X13 (events.ts, intersect: handleRaycast; handleEvent): objects whose
    layer has its events disabled or has no raycaster camera are not
    raycast.  When that holds for every interactive object, the filter of
    the root, if it has one, gives no hit when it is given none, and the
    pointer is not captured, a pointerdown, pointerup or wheel event calls
    nothing and leaves the hover and capture state alone, and a pointerdown
    records an empty set of initial hits. *)
Theorem disabled_layers_receive_nothing rootState intersectObject events_filter name event w :
  (forall o ls, In o (interaction (internals w (root rootState))) ->
                getLocalState o = Some ls ->
                events_enabled (store ls) = false \/ raycaster_camera (store ls) = false) ->
  (forall f, events_filter = Some f -> f [] = []) ->
  (forall id, pointerId event = Some id ->
              Map_has Z.eqb id (capturedMap (internals w (root rootState))) = false) ->
  In name [pointerdown; pointerup; wheel] ->
  let w' := handlePointer rootState intersectObject events_filter name event w in
  (forall o, In o (interaction (internals w (root rootState))) ->
             handleRaycast intersectObject event o = [])
  /\ intersect rootState intersectObject events_filter event None w = []
  /\ effects w' = effects w
  /\ hovered (internals w' (root rootState)) = hovered (internals w (root rootState))
  /\ capturedMap (internals w' (root rootState)) = capturedMap (internals w (root rootState))
  /\ lastEvent (internals w' (root rootState)) = Some event
  /\ (name = pointerdown -> initialHits (internals w' (root rootState)) = []).
Proof.
  intros Hoff Hfilter Hfree Hname w'.
  assert (Hray : forall o, In o (interaction (internals w (root rootState))) ->
                           handleRaycast intersectObject event o = []).
  { intros o Ho. unfold handleRaycast.
    destruct (getLocalState o) as [ls|] eqn:Hls; [|reflexivity].
    destruct (Hoff o ls Ho Hls) as [-> | ->]; [reflexivity|].
    now destruct (negb (events_enabled (store ls))). }
  split; [exact Hray|].
  assert (Hints : intersect rootState intersectObject events_filter event None w = []).
  { rewrite intersect_nothing_cast by assumption.
    destruct (pointerId event) as [id|] eqn:Hid; [|reflexivity].
    specialize (Hfree id eq_refl). unfold Map_has in Hfree.
    now destruct (Map_get Z.eqb id _). }
  split; [exact Hints|].
  subst w'.
  destruct Hname as [<-|[<-|[<-|[]]]];
    unfold handlePointer, handleEvent, handleIntersects; cbv zeta;
    cbn [isPointerMove isClickEvent andb];
    rewrite intersect_lastEvent, Hints; simpl; rewrite ?Nat.eqb_refl; simpl;
    repeat split; intros; try discriminate; reflexivity.
Qed.

Lemma disabled_layers_receive_nothing_witness :
  intersect (ex_layer 0) ex_cast_D (Some (fun hits => List.rev hits)) ex_event None
    ex_disabled_world = []
  /\ effects (handlePointer (ex_layer 0) ex_cast_D (Some (fun hits => List.rev hits))
                pointerdown ex_event ex_disabled_world)
     = []
  /\ initialHits (internals (handlePointer (ex_layer 0) ex_cast_D
                               (Some (fun hits => List.rev hits)) pointerdown ex_event
                               ex_disabled_world) 0%nat) = [].
Proof.
  assert (H : forall o ls, In o (interaction (internals ex_disabled_world (root (ex_layer 0)))) ->
                getLocalState o = Some ls ->
                events_enabled (store ls) = false \/ raycaster_camera (store ls) = false).
  { intros o ls [<-|[]] Hls. simpl in Hls. injection Hls as <-. now left. }
  assert (Hf : forall f, Some (fun hits : list Intersection => List.rev hits) = Some f ->
                         f [] = []).
  { intros f E. injection E as <-. reflexivity. }
  destruct (disabled_layers_receive_nothing (ex_layer 0) ex_cast_D
              (Some (fun hits => List.rev hits)) pointerdown ex_event
              ex_disabled_world H Hf (fun id _ => eq_refl) (or_introl eq_refl))
    as (_ & Hi & He & _ & _ & _ & Hh).
  split; [exact Hi|]. split; [exact He|]. exact (Hh eq_refl).
Defined.

(** ** Ids without an event (make.ts) and the rays registered under them *)

Lemma makeId_fresh_grows generateUUID (idCache : gmap string bool) uuid cache k :
  makeId_fresh generateUUID idCache = Some (uuid, cache) ->
  idCache !! k = Some true -> cache !! k = Some true.
Proof.
  intros H Hk. apply makeId_fresh_spec in H as (_ & Hnew & ->).
  destruct (decide (uuid = k)) as [->|Hne].
  - now rewrite lookup_insert_eq.
  - now rewrite lookup_insert_ne.
Qed.

(** X14 (make.ts, makeId without an event): however the uuid generator
    repeats itself, the ids returned by successive calls are pairwise
    distinct, none of them was in the cache before, all of them are in it
    afterwards, and the cache never forgets an id. *)
Theorem makeId_never_repeats generators (idCache : gmap string bool) ids cache :
  makeId_calls generators idCache = Some (ids, cache) ->
  List.NoDup ids
  /\ (forall u, In u ids -> idCache !! u <> Some true /\ cache !! u = Some true)
  /\ (forall k, idCache !! k = Some true -> cache !! k = Some true).
Proof.
  revert idCache ids cache.
  induction generators as [|g gs IH]; simpl; intros idCache ids cache H.
  - injection H as <- <-. split; [constructor|]. split; [intros u []|auto].
  - destruct (makeId_fresh g idCache) as [[u c1]|] eqn:Hu; [|discriminate].
    destruct (makeId_calls gs c1) as [[us c2]|] eqn:Hus; [|discriminate].
    injection H as <- <-.
    destruct (IH _ _ _ Hus) as (Hnd & Hin & Hgrow).
    pose proof (makeId_fresh_spec _ _ _ _ Hu) as (_ & Hnew & Hc1).
    assert (Hu1 : c1 !! u = Some true) by (rewrite Hc1; apply lookup_insert_eq).
    repeat split.
    + constructor; [|exact Hnd]. intros Hmem. now destruct (Hin u Hmem).
    + destruct H as [<-|Hmem]; [exact Hnew|].
      intros Hk. apply (proj1 (Hin _ Hmem)). exact (makeId_fresh_grows _ _ _ _ _ Hu Hk).
    + destruct H as [<-|Hmem]; [now apply Hgrow|now apply Hin].
    + intros k Hk. apply Hgrow. exact (makeId_fresh_grows _ _ _ _ _ Hu Hk).
Qed.

Lemma makeId_never_repeats_witness :
  makeId_calls [ex_uuids; ex_uuids] (idCache ex_physics)
  = Some (["r2"; "r3"]%string,
          <["r3"%string := true]> (<["r2"%string := true]> (idCache ex_physics)))
  /\ List.NoDup ["r2"; "r3"]%string.
Proof.
  assert (H : makeId_calls [ex_uuids; ex_uuids] (idCache ex_physics)
              = Some (["r2"; "r3"]%string,
                      <["r3"%string := true]> (<["r2"%string := true]> (idCache ex_physics))))
    by (vm_compute; reflexivity).
  split; [exact H|].
  exact (proj1 (makeId_never_repeats _ _ _ _ H)).
Defined.

(** X15 (cannon ray file, injectRay): two rays registered one after the
    other get different ids, so both callbacks stay registered side by
    side, and the cleanup of the first removes only the first: the second
    callback is still there and the worker was told to remove the first
    ray only.  When the effect of a ray runs again after its cleanup, the
    callback is back under the same id. *)
Theorem injectRay_two_rays {RayOptions Callback : Type}
    (mode1 mode2 : RayMode) (options1 options2 : RayOptions)
    (callback1 callback2 : Callback) (generateUUID1 generateUUID2 : list string)
    (p p1 p2 : @Physics RayOptions Callback) (uuid1 uuid2 : string) :
  injectRay mode1 options1 callback1 generateUUID1 p = Some (uuid1, p1) ->
  injectRay mode2 options2 callback2 generateUUID2 p1 = Some (uuid2, p2) ->
  uuid1 <> uuid2
  /\ events p2 !! uuid1 = Some callback1
  /\ events p2 !! uuid2 = Some callback2
  /\ events (rayCleanup uuid1 p2) !! uuid1 = None
  /\ events (rayCleanup uuid1 p2) !! uuid2 = Some callback2
  /\ worker (rayCleanup uuid1 p2)
     = worker p ++ [addRay options1 mode1 uuid1; addRay options2 mode2 uuid2; removeRay uuid1]
  /\ events (rayEffect mode1 options1 callback1 uuid1 (rayCleanup uuid1 p1)) = events p1.
Proof.
  unfold injectRay. intros H1 H2.
  destruct (makeId_fresh generateUUID1 (idCache p)) as [[u1 c1]|] eqn:E1; [|discriminate].
  injection H1 as -> <-. simpl in H2.
  destruct (makeId_fresh generateUUID2 c1) as [[u2 c2]|] eqn:E2; [|discriminate].
  injection H2 as -> <-. simpl.
  pose proof (makeId_fresh_spec _ _ _ _ E1) as (_ & _ & Hc1).
  pose proof (makeId_fresh_spec _ _ _ _ E2) as (_ & Hnew2 & _).
  assert (Hne : uuid1 <> uuid2).
  { intros <-. apply Hnew2. rewrite Hc1. apply lookup_insert_eq. }
  repeat match goal with |- _ /\ _ => split end.
  - exact Hne.
  - rewrite lookup_insert_ne by (intros E; now apply Hne). apply lookup_insert_eq.
  - apply lookup_insert_eq.
  - apply lookup_delete_eq.
  - rewrite lookup_delete_ne by exact Hne. apply lookup_insert_eq.
  - now rewrite <- !app_assoc.
  - apply map_eq. intros k. destruct (decide (uuid1 = k)) as [->|Hk].
    + now rewrite !lookup_insert_eq.
    + now rewrite lookup_insert_ne, lookup_delete_ne by exact Hk.
Qed.

Lemma injectRay_two_rays_witness :
  exists p1 p2 : @Physics unit nat,
    injectRay Closest tt 2%nat ex_uuids ex_physics = Some ("r2"%string, p1)
    /\ injectRay All tt 3%nat ex_uuids p1 = Some ("r3"%string, p2)
    /\ events (rayCleanup "r2"%string p2) !! "r3"%string = Some 3%nat.
Proof.
  eexists _, _.
  assert (H1 : injectRay Closest tt 2%nat ex_uuids ex_physics
               = Some ("r2"%string,
                       rayEffect Closest tt 2%nat "r2"%string
                         {| events := events ex_physics; worker := worker ex_physics;
                            idCache := <["r2"%string := true]> (idCache ex_physics) |}))
    by (vm_compute; reflexivity).
  assert (H2 : injectRay All tt 3%nat ex_uuids
                 (rayEffect Closest tt 2%nat "r2"%string
                    {| events := events ex_physics; worker := worker ex_physics;
                       idCache := <["r2"%string := true]> (idCache ex_physics) |})
               = Some ("r3"%string,
                       rayEffect All tt 3%nat "r3"%string
                         {| events := <["r2"%string := 2%nat]> (events ex_physics);
                            worker := worker ex_physics ++ [addRay tt Closest "r2"%string];
                            idCache := <["r3"%string := true]>
                                         (<["r2"%string := true]> (idCache ex_physics)) |}))
    by (vm_compute; reflexivity).
  split; [exact H1|]. split; [exact H2|].
  exact (proj1 (proj2 (proj2 (proj2 (proj2
           (injectRay_two_rays Closest All tt tt 2%nat 3%nat ex_uuids ex_uuids
              ex_physics _ _ "r2"%string "r3"%string H1 H2)))))).
Defined.

(** ** The device pixel ratio (make.ts) *)

(** X16 (make.ts, makeDpr): for a range [min, max] the result never
    exceeds max; when min is not above max it is not below min either, and
    it is the device pixel ratio itself whenever that lies in the range (2
    when the window does not define one, 1 without a window).  A plain
    number is returned as it is, whatever the window says. *)
Theorem makeDpr_clamps {number : Type} (leb : number -> number -> bool) (one two : number)
    (min max : number) (window : option (option number)) :
  (forall a b, leb a b = true \/ leb b a = true) ->
  (forall a b c, leb a b = true -> leb b c = true -> leb a c = true) ->
  let target := dprTarget one two window in
  let r := makeDpr leb one two (DprRange min max) window in
  leb r max = true
  /\ (leb min max = true -> leb min r = true)
  /\ (leb min target = true -> leb target max = true -> r = target)
  /\ (forall d, makeDpr leb one two (DprNumber d) window = d).
Proof.
  intros Htotal Htrans target r.
  assert (Hrefl : forall a, leb a a = true) by (intros a; now destruct (Htotal a a)).
  subst r. unfold makeDpr, Math_min, Math_max. fold target.
  repeat match goal with |- _ /\ _ => split end.
  - destruct (leb min target) eqn:E1.
    + destruct (leb target max) eqn:E2; [exact E2|apply Hrefl].
    + destruct (leb min max) eqn:E2; [exact E2|apply Hrefl].
  - intros Hmm. destruct (leb min target) eqn:E1.
    + destruct (leb target max); [exact E1|exact Hmm].
    + rewrite Hmm. apply Hrefl.
  - intros H1 H2. now rewrite H1, H2.
  - reflexivity.
Qed.

Lemma makeDpr_clamps_witness :
  (makeDpr Z.leb 1 2 (DprRange 1 2) (Some (Some 3)) <=? 2) = true
  /\ makeDpr Z.leb 1 2 (DprRange 1 2) (Some None) = 2
  /\ makeDpr Z.leb 1 2 (DprRange 1 2) None = 1.
Proof.
  assert (Htotal : forall a b, (a <=? b) = true \/ (b <=? a) = true) by (intros a b; lia).
  assert (Htrans : forall a b c, (a <=? b) = true -> (b <=? c) = true -> (a <=? c) = true)
    by (intros a b c; lia).
  split; [|split].
  - exact (proj1 (makeDpr_clamps Z.leb 1 2 1 2 (Some (Some 3)) Htotal Htrans)).
  - exact (proj1 (proj2 (proj2 (makeDpr_clamps Z.leb 1 2 1 2 (Some None) Htotal Htrans)))
             eq_refl eq_refl).
  - exact (proj1 (proj2 (proj2 (makeDpr_clamps Z.leb 1 2 1 2 None Htotal Htrans)))
             eq_refl eq_refl).
Defined.


(** ** stopPropagation and the hover of the objects behind *)

Lemma quiet_mark id m : quiet m -> quiet (mark_stopped id m).
Proof.
  intros H key v inst Hin. unfold mark_stopped in Hin.
  apply in_map_iff in Hin as [[k0 v0] [E Hin]]. simpl in E.
  destruct (Nat.eqb (ev_id v0) id); injection E as <- <-; exact (H k0 v0 inst Hin).
Qed.

(** X17 (events.ts, handleIntersects: stopPropagation): when an accepted
    stopPropagation comes from an object of the root store that is itself
    hovered, every hovered entry left matches the hit in hand or a hit
    before it, and every entry that matches neither gets the call of its
    pointerout handler and later the call of its pointerleave handler, once
    each; when the pointerout and pointerleave handlers of the entries
    dropped make no call on their event, these entries are dropped in
    order, each with the hit in hand and the hits before it as its
    intersections, and the entries that match are kept.  When the object is
    not hovered, no entry is dropped and nothing is called. *)
Theorem stopPropagation_flushes_hover rootState event higher d :
  capturedByOther rootState event d = false ->
  internal (stateOf rootState (ev_hit (raycastEvent d))) = root rootState ->
  hovered_wf (hovered (internals (world d) (root rootState))) ->
  let h := ev_hit (raycastEvent d) in
  let m := mark_stopped (ev_id (raycastEvent d))
             (hovered (internals (world d) (root rootState))) in
  let d' := stopPropagation rootState event higher d in
  (existsb (fun i => same (eventObject (ev_hit i)) (eventObject h)) (Map_values m) = true ->
   all_covered (higher ++ [h]) (hovered (internals (world d') (root rootState)))
   /\ (forall key e,
         In (key, e) m -> covered (higher ++ [h]) e = false ->
         exists pre mid post ints e',
           (e' = e \/ e' = with_stopped true e)
           /\ effects (world d')
              = effects (world d) ++ pre
                ++ handlerCall pointerout e (with_intersections ints e') ++ mid
                ++ handlerCall pointerleave e (with_intersections ints e') ++ post
           /\ (forall n x, In (Call n x) (pre ++ mid ++ post) -> ev_hit x <> ev_hit e)
           /\ (quietOut e -> mid = []))
   /\ (quiet (List.filter (fun kv => negb (covered (higher ++ [h]) (snd kv))) m) ->
       hovered (internals (world d') (root rootState))
       = List.filter (fun kv => covered (higher ++ [h]) (snd kv)) m
       /\ effects (world d')
          = effects (world d)
            ++ flat_map (fun kv => leaveCalls (higher ++ [h]) (snd kv))
                 (List.filter (fun kv => negb (covered (higher ++ [h]) (snd kv))) m)))
  /\ (existsb (fun i => same (eventObject (ev_hit i)) (eventObject h)) (Map_values m) = false ->
      hovered (internals (world d') (root rootState)) = m
      /\ effects (world d') = effects (world d)).
Proof.
  intros Hacc Hroot Hwf h m d'.
  set (d1 := {| world := update_internal (root rootState)
                           (fun i => with_hovered
                                       (mark_stopped (ev_id (raycastEvent d)) (hovered i)) i)
                           (world d);
                localState_stopped := true;
                raycastEvent := with_stopped true (raycastEvent d) |}).
  assert (Hm0 : hovered (internals
                  (update_internal (root rootState)
                     (fun i => with_hovered
                                 (mark_stopped (ev_id (raycastEvent d)) (hovered i)) i)
                     (world d)) (root rootState)) = m).
  { subst m. simpl. now rewrite Nat.eqb_refl. }
  assert (Hm : hovered (internals (world d1) (root rootState)) = m) by exact Hm0.
  assert (Hd' : d' = if negb (Nat.eqb (length m) 0)
                        && existsb (fun i => same (eventObject (ev_hit i)) (eventObject h))
                             (Map_values m)
                     then cancelPointerD rootState (higher ++ [h]) d1 else d1).
  { subst d' h. unfold stopPropagation, stopPropagationOf. cbv zeta. rewrite Hroot.
    rewrite !Nat.eqb_refl, Hm0. fold d1.
    unfold capturedByOther in Hacc. rewrite Hroot in Hacc.
    destruct (pointerId event) as [id|]; [|reflexivity].
    destruct (Map_get Z.eqb id _) as [captures|]; [|reflexivity].
    apply negb_false_iff in Hacc. now rewrite Hacc. }
  assert (Hwf1 : hovered_wf (hovered (internals (world d1) (root rootState)))).
  { rewrite Hm. now apply hovered_wf_mark. }
  split; intros Hself; rewrite Hd', Hself.
  - assert (Hlen : Nat.eqb (length m) 0 = false).
    { destruct m as [|kv m']; [discriminate Hself|reflexivity]. }
    rewrite Hlen. cbn [negb andb]. split; [|split].
    + now apply cancelPointerD_covered.
    + intros key e Hin Hcov.
      assert (Hk : entry_kept (root rootState) e (world d1)).
      { apply (entry_kept_In rootState key); [exact Hwf1|now rewrite Hm]. }
      assert (Hun : unhovered (higher ++ [h]) e = true).
      { rewrite unhovered_covered. unfold covered in Hcov. now rewrite Hcov. }
      destruct (cancelPointerD_drops rootState e (higher ++ [h]) d1 Hk Hun)
        as (es & He & _ & (pre & mid & post & ints & e' & Hme & Hes & Hoff & Hq)).
      exists pre, mid, post, ints, e'. split; [exact Hme|]. split; [|split; [|exact Hq]].
      * rewrite He, Hes. reflexivity.
      * intros n x Hx. rewrite List.Forall_forall in Hoff. exact (Hoff _ Hx).
    + intros Hq.
      assert (Hq1 : quiet (List.filter (fun kv => unhovered (higher ++ [h]) (snd kv))
                             (hovered (internals (world d1) (root rootState))))).
      { rewrite Hm. erewrite filter_ext; [exact Hq|].
        intros kv. now rewrite unhovered_covered. }
      destruct (cancelPointerD_quiet_dropped rootState (higher ++ [h]) d1 Hwf1 Hq1)
        as (Hh & He & _).
      rewrite Hh, He, Hm. split.
      * apply filter_ext. intros kv. rewrite unhovered_covered. unfold covered.
        now rewrite negb_involutive.
      * f_equal. f_equal. apply filter_ext. intros kv. now rewrite unhovered_covered.
  - rewrite andb_false_r. now split.
Qed.

Lemma stopPropagation_flushes_hover_witness :
  let d := newEvent 2 [] ex_both_hovered_world (ex_on ex_H 1 ex_H) [ex_on ex_H 1 ex_H] 0
             ex_move in
  capturedByOther (ex_layer 0) ex_move d = false /\
  hovered_wf (hovered (internals (world d) (root (ex_layer 0)))) /\
  Map_keys (hovered (internals (world (stopPropagation (ex_layer 0) ex_move [] d))
                       (root (ex_layer 0))))
  = [makeId (ex_on ex_H 1 ex_H)] /\
  called (effects (world (stopPropagation (ex_layer 0) ex_move [] d)))
  = [(pointerout, "P"%string); (pointerleave, "P"%string)].
Proof.
  intros d.
  assert (Hwf : hovered_wf (hovered (internals (world d) (root (ex_layer 0))))).
  { split.
    - simpl. constructor; [|constructor; [intros []|constructor]].
      intros [H|[]]. vm_compute in H. discriminate H.
    - repeat constructor. }
  split; [reflexivity|]. split; [exact Hwf|].
  destruct (proj1 (stopPropagation_flushes_hover (ex_layer 0) ex_move [] d
                     eq_refl eq_refl Hwf) eq_refl) as (_ & _ & Hq).
  destruct Hq as [Hh He].
  { intros key v inst Hin. vm_compute in Hin. destruct Hin as [E|[]].
    injection E as <- <-. intros Hls. vm_compute in Hls. injection Hls as <-.
    split; intros script Hs; vm_compute in Hs; now injection Hs as <-. }
  split.
  - rewrite Hh. vm_compute. reflexivity.
  - rewrite He. vm_compute. reflexivity.
Defined.

(** ** Missed clicks and the objects pressed *)

(** X18 (events.ts, handleEvent: onIntersect and pointerMissed): when a
    click, contextmenu or dblclick hits something, the root pointer-missed
    output does not fire, and a pointermissed handler is only called on
    interactive objects that were not among the event objects of the last
    pointerdown. *)
Theorem pointermissed_spares_initial_hits
    rootState intersectObject events_filter name event w :
  isClickEvent name = true ->
  intersect rootState intersectObject events_filter event None w <> [] ->
  exists es,
    effects (handlePointer rootState intersectObject events_filter name event w)
    = effects w ++ es
    /\ (forall e, ~ In (PointerMissedNext e) es)
    /\ (forall obj e, In (CallMissed obj e) es ->
          In obj (interaction (internals w (root rootState)))
          /\ includes (initialHits (internals w (root rootState))) obj = false).
Proof.
  intros Hclick Hhits. rewrite handlePointer_click by exact Hclick.
  set (Q := fun e => match e with
                     | CallMissed obj _ =>
                         In obj (interaction (internals w (root rootState)))
                         /\ includes (initialHits (internals w (root rootState))) obj = false
                     | PointerMissedNext _ => False
                     | _ => True
                     end).
  set (Inv := fun w' : World =>
                interaction (internals w' (root rootState))
                = interaction (internals w (root rootState))
                /\ initialHits (internals w' (root rootState))
                   = initialHits (internals w (root rootState))).
  set (w0 := update_internal (root rootState) (with_lastEvent (Some event)) w).
  set (hits := intersect rootState intersectObject events_filter event None w) in *.
  assert (Hev : handleEvent rootState intersectObject events_filter name event w
                = fst (dispatchLoop (onIntersect rootState name event) event
                         (calculateDistance rootState event w0) (nextEvent w0) hits [] hits
                         w0)).
  { assert (Hlen : Nat.eqb (length hits) 0 = false) by now destruct hits.
    destruct name; try discriminate Hclick;
      unfold handleEvent, handleIntersects; cbv zeta;
      cbn [isPointerMove isClickEvent andb];
      rewrite intersect_lastEvent; fold hits; now rewrite Hlen. }
  rewrite Hev.
  assert (H0 : Inv w0) by (subst Inv w0; simpl; now rewrite Nat.eqb_refl).
  destruct (dispatchLoop_inv rootState Inv Q) with
    (name := name) (OnHit := fun _ : NgtIntersection => True)
    (event := event) (dlt := calculateDistance rootState event w0) (pass := nextEvent w0)
    (ints := hits) (higher := @nil NgtIntersection) (todo := hits) (w := w0)
    as [_ [es [He Hq]]]; subst Inv Q; simpl; auto.
  - intros key w1 H. simpl. now rewrite Nat.eqb_refl.
  - intros id w1 H. simpl. now rewrite Nat.eqb_refl.
  - intros n h e id w1 H. simpl. now destruct (Nat.eqb _ n).
  - intros n h id w1 H. simpl. now destruct (Nat.eqb _ n).
  - intros e w1 H _ _. simpl. now rewrite Nat.eqb_refl.
  - intros _ w1 obj _ [Hi Hh] Hin. unfold notInitiallyHit in Hin.
    apply filter_In in Hin as [Hin Hnot]. rewrite Hi, Hh in *.
    split; [exact Hin|]. now apply negb_true_iff in Hnot.
  - exists es. split; [exact He|]. rewrite List.Forall_forall in Hq. split.
    + intros e Hin. exact (Hq _ Hin).
    + intros obj e Hin. exact (Hq _ Hin).
Qed.

Lemma pointermissed_spares_initial_hits_witness :
  isClickEvent click = true /\
  intersect (ex_layer 0) ex_cast_K None ex_click None ex_click_world <> [] /\
  exists es,
    effects (handlePointer (ex_layer 0) ex_cast_K None click ex_click ex_click_world)
    = effects ex_click_world ++ es
    /\ (forall e, ~ In (PointerMissedNext e) es)
    /\ (forall obj e, In (CallMissed obj e) es ->
          In obj (interaction (internals ex_click_world (root (ex_layer 0))))
          /\ includes (initialHits (internals ex_click_world (root (ex_layer 0)))) obj = false).
Proof.
  assert (H : intersect (ex_layer 0) ex_cast_K None ex_click None ex_click_world <> [])
    by (vm_compute; discriminate).
  split; [reflexivity|]. split; [exact H|].
  exact (pointermissed_spares_initial_hits (ex_layer 0) ex_cast_K None click ex_click
           ex_click_world eq_refl H).
Defined.

(** ** Entering an object *)

Lemma booked_mark h n m : booked h m -> booked h (mark_stopped n m).
Proof.
  intros (e & Hin & He). unfold mark_stopped.
  destruct (Nat.eqb (ev_id e) n) eqn:En.
  - exists (with_stopped true e). split; [|exact He].
    apply in_map_iff. exists (makeId h, e). simpl. now rewrite En.
  - exists e. split; [|exact He].
    apply in_map_iff. exists (makeId h, e). simpl. now rewrite En.
Qed.

Lemma quiet_delete_shrinks k m m' :
  shrinks m m' -> quiet (Map_delete String.eqb k m) -> quiet (Map_delete String.eqb k m').
Proof.
  intros Hs Hq key e inst Hin Hls.
  apply Map_delete_In in Hin as [Hin Hk]. simpl in Hk.
  destruct (shrinks_In _ _ _ _ Hs Hin) as [e0 [Hin0 Hm]].
  apply (Hq key e0 inst).
  - unfold Map_delete. apply filter_In. split; [exact Hin0|]. simpl. now rewrite Hk.
  - now rewrite <- (marked_hit _ _ Hm).
Qed.

Section Booked.
Variable rootState : NgtState.
Variable h : NgtIntersection.

(** The entry of the hit in hand outlives a [stopPropagation] of its
    event when the handlers of the other hovered objects are quiet. *)
Lemma stopPropagation_booked event higher d :
  ev_hit (raycastEvent d) = h ->
  hovered_wf (hovered (internals (world d) (root rootState))) ->
  booked h (hovered (internals (world d) (root rootState))) ->
  quiet (Map_delete String.eqb (makeId h) (hovered (internals (world d) (root rootState)))) ->
  let d' := stopPropagation rootState event higher d in
  ev_hit (raycastEvent d') = h
  /\ hovered_wf (hovered (internals (world d') (root rootState)))
  /\ booked h (hovered (internals (world d') (root rootState)))
  /\ quiet (Map_delete String.eqb (makeId h)
              (hovered (internals (world d') (root rootState)))).
Proof.
  intros Hh Hwf Hb Hq d'. subst d'.
  pose proof (keeps_current_hit _ _ (stopPropagation_current rootState event higher d)) as Hhit.
  split; [now rewrite Hhit|].
  unfold stopPropagation, stopPropagationOf.
  case_if; [|now split].
  match goal with
  | |- context [cancelPointerD _ _ ?x] => set (d1 := x)
  end.
  assert (Hhov1 : hovered (internals (world d1) (root rootState))
                  = mark_stopped (ev_id (raycastEvent d))
                      (hovered (internals (world d) (root rootState)))).
  { subst d1. simpl. now rewrite Nat.eqb_refl. }
  assert (Hwf1 : hovered_wf (hovered (internals (world d1) (root rootState))))
    by (rewrite Hhov1; now apply hovered_wf_mark).
  assert (Hb1 : booked h (hovered (internals (world d1) (root rootState))))
    by (rewrite Hhov1; now apply booked_mark).
  assert (Hq1 : quiet (Map_delete String.eqb (makeId h)
                         (hovered (internals (world d1) (root rootState))))).
  { rewrite Hhov1. exact (quiet_delete_shrinks _ _ _ (shrinks_mark _ _) Hq). }
  case_if; [|now split].
  rewrite Hh.
  assert (Hcov : forall key v,
             In (key, v) (hovered (internals (world d1) (root rootState))) ->
             unhovered (higher ++ [h]) v = true -> key <> makeId h).
  { intros key v Hin Hun ->. destruct Hb1 as (e & He & Hhe).
    assert (v = e).
    { pose proof (hovered_wf_In_get _ _ _ Hwf1 Hin) as G1.
      pose proof (hovered_wf_In_get _ _ _ Hwf1 He) as G2. congruence. }
    subst v. rewrite unhovered_covered in Hun. apply negb_true_iff in Hun.
    assert (existsb (hitMatches e) (higher ++ [h]) = true); [|congruence].
    apply existsb_exists. exists h. split; [apply in_or_app; right; now left|].
    rewrite <- Hhe. apply hitMatches_self. }
  assert (Hqd : quiet (List.filter (fun kv => unhovered (higher ++ [h]) (snd kv))
                         (hovered (internals (world d1) (root rootState))))).
  { intros key v inst Hin. apply filter_In in Hin as [Hin Hun]. simpl in Hun.
    apply (Hq1 key v inst). unfold Map_delete. apply filter_In. split; [exact Hin|].
    simpl. apply negb_true_iff, String.eqb_neq. intros E. symmetry in E.
    exact (Hcov key v Hin Hun E). }
  destruct (cancelPointerD_quiet_dropped rootState (higher ++ [h]) d1 Hwf1 Hqd)
    as (Hhov & _).
  pose proof (cancelPointerF_shrinks_self rootState
                (S (length (hovered (internals (world d1) (root rootState)))))
                (higher ++ [h]) d1) as Hs.
  fold (cancelPointerD rootState (higher ++ [h]) d1) in Hs.
  split; [exact (shrinks_wf _ _ Hs Hwf1)|]. split.
  - rewrite Hhov. destruct Hb1 as (e & He & Hhe). exists e. split; [|exact Hhe].
    apply filter_In. split; [exact He|]. simpl.
    rewrite unhovered_covered, negb_involutive.
    apply existsb_exists. exists h. split; [apply in_or_app; right; now left|].
    rewrite <- Hhe. apply hitMatches_self.
  - exact (quiet_delete_shrinks _ _ _ Hs Hq1).
Qed.

Lemma runAction_booked event higher a d :
  ev_hit (raycastEvent d) = h ->
  hovered_wf (hovered (internals (world d) (root rootState))) ->
  booked h (hovered (internals (world d) (root rootState))) ->
  quiet (Map_delete String.eqb (makeId h) (hovered (internals (world d) (root rootState)))) ->
  let d' := runAction rootState event higher a d in
  ev_hit (raycastEvent d') = h
  /\ hovered_wf (hovered (internals (world d') (root rootState)))
  /\ booked h (hovered (internals (world d') (root rootState)))
  /\ quiet (Map_delete String.eqb (makeId h)
              (hovered (internals (world d') (root rootState)))).
Proof.
  intros Hh Hwf Hb Hq. destruct a as [|id|id].
  - now apply stopPropagation_booked.
  - unfold runAction, runActionOf. destruct (setPointerCapture _ _ _ _) as [cm es].
    cbv zeta. cbn [world raycastEvent]. unfold emit. cbn [internals].
    rewrite hovered_other_capture. now split.
  - unfold runAction, runActionOf. destruct (releasePointerCapture _ _ _) as [cm es].
    cbv zeta. cbn [world raycastEvent]. unfold emit. cbn [internals].
    rewrite hovered_other_capture. now split.
Qed.

Lemma callHandler_booked event higher n hs d :
  ev_hit (raycastEvent d) = h ->
  hovered_wf (hovered (internals (world d) (root rootState))) ->
  booked h (hovered (internals (world d) (root rootState))) ->
  quiet (Map_delete String.eqb (makeId h) (hovered (internals (world d) (root rootState)))) ->
  let d' := callHandler rootState event higher n hs d in
  ev_hit (raycastEvent d') = h
  /\ hovered_wf (hovered (internals (world d') (root rootState)))
  /\ booked h (hovered (internals (world d') (root rootState)))
  /\ quiet (Map_delete String.eqb (makeId h)
              (hovered (internals (world d') (root rootState)))).
Proof.
  intros Hh Hwf Hb Hq. unfold callHandler. cbv zeta.
  destruct (hs n) as [script|]; [|now split].
  assert (H0 : ev_hit (raycastEvent (on_world (emit [Call n (raycastEvent d)]) d)) = h
               /\ hovered_wf (hovered (internals
                    (world (on_world (emit [Call n (raycastEvent d)]) d)) (root rootState)))
               /\ booked h (hovered (internals
                    (world (on_world (emit [Call n (raycastEvent d)]) d)) (root rootState)))
               /\ quiet (Map_delete String.eqb (makeId h) (hovered (internals
                    (world (on_world (emit [Call n (raycastEvent d)]) d)) (root rootState)))))
    by now split.
  revert H0. generalize (on_world (emit [Call n (raycastEvent d)]) d).
  induction script as [|a script IH]; simpl; intros d0 (H1 & H2 & H3 & H4); [now split|].
  apply IH. now apply runAction_booked.
Qed.
End Booked.

(** X19 (events.ts, handlePointer: onIntersect for pointermove): an
    object with hover handlers that comes under the pointer is booked in
    the hovered map and its pointerover handler is called first; when the
    pointerout and pointerleave handlers of the objects hovered before make
    no call on their event, the entry is still booked when the callback
    returns, whatever the handlers of the object do with the event.  For an
    object that is already booked, a further pointermove calls neither
    pointerover nor pointerenter again. *)
Theorem pointerover_fires_once rootState event higher d inst :
  getLocalState (eventObject (ev_hit (raycastEvent d))) = Some inst ->
  eventCount inst <> 0%nat ->
  hovered_wf (hovered (internals (world d) (root rootState))) ->
  let h := ev_hit (raycastEvent d) in
  let d' := onIntersect rootState pointermove event higher d in
  (Map_get String.eqb (makeId h) (hovered (internals (world d) (root rootState))) = None ->
   defined (handlers inst pointerover) || defined (handlers inst pointerenter)
   || defined (handlers inst pointerout) || defined (handlers inst pointerleave) = true ->
   (forall script, handlers inst pointerover = Some script ->
      exists es, effects (world d')
                 = effects (world d) ++ Call pointerover (raycastEvent d) :: es)
   /\ (quiet (hovered (internals (world d) (root rootState))) ->
       booked h (hovered (internals (world d') (root rootState)))))
  /\ (forall item,
        Map_get String.eqb (makeId h) (hovered (internals (world d) (root rootState)))
        = Some item ->
        exists es, effects (world d') = effects (world d) ++ es
                   /\ forall n data, In (Call n data) es ->
                        n <> pointerover /\ n <> pointerenter).
Proof.
  intros Hls Hcount Hwf h d'.
  assert (Hd' : d' = callHandler rootState event higher pointermove (handlers inst)
                       (if defined (handlers inst pointerover)
                           || defined (handlers inst pointerenter)
                           || defined (handlers inst pointerout)
                           || defined (handlers inst pointerleave)
                        then
                          match Map_get String.eqb (makeId h)
                                  (hovered (internals (world d) (root rootState))) with
                          | None =>
                              callHandler rootState event higher pointerenter (handlers inst)
                                (callHandler rootState event higher pointerover (handlers inst)
                                   (on_world (update_internal (root rootState) (fun i =>
                                      with_hovered (Map_set String.eqb (makeId h)
                                                      (raycastEvent d) (hovered i)) i)) d))
                          | Some hoveredItem =>
                              if stopped hoveredItem
                              then stopPropagation rootState event higher d else d
                          end
                        else d)).
  { subst d' h. unfold onIntersect. rewrite Hls.
    destruct (Nat.eqb_spec (eventCount inst) 0) as [E|_]; [contradiction|]. reflexivity. }
  split.
  - intros Hnone Hhover. rewrite Hd', Hhover, Hnone.
    set (d0 := on_world _ d).
    split.
    + intros script Hover.
      assert (E1 : extends_with (fun _ => True)
                     (world (callHandler rootState event higher pointerover (handlers inst) d0))
                     (world (callHandler rootState event higher pointermove (handlers inst)
                        (callHandler rootState event higher pointerenter (handlers inst)
                           (callHandler rootState event higher pointerover (handlers inst)
                              d0))))).
      { eapply extends_with_trans;
          apply (callHandler_inv rootState (fun _ => True) (fun _ => True)); auto. }
      destruct E1 as [es1 [He1 _]].
      destruct (script_extends rootState event higher script
                  (on_world (emit [Call pointerover (raycastEvent d0)]) d0)) as [es0 [He0 _]].
      exists (es0 ++ es1). rewrite He1. unfold callHandler at 1. rewrite Hover, He0.
      subst d0. simpl. now rewrite <- !app_assoc.
    + intros Hq.
      assert (Hhov0 : hovered (internals (world d0) (root rootState))
                      = hovered (internals (world d) (root rootState))
                        ++ [(makeId h, raycastEvent d)]).
      { subst d0. simpl. rewrite Nat.eqb_refl. simpl. now apply Map_set_fresh. }
      assert (Hwf0 : hovered_wf (hovered (internals (world d0) (root rootState)))).
      { rewrite Hhov0, <- (Map_set_fresh _ _ _ Hnone). now apply hovered_wf_set. }
      assert (Hb0 : booked h (hovered (internals (world d0) (root rootState)))).
      { rewrite Hhov0. exists (raycastEvent d). split; [|reflexivity].
        apply in_or_app. right. now left. }
      assert (Hq0 : quiet (Map_delete String.eqb (makeId h)
                             (hovered (internals (world d0) (root rootState))))).
      { intros key v i Hin. apply Map_delete_In in Hin as [Hin Hk]. simpl in Hk.
        rewrite Hhov0 in Hin. apply in_app_or in Hin as [Hin|[E|[]]].
        - exact (Hq key v i Hin).
        - injection E as <- <-. now rewrite String.eqb_refl in Hk. }
      destruct (callHandler_booked rootState h event higher pointerover (handlers inst) d0
                  eq_refl Hwf0 Hb0 Hq0) as (Hh1 & Hwf1 & Hb1 & Hq1).
      destruct (callHandler_booked rootState h event higher pointerenter (handlers inst) _
                  Hh1 Hwf1 Hb1 Hq1) as (Hh2 & Hwf2 & Hb2 & Hq2).
      destruct (callHandler_booked rootState h event higher pointermove (handlers inst) _
                  Hh2 Hwf2 Hb2 Hq2) as (_ & _ & Hb3 & _).
      exact Hb3.
  - intros item Hitem. rewrite Hd', Hitem.
    set (Q := fun e => match e with
                       | Call n _ => n <> pointerover /\ n <> pointerenter
                       | _ => True
                       end).
    assert (HQout : forall x, Q (Call pointerout x)) by (intros; split; discriminate).
    assert (HQleave : forall x, Q (Call pointerleave x)) by (intros; split; discriminate).
    assert (HQmove : forall x, Q (Call pointermove x)) by (intros; split; discriminate).
    assert (E : extends_with Q (world d)
                  (world (callHandler rootState event higher pointermove (handlers inst)
                     (if defined (handlers inst pointerover)
                         || defined (handlers inst pointerenter)
                         || defined (handlers inst pointerout)
                         || defined (handlers inst pointerleave)
                      then if stopped item
                           then stopPropagation rootState event higher d else d
                      else d)))).
    { match goal with
      | |- extends_with Q _ (world (callHandler _ _ _ _ _ ?d1)) =>
          assert (E1 : extends_with Q (world d) (world d1))
      end.
      { case_if; [|apply extends_with_refl].
        destruct (stopped item); [|apply extends_with_refl].
        apply (stopPropagation_inv rootState (fun _ => True) Q); auto; intros; exact I. }
      refine (extends_with_trans _ _ _ _ E1 _).
      apply (callHandler_inv rootState (fun _ => True) Q); auto; intros; exact I. }
    destruct E as [es [He Hq]]. exists es. split; [exact He|].
    intros n data Hin. rewrite List.Forall_forall in Hq. exact (Hq _ Hin).
Qed.

Lemma pointerover_fires_once_witness :
  let d := newEvent 1 [] ex_hover_world (ex_on ex_P 1 ex_P) [ex_on ex_P 1 ex_P] 0 ex_move in
  hovered_wf (hovered (internals (world d) (root (ex_layer 0)))) /\
  booked (ex_on ex_P 1 ex_P)
    (hovered (internals (world (onIntersect (ex_layer 0) pointermove ex_move [] d))
                (root (ex_layer 0)))) /\
  called (effects (world (onIntersect (ex_layer 0) pointermove ex_move [] d)))
  = [(pointerover, "P"%string)].
Proof.
  intros d.
  assert (Hwf : hovered_wf (hovered (internals (world d) (root (ex_layer 0))))).
  { split.
    - simpl. constructor; [intros []|constructor].
    - repeat constructor. }
  split; [exact Hwf|].
  assert (Hcount : eventCount {| store := ex_layer 0; handlers := ex_hover_handlers;
                                 eventCount := 3 |} <> 0%nat) by (simpl; lia).
  assert (Hq : quiet (hovered (internals (world d) (root (ex_layer 0))))).
  { intros key v inst Hin. vm_compute in Hin. destruct Hin as [E|[]].
    injection E as <- <-. intros Hls. vm_compute in Hls. injection Hls as <-.
    split; intros script Hs; vm_compute in Hs; now injection Hs as <-. }
  destruct (proj1 (pointerover_fires_once (ex_layer 0) ex_move [] d _ eq_refl Hcount Hwf)
              eq_refl eq_refl) as [_ Hb].
  split; [exact (Hb Hq)|]. vm_compute. reflexivity.
Defined.
(** ** The pointer in normalized device coordinates (canvas.ts) *)

(** X20 (canvas.ts, noZoneRender: the compute closure), with exact
    rational arithmetic: on a canvas of positive size an event inside the
    canvas gives a pointer inside the square from -1 to 1 on both axes; the
    left edge maps to -1 and the right edge to 1, the top edge to 1 and the
    bottom edge to -1 (the vertical axis is flipped), and the middle of the
    canvas to 0. *)
Theorem compute_normalized_device_coordinates {Camera : Type}
    (eventPrefix : EventPrefix) (event : string -> Q) (s : @ComputeSnapshot Q Camera) :
  (0 < size_width s)%Q -> (0 < size_height s)%Q ->
  let x := event (prefixString eventPrefix ++ "X")%string in
  let y := event (prefixString eventPrefix ++ "Y")%string in
  let p := pointer (compute Qdiv Qmult Qminus Qplus Qopp 1%Q 2%Q eventPrefix event s) in
  ((0 <= x)%Q -> (x <= size_width s)%Q -> (-1 <= fst p)%Q /\ (fst p <= 1)%Q)
  /\ ((0 <= y)%Q -> (y <= size_height s)%Q -> (-1 <= snd p)%Q /\ (snd p <= 1)%Q)
  /\ ((x == 0)%Q -> (fst p == -1)%Q)
  /\ ((x == size_width s)%Q -> (fst p == 1)%Q)
  /\ ((y == 0)%Q -> (snd p == 1)%Q)
  /\ ((y == size_height s)%Q -> (snd p == -1)%Q)
  /\ ((x == size_width s / 2)%Q -> (y == size_height s / 2)%Q ->
      (fst p == 0)%Q /\ (snd p == 0)%Q).
Proof.
  intros Hw Hh x y p. subst p. unfold compute. simpl. fold x y.
  assert (Hw0 : ~ (size_width s == 0)%Q) by (intros E; rewrite E in Hw; lra).
  assert (Hh0 : ~ (size_height s == 0)%Q) by (intros E; rewrite E in Hh; lra).
  assert (Hunit : forall a b : Q, (0 < b)%Q -> (0 <= a)%Q -> (a <= b)%Q ->
                                  (0 <= a / b)%Q /\ (a / b <= 1)%Q).
  { intros a b Hb Ha Hab. split.
    - apply Qle_shift_div_l; [exact Hb|lra].
    - apply Qle_shift_div_r; [exact Hb|lra]. }
  repeat match goal with |- _ /\ _ => split end.
  - intros H1 H2. destruct (Hunit x (size_width s) Hw H1 H2). split; lra.
  - intros H1 H2. destruct (Hunit y (size_height s) Hh H1 H2). split; lra.
  - intros E. rewrite E. field. exact Hw0.
  - intros E. rewrite E. field. exact Hw0.
  - intros E. rewrite E. field. exact Hh0.
  - intros E. rewrite E. field. exact Hh0.
  - intros E1 E2. split; [rewrite E1|rewrite E2]; field; assumption.
Qed.

Lemma compute_normalized_device_coordinates_witness :
  let s : @ComputeSnapshot Q unit :=
    {| pointer := (0, 0)%Q; camera := tt; size_width := 400%Q; size_height := 100%Q;
       raycaster := None |} in
  let event := fun field : string => if String.eqb field "offsetX" then 100%Q else 100%Q in
  (0 < size_width s)%Q /\ (0 < size_height s)%Q /\
  (snd (pointer (compute Qdiv Qmult Qminus Qplus Qopp 1%Q 2%Q offset event s)) == -1)%Q.
Proof.
  intros s event.
  assert (Hw : (0 < size_width s)%Q) by reflexivity.
  assert (Hh : (0 < size_height s)%Q) by reflexivity.
  split; [exact Hw|]. split; [exact Hh|].
  refine (proj1 (proj2 (proj2 (proj2 (proj2 (proj2
            (compute_normalized_device_coordinates offset event s Hw Hh)))))) _).
  reflexivity.
Defined.

(** ** The canvas: the scene graph is rendered once *)

Lemma filter_app_length {A} (f : A -> bool) l1 l2 :
  length (List.filter f (l1 ++ l2))
  = (length (List.filter f l1) + length (List.filter f l2))%nat.
Proof. now rewrite List.filter_app, length_app. Qed.

Lemma noZoneRender_first env c :
  glRef c = false -> glEnvironmentInjector c = false ->
  exists es,
    calls (noZoneRender env c) = calls c ++ es
    /\ glRef (noZoneRender env c) = true
    /\ glEnvironmentInjector (noZoneRender env c) = true
    /\ configurator (noZoneRender env c) = configurator c
    /\ length (List.filter isCreateComponent es) = 1%nat
    /\ length (List.filter isEmitCreated es) = 1%nat
    /\ length (List.filter isConfigure es) = 0%nat
    /\ List.filter isDestroy es = [].
Proof.
  intros Hr Hi. unfold noZoneRender, call. simpl. rewrite Hr, Hi. simpl.
  eexists. split; [rewrite <- !app_assoc; reflexivity|].
  repeat split;
    destruct (events_connect env), (eventSource env), (events_connected env),
             (frames_zero env), (eventPrefix env); reflexivity.
Qed.

Lemma noZoneResizeEffect_rendered r env c :
  glRef c = true ->
  exists es,
    calls (noZoneResizeEffect r env c) = calls c ++ es
    /\ glRef (noZoneResizeEffect r env c) = true
    /\ glEnvironmentInjector (noZoneResizeEffect r env c) = glEnvironmentInjector c
    /\ length (List.filter isCreateComponent es) = 0%nat
    /\ length (List.filter isEmitCreated es) = 0%nat
    /\ length (List.filter isConfigure es) = (if usable (r, env) then 1 else 0)%nat
    /\ List.filter isDestroy es = [].
Proof.
  intros Hr. unfold noZoneResizeEffect, usable. simpl.
  destruct (gt_zero (width r) && gt_zero (height r)).
  - destruct (configurator c); simpl; rewrite Hr; simpl;
      (eexists; split; [rewrite <- ?app_assoc; reflexivity|]); now repeat split.
  - exists []. rewrite app_nil_r. now repeat split.
Qed.

Lemma effectRuns_rendered runs c :
  glRef c = true ->
  exists es,
    calls (effectRuns runs c) = calls c ++ es
    /\ glRef (effectRuns runs c) = true
    /\ length (List.filter isCreateComponent es) = 0%nat
    /\ length (List.filter isEmitCreated es) = 0%nat
    /\ length (List.filter isConfigure es) = length (List.filter usable runs)
    /\ List.filter isDestroy es = [].
Proof.
  revert c. induction runs as [|[r env] runs IH]; intros c Hr; simpl.
  - exists []. rewrite app_nil_r. now repeat split.
  - destruct (noZoneResizeEffect_rendered r env c Hr)
      as (es1 & Hc1 & Hr1 & _ & Hn1 & He1 & Hf1 & Hd1).
    destruct (IH _ Hr1) as (es2 & Hc2 & Hr2 & Hn2 & He2 & Hf2 & Hd2).
    exists (es1 ++ es2). unfold effectRuns in *. simpl.
    rewrite Hc2, Hc1, <- app_assoc, !filter_app_length, List.filter_app.
    rewrite Hn1, Hn2, He1, He2, Hf1, Hf2, Hd1, Hd2.
    repeat split; try reflexivity; try exact Hr2.
    now destruct (usable (r, env)).
Qed.

(** X21 (canvas.ts, NgtCanvas.noZoneResizeEffect and noZoneRender): over
    any sequence of runs of the resize effect of a canvas that has not
    rendered yet, the scene graph component is created and the created
    output is emitted exactly once if some run saw a positive width and
    height, and never otherwise; the configurator is configured once per
    run with a positive size, nothing is ever destroyed, and when the
    canvas is destroyed afterwards the component, if it was created, is
    destroyed first. *)
Theorem canvas_renders_once runs c :
  glRef c = false -> glEnvironmentInjector c = false ->
  exists es,
    calls (effectRuns runs c) = calls c ++ es
    /\ glRef (effectRuns runs c) = existsb usable runs
    /\ length (List.filter isCreateComponent es) = (if existsb usable runs then 1 else 0)%nat
    /\ length (List.filter isEmitCreated es) = (if existsb usable runs then 1 else 0)%nat
    /\ length (List.filter isConfigure es) = length (List.filter usable runs)
    /\ List.filter isDestroy es = []
    /\ (existsb usable runs = true ->
        exists rest, calls (onDestroy (effectRuns runs c))
                     = calls (effectRuns runs c) ++ DestroyComponent :: rest).
Proof.
  revert c. induction runs as [|[r env] runs IH]; intros c Hr Hi.
  - exists []. simpl. rewrite app_nil_r. repeat split; try assumption. discriminate.
  - change (effectRuns ((r, env) :: runs) c)
      with (effectRuns runs (noZoneResizeEffect r env c)).
    simpl. destruct (usable (r, env)) eqn:Hpos; unfold usable in Hpos; simpl in Hpos.
    + assert (H1 : exists es1,
                calls (noZoneResizeEffect r env c) = calls c ++ es1
                /\ glRef (noZoneResizeEffect r env c) = true
                /\ length (List.filter isCreateComponent es1) = 1%nat
                /\ length (List.filter isEmitCreated es1) = 1%nat
                /\ length (List.filter isConfigure es1) = 1%nat
                /\ List.filter isDestroy es1 = []).
      { unfold noZoneResizeEffect. rewrite Hpos.
        destruct (configurator c) eqn:Hconf; simpl; rewrite Hr.
        - destruct (noZoneRender_first env (call [Configure] c) Hr Hi)
            as (es & Hc & Hr' & _ & _ & Hn & He & Hf & Hd).
          exists (Configure :: es). rewrite Hc. simpl. rewrite <- app_assoc. simpl.
          rewrite Hn, He, Hf, Hd. now repeat split.
        - match goal with
          | |- context [noZoneRender env ?c1] =>
              assert (Hr1 : glRef c1 = false) by (simpl; first [exact Hr|reflexivity]);
              assert (Hi1 : glEnvironmentInjector c1 = false)
                by (simpl; first [exact Hi|reflexivity]);
              destruct (noZoneRender_first env c1 Hr1 Hi1)
                as (es & Hc & Hr' & _ & _ & Hn & He & Hf & Hd)
          end.
          exists (InitRoot :: Configure :: es). rewrite Hc. simpl.
          rewrite <- !app_assoc. simpl.
          rewrite Hn, He, Hf, Hd. now repeat split. }
      destruct H1 as (es1 & Hc1 & Hr1 & Hn1 & He1 & Hf1 & Hd1).
      destruct (effectRuns_rendered runs _ Hr1) as (es2 & Hc2 & Hr2 & Hn2 & He2 & Hf2 & Hd2).
      exists (es1 ++ es2).
      rewrite Hc2, Hc1, <- app_assoc, !filter_app_length, List.filter_app.
      rewrite Hn1, Hn2, He1, He2, Hf1, Hf2, Hd1, Hd2, Hr2.
      repeat match goal with |- _ /\ _ => split end; try reflexivity.
      intros _. unfold onDestroy, call. simpl.
      eexists. rewrite <- !app_assoc. simpl. reflexivity.
    + assert (Hsame : noZoneResizeEffect r env c = c)
        by (unfold noZoneResizeEffect; now rewrite Hpos).
      rewrite Hsame. exact (IH c Hr Hi).
Qed.

Lemma canvas_renders_once_witness :
  glRef ex_canvas = false /\ glEnvironmentInjector ex_canvas = false /\
  exists es,
    calls (effectRuns ex_resizes ex_canvas) = calls ex_canvas ++ es
    /\ length (List.filter isCreateComponent es) = 1%nat
    /\ length (List.filter isConfigure es) = 2%nat.
Proof.
  split; [reflexivity|]. split; [reflexivity|].
  destruct (canvas_renders_once ex_resizes ex_canvas eq_refl eq_refl)
    as (es & Hc & _ & Hn & _ & Hf & _).
  exists es. split; [exact Hc|]. split; [exact Hn|exact Hf].
Defined.

(** ** Scenes without hover handlers *)




(** ** The origin of a drag *)

Lemma cancelPointer_initialClick rootState ints w p :
  initialClick (internals w (root rootState)) = p ->
  initialClick (internals (cancelPointer rootState ints w) (root rootState)) = p.
Proof.
  intros Hp.
  apply (cancelPointer_inv rootState
           (fun w0 => initialClick (internals w0 (root rootState)) = p) (fun _ => True));
    auto.
  - intros key w0 H. simpl. now rewrite Nat.eqb_refl.
  - intros id w0 H. simpl. now rewrite Nat.eqb_refl.
  - intros n h e id w0 H. simpl. now destruct (Nat.eqb _ n).
  - intros n h id w0 H. simpl. now destruct (Nat.eqb _ n).
Qed.

Lemma handlePointer_initialClick rootState intersectObject events_filter name event w p :
  name <> pointerdown ->
  initialClick (internals w (root rootState)) = p ->
  initialClick (internals (handlePointer rootState intersectObject events_filter name event w)
                  (root rootState)) = p.
Proof.
  intros Hname Hp.
  assert (Hev : initialClick (internals
                  (handleEvent rootState intersectObject events_filter name event w)
                  (root rootState)) = p).
  { apply (handleEvent_inv rootState intersectObject events_filter name
             (fun w0 => initialClick (internals w0 (root rootState)) = p) (fun _ => True)
             (fun _ => True));
      auto.
    - intros key w0 H. simpl. now rewrite Nat.eqb_refl.
    - intros id w0 H. simpl. now rewrite Nat.eqb_refl.
    - intros e w0 H _ _. simpl. now rewrite Nat.eqb_refl.
    - intros n h e id w0 H. simpl. now destruct (Nat.eqb _ n).
    - intros n h id w0 H. simpl. now destruct (Nat.eqb _ n).
    - intros e w0 H. simpl. now rewrite Nat.eqb_refl.
    - intros E. contradiction. }
  destruct name; try exact Hev; simpl.
  - now apply cancelPointer_initialClick.
  - now apply cancelPointer_initialClick.
  - destruct (pointerId event); [|exact Hp]. now destruct (Map_has Z.eqb _ _).
Qed.

(** X23 (events.ts, handlePointer, calculateDistance, removeInteractivity
    and the frame callback): the position recorded by a pointerdown stays
    the origin of the click distance until the next pointerdown, whatever
    events arrive in between, whatever their handlers do, whichever objects
    are removed and whichever frames run. *)
Theorem click_distance_from_last_pointerdown
    rootState intersectObject events_filter event steps w :
  forallb notPointerdown steps = true ->
  let w1 := handlePointer rootState intersectObject events_filter pointerdown event w in
  let w2 := run rootState intersectObject events_filter steps w1 in
  initialClick (internals w2 (root rootState)) = (offsetX event, offsetY event)
  /\ forall e, calculateDistance rootState e w2 = calculateDistance rootState e w1.
Proof.
  intros Hsteps w1 w2.
  assert (H1 : initialClick (internals w1 (root rootState)) = (offsetX event, offsetY event))
    by apply pointerdown_initialClick.
  assert (H2 : initialClick (internals w2 (root rootState)) = (offsetX event, offsetY event)).
  { subst w2. revert H1. generalize w1. clear w1. unfold run.
    induction steps as [|st steps IH]; simpl; intros w0 H0; [exact H0|].
    simpl in Hsteps. apply andb_true_iff in Hsteps as [Hst Hsteps].
    apply (IH Hsteps). destruct st as [name e| |s obj]; simpl.
    - apply handlePointer_initialClick; [|exact H0]. intros ->. discriminate Hst.
    - unfold animationFrame.
      apply (animationFrame_fold
               (P := fun w => initialClick (internals w (root rootState))
                              = (offsetX event, offsetY event))); [|exact H0].
      intros id w3 H3. unfold releaseLostCapture.
      destruct (Map_has Z.eqb id _); [|exact H3].
      apply cancelPointer_initialClick. simpl. now rewrite Nat.eqb_refl.
    - unfold removeInteractivity. destruct (releaseAll obj _ _) as [cm es]. simpl.
      now destruct (Nat.eqb _ (internal s)). }
  split; [exact H2|]. intros e. unfold calculateDistance. now rewrite H2, H1.
Qed.

Lemma click_distance_from_last_pointerdown_witness :
  forallb notPointerdown
    [StepPointer pointermove ex_move; StepPointer pointerup ex_move; StepFrame;
     StepRemove (ex_layer 0) ex_M] = true /\
  initialClick (internals
    (run (ex_layer 0) ex_cast_K None
       [StepPointer pointermove ex_move; StepPointer pointerup ex_move; StepFrame;
        StepRemove (ex_layer 0) ex_M]
       (handlePointer (ex_layer 0) ex_cast_K None pointerdown ex_event ex_click_world))
    (root (ex_layer 0))) = (10%Q, 10%Q).
Proof.
  split; [reflexivity|].
  exact (proj1 (click_distance_from_last_pointerdown (ex_layer 0) ex_cast_K None ex_event
                  [StepPointer pointermove ex_move; StepPointer pointerup ex_move; StepFrame;
                   StepRemove (ex_layer 0) ex_M] ex_click_world eq_refl)).
Defined.
